(** * Path and URL canonicalization of kernelbase (dlls/kernelbase/path.c)

    A shallow embedding of the path engine (PathAllocCanonicalize,
    PathAllocCombine and the PathCch helpers they call) and of the URL engine
    (UrlCanonicalizeW, UrlEscapeW, UrlUnescapeW, parse_url) of
    dlls/kernelbase/path.c, together with the extension, root, backslash and
    file-name helpers of the PathCch and MAX_PATH families, mask matching
    and the URL predicates, followed by the properties proved about them.

    Conventions of the embedding:
    - a WCHAR is a [Z] in [0, 65535]; a buffer or string is a [list Z];
    - a pointer into a buffer is a [nat] offset, a nullable pointer an
      [option nat];
    - reading a string at or past its end yields the terminating NUL (0);
    - a store through a pointer is [poke]; every buffer is allocated by the
      code with room for all the stores it performs, and a function that
      writes into a buffer of the caller's says in its properties how much
      room it needs;
    - a function of another file that the code calls (StrChrW, toupperW,
      strcmpW, CharNextA) is an argument of the function that calls it. *)

From Stdlib Require Import ZArith String Ascii Bool Lia Arith List.
Import ListNotations.
Open Scope Z_scope.

(** ** Code units, strings and buffers *)

Abbreviation c_tab := 9%Z (only parsing).
Abbreviation c_space := 32%Z (only parsing).
Abbreviation c_quote := 34%Z (only parsing).
Abbreviation c_hash := 35%Z (only parsing).
Abbreviation c_percent := 37%Z (only parsing).
Abbreviation c_amp := 38%Z (only parsing).
Abbreviation c_star := 42%Z (only parsing).
Abbreviation c_plus := 43%Z (only parsing).
Abbreviation c_dash := 45%Z (only parsing).
Abbreviation c_dot := 46%Z (only parsing).
Abbreviation c_slash := 47%Z (only parsing).
Abbreviation c_colon := 58%Z (only parsing).
Abbreviation c_lt := 60%Z (only parsing).
Abbreviation c_gt := 62%Z (only parsing).
Abbreviation c_qmark := 63%Z (only parsing).
Abbreviation c_at := 64%Z (only parsing).
Abbreviation c_lbracket := 91%Z (only parsing).
Abbreviation c_bslash := 92%Z (only parsing).
Abbreviation c_rbracket := 93%Z (only parsing).
Abbreviation c_caret := 94%Z (only parsing).
Abbreviation c_backtick := 96%Z (only parsing).
Abbreviation c_lbrace := 123%Z (only parsing).
Abbreviation c_pipe := 124%Z (only parsing).
Abbreviation c_rbrace := 125%Z (only parsing).

(** The code units of an ASCII literal. *)
Definition W (s : string) : list Z :=
  map (fun a => Z.of_N (N_of_ascii a)) (list_ascii_of_string s).

(** [s[i]], NUL past the end. *)
Definition peek (s : list Z) (i : nat) : Z := nth i s 0.
Arguments peek s i%_nat.

(** [s[i] = v]. *)
Fixpoint poke (s : list Z) (i : nat) (v : Z) : list Z :=
  match s, i with
  | [], _ => []
  | _ :: t, O => v :: t
  | c :: t, S j => c :: poke t j v
  end.

(** The string stored at the start of a buffer: everything before the first NUL. *)
Fixpoint cstr (s : list Z) : list Z :=
  match s with
  | [] => []
  | c :: t => if c =? 0 then [] else c :: cstr t
  end.

(** Modelled from the spec: strlenW of wine/unicode.h, the number of units
    before the terminator. *)
Definition strlenW (s : list Z) : nat := length (cstr s).

(** The string stored at offset [i] of a buffer. *)
Definition cstr_at (s : list Z) (i : nat) : list Z := cstr (skipn i s).

(** [memcpy(dst + d, src, n)] from another object. *)
Fixpoint store (buf : list Z) (d : nat) (src : list Z) : list Z :=
  match src with
  | [] => buf
  | c :: t => store (poke buf d c) (S d) t
  end.

(** A string together with its terminating NUL, as [strcpyW] and [memmove] of
    [length + 1] units store it. *)
Definition with_nul (s : list Z) : list Z := s ++ [0].

(** A well-formed wide string: code units of 16 bits, none of them NUL. *)
Definition wchar (c : Z) : Prop := 0 < c < 65536.
Definition wstring (s : list Z) : Prop := Forall wchar s.

Definition flag_set (flags mask : Z) : bool := negb (Z.land flags mask =? 0).

(** ** Result codes *)

(** Modelled from the spec: the result codes of winerror.h, strsafe.h and
    intshcut.h that path.c returns (the status taxonomy of section 7 of the
    specification). *)
Inductive HRESULT : Set :=
| S_OK
| S_FALSE
| E_INVALIDARG
| E_OUTOFMEMORY
| E_POINTER
| E_FILENAME_EXCED_RANGE      (* HRESULT_FROM_WIN32(ERROR_FILENAME_EXCED_RANGE) *)
| STRSAFE_E_INSUFFICIENT_BUFFER
| URL_E_INVALID_SYNTAX.

(** Modelled from the spec: the limits and option bits of pathcch.h and
    windef.h, which path.c includes but the repository does not ship here; the
    short-path ceiling is 260 units and the long one 32768 (section 3 of the
    specification), the options are those of its canonicalization
    configuration. *)
Definition MAX_PATH : Z := 260.
Definition PATHCCH_MAX_CCH : Z := 32768.
Definition PATHCCH_ALLOW_LONG_PATHS : Z := 1.
Definition PATHCCH_FORCE_ENABLE_LONG_NAME_PROCESS : Z := 2.
Definition PATHCCH_FORCE_DISABLE_LONG_NAME_PROCESS : Z := 4.
Definition PATHCCH_DO_NOT_NORMALIZE_SEGMENTS : Z := 8.
Definition PATHCCH_ENSURE_IS_EXTENDED_LENGTH_PATH : Z := 16.
Definition PATHCCH_ENSURE_TRAILING_SLASH : Z := 32.

(** Modelled from the spec: the classification bits of winnls.h that
    wine/unicode.h tests in isalphaW and its siblings. *)
Definition C1_UPPER : Z := 1.
Definition C1_LOWER : Z := 2.
Definition C1_DIGIT : Z := 4.
Definition C1_XDIGIT : Z := 128.
Definition C1_ALPHA : Z := 256.

Definition in_range (lo hi c : Z) : bool := (lo <=? c) && (c <=? hi).

(** Modelled from the spec: the ASCII half of wine_wctype_table (the
    classification table named in section 6 of the specification), restricted
    to the five bits above. *)
Definition ascii_ctype (c : Z) : Z :=
  if in_range 48 57 c then Z.lor C1_DIGIT C1_XDIGIT
  else if in_range 65 70 c then Z.lor C1_UPPER (Z.lor C1_XDIGIT C1_ALPHA)
  else if in_range 71 90 c then Z.lor C1_UPPER C1_ALPHA
  else if in_range 97 102 c then Z.lor C1_LOWER (Z.lor C1_XDIGIT C1_ALPHA)
  else if in_range 103 122 c then Z.lor C1_LOWER C1_ALPHA
  else 0.

(** Modelled from the spec: the ASCII half of wine_casemap_lower. *)
Definition ascii_tolower (c : Z) : Z :=
  if in_range 65 90 c then c + 32 else c.

(** Tables that classify no code unit above ASCII and fold none of them. *)
Definition ascii_only_wctype (c : Z) : Z := 0.
Definition ascii_only_casemap (c : Z) : Z := c.

Section Kernelbase.

(** The halves of wine_wctype_table and wine_casemap_lower above ASCII. The
    tables are data of libs/port; path.c only consults them, so they stay
    parameters of the development. *)
Variable wctype_hi : Z -> Z.
Variable casemap_hi : Z -> Z.

(** Modelled from the spec: get_char_typeW, tolowerW and the predicates
    isalphaW, isalnumW, isdigitW, isxdigitW and islowerW of wine/unicode.h,
    which look a unit up in the two tables and test its classification
    bits. *)
Definition get_char_typeW (c : Z) : Z :=
  if c <? 128 then ascii_ctype c else wctype_hi c.

Definition tolowerW (c : Z) : Z :=
  if c <? 128 then ascii_tolower c else casemap_hi c.

Definition isalphaW (c : Z) : bool :=
  flag_set (get_char_typeW c) (Z.lor C1_ALPHA (Z.lor C1_LOWER C1_UPPER)).
Definition isalnumW (c : Z) : bool :=
  flag_set (get_char_typeW c) (Z.lor C1_ALPHA (Z.lor C1_DIGIT (Z.lor C1_LOWER C1_UPPER))).
Definition isdigitW (c : Z) : bool := flag_set (get_char_typeW c) C1_DIGIT.
Definition isxdigitW (c : Z) : bool := flag_set (get_char_typeW c) C1_XDIGIT.
Definition islowerW (c : Z) : bool := flag_set (get_char_typeW c) C1_LOWER.

(** Modelled from the spec: [strncmpiW(str1, str2, n)] of wine/unicode.h,
    the case-insensitive prefix compare that the specification counts among
    the collaborators: the difference of the first two units that differ
    after case folding, 0 when [n] units or the whole of [str1] match. *)
Fixpoint strncmpiW (str1 str2 : list Z) (n : nat) : Z :=
  match n with
  | O => 0
  | S n' =>
      let ret := tolowerW (peek str1 0) - tolowerW (peek str2 0) in
      if negb (ret =? 0) || (peek str1 0 =? 0) then ret
      else strncmpiW (tl str1) (tl str2) n'
  end.

(** Modelled from the spec: [strncmpW(str1, str2, n)] of wine/unicode.h,
    its case-sensitive sibling, which stops at the [n]th unit, at the
    terminator of [str1] or at the first difference and returns the
    difference of the two units there. *)
Fixpoint strncmpW (str1 str2 : list Z) (n : nat) : Z :=
  match n with
  | O => 0
  | S n' =>
      match n' with
      | O => peek str1 0 - peek str2 0
      | S _ =>
          if negb (peek str1 0 =? 0) && (peek str1 0 =? peek str2 0)
          then strncmpW (tl str1) (tl str2) n'
          else peek str1 0 - peek str2 0
      end
  end.

(** [!memcmp(a, b, n * sizeof(WCHAR))]. Units past the end of [b] read as the
    terminator, where the comparison already fails. *)
Fixpoint memcmp_eq (a b : list Z) (n : nat) : bool :=
  match n with
  | O => true
  | S n' => (peek a 0 =? peek b 0) && memcmp_eq (tl a) (tl b) n'
  end.

(** ** Root classifier *)

Definition prefixed_unc : list Z := Eval cbv in W "\\?\UNC\".
Definition prefixed_disk : list Z := Eval cbv in W "\\?\".
Definition prefixed_volume : list Z := Eval cbv in W "\\?\Volume".

Definition is_prefixed_unc (string : list Z) : bool :=
  strncmpiW string prefixed_unc 8 =? 0.

Definition is_prefixed_disk (string : list Z) : bool :=
  (strncmpW string prefixed_disk 4 =? 0)
  && isalphaW (peek string 4) && (peek string 5 =? c_colon).

(** The test that is_prefixed_volume makes of [guid[i]]. *)
Definition volume_guid_unit (guid : list Z) (i : nat) : bool :=
  let c := peek guid i in
  match i with
  | 0%nat => c =? c_lbrace
  | 9%nat | 14%nat | 19%nat | 24%nat => c =? c_dash
  | 37%nat => c =? c_rbrace
  | _ => isalnumW c
  end.

Definition is_prefixed_volume (string : list Z) : bool :=
  if negb (strncmpiW string prefixed_volume 10 =? 0) then false
  else forallb (volume_guid_unit (skipn 10 string)) (seq 0 38).

(** The units of a segment: up to the next backslash or the terminator. *)
Fixpoint segment_length (s : list Z) : nat :=
  match s with
  | [] => O
  | c :: t => if (c =? 0) || (c =? c_bslash) then O else S (segment_length t)
  end.

(** [get_next_segment(path + next, &next_segment)]: whether the segment ends
    with a backslash, and the offset just past it. *)
Definition get_next_segment (path : list Z) (next : nat) : bool * nat :=
  let e := (next + segment_length (skipn next path))%nat in
  if peek path e =? c_bslash then (true, S e) else (false, e).

(** The offset of the last unit of the root, if the path has one. *)
Definition get_root_end (path : list Z) : option nat :=
  if is_prefixed_volume path then
    Some (if peek path 48 =? c_bslash then 48%nat else 47%nat)
  else if is_prefixed_unc path then Some 7%nat
  else if is_prefixed_disk path then
    Some (if peek path 6 =? c_bslash then 6%nat else 5%nat)
  else if (peek path 0 =? c_bslash) && (peek path 1 =? c_bslash) then Some 1%nat
  else if peek path 0 =? c_bslash then Some 0%nat
  else if isalphaW (peek path 0) && (peek path 1 =? c_colon) then
    Some (if peek path 2 =? c_bslash then 2%nat else 1%nat)
  else None.

(** ** PathCch helpers *)

(** [strcpyW(buf + d, s)]; when [s] lies in the same buffer it lies above
    [d], so the forward copy stores the source as it was. *)
Definition strcpyW (buf : list Z) (d : nat) (s : list Z) : list Z :=
  store buf d (with_nul s).

Definition PathCchStripPrefix (path : list Z) (size : Z) : HRESULT * list Z :=
  if (size =? 0) || (PATHCCH_MAX_CCH <? size) then (E_INVALIDARG, path)
  else if is_prefixed_unc path then
    (* \\?\UNC\a -> \\a *)
    if size <? Z.of_nat (length (cstr_at path 8)) + 3 then (E_INVALIDARG, path)
    else (S_OK, strcpyW path 2 (cstr_at path 8))
  else if is_prefixed_disk path then
    (* \\?\C:\ -> C:\ *)
    if size <? Z.of_nat (length (cstr_at path 4)) + 1 then (E_INVALIDARG, path)
    else (S_OK, strcpyW path 0 (cstr_at path 4))
  else (S_FALSE, path).

(** Called with [endptr] and [remaining] NULL throughout this file. *)
Definition PathCchAddBackslashEx (path : list Z) (size : Z) : HRESULT * list Z :=
  let length := strlenW path in
  let needs_termination :=
    negb (size =? 0) && negb (length =? 0)%nat
    && negb (peek path (length - 1) =? c_bslash) in
  if Z.of_nat length >=? (if needs_termination then size - 1 else size)
  then (STRSAFE_E_INSUFFICIENT_BUFFER, path)
  else if negb needs_termination then (S_FALSE, path)
  else (S_OK, poke (poke path length c_bslash) (S length) 0).

Definition PathCchAddBackslash (path : list Z) (size : Z) : HRESULT * list Z :=
  PathCchAddBackslashEx path size.

Definition unc_prefix : list Z := Eval cbv in W "\\?".

Definition PathCchSkipRoot (path : list Z) : HRESULT * option nat :=
  if (peek path 0 =? 0)
     || ((strncmpiW unc_prefix path 3 =? 0) && negb (is_prefixed_volume path)
         && negb (is_prefixed_unc path) && negb (is_prefixed_disk path))
  then (E_INVALIDARG, None)
  else
    match get_root_end path with
    | Some e =>
        let r := S e in
        if is_prefixed_unc path then
          let r1 := snd (get_next_segment path r) in
          (S_OK, Some (snd (get_next_segment path r1)))
        else if (peek path 0 =? c_bslash) && (peek path 1 =? c_bslash)
                && negb (peek path 2 =? c_qmark) then
          (* Skip share server *)
          let r1 := snd (get_next_segment path r) in
          (* If mount point is empty, don't skip over mount point *)
          if negb (peek path r1 =? c_bslash)
          then (S_OK, Some (snd (get_next_segment path r1)))
          else (S_OK, Some r1)
        else (S_OK, Some r)
    | None => (E_INVALIDARG, None)
    end.

Definition PathCchStripToRoot (path : list Z) (size : Z) : HRESULT * list Z :=
  if (peek path 0 =? 0) || (size =? 0) || (PATHCCH_MAX_CCH <? size)
  then (E_INVALIDARG, path)
  else
    let is_unc := is_prefixed_unc path in
    if is_unc || ((peek path 0 =? c_bslash) && (peek path 1 =? c_bslash)
                  && negb (peek path 2 =? c_qmark)) then
      let root_end := if is_unc then 8%nat else 3%nat in
      let (ok1, r1) := get_next_segment path root_end in
      if negb ok1 then (S_FALSE, path)
      else
        let (ok2, r2) := get_next_segment path r1 in
        if negb ok2 then (S_FALSE, path)
        else if Z.of_nat r2 >=? size then (E_INVALIDARG, path)
        else (S_OK, poke path (r2 - 1) 0)
    else
      match PathCchSkipRoot path with
      | (S_OK, Some r) =>
          if Z.of_nat r >=? size then (E_INVALIDARG, path)
          else if peek path r =? 0 then (S_FALSE, path)
          else (S_OK, poke path r 0)
      | _ => (E_INVALIDARG, path)
      end.


(** ** Path canonicalization engine *)

(** The cursor of PathAllocCanonicalize: the output buffer, the offsets [src]
    (into [path_in]) and [dst] (into [buffer]), and [root_end]. *)
Record canon_state : Set := mk_canon {
  c_buffer : list Z;
  c_src : nat;
  c_dst : nat;
  c_root_end : option nat
}.

(** [!root_end || dst - 1 > root_end], evaluated where [dst > buffer]. *)
Definition above_root (root_end : option nat) (dst : nat) : bool :=
  match root_end with
  | None => true
  | Some r => (r <? dst - 1)%nat
  end.

(** "Remove characters until a \ is encountered": the inner loop, which
    clears units below [dst] down to and including the first backslash. *)
Fixpoint remove_segment (buffer : list Z) (dst : nat) : list Z * nat :=
  match dst with
  | O => (buffer, O)
  | S d =>
      if peek buffer d =? c_bslash then (poke buffer d 0, d)
      else remove_segment (poke buffer d 0) d
  end.

(** "If X:\ is not complete, then complete it". *)
Definition complete_root (path_in : list Z) (st : canon_state) : canon_state :=
  let buffer := c_buffer st in
  if isalphaW (peek buffer 0) && (peek buffer 1 =? c_colon)
     && negb (peek buffer 2 =? c_bslash)
  then
    mk_canon (poke buffer 2 c_bslash)
      (* If next character is \, use the \ to fill in *)
      (if peek path_in (c_src st) =? c_bslash then S (c_src st) else c_src st)
      3 (Some 2%nat)
  else st.

(** One turn of [while ( *src )]. *)
Definition canon_step (path_in : list Z) (flags : Z) (st : canon_state)
  : canon_state :=
  let '(mk_canon buffer src dst root_end) := st in
  let src_ k := peek path_in (src + k) in
  let dst_1 := peek buffer (dst - 1) in
  let keep := flag_set flags PATHCCH_DO_NOT_NORMALIZE_SEGMENTS in
  if src_ 0%nat =? c_dot then
    if src_ 1%nat =? c_dot then
      (* Keep one . after * *)
      if (0 <? dst)%nat && (dst_1 =? c_star) then
        mk_canon (poke buffer dst (src_ 0%nat)) (S src) (S dst) root_end
      (* Keep the . under DO_NOT_NORMALIZE_SEGMENTS or in the form a..b *)
      else if (0 <? dst)%nat
              && ((keep && negb (dst_1 =? c_bslash))
                  || (negb (dst_1 =? c_bslash) && negb (src_ 2%nat =? c_bslash)
                      && negb (src_ 2%nat =? 0)))
      then
        mk_canon (poke (poke buffer dst (src_ 0%nat)) (S dst) (src_ 1%nat))
          (src + 2) (dst + 2) root_end
      else
        complete_root path_in
          ((* Remove the \ before .. if the \ is not part of root *)
           if (0 <? dst)%nat && (dst_1 =? c_bslash) && above_root root_end dst
           then
             let (buffer', dst') :=
               remove_segment (poke buffer (dst - 1) 0) (dst - 1) in
             mk_canon buffer' (src + 2) dst' root_end
           (* Remove the extra \ after .. if the \ before .. wasn't deleted *)
           else if src_ 2%nat =? c_bslash then
             mk_canon buffer (src + 3) dst root_end
           else mk_canon buffer (src + 2) dst root_end)
    else
      (* Keep the . under DO_NOT_NORMALIZE_SEGMENTS, in a.b, or after * *)
      if (0 <? dst)%nat
         && ((keep && negb (dst_1 =? c_bslash))
             || (negb (dst_1 =? c_bslash) && negb (src_ 1%nat =? c_bslash)
                 && negb (src_ 1%nat =? 0))
             || (dst_1 =? c_star))
      then mk_canon (poke buffer dst (src_ 0%nat)) (S src) (S dst) root_end
      else
        complete_root path_in
          ((* Remove the \ before . if the \ is not part of root *)
           if (0 <? dst)%nat && (dst_1 =? c_bslash) && above_root root_end dst
           then mk_canon buffer (S src) (dst - 1) root_end
           (* Remove the extra \ after . if the \ before . wasn't deleted *)
           else if src_ 1%nat =? c_bslash then
             mk_canon buffer (src + 2) dst root_end
           else mk_canon buffer (S src) dst root_end)
  else
    (* Copy over *)
    mk_canon (poke buffer dst (src_ 0%nat)) (S src) (S dst) root_end.

(** [while ( *src )]; every turn advances [src], so [strlenW path_in] turns
    reach the terminator. *)
Fixpoint canon_loop (fuel : nat) (path_in : list Z) (flags : Z)
  (st : canon_state) : canon_state :=
  match fuel with
  | O => st
  | S fuel' =>
      if peek path_in (c_src st) =? 0 then st
      else canon_loop fuel' path_in flags (canon_step path_in flags st)
  end.

(** "Copy path root": the state in which the segment loop starts. *)
Definition canon_root (path_in : list Z) : canon_state :=
  let length := strlenW path_in in
  let buffer := repeat 0 (length + 6) in       (* LocalAlloc(LMEM_ZEROINIT) *)
  match get_root_end path_in with
  | Some e =>
      let buffer := store buffer 0 (firstn (S e) path_in) in
      match PathCchStripPrefix buffer (Z.of_nat length + 6) with
      | (S_OK, buffer) =>
          (* Fill in \ in X:\ if the \ is missing *)
          let buffer :=
            if isalphaW (peek buffer 0) && (peek buffer 1 =? c_colon)
               && negb (peek buffer 2 =? c_bslash)
            then poke (poke buffer 2 c_bslash) 3 0
            else buffer in
          mk_canon buffer (S e) (strlenW buffer) (Some (strlenW buffer))
      | (_, buffer) => mk_canon buffer (S e) (S e) (Some e)
      end
  | None => mk_canon buffer 0 0 None
  end.

(** The buffer when the segment loop is over: "End the path" and "If result
    path is empty, fill in \". *)
Definition canon_segments (path_in : list Z) (flags : Z) : list Z :=
  let st := canon_loop (strlenW path_in) path_in flags (canon_root path_in) in
  let buffer := poke (c_buffer st) (c_dst st) 0 in
  if peek buffer 0 =? 0 then poke (poke buffer 0 c_bslash) 1 0 else buffer.

(** "Extend the path if needed". *)
Definition extend_path (buffer : list Z) (flags : Z) : list Z :=
  let length := strlenW buffer in
  if (((Z.of_nat length + 1 >? MAX_PATH) && isalphaW (peek buffer 0)
       && (peek buffer 1 =? c_colon))
      || (isalphaW (peek buffer 0) && (peek buffer 1 =? c_colon)
          && flag_set flags PATHCCH_ENSURE_IS_EXTENDED_LENGTH_PATH))
     && negb (flag_set flags PATHCCH_FORCE_ENABLE_LONG_NAME_PROCESS)
  then
    (* memmove(buffer + 4, buffer, (length + 1) * sizeof(WCHAR)) *)
    let buffer := store buffer 4 (with_nul (cstr buffer)) in
    poke (poke (poke (poke buffer 0 c_bslash) 1 c_bslash) 2 c_qmark) 3 c_bslash
  else buffer.

(** "PATHCCH_ENSURE_IS_EXTENDED_LENGTH_PATH implies
    PATHCCH_DO_NOT_NORMALIZE_SEGMENTS". *)
Definition implied_flags (flags : Z) : Z :=
  if flag_set flags PATHCCH_ENSURE_IS_EXTENDED_LENGTH_PATH
  then Z.lor flags PATHCCH_DO_NOT_NORMALIZE_SEGMENTS else flags.

(** [PathAllocCanonicalize(path_in, flags, &path_out)] for non-null arguments
    and a heap that serves the request: the result code and [*path_out]. *)
Definition PathAllocCanonicalize (path_in : list Z) (flags : Z)
  : HRESULT * option (list Z) :=
  if (flag_set flags PATHCCH_FORCE_ENABLE_LONG_NAME_PROCESS
      && flag_set flags PATHCCH_FORCE_DISABLE_LONG_NAME_PROCESS)
     || (flag_set flags (Z.lor PATHCCH_FORCE_ENABLE_LONG_NAME_PROCESS
                               PATHCCH_FORCE_DISABLE_LONG_NAME_PROCESS)
         && negb (flag_set flags PATHCCH_ALLOW_LONG_PATHS))
     || (flag_set flags PATHCCH_ENSURE_IS_EXTENDED_LENGTH_PATH
         && flag_set flags PATHCCH_ALLOW_LONG_PATHS)
  then (E_INVALIDARG, None)
  else
    let length := Z.of_nat (strlenW path_in) in
    if ((length + 1 >? MAX_PATH)
        && negb (flag_set flags (Z.lor PATHCCH_ALLOW_LONG_PATHS
                                       PATHCCH_ENSURE_IS_EXTENDED_LENGTH_PATH)))
       || (length + 1 >? PATHCCH_MAX_CCH)
    then (E_FILENAME_EXCED_RANGE, None)
    else
      let flags := implied_flags flags in
      let buffer_size := (length + 6) * 2 in
      let buffer := extend_path (canon_segments path_in flags) flags in
      (* Add a trailing backslash to the path if needed *)
      let buffer :=
        if flag_set flags PATHCCH_ENSURE_TRAILING_SLASH
        then snd (PathCchAddBackslash buffer buffer_size) else buffer in
      (S_OK, Some (cstr buffer)).

(** [PathAllocCombine(path1, path2, flags, &out)] for a non-null [out];
    [None] is a null operand. *)
Definition PathAllocCombine (path1 path2 : option (list Z)) (flags : Z)
  : HRESULT * option (list Z) :=
  match path1, path2 with
  | None, None => (E_INVALIDARG, None)
  | Some p, None | None, Some p => PathAllocCanonicalize p flags
  | Some p1, Some p2 =>
      (* If path2 is fully qualified, use path2 only *)
      let from_path2 :=
        (isalphaW (peek p2 0) && (peek p2 1 =? c_colon))
        || ((peek p2 0 =? c_bslash) && (peek p2 1 =? c_bslash)) in
      let path1 := if from_path2 then p2 else p1 in
      let path2 := if from_path2 then None else Some p2 in
      let length2 := match path2 with Some p => strlenW p | None => O end in
      (* path1 length + path2 length + possible backslash + NULL *)
      let combined_length := (strlenW path1 + length2 + 2)%nat in
      let size := Z.of_nat combined_length in
      let combined_path := strcpyW (repeat 0 combined_length) 0 (cstr path1) in
      let combined_path := snd (PathCchStripPrefix combined_path size) in
      let combined_path :=
        if from_path2 then snd (PathCchAddBackslashEx combined_path size)
        else combined_path in
      let combined_path :=
        match path2 with
        | Some p =>
            if negb (peek p 0 =? 0) then
              let strip := (peek p 0 =? c_bslash) && negb (peek p 1 =? c_bslash) in
              let combined_path :=
                if strip then snd (PathCchStripToRoot combined_path size)
                else combined_path in
              let p := if strip then skipn 1 p else p in
              let combined_path := snd (PathCchAddBackslashEx combined_path size) in
              (* lstrcatW(combined_path, path2) *)
              strcpyW combined_path (strlenW combined_path) (cstr p)
            else combined_path
        | None => combined_path
        end in
      PathAllocCanonicalize (cstr combined_path) flags
  end.

(** ** URL scheme registry *)

(** Modelled from the spec: the scheme codes of shlwapi.h that the scheme
    registry of the specification maps the scheme names to. *)
Inductive URL_SCHEME : Set :=
| URL_SCHEME_INVALID | URL_SCHEME_UNKNOWN
| URL_SCHEME_FTP | URL_SCHEME_HTTP | URL_SCHEME_GOPHER | URL_SCHEME_MAILTO
| URL_SCHEME_NEWS | URL_SCHEME_NNTP | URL_SCHEME_TELNET | URL_SCHEME_WAIS
| URL_SCHEME_FILE | URL_SCHEME_MK | URL_SCHEME_HTTPS | URL_SCHEME_SHELL
| URL_SCHEME_SNEWS | URL_SCHEME_LOCAL | URL_SCHEME_JAVASCRIPT
| URL_SCHEME_VBSCRIPT | URL_SCHEME_ABOUT | URL_SCHEME_RES.

Definition url_schemes : list (URL_SCHEME * list Z) := Eval cbv in
  [ (URL_SCHEME_FTP, W "ftp"); (URL_SCHEME_HTTP, W "http");
    (URL_SCHEME_GOPHER, W "gopher"); (URL_SCHEME_MAILTO, W "mailto");
    (URL_SCHEME_NEWS, W "news"); (URL_SCHEME_NNTP, W "nntp");
    (URL_SCHEME_TELNET, W "telnet"); (URL_SCHEME_WAIS, W "wais");
    (URL_SCHEME_FILE, W "file"); (URL_SCHEME_MK, W "mk");
    (URL_SCHEME_HTTPS, W "https"); (URL_SCHEME_SHELL, W "shell");
    (URL_SCHEME_SNEWS, W "snews"); (URL_SCHEME_LOCAL, W "local");
    (URL_SCHEME_JAVASCRIPT, W "javascript");
    (URL_SCHEME_VBSCRIPT, W "vbscript"); (URL_SCHEME_ABOUT, W "about");
    (URL_SCHEME_RES, W "res") ].

Definition get_scheme_code (scheme : list Z) (scheme_len : nat) : URL_SCHEME :=
  match
    find (fun e => (scheme_len =? length (snd e))%nat
                   && (strncmpiW scheme (snd e) scheme_len =? 0)) url_schemes
  with
  | Some e => fst e
  | None => URL_SCHEME_UNKNOWN
  end.

(** The fields of PARSEDURLW that ParseURLW fills in; [pszProtocol] is the
    URL itself and [pszSuffix] the offset of the unit after the colon. *)
Record PARSEDURLW : Set := mk_parsedurl {
  cchProtocol : nat;
  pszSuffix : nat;
  cchSuffix : nat;
  nScheme : URL_SCHEME
}.

(** The run of scheme units ParseURLW skips. *)
Fixpoint protocol_length (s : list Z) : nat :=
  match s with
  | [] => O
  | c :: t =>
      if negb (c =? 0)
         && (isalnumW c || (c =? c_dash) || (c =? c_plus) || (c =? c_dot))
      then S (protocol_length t) else O
  end.

(** [ParseURLW(url, &result)] for a [result] of the right [cbSize]. *)
Definition ParseURLW (url : list Z) : HRESULT * option PARSEDURLW :=
  let ptr := protocol_length url in
  if negb (peek url ptr =? c_colon) || (ptr <=? 1)%nat
  then (URL_E_INVALID_SYNTAX, None)
  else (S_OK, Some (mk_parsedurl ptr (S ptr) (length (cstr_at url (S ptr)))
                      (get_scheme_code url ptr))).

(** ** Percent-encoding *)

(** Modelled from the spec: the flag bits of shlwapi.h that the URL functions
    test; the header is not part of the repository files at hand. The
    extra-info bit is shared by escaping and unescaping. *)
Definition URL_ESCAPE_PERCENT : Z := 0x00001000.
Definition URL_ESCAPE_SEGMENT_ONLY : Z := 0x00002000.
Definition URL_FILE_USE_PATHURL : Z := 0x00010000.
Definition URL_ESCAPE_AS_UTF8 : Z := 0x00040000.
Definition URL_UNESCAPE_INPLACE : Z := 0x00100000.
Definition URL_DONT_ESCAPE_EXTRA_INFO : Z := 0x02000000.
Definition URL_DONT_UNESCAPE_EXTRA_INFO : Z := URL_DONT_ESCAPE_EXTRA_INFO.
Definition URL_ESCAPE_SPACES_ONLY : Z := 0x04000000.
Definition URL_DONT_SIMPLIFY : Z := 0x08000000.
Definition URL_UNESCAPE : Z := 0x10000000.
Definition URL_ESCAPE_UNSAFE : Z := 0x20000000.
Definition URL_WININET_COMPATIBILITY : Z := 0x80000000.

Definition WINE_URL_BASH_AS_SLASH : Z := 0x01.
Definition WINE_URL_COLLAPSE_SLASHES : Z := 0x02.
Definition WINE_URL_ESCAPE_SLASH : Z := 0x04.
Definition WINE_URL_ESCAPE_HASH : Z := 0x08.
Definition WINE_URL_ESCAPE_QUESTION : Z := 0x10.
Definition WINE_URL_STOP_ON_HASH : Z := 0x20.
Definition WINE_URL_STOP_ON_QUESTION : Z := 0x40.

(** [flags & ~mask] on a DWORD. *)
Definition clear_flags (flags mask : Z) : Z := Z.land flags (Z.lnot mask).

Definition hexDigits : list Z := Eval cbv in W "0123456789ABCDEF".

(** Modelled from the spec: the value StrToIntExW(..., STIF_SUPPORT_HEX, ...)
    of shlwapi's string.c gives to one hexadecimal digit; UrlUnescapeW calls it
    on "0x" followed by the two digits it has just tested with isxdigitW. *)
Definition hex_value (c : Z) : Z :=
  if in_range 48 57 c then c - 48
  else if in_range 65 70 c then c - 55
  else if in_range 97 102 c then c - 87
  else 0.

(** The units [next] takes in the loop of UrlUnescapeW, one per turn, for
    the units [src] of the string before its terminator. *)
Fixpoint unescape_units (flags : Z) (stop_unescaping : bool) (src : list Z)
  : list Z :=
  match src with
  | [] => []
  | c :: t =>
      if flag_set flags URL_DONT_UNESCAPE_EXTRA_INFO
         && ((c =? c_hash) || (c =? c_qmark))
      then c :: unescape_units flags true t
      else
        match t with
        | h1 :: h2 :: t' =>
            if (c =? c_percent) && isxdigitW h1 && isxdigitW h2
               && negb stop_unescaping
            then (* next = (WCHAR) ih; src += 2 *)
              (hex_value h1 * 16 + hex_value h2)
                :: unescape_units flags stop_unescaping t'
            else c :: unescape_units flags stop_unescaping t
        | _ => c :: unescape_units flags stop_unescaping t
        end
  end.

(** [UrlUnescapeW(url, unescaped, &unescaped_len, flags)] for non-null
    pointers: the result code, the units stored through [dst] (in [url]
    itself under URL_UNESCAPE_INPLACE, where the store never overtakes
    [src]) and [*unescaped_len] afterwards. A unit is stored while
    [needed < *unescaped_len], or always when in place. *)
Definition UrlUnescapeW (url : list Z) (unescaped_len : Z) (flags : Z)
  : HRESULT * list Z * Z :=
  let units := unescape_units flags false (cstr url) in
  let needed := Z.of_nat (length units) in
  let inplace := flag_set flags URL_UNESCAPE_INPLACE in
  if inplace || (needed <? unescaped_len)
  then (S_OK, units, if inplace then unescaped_len else needed)
  else (E_POINTER, firstn (Z.to_nat unescaped_len) units, needed + 1).

Definition url_needs_escape (ch : Z) (flags int_flags : Z) : bool :=
  if flag_set flags URL_ESCAPE_SPACES_ONLY then ch =? c_space
  else if flag_set flags URL_ESCAPE_PERCENT && (ch =? c_percent) then true
  else if flag_set flags URL_ESCAPE_AS_UTF8 && (ch >=? 0x80) then true
  else if (ch <=? 31) || ((ch >=? 127) && (ch <=? 255)) then true
  else if isalnumW ch then false
  else if (ch =? c_space) || (ch =? c_lt) || (ch =? c_gt) || (ch =? c_quote)
          || (ch =? c_lbrace) || (ch =? c_rbrace) || (ch =? c_pipe)
          || (ch =? c_bslash) || (ch =? c_caret) || (ch =? c_rbracket)
          || (ch =? c_lbracket) || (ch =? c_backtick) || (ch =? c_amp)
  then true
  else if ch =? c_slash then flag_set int_flags WINE_URL_ESCAPE_SLASH
  else if ch =? c_qmark then flag_set int_flags WINE_URL_ESCAPE_QUESTION
  else if ch =? c_hash then flag_set int_flags WINE_URL_ESCAPE_HASH
  else false.

(** Modelled from the spec: WideCharToMultiByte(CP_UTF8,
    WC_ERR_INVALID_CHARS, ...) of kernelbase's locale.c on one unit or on two;
    section 4.4 has a surrogate pair encoded as one unit of four bytes and an
    invalid sequence yield nothing (the caller then substitutes U+FFFD). *)
Definition utf8_encode (units : list Z) : list Z :=
  match units with
  | [c] =>
      if c <? 0x80 then [c]
      else if c <? 0x800 then [0xC0 + c / 64; 0x80 + c mod 64]
      else if in_range 0xD800 0xDFFF c then []
      else [0xE0 + c / 4096; 0x80 + (c / 64) mod 64; 0x80 + c mod 64]
  | [hi; lo] =>
      if in_range 0xD800 0xDBFF hi && in_range 0xDC00 0xDFFF lo then
        let cp := 0x10000 + (hi - 0xD800) * 1024 + (lo - 0xDC00) in
        [0xF0 + cp / 262144; 0x80 + (cp / 4096) mod 64;
         0x80 + (cp / 64) mod 64; 0x80 + cp mod 64]
      else []
  | _ => []
  end.

(** ['%'], then the two hexadecimal digits of the low byte of [b]. *)
Definition percent_byte (b : Z) : list Z :=
  [c_percent; peek hexDigits (Z.to_nat (Z.land (Z.shiftr b 4) 15));
   peek hexDigits (Z.to_nat (Z.land b 15))].

(** "fix up flags" of UrlEscapeW. *)
Definition escape_fix_flags (flags : Z) : Z :=
  if flag_set flags URL_ESCAPE_SPACES_ONLY then
    clear_flags flags (Z.lor URL_DONT_ESCAPE_EXTRA_INFO
                         (Z.lor URL_ESCAPE_PERCENT URL_ESCAPE_SEGMENT_ONLY))
  else Z.lor flags URL_DONT_ESCAPE_EXTRA_INFO.

(** The internal flags UrlEscapeW derives from the fixed-up [flags] and the
    scheme; [parsed] is what ParseURLW stored. *)
Definition escape_int_flags (url : list Z) (flags : Z)
  (parsed : option PARSEDURLW) : Z :=
  if flag_set flags URL_ESCAPE_SEGMENT_ONLY then
    Z.lor WINE_URL_ESCAPE_QUESTION
      (Z.lor WINE_URL_ESCAPE_HASH WINE_URL_ESCAPE_SLASH)
  else
    let int_flags :=
      if flag_set flags URL_DONT_ESCAPE_EXTRA_INFO
      then Z.lor WINE_URL_STOP_ON_HASH WINE_URL_STOP_ON_QUESTION else 0 in
    match parsed with
    | None => int_flags                                 (* URL_SCHEME_INVALID *)
    | Some p =>
        let suffix0 := peek url (pszSuffix p) in
        match nScheme p with
        | URL_SCHEME_FILE =>
            clear_flags
              (Z.lor int_flags
                 (Z.lor WINE_URL_BASH_AS_SLASH
                    (Z.lor WINE_URL_COLLAPSE_SLASHES WINE_URL_ESCAPE_HASH)))
              WINE_URL_STOP_ON_HASH
        | URL_SCHEME_HTTP | URL_SCHEME_HTTPS =>
            let int_flags := Z.lor int_flags WINE_URL_BASH_AS_SLASH in
            if negb (suffix0 =? c_slash) && negb (suffix0 =? c_bslash)
            then Z.lor int_flags WINE_URL_ESCAPE_SLASH else int_flags
        | URL_SCHEME_MAILTO =>
            clear_flags
              (Z.lor int_flags
                 (Z.lor WINE_URL_ESCAPE_SLASH
                    (Z.lor WINE_URL_ESCAPE_QUESTION WINE_URL_ESCAPE_HASH)))
              (Z.lor WINE_URL_STOP_ON_QUESTION WINE_URL_STOP_ON_HASH)
        | URL_SCHEME_INVALID => int_flags
        | _ =>
            if negb (suffix0 =? c_slash)
            then Z.lor int_flags WINE_URL_ESCAPE_SLASH else int_flags
        end
    end.

Definition localhost : list Z := Eval cbv in W "localhost".

(** The cursor of the loop of UrlEscapeW; [e_dst] holds the units stored
    through [dst] so far. *)
Record escape_state : Set := mk_escape {
  e_src : nat;
  e_slashes : nat;
  e_stop_escaping : bool;
  e_needed : Z;
  e_dst : list Z
}.

Definition is_slash (c : Z) : bool := (c =? c_slash) || (c =? c_bslash).

(** The slashes and backslashes at the head of [s]. *)
Fixpoint slash_run (s : list Z) : nat :=
  match s with
  | [] => O
  | c :: t => if is_slash c then S (slash_run t) else O
  end.

(** The units that replace an escaped [cur]; [src1] is the unit after it. *)
Definition escaped_units (flags : Z) (cur src1 : Z) : list Z * bool :=
  if flag_set flags URL_ESCAPE_AS_UTF8 then
    let pair := in_range 0xD800 0xDFFF cur && in_range 0xDC00 0xDFFF src1 in
    let utf := if pair then utf8_encode [cur; src1] else utf8_encode [cur] in
    let utf := match utf with [] => [0xEF; 0xBF; 0xBD] | _ => utf end in
    (flat_map percent_byte utf, pair)
  else (percent_byte cur, false).

(** One turn of [for (src = url; *src; )]. *)
Definition escape_step (url : list Z) (flags int_flags : Z)
  (parsed : option PARSEDURLW) (escaped_len : Z) (st : escape_state)
  : escape_state :=
  let '(mk_escape src slashes stop_escaping needed dst) := st in
  let cur := peek url src in
  let at_suffix :=
    match parsed with
    | Some p => (src =? cchProtocol p + 1)%nat
    | None => false
    end in
  let '(src, slashes, cur, next) :=
    if flag_set int_flags WINE_URL_COLLAPSE_SLASHES && at_suffix then
      let n := slash_run (skipn src url) in
      let src := (src + n)%nat in
      let slashes := (slashes + n)%nat in
      let cur := peek url src in
      (* file://localhost/ -> file:/// *)
      let fold := (slashes =? 2)%nat
                  && (strncmpiW (skipn src url) localhost 9 =? 0) in
      let src := if fold && is_slash (peek url (src + 9))
                 then (src + 10)%nat else src in
      let slashes := if fold then 3%nat else slashes in
      (src, slashes, cur,
       match slashes with
       | 1%nat | 3%nat => [c_slash; c_slash; c_slash]
       | 0%nat => []
       | _ => [c_slash; c_slash]
       end)
    else (src, slashes, cur, []) in
  let '(src, stop_escaping, next) :=
    match next with
    | [] =>
        let stop_escaping :=
          stop_escaping
          || ((cur =? c_hash) && flag_set int_flags WINE_URL_STOP_ON_HASH)
          || ((cur =? c_qmark) && flag_set int_flags WINE_URL_STOP_ON_QUESTION) in
        let cur :=
          if (cur =? c_bslash) && flag_set int_flags WINE_URL_BASH_AS_SLASH
             && negb stop_escaping
          then c_slash else cur in
        if url_needs_escape cur flags int_flags && negb stop_escaping then
          let (next, pair) := escaped_units flags cur (peek url (S src)) in
          ((if pair then src + 2 else src + 1)%nat, stop_escaping, next)
        else (S src, stop_escaping, [cur])
    | _ => (src, stop_escaping, next)
    end in
  let len := Z.of_nat (length next) in
  mk_escape src slashes stop_escaping (needed + len)
    (if needed + len <=? escaped_len then dst ++ next else dst).

Fixpoint escape_loop (fuel : nat) (url : list Z) (flags int_flags : Z)
  (parsed : option PARSEDURLW) (escaped_len : Z) (st : escape_state)
  : escape_state :=
  match fuel with
  | O => st
  | S fuel' =>
      if peek url (e_src st) =? 0 then st
      else escape_loop fuel' url flags int_flags parsed escaped_len
             (escape_step url flags int_flags parsed escaped_len st)
  end.

(** [UrlEscapeW(url, escaped, &escaped_len, flags)] for non-null pointers: the
    result code, what was copied to [escaped] (nothing on failure) and
    [*escaped_len] afterwards. *)
Definition UrlEscapeW (url : list Z) (escaped_len : Z) (flags : Z)
  : HRESULT * option (list Z) * Z :=
  if escaped_len =? 0 then (E_INVALIDARG, None, escaped_len)
  else
    let flags := escape_fix_flags flags in
    let parsed :=
      if flag_set flags URL_ESCAPE_SEGMENT_ONLY then None
      else snd (ParseURLW url) in
    let int_flags := escape_int_flags url flags parsed in
    let st := escape_loop (length url) url flags int_flags parsed escaped_len
                (mk_escape 0 0 false 0 []) in
    if e_needed st <? escaped_len then (S_OK, Some (e_dst st), e_needed st)
    else (E_POINTER, None, e_needed st + 1).

(** ** URL canonicalization engine *)

Definition wszFile : list Z := Eval cbv in W "file:".
Definition wszRes : list Z := Eval cbv in W "res:".
Definition wszHttp : list Z := Eval cbv in W "http:".
Definition wszLocalhost : list Z := Eval cbv in W "localhost".
Definition wszFilePrefix : list Z := Eval cbv in W "file:///".

(** Modelled from the spec: strchrW of wine/unicode.h, here the offset of
    the first [ch] in the string [s]. *)
Fixpoint strchrW (s : list Z) (ch : Z) : option nat :=
  match s with
  | [] => None
  | c :: t =>
      if c =? 0 then None
      else if c =? ch then Some O
      else option_map S (strchrW t ch)
  end.

(** Modelled from the spec: strrchrW of wine/unicode.h, here the offset of
    the last [ch] in the string [s]. *)
Fixpoint strrchrW (s : list Z) (ch : Z) : option nat :=
  match s with
  | [] => None
  | c :: t =>
      if c =? 0 then None
      else
        match strrchrW t ch with
        | Some i => Some (S i)
        | None => if c =? ch then Some O else None
        end
  end.

(** [if (mp2 && (!mp || mp2 < mp)) mp = mp2;] *)
Definition nearer (mp mp2 : option nat) : option nat :=
  match mp2, mp with
  | Some b, None => Some b
  | Some b, Some a => if (b <? a)%nat then Some b else Some a
  | None, _ => mp
  end.

(** The states of the scan, numbered as in the source: 0 initial, 1 have
    2[+] alnum, 2 have scheme (found :), 3 failed (no location), 4 have //,
    5 have 1[+] alnum, 6 have location (found /). *)
Inductive url_state : Set :=
| state0 | state1 | state2 | state3 | state4 | state5 | state6.

(** The cursor of the scan: [wk1] into [url], [wk2] into [url_copy]. *)
Record url_scan : Set := mk_scan {
  u_copy : list Z;
  u_wk1 : nat;
  u_wk2 : nat;
  u_state : url_state
}.

(** [slash ? slash : c] *)
Definition slash_or (slash c : Z) : Z := if slash =? 0 then c else slash.

(** The authority units state 4 copies. *)
Definition is_host_unit (c : Z) : bool :=
  isalnumW c || (c =? c_dash) || (c =? c_dot) || (c =? c_colon).

Fixpoint host_run (s : list Z) : nat :=
  match s with
  | [] => O
  | c :: t => if is_host_unit c then S (host_run t) else O
  end.

(** The units equal to [ch] at the head of [s]. *)
Fixpoint unit_run (ch : Z) (s : list Z) : nat :=
  match s with
  | [] => O
  | c :: t => if c =? ch then S (unit_run ch t) else O
  end.

(** [while ( *wk1 == '.' )] of state 6; the result tells the cursor after
    the loop. *)
Fixpoint dot_segments (fuel : nat) (url : list Z) (slash : Z) (root : nat)
  (url_copy : list Z) (wk1 wk2 : nat) : list Z * nat * nat :=
  match fuel with
  | O => (url_copy, wk1, wk2)
  | S fuel' =>
      if negb (peek url wk1 =? c_dot) then (url_copy, wk1, wk2)
      else if is_slash (peek url (wk1 + 1)) then
        (* case of /./ -> skip the ./ *)
        dot_segments fuel' url slash root url_copy (wk1 + 2) wk2
      else if (peek url (wk1 + 1) =? c_dot)
              && (is_slash (peek url (wk1 + 2))
                  || (peek url (wk1 + 2) =? c_qmark)
                  || (peek url (wk1 + 2) =? c_hash)
                  || (peek url (wk1 + 2) =? 0))
      then
        (* case /../ -> need to backup wk2 *)
        let url_copy := poke url_copy (wk2 - 1) 0 in
        let mp := strrchrW (skipn root url_copy) c_slash in
        let mp2 := strrchrW (skipn root url_copy) c_bslash in
        match nearer mp mp2 with
        | Some m =>
            (* found valid backup point *)
            dot_segments fuel' url slash root url_copy
              (if is_slash (peek url (wk1 + 2)) then wk1 + 3 else wk1 + 2)%nat
              (root + m + 1)
        | None =>
            (* did not find point, restore '/' *)
            (poke url_copy (wk2 - 1) slash, wk1, wk2)
        end
      else (url_copy, wk1, wk2)
  end.

(** [while ( *wk1 )] of state 6. *)
Fixpoint simplify_path (fuel : nat) (url : list Z) (slash : Z) (root : nat)
  (url_copy : list Z) (wk1 wk2 : nat) : list Z * nat * nat :=
  match fuel with
  | O => (url_copy, wk1, wk2)
  | S fuel' =>
      if peek url wk1 =? 0 then (url_copy, wk1, wk2)
      else
        let mp := strchrW (skipn wk1 url) c_slash in
        let mp2 := strchrW (skipn wk1 url) c_bslash in
        match nearer mp mp2 with
        | None =>
            let rest := cstr_at url wk1 in
            simplify_path fuel' url slash root
              (store url_copy wk2 (with_nul rest))
              (wk1 + length rest) (wk2 + length rest)
        | Some nLen =>
            let url_copy := store url_copy wk2 (firstn nLen (skipn wk1 url)) in
            let wk2 := (wk2 + nLen)%nat in
            let wk1 := (wk1 + nLen)%nat in
            let url_copy := poke url_copy wk2 (slash_or slash (peek url wk1)) in
            let '(url_copy, wk1, wk2) :=
              dot_segments (length url) url slash root url_copy (S wk1) (S wk2) in
            simplify_path fuel' url slash root url_copy wk1 wk2
        end
  end.

(** One turn of [while ( *wk1 )]: the [switch (state)] and the terminator
    stored after it. [flags], [slash] and [is_file_url] are settled before the
    loop; [nByteLen] is the size of [url] in bytes. *)
Definition url_step (url : list Z) (flags : Z) (slash : Z) (is_file_url : bool)
  (nByteLen : Z) (sc : url_scan) : url_scan :=
  let '(mk_scan url_copy wk1 wk2 state) := sc in
  let sc :=
    match state with
    | state0 =>
        if negb (isalnumW (peek url wk1)) then mk_scan url_copy wk1 wk2 state3
        else
          let url_copy := poke url_copy wk2 (peek url wk1) in
          if negb (isalnumW (peek url (S wk1)))
          then mk_scan url_copy (S wk1) (S wk2) state3
          else mk_scan (poke url_copy (S wk2) (peek url (S wk1)))
                 (wk1 + 2) (wk2 + 2) state1
    | state1 =>
        mk_scan (poke url_copy wk2 (peek url wk1)) (S wk1) (S wk2)
          (if peek url wk1 =? c_colon then state2 else state1)
    | state2 =>
        let url_copy := poke url_copy wk2 (peek url wk1) in
        let wk1 := S wk1 in
        let wk2 := S wk2 in
        if negb (peek url wk1 =? c_slash) then mk_scan url_copy wk1 wk2 state6
        else
          let url_copy := poke url_copy wk2 (peek url wk1) in
          let wk1 := S wk1 in
          let wk2 := S wk2 in
          let wk1 :=
            if flag_set flags URL_FILE_USE_PATHURL && (nByteLen >=? 18)
               && is_file_url && memcmp_eq wszLocalhost (skipn wk1 url) 9
            then
              let wk1 := (wk1 + 9)%nat in
              (wk1 + unit_run c_bslash (skipn wk1 url))%nat
            else wk1 in
          if (peek url wk1 =? c_slash) && flag_set flags URL_FILE_USE_PATHURL
          then mk_scan url_copy (S wk1) wk2 state4
          else if is_file_url then
            let body :=
              (wk1 + unit_run c_slash (skipn wk1 url))%nat in
            let one_slash :=
              (peek url wk1 =? c_slash) && negb (peek url (S wk1) =? c_slash) in
            let '(url_copy, wk2) :=
              if isalnumW (peek url body) && (peek url (S body) =? c_colon) then
                if negb (flag_set flags (Z.lor URL_WININET_COMPATIBILITY
                                                URL_FILE_USE_PATHURL))
                then (poke url_copy wk2 (slash_or slash c_slash), S wk2)
                else (url_copy, wk2)
              else if flag_set flags URL_WININET_COMPATIBILITY then
                if one_slash then (poke url_copy wk2 c_bslash, S wk2)
                else (poke (poke url_copy wk2 c_bslash) (S wk2) c_bslash,
                      (wk2 + 2)%nat)
              else if one_slash
              then (poke url_copy wk2 (slash_or slash c_slash), S wk2)
              else (url_copy, wk2) in
            mk_scan url_copy body wk2 state4
          else mk_scan url_copy wk1 wk2 state4
    | state3 =>
        let rest := cstr_at url wk1 in
        let url_copy := store url_copy wk2 (with_nul rest) in
        let url_copy :=
          if slash =? 0 then url_copy
          else store url_copy wk2
                 (map (fun c => if is_slash c then slash else c) rest) in
        mk_scan url_copy (wk1 + length rest) (wk2 + length rest) state3
    | state4 =>
        if negb (is_host_unit (peek url wk1)) then mk_scan url_copy wk1 wk2 state3
        else
          let n := host_run (skipn wk1 url) in
          let url_copy := store url_copy wk2 (firstn n (skipn wk1 url)) in
          let wk1 := (wk1 + n)%nat in
          let wk2 := (wk2 + n)%nat in
          if peek url wk1 =? 0
          then mk_scan (poke url_copy wk2 (slash_or slash c_slash)) wk1 (S wk2) state5
          else mk_scan url_copy wk1 wk2 state5
    | state5 =>
        if negb (is_slash (peek url wk1)) then mk_scan url_copy wk1 wk2 state3
        else
          let n := slash_run (skipn wk1 url) in
          mk_scan
            (store url_copy wk2
               (map (slash_or slash) (firstn n (skipn wk1 url))))
            (wk1 + n) (wk2 + n) state6
    | state6 =>
        if flag_set flags URL_DONT_SIMPLIFY then mk_scan url_copy wk1 wk2 state3
        else
          (* Now at root location, cannot back up any more. *)
          let root := (wk2 - 1)%nat in
          let '(url_copy, wk1, wk2) :=
            simplify_path (length url) url slash root url_copy wk1 wk2 in
          mk_scan (poke url_copy wk2 0) wk1 wk2 state6
    end in
  mk_scan (poke (u_copy sc) (u_wk2 sc) 0) (u_wk1 sc) (u_wk2 sc) (u_state sc).

Fixpoint url_scan_loop (fuel : nat) (url : list Z) (flags : Z) (slash : Z)
  (is_file_url : bool) (nByteLen : Z) (sc : url_scan) : url_scan :=
  match fuel with
  | O => sc
  | S fuel' =>
      if peek url (u_wk1 sc) =? 0 then sc
      else url_scan_loop fuel' url flags slash is_file_url nByteLen
             (url_step url flags slash is_file_url nByteLen sc)
  end.

(** The trailing units at or below the space that the code removes. *)
Fixpoint trim_trailing (url_copy : list Z) (nLen : nat) : list Z * nat :=
  match nLen with
  | O => (url_copy, O)
  | S n =>
      if peek url_copy n <=? c_space then trim_trailing (poke url_copy n 0) n
      else (url_copy, nLen)
  end.

(** "Remove '\t' characters from URL": the copy takes the units of the
    string at [src_url] that are not tabs. *)
Definition strip_tabs (src_url : list Z) : list Z :=
  filter (fun c => negb (c =? c_tab)) (cstr src_url).

(** What the code settles before the scan: the preferred slash, the flags,
    whether the URL is a file URL, and the cursor the scan starts from
    ("Assume path"). The code does not clear the two heap blocks; here a
    unit that was never stored reads as zero. A URL made of tabs alone shows
    the difference: its copy is the terminator only, and the code reads
    url[1] behind it and the string in url_copy without having stored
    either. *)
Definition url_scan_start (url : list Z) (flags : Z)
  : Z * Z * bool * url_scan :=
  let nByteLen := (Z.of_nat (length url) + 1) * 2 in
  let url_copy := repeat 0 (length url + 10) in
  let is_file_url := strncmpW wszFile url 5 =? 0 in
  let slash :=
    if ((nByteLen >=? 10) && memcmp_eq wszHttp url 5) || is_file_url
    then c_slash else 0 in
  let slash :=
    if flag_set flags (Z.lor URL_FILE_USE_PATHURL URL_WININET_COMPATIBILITY)
       && is_file_url
    then c_bslash else slash in
  let '(flags, slash) :=
    if (nByteLen >=? 8) && memcmp_eq wszRes url 4
    then (clear_flags flags URL_FILE_USE_PATHURL, 0) else (flags, slash) in
  (* Assume path *)
  if peek url 1 =? c_colon then
    let url_copy := store url_copy 0 wszFilePrefix in
    if flag_set flags (Z.lor URL_FILE_USE_PATHURL URL_WININET_COMPATIBILITY)
    then (flags, c_bslash, true, mk_scan url_copy 0 7 state5)
    else (Z.lor flags URL_ESCAPE_UNSAFE, slash, true,
          mk_scan url_copy 0 8 state5)
  else if peek url 0 =? c_slash then
    (flags, slash, true, mk_scan url_copy 0 0 state5)
  else (flags, slash, is_file_url, mk_scan url_copy 0 0 state0).

(** The simplified URL before unescaping and escaping: the string in
    [url_copy] after the scan and the removal of trailing blanks; with it the
    flags as the code has changed them. *)
Definition url_simplify (src_url : list Z) (flags : Z) : Z * list Z :=
  let url := strip_tabs src_url in
  let nByteLen := (Z.of_nat (length url) + 1) * 2 in
  let '(flags, slash, is_file_url, sc) := url_scan_start url flags in
  let sc := url_scan_loop (3 * length url + 3) url flags slash is_file_url
              nByteLen sc in
  let url_copy := u_copy sc in
  (flags, cstr (fst (trim_trailing url_copy (strlenW url_copy)))).

(** [UrlCanonicalizeW(src_url, canonicalized, &canonicalized_len, flags)] for
    non-null pointers: the result code, what was stored in [canonicalized]
    (nothing on failure) and [*canonicalized_len] afterwards. *)
Definition UrlCanonicalizeW (src_url : list Z) (canonicalized_len : Z)
  (flags : Z) : HRESULT * option (list Z) * Z :=
  if canonicalized_len =? 0 then (E_INVALIDARG, None, canonicalized_len)
  else if peek src_url 0 =? 0 then (S_OK, Some [], canonicalized_len)
  else
    let url := strip_tabs src_url in
    let nByteLen := (Z.of_nat (length url) + 1) * 2 in
    let '(flags, url_copy) := url_simplify src_url flags in
    let url_copy :=
      if flag_set flags URL_UNESCAPE
         || (flag_set flags URL_FILE_USE_PATHURL && (nByteLen >=? 10)
             && memcmp_eq wszFile url 5)
      then (* the string left in url_copy, which ends at a decoded NUL *)
        cstr (snd (fst (UrlUnescapeW url_copy (Z.of_nat (length url_copy))
                          URL_UNESCAPE_INPLACE)))
      else url_copy in
    let escape_flags :=
      Z.land flags
        (Z.lor URL_ESCAPE_UNSAFE
           (Z.lor URL_ESCAPE_SPACES_ONLY
              (Z.lor URL_ESCAPE_PERCENT
                 (Z.lor URL_DONT_ESCAPE_EXTRA_INFO URL_ESCAPE_SEGMENT_ONLY)))) in
    if negb (escape_flags =? 0) then
      UrlEscapeW url_copy canonicalized_len
        (clear_flags escape_flags URL_ESCAPE_UNSAFE)
    else
      (* No escaping needed, just copy the string *)
      let nLen := Z.of_nat (length url_copy) in
      if nLen <? canonicalized_len then (S_OK, Some url_copy, nLen)
      else (E_POINTER, None, nLen + 1).

(** ** URL token scanner and parser *)

Inductive url_scan_type : Set := SCHEME | HOST | PORT | USERPASS.

(** The spans parse_url stores: each pointer is an offset into the URL, a
    null pointer is [None]. *)
Record parsed_url : Set := mk_parsed {
  scheme : option nat;
  scheme_len : nat;
  username : option nat;
  username_len : nat;
  password : option nat;
  password_len : nat;
  hostname : option nat;
  hostname_len : nat;
  port : option nat;
  port_len : nat;
  query : option nat;
  query_len : nat
}.

Definition is_scheme_unit (c : Z) : bool :=
  (islowerW c && isalphaW c) || isdigitW c
  || (c =? c_plus) || (c =? c_dash) || (c =? c_dot).

Definition is_host_token_unit (c : Z) : bool :=
  isalnumW c || (c =? c_dash) || (c =? c_dot) || (c =? c_space)
  || (c =? c_star).

Definition is_userpass_unit (c : Z) : bool :=
  isalphaW c || isdigitW c
  (* user/password only characters *)
  || (c =? 59) || (c =? c_qmark) || (c =? c_amp) || (c =? 61)
  (* *extra* characters *)
  || (c =? 33) || (c =? c_star) || (c =? 39) || (c =? 40) || (c =? 41)
  || (c =? 44)
  (* *safe* characters *)
  || (c =? 36) || (c =? 95) || (c =? c_plus) || (c =? c_dash) || (c =? c_dot)
  || (c =? c_space).

(** The units a loop of scan_url skips while its test holds. *)
Fixpoint token_run (test : Z -> bool) (s : list Z) : nat :=
  match s with
  | [] => O
  | c :: t => if test c then S (token_run test t) else O
  end.

(** The same for USERPASS, where a percent sign counts with the two
    hexadecimal digits after it or ends the run. *)
Fixpoint userpass_run (s : list Z) : nat :=
  match s with
  | [] => O
  | c :: t =>
      if is_userpass_unit c then S (userpass_run t)
      else if c =? c_percent then
        match t with
        | h1 :: h2 :: t' =>
            if isxdigitW h1 && isxdigitW h2 then (3 + userpass_run t')%nat
            else O
        | _ => O
        end
      else O
  end.

(** [scan_url(url + start, &size, type)]: the offset returned and [*size]. *)
Definition scan_url (url : list Z) (start : nat) (type : url_scan_type)
  : nat * nat :=
  let s := skipn start url in
  match type with
  | SCHEME =>
      let n := token_run is_scheme_unit s in
      ((start + n)%nat,
       if negb (peek url (start + n) =? c_colon) then O else n)
  | USERPASS => let n := userpass_run s in ((start + n)%nat, n)
  | PORT => let n := token_run isdigitW s in ((start + n)%nat, n)
  | HOST => let n := token_run is_host_token_unit s in ((start + n)%nat, n)
  end.

(** From "now start parsing hostname or hostnumber" to SuccessExit; [work]
    is the offset before the increment. *)
Definition parse_host (url : list Z) (pl : parsed_url) (work : nat)
  : parsed_url :=
  let work := S work in
  let (work', hlen) := scan_url url work HOST in
  let pl := mk_parsed (scheme pl) (scheme_len pl) (username pl)
              (username_len pl) (password pl) (password_len pl)
              (Some work) hlen (port pl) (port_len pl) (query pl)
              (query_len pl) in
  let '(pl, work') :=
    if peek url work' =? c_colon then
      (* parse port *)
      let (work'', plen) := scan_url url (S work') PORT in
      (mk_parsed (scheme pl) (scheme_len pl) (username pl) (username_len pl)
         (password pl) (password_len pl) (hostname pl) (hostname_len pl)
         (Some (S work')) plen (query pl) (query_len pl), work'')
    else (pl, work') in
  if peek url work' =? c_slash then
    (* see if query string *)
    match strchrW (skipn work' url) c_qmark with
    | Some q =>
        mk_parsed (scheme pl) (scheme_len pl) (username pl) (username_len pl)
          (password pl) (password_len pl) (hostname pl) (hostname_len pl)
          (port pl) (port_len pl) (Some (work' + q)%nat)
          (length (cstr_at url (work' + q)))
    | None => pl
    end
  else pl.

(** [parse_url(url, &pl)]: the result code and [pl] afterwards. *)
Definition parse_url (url : list Z) : HRESULT * parsed_url :=
  let (work, slen) := scan_url url 0 SCHEME in
  let pl := mk_parsed (Some O) slen None O None O None O None O None O in
  if (peek url work =? 0) || negb (peek url work =? c_colon)
  then (E_INVALIDARG, pl)
  else
    let work := S work in
    if negb (peek url work =? c_slash) || negb (peek url (S work) =? c_slash)
    then (S_OK, pl)
    else
      let user := (work + 2)%nat in
      let (work, ulen) := scan_url url user USERPASS in
      let pl := mk_parsed (scheme pl) (scheme_len pl) (Some user) ulen
                  None O None O None O None O in
      if peek url work =? c_colon then
        (* parse password *)
        let pass := S work in
        let (work, plen) := scan_url url pass USERPASS in
        if negb (peek url work =? c_at) then
          (* what we just parsed must be the hostname and port
             so reset pointers and clear then let it parse *)
          (S_OK, parse_host url
                   (mk_parsed (scheme pl) (scheme_len pl) None O None O
                      None O None O None O)
                   (user - 1))
        else
          (S_OK, parse_host url
                   (mk_parsed (scheme pl) (scheme_len pl) (Some user) ulen
                      (Some pass) plen None O None O None O)
                   work)
      else if peek url work =? c_at then
        (* no password *)
        (S_OK, parse_host url pl work)
      else if (peek url work =? 0) || (peek url work =? c_slash)
              || (peek url work =? c_dot) then
        (* what was parsed was hostname, so reset pointers and let it parse *)
        (S_OK, parse_host url
                 (mk_parsed (scheme pl) (scheme_len pl) None O None O
                    None O None O None O)
                 (user - 1))
      else (E_INVALIDARG, pl).

(** ** PathCch extension helpers *)

(** Modelled from the spec: FAILED of winerror.h; of the result codes above,
    S_OK and S_FALSE are the successes. *)
Definition FAILED (hr : HRESULT) : bool :=
  match hr with
  | S_OK | S_FALSE => false
  | _ => true
  end.

(** [strnlenW(string, maxlen)]: the units before the terminator, [maxlen] at
    most. *)
Fixpoint strnlenW (string : list Z) (maxlen : nat) : nat :=
  match string, maxlen with
  | c :: t, S m => if c =? 0 then O else S (strnlenW t m)
  | _, _ => O
  end.

(** [while ( *path )] of PathCchFindExtension on the units [s] that begin at
    offset [i], which is also the value of [counter]: the offset stored in
    [*extension], or [None] where the loop returns E_INVALIDARG. *)
Fixpoint find_extension (s : list Z) (i : nat) (lastpoint : option nat)
  (size : Z) : option nat :=
  match s with
  | [] => Some (match lastpoint with Some l => l | None => i end)
  | c :: t =>
      if c =? 0 then Some (match lastpoint with Some l => l | None => i end)
      else
        let lastpoint :=
          if (c =? c_bslash) || (c =? c_space) then None
          else if c =? c_dot then Some i
          else lastpoint in
        if (Z.of_nat (S i) =? size) || (Z.of_nat (S i) =? PATHCCH_MAX_CCH)
        then None
        else find_extension t (S i) lastpoint size
  end.

(** [PathCchFindExtension(path, size, &extension)] for non-null pointers:
    the result code and [*extension] as an offset into [path]. *)
Definition PathCchFindExtension (path : list Z) (size : Z)
  : HRESULT * option nat :=
  if (size =? 0) || (PATHCCH_MAX_CCH <? size) then (E_INVALIDARG, None)
  else
    match find_extension path 0 None size with
    | Some e => (S_OK, Some e)
    | None => (E_INVALIDARG, None)
    end.

(** [while (next - path < size && *next) *next++ = 0] on the units [s] that
    begin at offset [next]: the units afterwards and the final [next]. *)
Fixpoint clear_run (s : list Z) (next : nat) (size : Z) : list Z * nat :=
  match s with
  | [] => ([], next)
  | c :: t =>
      if (Z.of_nat next <? size) && negb (c =? 0) then
        let (t', next') := clear_run t (S next) size in (0 :: t', next')
      else (s, next)
  end.

Definition PathCchRemoveExtension (path : list Z) (size : Z)
  : HRESULT * list Z :=
  if (size =? 0) || (PATHCCH_MAX_CCH <? size) then (E_INVALIDARG, path)
  else
    match PathCchFindExtension path size with
    | (S_OK, Some extension) =>
        let (tail, next) := clear_run (skipn extension path) extension size in
        (if (next =? extension)%nat then S_FALSE else S_OK,
         firstn extension path ++ tail)
    | (hr, _) => (hr, path)
    end.

(** The test PathCchAddExtension makes of the units of [extension]: a '.'
    that is not the first unit, a space or a backslash is refused. *)
Fixpoint extension_units_ok (extension : list Z) (first : bool) : bool :=
  match extension with
  | [] => true
  | c :: t =>
      if c =? 0 then true
      else if ((c =? c_dot) && negb first) || (c =? c_space) || (c =? c_bslash)
      then false
      else extension_units_ok t false
  end.

Definition PathCchAddExtension (path : list Z) (size : Z)
  (extension : list Z) : HRESULT * list Z :=
  if (size =? 0) || (PATHCCH_MAX_CCH <? size) then (E_INVALIDARG, path)
  else if negb (extension_units_ok extension true) then (E_INVALIDARG, path)
  else
    let has_dot := peek extension 0 =? c_dot in
    match PathCchFindExtension path size with
    | (S_OK, Some existing_extension) =>
        if negb (peek path existing_extension =? 0) then (S_FALSE, path)
        else
          let path_length := strnlenW path (Z.to_nat size) in
          let dot_length := if has_dot then 0%nat else 1%nat in
          let extension_length := strlenW extension in
          if Z.of_nat (path_length + dot_length + extension_length + 1) >? size
          then (STRSAFE_E_INSUFFICIENT_BUFFER, path)
          (* If extension is empty or only dot, return S_OK with path unchanged *)
          else if (peek extension 0 =? 0)
                  || ((peek extension 0 =? c_dot) && (peek extension 1 =? 0))
          then (S_OK, path)
          else
            let path := if has_dot then path else poke path path_length c_dot in
            let path_length := if has_dot then path_length else S path_length in
            (S_OK, strcpyW path path_length (cstr extension))
    | (hr, _) => (hr, path)
    end.

Definition PathCchRenameExtension (path : list Z) (size : Z)
  (extension : list Z) : HRESULT * list Z :=
  let (hr, path) := PathCchRemoveExtension path size in
  if FAILED hr then (hr, path)
  else
    let (hr, path) := PathCchAddExtension path size extension in
    (if FAILED hr then hr else S_OK, path).

(** ** Roots, backslashes and file specifications of PathCch *)

Definition PathCchIsRoot (path : list Z) : bool :=
  if peek path 0 =? 0 then false
  else
    match get_root_end path with
    | None => false
    | Some root_end =>
        let is_unc := is_prefixed_unc path in
        if is_unc || ((peek path 0 =? c_bslash) && (peek path 1 =? c_bslash)
                      && negb (peek path 2 =? c_qmark)) then
          let next := S root_end in
          (* No extra segments *)
          if (is_unc && (peek path next =? 0))
             || (negb is_unc && (peek path next =? 0)) then true
          else
            let (ended, next) := get_next_segment path next in
            (* Has first segment with an ending backslash but no remaining
               characters *)
            if ended && (peek path next =? 0) then false
            (* Has first segment with no ending backslash *)
            else if peek path next =? 0 then true
            (* Has first segment with an ending backslash and has remaining
               characters *)
            else
              let next := S next in
              (* Second segment must have no backslash and no remaining
                 characters *)
              let (ended, next) := get_next_segment path next in
              negb ended && (peek path next =? 0)
        else (peek path root_end =? c_bslash) && (peek path (S root_end) =? 0)
    end.

(** [PathCchRemoveBackslashEx(path, path_size, &path_end, &free_size)] with
    both pointers given, as PathCchRemoveBackslash passes them: the result
    code, the buffer, and what is stored in [*path_end] and [*free_size],
    [None] when they are left as they were. *)
Definition PathCchRemoveBackslashEx (path : list Z) (path_size : Z)
  : HRESULT * list Z * option (option nat * Z) :=
  if path_size =? 0 then (E_INVALIDARG, path, Some (None, 0))
  else
    let path_length := strnlenW path (Z.to_nat path_size) in
    if (Z.of_nat path_length =? path_size) && (peek path path_length =? 0)
    then (E_INVALIDARG, path, None)
    else
      let root_end := get_root_end path in
      if (0 <? path_length)%nat && (peek path (path_length - 1) =? c_bslash)
      then
        let out := Some (Some (path_length - 1)%nat,
                         path_size - Z.of_nat path_length + 1) in
        (* If the last character is beyond end of root *)
        if match root_end with
           | None => true
           | Some e => (e <? path_length - 1)%nat
           end
        then (S_OK, poke path (path_length - 1) 0, out)
        else (S_FALSE, path, out)
      else (S_FALSE, path,
            Some (Some path_length, path_size - Z.of_nat path_length)).

Definition PathCchRemoveBackslash (path : list Z) (path_size : Z)
  : HRESULT * list Z :=
  fst (PathCchRemoveBackslashEx path path_size).

(** The loop of PathCchRemoveFileSpec, with [n] for [last - path + 1]:
    whether it ran without refusing, the buffer and [n] as it leaves them. *)
Fixpoint remove_file_spec (path : list Z) (n : nat) (root_end : option nat)
  (size : Z) : bool * list Z * nat :=
  match n with
  | O => (true, path, O)
  | S last =>
      if match root_end with
         | None => true
         | Some r => (r <=? last)%nat
         end
      then
        if Z.of_nat last >=? size then (false, path, n)
        else if peek path last =? c_bslash then (true, poke path last 0, last)
        else remove_file_spec (poke path last 0) last root_end size
      else (true, path, n)
  end.

(** The [root_end] below which PathCchRemoveFileSpec clears nothing: that
    of PathCchSkipRoot, stepped back over the backslash that ends a UNC
    root. *)
Definition file_spec_root_end (path : list Z) : option nat :=
  match snd (PathCchSkipRoot path) with
  | Some r =>
      (* The backslash at the end of UNC and \\* are not considered part of
         root in this case *)
      if (0 <? r)%nat && (peek path (r - 1) =? c_bslash)
         && (is_prefixed_unc path
             || ((peek path 0 =? c_bslash) && (peek path 1 =? c_bslash)
                 && negb (peek path 2 =? c_qmark)))
      then Some (r - 1)%nat else Some r
  | None => None
  end.

Definition PathCchRemoveFileSpec (path : list Z) (size : Z)
  : HRESULT * list Z :=
  if (size =? 0) || (PATHCCH_MAX_CCH <? size) then (E_INVALIDARG, path)
  else if PathCchIsRoot path then (S_FALSE, path)
  else
    let root_end := file_spec_root_end path in
    let length := strlenW path in
    match remove_file_spec path length root_end size with
    | (false, path, _) => (E_INVALIDARG, path)
    | (true, path, n) =>
        (if negb (n =? length)%nat then S_OK else S_FALSE, path)
    end.

(** [PathIsUNCEx(path, &server)]: the result and [*server]. *)
Definition PathIsUNCEx (path : list Z) : bool * option nat :=
  let result :=
    if is_prefixed_unc path then Some 8%nat
    else if (peek path 0 =? c_bslash) && (peek path 1 =? c_bslash)
            && negb (peek path 2 =? c_qmark) then Some 2%nat
    else None in
  (match result with Some _ => true | None => false end, result).

(** ** Extensions, blanks, quotes and file names of the MAX_PATH functions *)

(** The loop of PathFindExtensionW from offset [i] on. *)
Fixpoint find_extension_from (s : list Z) (i : nat) (lastpoint : option nat)
  : nat :=
  match s with
  | [] => match lastpoint with Some l => l | None => i end
  | c :: t =>
      if c =? 0 then match lastpoint with Some l => l | None => i end
      else
        let lastpoint :=
          if (c =? c_bslash) || (c =? c_space) then None
          else if c =? c_dot then Some i
          else lastpoint in
        find_extension_from t (S i) lastpoint
  end.

(** [PathFindExtensionW(path) - path] for a non-null path. *)
Definition PathFindExtensionW (path : list Z) : nat :=
  find_extension_from path 0 None.

Definition PathRemoveExtensionW (path : list Z) : list Z :=
  let extension := PathFindExtensionW path in
  if peek path extension =? 0 then poke path extension 0 else path.

Definition PathAddExtensionW (path ext : list Z) : bool * list Z :=
  if negb (peek path (PathFindExtensionW path) =? 0) then (false, path)
  else
    let len := strlenW path in
    if Z.of_nat (len + strlenW ext) >=? MAX_PATH then (false, path)
    else (true, strcpyW path len (cstr ext)).

Definition PathRenameExtensionW (path ext : list Z) : bool * list Z :=
  let extension := PathFindExtensionW path in
  if Z.of_nat (extension + strlenW ext) >=? MAX_PATH then (false, path)
  else (true, strcpyW path extension (cstr ext)).

(** The blanks at the head of a string. *)
Fixpoint blank_run (s : list Z) : nat :=
  match s with
  | c :: t => if c =? c_space then S (blank_run t) else O
  | [] => O
  end.

(** [while (start[-1] == ' ') start--;] of PathRemoveBlanksW: where [start]
    comes to rest, or [None] when the loop gets to read [path[-1]], the unit
    before the buffer. *)
Fixpoint back_over_blanks (path : list Z) (start : nat) : option nat :=
  match start with
  | O => None
  | S before =>
      if peek path before =? c_space then back_over_blanks path before
      else Some start
  end.

(** [PathRemoveBlanksW(path)] for a non-null path; the copy loop moves the
    units down one by one, reading each before any store reaches it. *)
Definition PathRemoveBlanksW (path : list Z) : option (list Z) :=
  if peek path 0 =? 0 then Some path
  else
    let first := blank_run path in
    let moved := cstr_at path first in
    let buffer := store path 0 moved in
    let start := length moved in
    let path_end := (first + length moved)%nat in
    if negb (start =? path_end)%nat then
      match back_over_blanks buffer start with
      | Some start => Some (poke buffer start 0)
      | None => None
      end
    else Some (poke buffer start 0).

(** [PathQuoteSpacesW(path)] for a non-null path. StrChrW of shlwapi.h,
    which path.c calls but does not define, is a parameter: the offset of
    the first occurrence of a unit in a string, if there is one. *)
Definition PathQuoteSpacesW (StrChrW : list Z -> Z -> option nat)
  (path : list Z) : list Z :=
  match StrChrW path c_space with
  | Some _ =>
      let len := (strlenW path + 1)%nat in
      if Z.of_nat len + 2 <? MAX_PATH then
        (* memmove(path + 1, path, len * sizeof(WCHAR)) *)
        let path := store path 1 (firstn len path) in
        let path := poke path 0 c_quote in
        let path := poke path len c_quote in
        poke path (len + 1) 0
      else path
  | None => path
  end.

(** [for (; *path; path++) *path = path[1];] *)
Fixpoint shift_left (path : list Z) : list Z :=
  match path with
  | [] => []
  | c :: t => if c =? 0 then path else peek t 0 :: shift_left t
  end.

Definition PathUnquoteSpacesW (path : list Z) : list Z :=
  if negb (peek path 0 =? c_quote) then path
  else
    let len := (strlenW path - 1)%nat in
    if peek path len =? c_quote then shift_left (poke path len 0) else path.

(** The counting loop of PathIsLFNFileSpecW. *)
Fixpoint lfn_scan (path : list Z) (name_len ext_len : nat) : bool :=
  match path with
  | [] => false
  | c :: t =>
      if c =? 0 then false (* Valid DOS path *)
      else if c =? c_space then true (* DOS names cannot have spaces *)
      else if c =? c_dot then
        if negb (ext_len =? 0)%nat then true (* DOS names have only one dot *)
        else lfn_scan t name_len 1
      else if negb (ext_len =? 0)%nat then
        (* DOS extensions are <= 3 chars *)
        if (4 <? S ext_len)%nat then true else lfn_scan t name_len (S ext_len)
      else
        (* DOS names are <= 8 chars *)
        if (8 <? S name_len)%nat then true else lfn_scan t (S name_len) ext_len
  end.

Definition PathIsLFNFileSpecW (path : list Z) : bool := lfn_scan path 0 0.

(** The loop of PathFindFileNameW from offset [i] on. *)
Fixpoint find_file_name (path : list Z) (i last_slash : nat) : nat :=
  match path with
  | [] => last_slash
  | c :: t =>
      if c =? 0 then last_slash
      else
        let last_slash :=
          if ((c =? c_bslash) || (c =? c_slash) || (c =? c_colon))
             && negb (peek t 0 =? 0) && negb (peek t 0 =? c_bslash)
             && negb (peek t 0 =? c_slash)
          then S i else last_slash in
        find_file_name t (S i) last_slash
  end.

(** [PathFindFileNameW(path) - path]. *)
Definition PathFindFileNameW (path : list Z) : nat := find_file_name path 0 0.

Definition PathStripPathW (path : list Z) : list Z :=
  let filename := PathFindFileNameW path in
  if negb (filename =? 0)%nat
  then (* RtlMoveMemory(path, filename, ...) *)
    strcpyW path 0 (cstr_at path filename)
  else path.

(** ** Matching a name against a mask *)

(** The loop that steps over the asterisks at the head of the mask. *)
Fixpoint skip_stars (mask : list Z) : list Z :=
  match mask with
  | c :: t => if c =? c_star then skip_stars t else mask
  | [] => []
  end.

(** What path_match_maskW does once its loop is left; 59 is ';'. *)
Definition mask_left (name mask : list Z) : bool :=
  if peek name 0 =? 0 then
    let mask := skip_stars mask in
    (peek mask 0 =? 0) || (peek mask 0 =? 59)
  else false.

(** The do-while loop that tries the name and each of its suffixes, the
    empty one at the terminator included, and returns FALSE when none
    matches. *)
Fixpoint try_substrings (matches : list Z -> bool) (name : list Z) : bool :=
  if matches name then true (* try substrings *)
  else
    match name with
    | [] => false
    | c :: t => if c =? 0 then false else try_substrings matches t
    end.

(** path_match_maskW; toupperW of wine/unicode.h, which looks a unit up in
    a table of libs/port, is a parameter. *)
Fixpoint path_match_maskW (toupperW : Z -> Z) (name mask : list Z)
  {struct mask} : bool :=
  match mask with
  | [] => mask_left name mask
  | m :: mask1 =>
      if negb (peek name 0 =? 0) && negb (m =? 0) && negb (m =? 59) then
        if m =? c_star then
          try_substrings (fun name => path_match_maskW toupperW name mask1)
            name
        else if negb (toupperW m =? toupperW (peek name 0))
                && negb (m =? c_qmark)
        then false
        else path_match_maskW toupperW (tl name) mask1
      else mask_left name mask
  end.

(** ** URL predicates *)

(** [PathIsURLW(path)] for a non-null path. *)
Definition PathIsURLW (path : list Z) : bool :=
  if peek path 0 =? 0 then false
  else
    (* get protocol *)
    match ParseURLW path with
    | (S_OK, Some base) =>
        match nScheme base with
        | URL_SCHEME_INVALID => false
        | _ => true
        end
    | _ => false
    end.

(** [UrlCompareW(url1, url2, ignore_slash)]. strcmpW of wine/unicode.h is a
    parameter. With [ignore_slash] set the code reads [url[len - 1]], which
    for an empty URL is the unit before the buffer: the result is [None]
    then. *)
Definition UrlCompareW (strcmpW : list Z -> list Z -> Z) (url1 url2 : list Z)
  (ignore_slash : bool) : option Z :=
  if negb ignore_slash then Some (strcmpW url1 url2)
  else
    let len1 := strlenW url1 in
    let len2 := strlenW url2 in
    if (len1 =? 0)%nat || (len2 =? 0)%nat then None
    else
      let len1 :=
        if peek url1 (len1 - 1) =? c_slash then (len1 - 1)%nat else len1 in
      let len2 :=
        if peek url2 (len2 - 1) =? c_slash then (len2 - 1)%nat else len2 in
      if (len1 =? len2)%nat then Some (strncmpW url1 url2 len1)
      else
        let len := Nat.min len1 len2 in
        let ret := strncmpW url1 url2 len in
        if negb (ret =? 0) then Some ret
        else if (len2 <? len1)%nat then Some 1
        else Some (-1).

(** ** Stripping a path to its root, the MAX_PATH way *)

(** The loop of PathIsRootW that checks for a UNC root path. *)
Fixpoint unc_root_scan (path : list Z) (seen_slash : bool) : bool :=
  match path with
  | [] => true
  | c :: t =>
      if c =? 0 then true
      else if c =? c_bslash then
        if seen_slash then false else unc_root_scan t true
      else unc_root_scan t seen_slash
  end.

Definition PathIsRootW (path : list Z) : bool :=
  if peek path 0 =? 0 then false
  else if peek path 0 =? c_bslash then
    if peek path 1 =? 0 then true (* \ *)
    else if peek path 1 =? c_bslash then unc_root_scan (skipn 2 path) false
    else false
  else (peek path 1 =? c_colon) && (peek path 2 =? c_bslash)
       && (peek path 3 =? 0). (* X:\ *)

(** The loop of PathRemoveFileSpecW from offset [i] on: where [filespec]
    points when it ends. After a ':' the cursor moves on twice, whatever
    the unit in between. *)
Fixpoint file_spec_scan (path : list Z) (i filespec : nat) : nat :=
  match path with
  | [] => filespec
  | c :: t =>
      if c =? 0 then filespec
      else if c =? c_bslash then file_spec_scan t (S i) i (* Skip dir *)
      else if c =? c_colon then
        (* Skip drive *)
        match t with
        | [] => S i
        | d :: t' =>
            file_spec_scan t' (S (S i))
              (if d =? c_bslash then S (S i) else S i)
        end
      else file_spec_scan t (S i) filespec
  end.

(** [PathRemoveFileSpecW(path)] for a non-null path: whether the path was
    modified, and the buffer. *)
Definition PathRemoveFileSpecW (path : list Z) : bool * list Z :=
  (* Skip directory or UNC path *)
  let i := if peek path 0 =? c_bslash then 1%nat else 0%nat in
  let i := if peek path i =? c_bslash then S i else i in
  let filespec := file_spec_scan (skipn i path) i i in
  if negb (peek path filespec =? 0) then (true, poke path filespec 0)
  else (false, path).

(** The loop of PathStripToRootW, for [fuel] turns at most. *)
Fixpoint strip_to_root (fuel : nat) (path : list Z)
  : option (bool * list Z) :=
  match fuel with
  | O => None
  | S fuel' =>
      if PathIsRootW path then Some (true, path)
      else
        let (modified, path) := PathRemoveFileSpecW path in
        if modified then strip_to_root fuel' path else Some (false, path)
  end.

(** [PathStripToRootW(path)] for a non-null path; every turn but the last
    clears a unit of the buffer, so one turn more than it has units is
    enough. *)
Definition PathStripToRootW (path : list Z) : option (bool * list Z) :=
  strip_to_root (S (length path)) path.

(** ** Common prefixes *)

Definition PathIsUNCW (path : list Z) : bool :=
  (peek path 0 =? c_bslash) && (peek path 1 =? c_bslash).

(** The loop of PathCommonPrefixW, with [i] for [iter1 - file1]. *)
Fixpoint common_prefix_scan (iter1 iter2 : list Z) (i len : nat) : nat :=
  let c1 := peek iter1 0 in
  let c2 := peek iter2 0 in
  (* Update len *)
  let len :=
    if ((c1 =? 0) || (c1 =? c_bslash)) && ((c2 =? 0) || (c2 =? c_bslash))
    then i (* Common to this point *) else len in
  match iter1 with
  | [] => len
  | _ :: t1 =>
      if (c1 =? 0) || negb (tolowerW c1 =? tolowerW c2)
      then len (* Strings differ at this point *)
      else common_prefix_scan t1 (tl iter2) (S i) len
  end.

(** [PathCommonPrefixW(file1, file2, path)] for non-null files: the length
    returned and the buffer [path], if one is given. *)
Definition PathCommonPrefixW (file1 file2 : list Z) (path : option (list Z))
  : nat * option (list Z) :=
  let path := option_map (fun p => poke p 0 0) path in
  (* Handle roots first *)
  if PathIsUNCW file1 && negb (PathIsUNCW file2) then (O, path)
  else if negb (PathIsUNCW file1) && PathIsUNCW file2 then (O, path)
  else
    let start := if PathIsUNCW file1 then 2%nat else 0%nat in
    let len :=
      common_prefix_scan (skipn start file1) (skipn start file2) start 0 in
    (* Feature/Bug compatible with Win32 *)
    let len := if (len =? 2)%nat then S len else len in
    (len,
     if negb (len =? 0)%nat then
       option_map
         (fun p => poke (store p 0 (map (peek file1) (seq 0 len))) len 0)
         path
     else path).

Definition PathIsPrefixW (prefix path : list Z) : bool :=
  (fst (PathCommonPrefixW path prefix None) =? strlenW prefix)%nat.

(** ** UNC servers *)

(** The loop of PathIsUNCServerA from offset [i] on, for [fuel] turns at
    most ([None] when they do not suffice). CharNextA of user32, which
    gives the offset of the next character of a multi-byte string, is a
    parameter. *)
Fixpoint unc_server_scan (CharNextA : list Z -> nat -> nat) (fuel : nat)
  (path : list Z) (i : nat) : option bool :=
  match fuel with
  | O => None
  | S fuel' =>
      if peek path i =? 0 then Some true
      else if peek path i =? c_bslash then Some false
      else unc_server_scan CharNextA fuel' path (CharNextA path i)
  end.

(** [PathIsUNCServerA(path)] for a non-null path; the loop starts at
    [path] itself. *)
Definition PathIsUNCServerA (CharNextA : list Z -> nat -> nat)
  (path : list Z) : option bool :=
  if negb ((peek path 0 =? c_bslash) && (peek path 1 =? c_bslash))
  then Some false
  else unc_server_scan CharNextA (S (length path)) path 0.

Definition PathIsUNCServerW (path : list Z) : bool :=
  if negb ((peek path 0 =? c_bslash) && (peek path 1 =? c_bslash))
  then false
  else
    match strchrW (skipn 2 path) c_bslash with
    | Some _ => false
    | None => true
    end.

(** ** Canonicalizing into a buffer *)

Definition PathCchCanonicalizeEx (out : list Z) (size : Z)
  (path_in : list Z) (flags : Z) : HRESULT * list Z :=
  if size =? 0 then (E_INVALIDARG, out)
  else
    match PathAllocCanonicalize path_in flags with
    | (hr, Some buffer) =>
        if FAILED hr then (hr, out)
        else
          let length := strlenW buffer in
          let hr :=
            if size <? Z.of_nat length + 1 then
              (* No root and path > MAX_PATH - 4, return
                 HRESULT_FROM_WIN32(ERROR_FILENAME_EXCED_RANGE) *)
              if (Z.of_nat length >? MAX_PATH - 4)
                 && negb ((peek path_in 0 =? c_bslash)
                          || (isalphaW (peek path_in 0)
                              && (peek path_in 1 =? c_colon)
                              && (peek path_in 2 =? c_bslash)))
              then E_FILENAME_EXCED_RANGE
              else STRSAFE_E_INSUFFICIENT_BUFFER
            else hr in
          if negb (FAILED hr) then
            (* memcpy(out, buffer, (length + 1) * sizeof(WCHAR)) *)
            let out :=
              store out 0 (map (peek buffer) (seq 0 (length + 1))) in
            (* Fill a backslash at the end of X: *)
            if isalphaW (peek out 0) && (peek out 1 =? c_colon)
               && (peek out 2 =? 0) && (3 <? size)
            then (hr, poke (poke out 2 c_bslash) 3 0)
            else (hr, out)
          else (hr, out)
    | (hr, None) => (hr, out)
    end.

Definition PathCchCanonicalize (out : list Z) (size : Z) (path_in : list Z)
  : HRESULT * list Z :=
  (* Not X:\ and path > MAX_PATH - 4, return
     HRESULT_FROM_WIN32(ERROR_FILENAME_EXCED_RANGE) *)
  if (Z.of_nat (strlenW path_in) >? MAX_PATH - 4)
     && negb (isalphaW (peek path_in 0) && (peek path_in 1 =? c_colon)
              && (peek path_in 2 =? c_bslash))
  then (E_FILENAME_EXCED_RANGE, out)
  else PathCchCanonicalizeEx out size path_in 0.

(** * Vocabulary of the properties *)

(** A string free of NUL. *)
Definition nonzero (s : list Z) : Prop := Forall (fun c => c <> 0) s.

(** What the segment loop keeps true of its cursors and of the buffer of
    [length + 6] units. *)
Record canon_safe (path_in : list Z) (st : canon_state) : Prop := {
  safe_dst : (c_dst st <= c_src st)%nat;
  safe_src : (c_src st <= strlenW path_in)%nat;
  safe_zero : forall i, (c_src st <= i)%nat -> peek (c_buffer st) i = 0;
  safe_len : length (c_buffer st) = (strlenW path_in + 6)%nat
}.

(** Every '.' of the path stands inside a name, as in "a.b" and "a..b": the
    unit before it is no backslash and the unit after it is neither a
    backslash nor the terminator. *)
Definition interior_dots (s : list Z) : Prop :=
  forall i, peek s i = c_dot ->
            (0 < i)%nat /\ peek s (i - 1) <> c_bslash
            /\ peek s (S i) <> c_bslash /\ peek s (S i) <> 0.

(** [k] copies of "..\". *)
Fixpoint dotdots (k : nat) : list Z :=
  match k with
  | O => []
  | S k' => [c_dot; c_dot; c_bslash] ++ dotdots k'
  end.

(** The root "X:\" of a drive-absolute path. *)
Definition drive_root (root : list Z) : Prop :=
  exists x, isalphaW x = true /\ root = [x; c_colon; c_bslash].

(** No two dots in a row. *)
Definition no_dotdot (tail : list Z) : Prop :=
  forall i, ~ (peek tail i = c_dot /\ peek tail (S i) = c_dot).

(** What the segment loop keeps of a root of [N] units: the units
    themselves, the cursor behind them and a root boundary no lower than
    the classifier's. *)
Record root_kept (root : list Z) (st : canon_state) : Prop := {
  kept_units : firstn (length root) (c_buffer st) = root;
  kept_dst : (length root <= c_dst st)%nat;
  kept_end : exists r, c_root_end st = Some r /\ (length root <= S r)%nat;
  kept_len : (length root + 3 <= length (c_buffer st))%nat
}.

(** The turns of the segment loop (its [flags] are 0 here) that consume the
    copies of "..\" right behind the root: the cursor stays on the root
    boundary, so nothing is removed. *)
Definition at_root_boundary (st : canon_state) : Prop :=
  exists r, c_root_end st = Some r /\ c_dst st = S r
            /\ peek (c_buffer st) r <> c_star.

(** The cursor has kept the root and either the root is "X:\", or the tail
    has no ".." and the cursor stands on one of the copies of "..\" or in
    the tail. *)
Definition root_safe (root : list Z) (k : nat) (tail : list Z)
  (st : canon_state) : Prop :=
  root_kept root st
  /\ (drive_root root
      \/ (no_dotdot tail
          /\ ((exists j, (j <= k)%nat
                         /\ c_src st = (length root + 3 * j)%nat
                         /\ at_root_boundary st)
              \/ (length root + 3 * k <= c_src st)%nat))).

(** What the loop of UrlEscapeW stores for the string [s] when it neither
    turns backslashes into slashes nor collapses slashes nor encodes UTF-8:
    unit by unit, a unit or its percent-encoding. *)
Fixpoint escape_units (flags int_flags : Z) (stop_escaping : bool)
  (s : list Z) : list Z :=
  match s with
  | [] => []
  | cur :: t =>
      let stop_escaping :=
        stop_escaping
        || ((cur =? c_hash) && flag_set int_flags WINE_URL_STOP_ON_HASH)
        || ((cur =? c_qmark) && flag_set int_flags WINE_URL_STOP_ON_QUESTION) in
      (if url_needs_escape cur flags int_flags && negb stop_escaping
       then percent_byte cur else [cur])
        ++ escape_units flags int_flags stop_escaping t
  end.

(** Whether UrlEscapeW may rewrite slashes in [url]: unless
    URL_ESCAPE_SEGMENT_ONLY is in force, it collapses slashes and turns
    backslashes into slashes in a file URL, and turns backslashes into
    slashes in an http or https URL. *)
Definition rewrites_slashes (url : list Z) (flags : Z) : bool :=
  negb (flag_set (escape_fix_flags flags) URL_ESCAPE_SEGMENT_ONLY)
  && match snd (ParseURLW url) with
     | Some p =>
         match nScheme p with
         | URL_SCHEME_FILE => true
         | URL_SCHEME_HTTP | URL_SCHEME_HTTPS =>
             existsb (fun c => c =? c_bslash) url
         | _ => false
         end
     | None => false
     end.

(** A path without the device prefix that PathCchStripPrefix removes:
    "\\?\UNC\a" becomes "\\a" and "\\?\C:\" becomes "C:\". *)
Definition strip_device_prefix (s : list Z) : list Z :=
  if is_prefixed_unc s then firstn 2 s ++ skipn 8 s
  else if is_prefixed_disk s then skipn 4 s
  else s.

(** A path with a backslash at its end, added unless the path is empty or
    has one. *)
Definition with_trailing_backslash (s : list Z) : list Z :=
  if (length s =? 0)%nat || (peek s (length s - 1) =? c_bslash) then s
  else s ++ [c_bslash].

(** What holds of the scan once the "file://" prefix is stored: the first
    [p] units of [url_copy] are those of the prefix, the output cursor is
    behind them, and the scan is in none of the scheme states. *)
Record file_prefixed (p : nat) (sc : url_scan) : Prop := {
  fp_prefix : firstn p (u_copy sc) = firstn p wszFilePrefix;
  fp_wk2 : (p <= u_wk2 sc)%nat;
  fp_state : u_state sc = state3 \/ u_state sc = state5
             \/ (u_state sc = state6 /\ (p < u_wk2 sc)%nat)
}.

(** The slash counter of UrlEscapeW is still 0 unless the cursor is past the
    start of the suffix. *)
Definition slashes_counted (parsed : option PARSEDURLW) (st : escape_state)
  : Prop :=
  e_slashes st = 0%nat
  \/ match parsed with
     | Some p => (cchProtocol p + 1 < e_src st)%nat
     | None => True
     end.

(** The turns the scan of UrlCanonicalizeW may still take: one in state 3,
    which copies the rest, and otherwise no more than the units left plus
    the turn that gives up and the turn of state 3. *)
Definition scan_rank (url : list Z) (sc : url_scan) : nat :=
  match u_state sc with
  | state3 => 1
  | _ => length url - u_wk1 sc + 2
  end.

(** [e] is where the extension of the string [s] begins: at its last '.' if
    neither a backslash nor a space follows that '.', and at its end
    otherwise. *)
Definition extension_at (s : list Z) (e : nat) : Prop :=
  (e <= length s)%nat
  /\ (forall i, (e < i < length s)%nat ->
        peek s i <> c_dot /\ peek s i <> c_bslash /\ peek s i <> c_space)
  /\ ((e < length s)%nat -> peek s e = c_dot)
  /\ (e = length s ->
      forall i, (i < length s)%nat -> peek s i = c_dot ->
        exists j, (i < j < length s)%nat
                  /\ (peek s j = c_bslash \/ peek s j = c_space)).

(** What the loop of PathCchFindExtension knows of [lastpoint] when it
    stands at offset [i] of the string [s]. *)
Definition last_point_upto (s : list Z) (i : nat) (lastpoint : option nat)
  : Prop :=
  match lastpoint with
  | Some l =>
      (l < i)%nat /\ peek s l = c_dot
      /\ forall j, (l < j < i)%nat ->
           peek s j <> c_dot /\ peek s j <> c_bslash /\ peek s j <> c_space
  | None =>
      forall j, (j < i)%nat -> peek s j = c_dot ->
        exists k, (j < k < i)%nat
                  /\ (peek s k = c_bslash \/ peek s k = c_space)
  end.

(** An extension with its dot: PathCchAddExtension supplies the dot when the
    extension comes without one. *)
Definition dotted_extension (extension : list Z) : list Z :=
  if peek extension 0 =? c_dot then extension else c_dot :: extension.

(** A buffer that held the string [s] before the units [r], with the string
    cleared from offset [n] on. *)
Definition cleared_from (s r : list Z) (n : nat) : list Z :=
  firstn n s ++ repeat 0 (length s - n) ++ 0 :: r.

(** A unit that is neither a dot nor a blank. *)
Definition plain_unit (c : Z) : Prop := c <> c_dot /\ c <> c_space.

(** A name of the 8.3 form: at most eight plain units, then nothing or a
    dot and at most three plain units. *)
Definition short_name (s : list Z) : Prop :=
  exists name ext,
    s = name ++ ext /\ Forall plain_unit name /\ (length name <= 8)%nat
    /\ (ext = []
        \/ exists x, ext = c_dot :: x /\ Forall plain_unit x
                     /\ (length x <= 3)%nat).

(** Whether the unit at offset [j] is a separator ('\', '/' or ':') that a
    file name follows: a unit other than the terminator, '\' and '/'. *)
Definition opens_name (s : list Z) (j : nat) : bool :=
  ((peek s j =? c_bslash) || (peek s j =? c_slash) || (peek s j =? c_colon))
  && negb (peek s (S j) =? 0) && negb (peek s (S j) =? c_bslash)
  && negb (peek s (S j) =? c_slash).

(** What it is for a name to match a mask: an asterisk stands for any
    units, none included, a question mark for any one unit, and any other
    unit of the mask for the units with the same upper case. *)
Inductive mask_matches (toupperW : Z -> Z) : list Z -> list Z -> Prop :=
| mask_matches_end : mask_matches toupperW [] []
| mask_matches_star_none (name mask : list Z) :
    mask_matches toupperW name mask ->
    mask_matches toupperW name (c_star :: mask)
| mask_matches_star_unit (c : Z) (name mask : list Z) :
    mask_matches toupperW name (c_star :: mask) ->
    mask_matches toupperW (c :: name) (c_star :: mask)
| mask_matches_unit (c m : Z) (name mask : list Z) :
    m <> c_star -> toupperW m = toupperW c \/ m = c_qmark ->
    mask_matches toupperW name mask ->
    mask_matches toupperW (c :: name) (m :: mask).

(** The units of one mask: none is the terminator or the ';' (59) that
    separates masks. *)
Definition mask_units (mask : list Z) : Prop :=
  Forall (fun c => c <> 0 /\ c <> 59) mask.

(** The units a scheme is made of: those ParseURLW steps over. *)
Definition scheme_unit (c : Z) : bool :=
  negb (c =? 0)
  && (isalnumW c || (c =? c_dash) || (c =? c_plus) || (c =? c_dot)).

(** A part that parse_url reports, as an offset and a length, lies inside
    the URL; a part it does not report has no length. *)
Definition part_inside (url : list Z) (part : option nat) (len : nat)
  : Prop :=
  match part with
  | Some start => (start + len <= strlenW url)%nat
  | None => len = O
  end.

(** All the parts of a parsed URL lie inside it. *)
Record parts_inside (url : list Z) (pl : parsed_url) : Prop := {
  scheme_inside : part_inside url (scheme pl) (scheme_len pl);
  username_inside : part_inside url (username pl) (username_len pl);
  password_inside : part_inside url (password pl) (password_len pl);
  hostname_inside : part_inside url (hostname pl) (hostname_len pl);
  port_inside : part_inside url (port pl) (port_len pl);
  query_inside : part_inside url (query pl) (query_len pl)
}.

(** A URL without the slash at its end, if it has one. *)
Definition without_final_slash (s : list Z) : list Z :=
  if peek s (length s - 1) =? c_slash then firstn (length s - 1) s else s.

(** The units of a buffer that are not 0. *)
Fixpoint nonzero_units (s : list Z) : nat :=
  match s with
  | [] => O
  | c :: t => if c =? 0 then nonzero_units t else S (nonzero_units t)
  end.

(** A unit at which a component ends: the terminator or a backslash. *)
Definition component_end (c : Z) : Prop := c = 0 \/ c = c_bslash.

(** A drive specification and nothing else: a letter and a colon. *)
Definition bare_drive (s : list Z) : bool :=
  isalphaW (peek s 0) && (peek s 1 =? c_colon) && (length s =? 2)%nat.

(** [any_case s name]: [s] spells the lower-case [name] in some mix of
    cases, unit by unit. *)
Definition any_case (s name : list Z) : Prop :=
  Forall2 (fun c d => tolowerW c = d) s name.

(** Proves [forall i, i < n -> P i] case by case. *)
Tactic Notation "below" integer(n) "by" tactic3(tac) :=
  let i := fresh "i" in
  let Hi := fresh "Hi" in
  intros i Hi; do n (destruct i as [|i]; [tac|]); exfalso; lia.

(** * Properties *)

(** ** Buffers *)

Lemma length_poke (s : list Z) (i : nat) (v : Z) :
  length (poke s i v) = length s.
Proof.
  revert i; induction s as [|c t IH]; intros [|i]; simpl; auto.
Qed.

Lemma peek_poke_eq (s : list Z) (i : nat) (v : Z) :
  (i < length s)%nat -> peek (poke s i v) i = v.
Proof.
  unfold peek; revert i; induction s as [|c t IH]; intros [|i] H; simpl in *;
    try lia; auto.
  apply IH; lia.
Qed.

Lemma peek_poke_ne (s : list Z) (i j : nat) (v : Z) :
  i <> j -> peek (poke s i v) j = peek s j.
Proof.
  unfold peek; revert i j; induction s as [|c t IH]; intros [|i] [|j] H;
    simpl; auto; try congruence.
Qed.

Lemma peek_overflow (s : list Z) (i : nat) :
  (length s <= i)%nat -> peek s i = 0.
Proof. intros H; unfold peek; apply nth_overflow; exact H. Qed.

Lemma firstn_poke (n : nat) (s : list Z) (i : nat) (v : Z) :
  (n <= i)%nat -> firstn n (poke s i v) = firstn n s.
Proof.
  revert s i; induction n as [|n IH]; intros [|c t] [|i] H; simpl; auto;
    try lia.
  f_equal; apply IH; lia.
Qed.

Lemma poke_split (s : list Z) (i : nat) (v : Z) :
  (i < length s)%nat -> poke s i v = firstn i s ++ v :: skipn (S i) s.
Proof.
  revert i; induction s as [|c t IH]; intros [|i] H; simpl in *; try lia; auto.
  f_equal; apply IH; lia.
Qed.

Lemma poke_overflow (s : list Z) (i : nat) (v : Z) :
  (length s <= i)%nat -> poke s i v = s.
Proof.
  revert i; induction s as [|c t IH]; intros [|i] H; simpl in *; try lia; auto.
  f_equal; apply IH; lia.
Qed.

Lemma length_store (src buf : list Z) (d : nat) :
  length (store buf d src) = length buf.
Proof.
  revert buf d; induction src as [|c t IH]; intros; simpl; auto.
  rewrite IH; apply length_poke.
Qed.

Lemma firstn_store (n : nat) (src buf : list Z) (d : nat) :
  (n <= d)%nat -> firstn n (store buf d src) = firstn n buf.
Proof.
  revert buf d; induction src as [|c t IH]; intros buf d H; simpl; auto.
  rewrite IH by lia; apply firstn_poke; exact H.
Qed.

Lemma peek_store_below (src buf : list Z) (d j : nat) :
  (j < d)%nat -> peek (store buf d src) j = peek buf j.
Proof.
  revert buf d; induction src as [|c t IH]; intros buf d H; simpl; auto.
  rewrite IH by lia; apply peek_poke_ne; lia.
Qed.

Lemma poke_app_r (a b : list Z) (i : nat) (v : Z) :
  poke (a ++ b) (length a + i) v = a ++ poke b i v.
Proof. induction a as [|c a IH]; simpl; auto; f_equal; exact IH. Qed.

Lemma store_app_r (src a b : list Z) (d : nat) :
  store (a ++ b) (length a + d) src = a ++ store b d src.
Proof.
  revert b d; induction src as [|c t IH]; intros b d; simpl; auto.
  rewrite poke_app_r, <- IH; f_equal; lia.
Qed.

Lemma store_head (src b : list Z) :
  (length src <= length b)%nat ->
  store b 0 src = src ++ skipn (length src) b.
Proof.
  revert b; induction src as [|c t IH]; intros [|c0 b] H; simpl in *; auto;
    try lia.
  change (c :: b) with ([c] ++ b).
  change 1%nat with (length [c] + 0)%nat.
  rewrite store_app_r, IH by lia; reflexivity.
Qed.

Lemma store_split (src buf : list Z) (d : nat) :
  (d + length src <= length buf)%nat ->
  store buf d src = firstn d buf ++ src ++ skipn (d + length src) buf.
Proof.
  intros H.
  pose proof (store_app_r src (firstn d buf) (skipn d buf) 0) as E.
  rewrite firstn_skipn, length_firstn in E.
  replace (Nat.min d (length buf) + 0)%nat with d in E by lia.
  rewrite E, store_head by (rewrite length_skipn; lia).
  rewrite skipn_skipn; do 3 f_equal; lia.
Qed.

Lemma cstr_app (s t : list Z) : nonzero s -> cstr (s ++ 0 :: t) = s.
Proof.
  induction 1 as [|c s Hc Hs IH]; simpl; auto.
  destruct (Z.eqb_spec c 0); [contradiction|]; f_equal; exact IH.
Qed.

Lemma cstr_nonzero (s : list Z) : nonzero s -> cstr s = s.
Proof.
  induction 1 as [|c s Hc Hs IH]; simpl; auto.
  destruct (Z.eqb_spec c 0); [contradiction|]; f_equal; exact IH.
Qed.

Lemma nonzero_cstr (s : list Z) : nonzero (cstr s).
Proof.
  induction s as [|c t IH]; simpl; [constructor|].
  destruct (Z.eqb_spec c 0); constructor; auto.
Qed.

Lemma cstr_idem (s : list Z) : cstr (cstr s) = cstr s.
Proof. apply cstr_nonzero, nonzero_cstr. Qed.

Lemma wstring_nonzero (s : list Z) : wstring s -> nonzero s.
Proof.
  unfold wstring, nonzero, wchar; intros H.
  eapply Forall_impl; [|exact H]; simpl; intros; lia.
Qed.

Lemma peek_nonzero (s : list Z) (i : nat) :
  nonzero s -> (i < length s)%nat -> peek s i <> 0.
Proof.
  unfold peek; intros H; revert i; induction H as [|c s Hc Hs IH];
    intros [|i] Hi; simpl in *; try lia; auto.
  apply IH; lia.
Qed.

Lemma peek_is_zero (s : list Z) (i : nat) :
  nonzero s -> peek s i = 0 -> (length s <= i)%nat.
Proof.
  intros H E; destruct (le_lt_dec (length s) i) as [L|L]; auto.
  exfalso; revert E; apply peek_nonzero; auto.
Qed.

Lemma peek_app_l (s t : list Z) (i : nat) :
  (i < length s)%nat -> peek (s ++ t) i = peek s i.
Proof. intros; unfold peek; apply app_nth1; auto. Qed.

Lemma peek_app_r (s t : list Z) (i : nat) :
  (length s <= i)%nat -> peek (s ++ t) i = peek t (i - length s).
Proof. intros; unfold peek; apply app_nth2; auto. Qed.

Lemma peek_skipn (s : list Z) (i j : nat) :
  peek (skipn i s) j = peek s (i + j).
Proof.
  unfold peek; revert s; induction i as [|i IH]; intros [|c t]; simpl; auto.
  destruct j; auto.
Qed.

Lemma peek_firstn (s : list Z) (n i : nat) :
  (i < n)%nat -> peek (firstn n s) i = peek s i.
Proof.
  unfold peek; revert s i; induction n as [|n IH]; intros [|c t] [|i] H;
    simpl; auto; try lia.
  apply IH; lia.
Qed.

Lemma firstn_cstr (n : nat) (s : list Z) :
  nonzero (firstn n s) -> firstn n (cstr s) = firstn n s.
Proof.
  revert s; induction n as [|n IH]; intros [|c t] H; simpl in *; auto.
  inversion H; subst.
  destruct (Z.eqb_spec c 0); [contradiction|]; simpl; f_equal; auto.
Qed.

Lemma strlenW_le (s : list Z) : (strlenW s <= length s)%nat.
Proof.
  unfold strlenW; induction s as [|c t IH]; simpl; auto.
  destruct (c =? 0); simpl; lia.
Qed.

Lemma peek_strlenW (s : list Z) : peek s (strlenW s) = 0.
Proof.
  unfold strlenW, peek; induction s as [|c t IH]; simpl; auto.
  destruct (Z.eqb_spec c 0); simpl; auto.
Qed.

Lemma peek_below_strlenW (s : list Z) (i : nat) :
  (i < strlenW s)%nat -> peek s i <> 0.
Proof.
  unfold strlenW, peek; revert i; induction s as [|c t IH]; intros i H;
    simpl in *; [lia|].
  destruct (Z.eqb_spec c 0); simpl in *; [lia|].
  destruct i; auto; apply IH; lia.
Qed.

Lemma strlenW_nonzero (s : list Z) : nonzero s -> strlenW s = length s.
Proof. intros H; unfold strlenW; rewrite cstr_nonzero; auto. Qed.

(** ** Concrete cases *)

(** C1 (as amended). With default flags and room for the result,
    UrlCanonicalizeW leaves "HTTP://A:B@Host:80/p/../q" as it is: nothing in
    the scan folds the case of the scheme, and the '@' ends the authority
    state, after which the rest is copied without collapsing "/p/../q". *)
Theorem UrlCanonicalizeW_userinfo_unchanged (canonicalized_len : Z) :
  25 < canonicalized_len ->
  UrlCanonicalizeW (W "HTTP://A:B@Host:80/p/../q") canonicalized_len 0
  = (S_OK, Some (W "HTTP://A:B@Host:80/p/../q"), 25).
Proof.
  intros Hroom; unfold UrlCanonicalizeW.
  destruct (Z.eqb_spec canonicalized_len 0) as [E|_]; [lia|].
  replace (url_simplify (W "HTTP://A:B@Host:80/p/../q") 0)
    with (0, W "HTTP://A:B@Host:80/p/../q") by (vm_compute; reflexivity).
  change (peek (W "HTTP://A:B@Host:80/p/../q") 0 =? 0) with false.
  cbv iota beta.
  change (flag_set 0 URL_UNESCAPE) with false.
  change (flag_set 0 URL_FILE_USE_PATHURL) with false.
  cbv iota beta.
  simpl orb; simpl andb; cbv iota.
  match goal with |- context [negb (?x =? 0)] => change x with 0 end.
  simpl negb; cbv iota.
  change (Z.of_nat (length (W "HTTP://A:B@Host:80/p/../q"))) with 25.
  destruct (Z.ltb_spec 25 canonicalized_len); [reflexivity|lia].
Qed.

(** Without user information the same URL is simplified: the path after the
    authority is collapsed (the scheme is still copied as written). *)
Lemma UrlCanonicalizeW_collapses_path :
  UrlCanonicalizeW (W "http://Host:80/p/../q") 64 0
  = (S_OK, Some (W "http://Host:80/q"), 16).
Proof. vm_compute; reflexivity. Qed.

(** C2 (as amended). PathAllocCanonicalize strips the device prefix of
    "\\?\UNC\server\share\..\x" and the ".." removes "share": only the two
    leading backslashes are protected, and the result is "\\server\x". *)
Theorem PathAllocCanonicalize_device_unc_dotdot :
  PathAllocCanonicalize (W "\\?\UNC\server\share\..\x") 0
  = (S_OK, Some (W "\\server\x")).
Proof. vm_compute; reflexivity. Qed.

(** ** Flag validation of PathAllocCanonicalize *)

Lemma flag_set_lor (flags a b : Z) :
  flag_set flags (Z.lor a b) = flag_set flags a || flag_set flags b.
Proof.
  unfold flag_set; rewrite Z.land_lor_distr_r.
  destruct (Z.eqb_spec (Z.land flags a) 0) as [Ea|Ea];
    destruct (Z.eqb_spec (Z.land flags b) 0) as [Eb|Eb]; simpl;
    destruct (Z.eqb_spec (Z.lor (Z.land flags a) (Z.land flags b)) 0)
      as [E|E]; auto; exfalso.
  - apply E; rewrite Ea, Eb; reflexivity.
  - apply Z.lor_eq_0_iff in E; tauto.
  - apply Z.lor_eq_0_iff in E; tauto.
  - apply Z.lor_eq_0_iff in E; tauto.
Qed.

(** C5. Whatever the path, PathAllocCanonicalize answers E_INVALIDARG and
    stores NULL in [*path_out] when both FORCE flags are set, when
    ENSURE_IS_EXTENDED_LENGTH_PATH comes with ALLOW_LONG_PATHS, or when a
    FORCE flag comes without ALLOW_LONG_PATHS. *)
Theorem PathAllocCanonicalize_conflicting_flags (path_in : list Z) (flags : Z) :
  (flag_set flags PATHCCH_FORCE_ENABLE_LONG_NAME_PROCESS = true
   /\ flag_set flags PATHCCH_FORCE_DISABLE_LONG_NAME_PROCESS = true)
  \/ (flag_set flags PATHCCH_ENSURE_IS_EXTENDED_LENGTH_PATH = true
      /\ flag_set flags PATHCCH_ALLOW_LONG_PATHS = true)
  \/ ((flag_set flags PATHCCH_FORCE_ENABLE_LONG_NAME_PROCESS = true
       \/ flag_set flags PATHCCH_FORCE_DISABLE_LONG_NAME_PROCESS = true)
      /\ flag_set flags PATHCCH_ALLOW_LONG_PATHS = false) ->
  PathAllocCanonicalize path_in flags = (E_INVALIDARG, None).
Proof.
  intros H; unfold PathAllocCanonicalize; rewrite flag_set_lor.
  destruct (flag_set flags PATHCCH_FORCE_ENABLE_LONG_NAME_PROCESS),
    (flag_set flags PATHCCH_FORCE_DISABLE_LONG_NAME_PROCESS),
    (flag_set flags PATHCCH_ENSURE_IS_EXTENDED_LENGTH_PATH),
    (flag_set flags PATHCCH_ALLOW_LONG_PATHS); simpl; try reflexivity;
    exfalso; intuition congruence.
Qed.

(** ** parse_url *)

Arguments scan_url : simpl never.
Arguments peek : simpl never.
Arguments strchrW : simpl never.

Lemma scan_url_USERPASS (url : list Z) (start : nat) :
  scan_url url start USERPASS
  = ((start + userpass_run (skipn start url))%nat,
     userpass_run (skipn start url)).
Proof. reflexivity. Qed.

Lemma parse_host_keeps_user (url : list Z) (pl : parsed_url) (work : nat) :
  username (parse_host url pl work) = username pl
  /\ username_len (parse_host url pl work) = username_len pl
  /\ password (parse_host url pl work) = password pl
  /\ password_len (parse_host url pl work) = password_len pl.
Proof.
  unfold parse_host.
  destruct (scan_url url (S work) HOST) as [w hlen]; cbn.
  destruct (peek url w =? c_colon).
  - destruct (scan_url url (S w) PORT) as [w' plen]; cbn.
    destruct (peek url w' =? c_slash); cbn; [|repeat split; reflexivity].
    destruct (strchrW (skipn w' url) c_qmark); cbn; repeat split; reflexivity.
  - destruct (peek url w =? c_slash); cbn; [|repeat split; reflexivity].
    destruct (strchrW (skipn w url) c_qmark); cbn; repeat split; reflexivity.
Qed.

Lemma parse_host_host (url : list Z) (pl : parsed_url) (work : nat) :
  hostname (parse_host url pl work) = Some (S work)
  /\ hostname_len (parse_host url pl work) = snd (scan_url url (S work) HOST)
  /\ (peek url (fst (scan_url url (S work) HOST)) = c_colon ->
      port (parse_host url pl work)
      = Some (S (fst (scan_url url (S work) HOST)))
      /\ port_len (parse_host url pl work)
         = snd (scan_url url (S (fst (scan_url url (S work) HOST))) PORT)).
Proof.
  unfold parse_host.
  destruct (scan_url url (S work) HOST) as [w hlen]; cbn.
  destruct (Z.eqb_spec (peek url w) c_colon) as [E|E].
  - destruct (scan_url url (S w) PORT) as [w' plen]; cbn.
    destruct (peek url w' =? c_slash); cbn; [|repeat split; reflexivity].
    destruct (strchrW (skipn w' url) c_qmark); cbn; repeat split; reflexivity.
  - destruct (peek url w =? c_slash); cbn.
    + destruct (strchrW (skipn w url) c_qmark); cbn;
        repeat split; auto; intros; contradiction.
    + repeat split; auto; intros; contradiction.
Qed.

(** C7. Let the URL have a scheme token ended by ':' and followed by "//",
    and let [user] be the offset after "//". If the user-info token scanned
    at [user] is followed by ':' and the password token scanned after that
    ':' is not followed by '@', parse_url succeeds with user name and
    password absent and of length zero, and with the host name scanned anew
    from [user] (and the port after its ':'). Whenever parse_url succeeds, a
    user name it reports ends at an '@' or at the ':' of a password that ends
    at an '@', and a password it reports ends at an '@'. *)
Theorem parse_url_userinfo_needs_at (url : list Z) :
  (forall work slen user wu ulen wp plen,
      scan_url url 0 SCHEME = (work, slen) ->
      peek url work = c_colon ->
      peek url (work + 1) = c_slash -> peek url (work + 2) = c_slash ->
      user = (work + 3)%nat ->
      scan_url url user USERPASS = (wu, ulen) -> peek url wu = c_colon ->
      scan_url url (S wu) USERPASS = (wp, plen) -> peek url wp <> c_at ->
      exists pl,
        parse_url url = (S_OK, pl)
        /\ username pl = None /\ username_len pl = O
        /\ password pl = None /\ password_len pl = O
        /\ hostname pl = Some user
        /\ hostname_len pl = snd (scan_url url user HOST)
        /\ (peek url (fst (scan_url url user HOST)) = c_colon ->
            port pl = Some (S (fst (scan_url url user HOST)))
            /\ port_len pl
               = snd (scan_url url (S (fst (scan_url url user HOST))) PORT)))
  /\ (forall pl,
        parse_url url = (S_OK, pl) ->
        (forall user, username pl = Some user ->
           peek url (user + username_len pl) = c_at
           \/ (peek url (user + username_len pl) = c_colon
               /\ password pl = Some (S (user + username_len pl))))
        /\ (forall pass, password pl = Some pass ->
              peek url (pass + password_len pl) = c_at)).
Proof.
  split.
  - intros work slen user wu ulen wp plen Hs Hc Hs1 Hs2 Hu Hwu Hcu Hwp Hat.
    unfold parse_url; rewrite Hs, Hc.
    replace (S work) with (work + 1)%nat by lia.
    replace (S (work + 1)) with (work + 2)%nat by lia.
    rewrite Hs1, Hs2; simpl negb; simpl orb; cbv iota.
    replace (work + 1 + 2)%nat with user by lia.
    rewrite Hwu, Hcu; simpl Z.eqb; cbv iota.
    rewrite Hwp.
    destruct (Z.eqb_spec (peek url wp) c_at) as [E|_]; [contradiction|].
    simpl negb; cbv iota.
    eexists; split; [reflexivity|].
    destruct user as [|w0]; [lia|].
    replace (S w0 - 1)%nat with w0 by lia.
    pose proof (parse_host_keeps_user url
      (mk_parsed (Some O) slen None O None O None O None O None O) w0)
      as (K1 & K2 & K3 & K4).
    pose proof (parse_host_host url
      (mk_parsed (Some O) slen None O None O None O None O None O) w0)
      as (K5 & K6 & K7).
    cbn in K1, K2, K3, K4.
    repeat split; auto; apply K7; auto.
  - intros pl; unfold parse_url.
    destruct (scan_url url 0 SCHEME) as [work slen].
    destruct ((peek url work =? 0) || negb (peek url work =? c_colon));
      [discriminate|].
    destruct (negb (peek url (S work) =? c_slash)
              || negb (peek url (S (S work)) =? c_slash)).
    { intros E; inversion E; subst; simpl; split; intros; discriminate. }
    rewrite scan_url_USERPASS.
    set (user := (S work + 2)%nat).
    set (ulen := userpass_run (skipn user url)).
    destruct (Z.eqb_spec (peek url (user + ulen)) c_colon) as [Ec|Ec].
    + rewrite scan_url_USERPASS.
      set (plen := userpass_run (skipn (S (user + ulen)) url)).
      destruct (Z.eqb_spec (peek url (S (user + ulen) + plen)) c_at)
        as [Ea|Ea]; simpl negb; cbv iota; intros E; inversion E; subst;
        match goal with |- context [parse_host ?u ?p ?w] =>
          destruct (parse_host_keeps_user u p w) as (K1 & K2 & K3 & K4) end;
        rewrite K1, K2, K3, K4; simpl; split; intros ? Q; inversion Q; subst;
        auto.
    + destruct (Z.eqb_spec (peek url (user + ulen)) c_at) as [Ea|Ea].
      * intros E; inversion E; subst.
        match goal with |- context [parse_host ?u ?p ?w] =>
          destruct (parse_host_keeps_user u p w) as (K1 & K2 & K3 & K4) end.
        rewrite K1, K2, K3; simpl; split; intros ? Q; inversion Q; subst;
          auto.
      * destruct ((peek url (user + ulen) =? 0)
                  || (peek url (user + ulen) =? c_slash)
                  || (peek url (user + ulen) =? c_dot)); [|discriminate].
        intros E; inversion E; subst.
        match goal with |- context [parse_host ?u ?p ?w] =>
          destruct (parse_host_keeps_user u p w) as (K1 & K2 & K3 & K4) end.
        rewrite K1, K3; simpl; split; intros; discriminate.
Qed.

(** ** The root lies inside the string *)

Lemma strlenW_ge (s : list Z) (n : nat) :
  (forall i, (i < n)%nat -> peek s i <> 0) -> (n <= strlenW s)%nat.
Proof.
  intros H; destruct (le_lt_dec n (strlenW s)) as [L|L]; auto.
  exfalso; apply (H (strlenW s) L), peek_strlenW.
Qed.

Lemma strlenW_le_zero (s : list Z) (n : nat) :
  peek s n = 0 -> (strlenW s <= n)%nat.
Proof.
  intros H; destruct (le_lt_dec (strlenW s) n) as [L|L]; auto.
  exfalso; revert H; apply peek_below_strlenW; exact L.
Qed.

Lemma peek_tl (s : list Z) (i : nat) : peek (tl s) i = peek s (S i).
Proof. destruct s; unfold peek; simpl; auto; destruct i; auto. Qed.

Lemma tolowerW_0 : tolowerW 0 = 0.
Proof. reflexivity. Qed.

Lemma strncmpiW_0_nonzero (n : nat) (s p : list Z) :
  strncmpiW s p n = 0 ->
  (forall i, (i < n)%nat -> tolowerW (peek p i) <> 0) ->
  forall i, (i < n)%nat -> peek s i <> 0.
Proof.
  revert s p; induction n as [|n IH]; intros s p E Hp i Hi; [lia|].
  simpl in E.
  destruct (Z.eqb_spec (tolowerW (peek s 0) - tolowerW (peek p 0)) 0)
    as [D|D]; simpl in E; [|contradiction].
  destruct (Z.eqb_spec (peek s 0) 0) as [Z0|Z0].
  - exfalso; apply (Hp O); [lia|]. rewrite Z0, tolowerW_0 in D; lia.
  - destruct i as [|i]; auto.
    rewrite <- peek_tl; apply (IH (tl s) (tl p)); auto; try lia.
    intros j Hj; rewrite peek_tl; apply Hp; lia.
Qed.

Lemma strncmpW_0_same (n : nat) (s p : list Z) :
  strncmpW s p n = 0 ->
  (forall i, (i < n)%nat -> peek p i <> 0) ->
  forall i, (i < n)%nat -> peek s i = peek p i.
Proof.
  revert s p; induction n as [|n IH]; intros s p E Hp i Hi; [lia|].
  simpl in E; destruct n as [|n].
  - assert (i = O) by lia; subst; lia.
  - pose proof (Hp O ltac:(lia)) as Hp0.
    destruct (Z.eqb_spec (peek s 0) 0) as [Z0|Z0]; simpl in E; [lia|].
    destruct (Z.eqb_spec (peek s 0) (peek p 0)) as [Q|Q]; simpl in E; [|lia].
    destruct i as [|i]; auto.
    rewrite <- !peek_tl; apply IH; auto; try lia.
    intros j Hj; rewrite peek_tl; apply Hp; lia.
Qed.

Lemma isalphaW_nonzero (c : Z) : isalphaW c = true -> c <> 0.
Proof. intros H E; subst; discriminate H. Qed.

Lemma isalnumW_nonzero (c : Z) : isalnumW c = true -> c <> 0.
Proof. intros H E; subst; discriminate H. Qed.

Lemma volume_guid_unit_nonzero (guid : list Z) (i : nat) :
  volume_guid_unit guid i = true -> peek guid i <> 0.
Proof.
  intros H E; unfold volume_guid_unit in H; rewrite E in H.
  do 38 (destruct i as [|i]; [discriminate H|]); discriminate H.
Qed.

Lemma is_prefixed_unc_units (path : list Z) :
  is_prefixed_unc path = true -> forall i, (i < 8)%nat -> peek path i <> 0.
Proof.
  unfold is_prefixed_unc; intros H; apply Z.eqb_eq in H.
  apply (strncmpiW_0_nonzero 8 path prefixed_unc H).
  below 8 by (vm_compute; congruence).
Qed.

Lemma is_prefixed_disk_units (path : list Z) :
  is_prefixed_disk path = true ->
  peek path 0 = c_bslash /\ peek path 1 = c_bslash /\ peek path 2 = c_qmark
  /\ peek path 3 = c_bslash /\ isalphaW (peek path 4) = true
  /\ peek path 5 = c_colon.
Proof.
  unfold is_prefixed_disk; intros H.
  apply andb_prop in H; destruct H as [H H5].
  apply andb_prop in H; destruct H as [H H4].
  apply Z.eqb_eq in H, H5.
  assert (K : forall i, (i < 4)%nat -> peek path i = peek prefixed_disk i).
  { apply (strncmpW_0_same 4 path prefixed_disk H).
    below 4 by (vm_compute; congruence). }
  pose proof (K 0%nat ltac:(lia)) as K0; pose proof (K 1%nat ltac:(lia)) as K1.
  pose proof (K 2%nat ltac:(lia)) as K2; pose proof (K 3%nat ltac:(lia)) as K3.
  repeat split; assumption.
Qed.

Lemma is_prefixed_volume_units (path : list Z) :
  is_prefixed_volume path = true ->
  forall i, (i < 48)%nat -> peek path i <> 0.
Proof.
  unfold is_prefixed_volume; intros H.
  destruct (Z.eqb_spec (strncmpiW path prefixed_volume 10) 0) as [E|E];
    simpl negb in H; cbv iota in H; [|discriminate].
  intros i Hi; destruct (lt_dec i 10) as [L|L].
  - clear Hi; revert i L.
    apply (strncmpiW_0_nonzero 10 path prefixed_volume E).
    below 10 by (vm_compute; congruence).
  - replace i with (10 + (i - 10))%nat by lia; rewrite <- peek_skipn.
    apply volume_guid_unit_nonzero.
    rewrite forallb_forall in H; apply H, in_seq; lia.
Qed.

Lemma get_root_end_inside (path : list Z) (e : nat) :
  get_root_end path = Some e -> (S e <= strlenW path)%nat.
Proof.
  unfold get_root_end; intros H; apply strlenW_ge.
  destruct (is_prefixed_volume path) eqn:Ev.
  { pose proof (is_prefixed_volume_units path Ev) as K.
    destruct (Z.eqb_spec (peek path 48) c_bslash) as [E|E];
      inversion H; subst; intros i Hi.
    - destruct (Nat.eq_dec i 48); [subst; lia|]; apply K; lia.
    - apply K; lia. }
  destruct (is_prefixed_unc path) eqn:Eu.
  { inversion H; subst; apply is_prefixed_unc_units; auto. }
  destruct (is_prefixed_disk path) eqn:Ed.
  { destruct (is_prefixed_disk_units path Ed) as (K0 & K1 & K2 & K3 & K4 & K5).
    apply isalphaW_nonzero in K4.
    destruct (Z.eqb_spec (peek path 6) c_bslash) as [E|E];
      inversion H; subst;
      [below 7 by (lia)|below 6 by (lia)]. }
  destruct (Z.eqb_spec (peek path 0) c_bslash) as [E0|E0];
    destruct (Z.eqb_spec (peek path 1) c_bslash) as [E1|E1]; simpl in H;
    try (inversion H; subst; below 2 by (lia));
    try (inversion H; subst; below 1 by (lia)).
  - destruct (isalphaW (peek path 0)) eqn:Ea; simpl in H; [|discriminate].
    apply isalphaW_nonzero in Ea.
    destruct (Z.eqb_spec (peek path 1) c_colon) as [Ec|Ec]; [|discriminate].
    destruct (Z.eqb_spec (peek path 2) c_bslash) as [E|E]; inversion H; subst;
      [below 3 by (lia)|below 2 by (lia)].
  - destruct (isalphaW (peek path 0)) eqn:Ea; simpl in H; [|discriminate].
    apply isalphaW_nonzero in Ea.
    destruct (Z.eqb_spec (peek path 1) c_colon) as [Ec|Ec]; [|discriminate].
    destruct (Z.eqb_spec (peek path 2) c_bslash) as [E|E]; inversion H; subst;
      [below 3 by (lia)|below 2 by (lia)].
Qed.

(** ** The output cursor never overtakes the input cursor

    Every unit stored in the output buffer lies below [src], so the buffer of
    [length + 6] units that the code allocates holds the result, the prefix
    it may gain and the separator it may be given. *)

Lemma peek_poke_zero (s : list Z) (i j : nat) :
  peek s j = 0 -> peek (poke s i 0) j = 0.
Proof.
  intros H; destruct (Nat.eq_dec i j) as [E|E].
  - subst; destruct (lt_dec j (length s)).
    + apply peek_poke_eq; auto.
    + rewrite poke_overflow by lia; auto.
  - rewrite peek_poke_ne; auto.
Qed.

Lemma remove_segment_length (dst : nat) (buffer : list Z) :
  length (fst (remove_segment buffer dst)) = length buffer.
Proof.
  revert buffer; induction dst as [|d IH]; intros buffer; simpl; auto.
  destruct (peek buffer d =? c_bslash); simpl.
  - apply length_poke.
  - rewrite IH; apply length_poke.
Qed.

Lemma remove_segment_le (dst : nat) (buffer : list Z) :
  (snd (remove_segment buffer dst) <= dst)%nat.
Proof.
  revert buffer; induction dst as [|d IH]; intros buffer; simpl; auto.
  destruct (peek buffer d =? c_bslash); simpl;
    [lia|specialize (IH (poke buffer d 0)); lia].
Qed.

Lemma remove_segment_zero (dst : nat) (buffer : list Z) (i : nat) :
  peek buffer i = 0 -> peek (fst (remove_segment buffer dst)) i = 0.
Proof.
  revert buffer; induction dst as [|d IH]; intros buffer H; simpl; auto.
  destruct (peek buffer d =? c_bslash); simpl.
  - apply peek_poke_zero; auto.
  - apply IH, peek_poke_zero; auto.
Qed.

Lemma remove_segment_below (dst : nat) (buffer : list Z) (i : nat) :
  (i < snd (remove_segment buffer dst))%nat ->
  peek (fst (remove_segment buffer dst)) i = peek buffer i.
Proof.
  revert buffer; induction dst as [|d IH]; intros buffer H; simpl in *; auto.
  destruct (peek buffer d =? c_bslash); simpl in *.
  - apply peek_poke_ne; lia.
  - rewrite IH by auto.
    pose proof (remove_segment_le d (poke buffer d 0)).
    apply peek_poke_ne; lia.
Qed.

Lemma src_advances (path_in : list Z) (src : nat) :
  (src <= strlenW path_in)%nat -> peek path_in src <> 0 ->
  (S src <= strlenW path_in)%nat.
Proof.
  intros H N; destruct (Nat.eq_dec src (strlenW path_in)); [|lia].
  subst; exfalso; apply N, peek_strlenW.
Qed.

Lemma complete_root_safe (path_in : list Z) (st : canon_state) (src0 : nat) :
  (c_dst st <= c_src st)%nat -> (c_src st <= strlenW path_in)%nat ->
  (S src0 <= c_src st)%nat ->
  (forall i, (src0 <= i)%nat -> peek (c_buffer st) i = 0) ->
  length (c_buffer st) = (strlenW path_in + 6)%nat ->
  canon_safe path_in (complete_root path_in st).
Proof.
  intros Hd Hs H0 Hz Hl; unfold complete_root.
  destruct (isalphaW (peek (c_buffer st) 0)
            && (peek (c_buffer st) 1 =? c_colon)
            && negb (peek (c_buffer st) 2 =? c_bslash)) eqn:E.
  - apply andb_prop in E; destruct E as [E _].
    apply andb_prop in E; destruct E as [_ E]; apply Z.eqb_eq in E.
    assert (2 <= src0)%nat.
    { destruct (le_lt_dec 2 src0); auto.
      rewrite Hz in E by lia; discriminate. }
    destruct (Z.eqb_spec (peek path_in (c_src st)) c_bslash) as [B|B].
    + assert (S (c_src st) <= strlenW path_in)%nat
        by (apply src_advances; auto; lia).
      constructor; simpl; auto; try lia.
      * intros i Hi; rewrite peek_poke_ne by lia; apply Hz; lia.
      * rewrite length_poke; auto.
    + constructor; simpl; auto; try lia.
      * intros i Hi; rewrite peek_poke_ne by lia; apply Hz; lia.
      * rewrite length_poke; auto.
  - constructor; auto; intros; apply Hz; lia.
Qed.

Lemma canon_step_safe (path_in : list Z) (flags : Z) (st : canon_state) :
  canon_safe path_in st -> peek path_in (c_src st) <> 0 ->
  canon_safe path_in (canon_step path_in flags st).
Proof.
  intros [Hd Hs Hz Hl] N; destruct st as [buffer src dst root_end];
    simpl in *.
  pose proof (src_advances path_in src Hs N) as H1.
  assert (Copy : canon_safe path_in
            (mk_canon (poke buffer dst (peek path_in (src + 0))) (S src)
               (S dst) root_end)).
  { constructor; simpl; auto; try lia.
    - intros i Hi; rewrite peek_poke_ne by lia; apply Hz; lia.
    - rewrite length_poke; auto. }
  unfold canon_step.
  destruct (Z.eqb_spec (peek path_in (src + 0)) c_dot) as [D0|D0]; auto.
  destruct (Z.eqb_spec (peek path_in (src + 1)) c_dot) as [D1|D1].
  - assert (H2 : (src + 2 <= strlenW path_in)%nat).
    { replace (src + 2)%nat with (S (src + 1)) by lia.
      apply src_advances; [lia|rewrite D1; discriminate]. }
    destruct ((0 <? dst)%nat && (peek buffer (dst - 1) =? c_star)); auto.
    match goal with |- context [if ?c then _ else _] => destruct c end.
    { constructor; simpl; auto; try lia.
      - intros i Hi; rewrite !peek_poke_ne by lia; apply Hz; lia.
      - rewrite !length_poke; auto. }
    match goal with |- context [if ?c then _ else _] => destruct c end.
    + destruct (remove_segment (poke buffer (dst - 1) 0) (dst - 1))
        as [buffer' dst'] eqn:R.
      pose proof (remove_segment_le (dst - 1) (poke buffer (dst - 1) 0)) as Rl.
      pose proof (remove_segment_length (dst - 1) (poke buffer (dst - 1) 0))
        as Rn.
      rewrite R in Rl, Rn; simpl in Rl, Rn.
      apply (complete_root_safe path_in _ src); simpl; auto; try lia.
      * intros i Hi.
        pose proof (remove_segment_zero (dst - 1) (poke buffer (dst - 1) 0) i)
          as Rz.
        rewrite R in Rz; apply Rz, peek_poke_zero, Hz; auto.
      * rewrite Rn, length_poke; auto.
    + destruct (Z.eqb_spec (peek path_in (src + 2)) c_bslash) as [D2|D2].
      * assert ((src + 3 <= strlenW path_in)%nat).
        { replace (src + 3)%nat with (S (src + 2)) by lia.
          apply src_advances; [lia|rewrite D2; discriminate]. }
        apply (complete_root_safe path_in _ src); simpl; auto; lia.
      * apply (complete_root_safe path_in _ src); simpl; auto; lia.
  - match goal with |- context [if ?c then _ else _] => destruct c end; auto.
    match goal with |- context [if ?c then _ else _] => destruct c end.
    + apply (complete_root_safe path_in _ src); simpl; auto; lia.
    + destruct (Z.eqb_spec (peek path_in (src + 1)) c_bslash) as [B1|B1].
      * assert ((src + 2 <= strlenW path_in)%nat).
        { replace (src + 2)%nat with (S (src + 1)) by lia.
          apply src_advances; [lia|rewrite B1; discriminate]. }
        apply (complete_root_safe path_in _ src); simpl; auto; lia.
      * apply (complete_root_safe path_in _ src); simpl; auto; lia.
Qed.

Lemma peek_repeat_0 (n i : nat) : peek (repeat 0 n) i = 0.
Proof.
  unfold peek; revert i; induction n as [|n IH]; intros [|i]; simpl; auto.
Qed.

Lemma peek_store_inside (src buf : list Z) (d i : nat) :
  (i < length buf)%nat -> (d <= i < d + length src)%nat ->
  peek (store buf d src) i = peek src (i - d).
Proof.
  revert buf d; induction src as [|c t IH]; intros buf d Hl Hi; simpl in *;
    [lia|].
  destruct (Nat.eq_dec i d) as [E|E].
  - subst; rewrite peek_store_below by lia.
    rewrite peek_poke_eq by lia; rewrite Nat.sub_diag; reflexivity.
  - rewrite IH by (rewrite ?length_poke; lia).
    replace (i - d)%nat with (S (i - S d)) by lia; reflexivity.
Qed.

Lemma peek_store_above (src buf : list Z) (d i : nat) :
  (d + length src <= i)%nat -> peek (store buf d src) i = peek buf i.
Proof.
  revert buf d; induction src as [|c t IH]; intros buf d Hi; simpl in *; auto.
  rewrite IH by lia; apply peek_poke_ne; lia.
Qed.

Lemma peek_cstr (s : list Z) (j : nat) :
  (j < length (cstr s))%nat -> peek (cstr s) j = peek s j.
Proof.
  unfold peek; revert j; induction s as [|c t IH]; intros j H; simpl in *;
    [lia|].
  destruct (c =? 0); simpl in *; [lia|].
  destruct j; auto; apply IH; lia.
Qed.

Lemma peek_store_zero (src buf : list Z) (d i : nat) :
  peek buf i = 0 ->
  (forall j, (j < length src)%nat -> (d + j)%nat = i -> peek src j = 0) ->
  peek (store buf d src) i = 0.
Proof.
  intros Hb Hs.
  destruct (le_lt_dec (length buf) i) as [L|L].
  { apply peek_overflow; rewrite length_store; auto. }
  destruct (le_lt_dec d i) as [A|A]; [|rewrite peek_store_below; auto].
  destruct (le_lt_dec (d + length src) i) as [C|C];
    [rewrite peek_store_above; auto|].
  rewrite peek_store_inside by lia; apply Hs; lia.
Qed.

(** Moving a string down inside a buffer leaves the units above it clear. *)
Lemma strcpyW_zero_above (buf : list Z) (d k n : nat) :
  (d <= k)%nat -> (forall i, (n <= i)%nat -> peek buf i = 0) ->
  forall i, (n <= i)%nat -> peek (strcpyW buf d (cstr_at buf k)) i = 0.
Proof.
  intros Hdk Hz i Hi; unfold strcpyW, with_nul.
  apply peek_store_zero; [apply Hz; auto|].
  intros j Hj E; rewrite length_app in Hj; simpl in Hj.
  destruct (lt_dec j (length (cstr_at buf k))) as [L|L].
  - exfalso.
    assert (Q : peek (cstr_at buf k) j <> 0)
      by (apply peek_nonzero; [apply nonzero_cstr|exact L]).
    apply Q; unfold cstr_at in *; rewrite peek_cstr, peek_skipn by exact L.
    apply Hz; lia.
  - rewrite peek_app_r by lia.
    replace (j - length (cstr_at buf k))%nat with O by lia; reflexivity.
Qed.

Lemma PathCchStripPrefix_cases (path : list Z) (size : Z) :
  (fst (PathCchStripPrefix path size) <> S_OK
   /\ snd (PathCchStripPrefix path size) = path)
  \/ (fst (PathCchStripPrefix path size) = S_OK
      /\ ((is_prefixed_unc path = true
           /\ snd (PathCchStripPrefix path size)
              = strcpyW path 2 (cstr_at path 8))
          \/ (is_prefixed_unc path = false /\ is_prefixed_disk path = true
              /\ snd (PathCchStripPrefix path size)
                 = strcpyW path 0 (cstr_at path 4)))).
Proof.
  unfold PathCchStripPrefix.
  destruct ((size =? 0) || (PATHCCH_MAX_CCH <? size));
    [left; split; [discriminate|reflexivity]|].
  destruct (is_prefixed_unc path).
  - destruct (size <? Z.of_nat (length (cstr_at path 8)) + 3);
      [left; split; [discriminate|reflexivity]|right; simpl; auto].
  - destruct (is_prefixed_disk path).
    + destruct (size <? Z.of_nat (length (cstr_at path 4)) + 1);
        [left; split; [discriminate|reflexivity]
        |right; simpl; split; auto].
    + left; split; [discriminate|reflexivity].
Qed.

Lemma canon_root_safe (path_in : list Z) : canon_safe path_in (canon_root path_in).
Proof.
  unfold canon_root.
  destruct (get_root_end path_in) as [e|] eqn:R.
  2:{ constructor; simpl; try lia.
      - intros; apply peek_repeat_0.
      - apply repeat_length. }
  pose proof (get_root_end_inside path_in e R) as He.
  set (zeros := repeat 0 (strlenW path_in + 6)).
  set (B := store zeros 0 (firstn (S e) path_in)).
  assert (HB : forall i, (S e <= i)%nat -> peek B i = 0).
  { intros i Hi; unfold B; rewrite peek_store_above.
    - apply peek_repeat_0.
    - rewrite length_firstn; lia. }
  assert (LB : length B = (strlenW path_in + 6)%nat)
    by (unfold B, zeros; rewrite length_store, repeat_length; auto).
  destruct (PathCchStripPrefix_cases B (Z.of_nat (strlenW path_in) + 6))
    as [[N E]|[E Q]];
    destruct (PathCchStripPrefix B (Z.of_nat (strlenW path_in) + 6))
      as [hr B']; simpl in *.
  - subst B'; destruct hr; try contradiction;
      constructor; simpl; auto.
  - subst hr.
    assert (HB' : forall i, (S e <= i)%nat -> peek B' i = 0).
    { destruct Q as [[_ Q]|[_ [_ Q]]]; rewrite Q;
        apply strcpyW_zero_above; auto; lia. }
    assert (LB' : length B' = (strlenW path_in + 6)%nat).
    { destruct Q as [[_ Q]|[_ [_ Q]]]; rewrite Q; unfold strcpyW;
        rewrite length_store; auto. }
    assert (H6 : (6 <= S e)%nat).
    { destruct (le_lt_dec 6 (S e)) as [L|L]; auto; exfalso.
      destruct Q as [[U _]|[_ [D _]]].
      - apply (is_prefixed_unc_units B U 7%nat); [lia|apply HB; lia].
      - destruct (is_prefixed_disk_units B D) as (_ & _ & _ & _ & _ & K5).
        rewrite HB in K5 by lia; discriminate. }
    match goal with |- context [if ?c then _ else _] => destruct c end;
      constructor; simpl; auto; try lia;
      try (apply strlenW_le_zero; rewrite ?peek_poke_ne by lia; apply HB';
           lia);
      try (intros i Hi; rewrite ?peek_poke_ne by lia; apply HB'; lia);
      rewrite ?length_poke; auto.
Qed.

Lemma canon_loop_safe (fuel : nat) (path_in : list Z) (flags : Z)
  (st : canon_state) :
  canon_safe path_in st -> canon_safe path_in (canon_loop fuel path_in flags st).
Proof.
  revert st; induction fuel as [|fuel IH]; intros st H; simpl; auto.
  destruct (Z.eqb_spec (peek path_in (c_src st)) 0); auto.
  apply IH, canon_step_safe; auto.
Qed.

Lemma complete_root_src (path_in : list Z) (st : canon_state) :
  (c_src st <= c_src (complete_root path_in st))%nat.
Proof.
  unfold complete_root.
  match goal with |- context [if ?c then _ else _] => destruct c end;
    simpl; auto.
  destruct (peek path_in (c_src st) =? c_bslash); lia.
Qed.

Lemma canon_step_advances (path_in : list Z) (flags : Z) (st : canon_state) :
  (c_src st < c_src (canon_step path_in flags st))%nat.
Proof.
  destruct st as [buffer src dst root_end]; unfold canon_step.
  repeat match goal with
         | |- context [if ?c then _ else _] => destruct c
         | |- context [let (_, _) := ?c in _] => destruct c
         end;
    try match goal with
        | |- context [complete_root ?p ?s] =>
            pose proof (complete_root_src p s)
        end;
    simpl in *; lia.
Qed.

(** The segment loop runs to the terminator of [path_in]. *)
Lemma canon_loop_done (path_in : list Z) (flags : Z) :
  peek path_in
    (c_src (canon_loop (strlenW path_in) path_in flags (canon_root path_in)))
  = 0.
Proof.
  assert (G : forall fuel st,
             canon_safe path_in st ->
             (strlenW path_in <= c_src st + fuel)%nat ->
             peek path_in (c_src (canon_loop fuel path_in flags st)) = 0).
  { induction fuel as [|fuel IH]; intros st S F; simpl.
    - destruct S as [_ Hs _ _].
      replace (c_src st) with (strlenW path_in) by lia; apply peek_strlenW.
    - destruct (Z.eqb_spec (peek path_in (c_src st)) 0) as [E|E]; auto.
      apply IH; [apply canon_step_safe; auto|].
      pose proof (canon_step_advances path_in flags st); lia. }
  apply G; [apply canon_root_safe|lia].
Qed.

(** X3. The segment loop of PathAllocCanonicalize, which the embedding
    runs for as many turns as [path_in] has code units, always ends at the
    terminator of [path_in] and would do nothing else if it were given more
    turns; the output cursor never overtakes the input cursor, so that every
    unit stored lies in the buffer of [length + 6] units. *)
Theorem PathAllocCanonicalize_loop_reaches_terminator (path_in : list Z)
  (flags : Z) :
  peek path_in
    (c_src (canon_loop (strlenW path_in) path_in flags (canon_root path_in)))
  = 0
  /\ canon_safe path_in
       (canon_loop (strlenW path_in) path_in flags (canon_root path_in))
  /\ (forall fuel, (strlenW path_in <= fuel)%nat ->
        canon_loop fuel path_in flags (canon_root path_in)
        = canon_loop (strlenW path_in) path_in flags (canon_root path_in)).
Proof.
  split; [apply canon_loop_done|].
  split; [apply canon_loop_safe, canon_root_safe|].
  assert (G : forall fuel1 fuel2 st,
             canon_safe path_in st ->
             (strlenW path_in <= c_src st + fuel1)%nat ->
             (fuel1 <= fuel2)%nat ->
             canon_loop fuel2 path_in flags st
             = canon_loop fuel1 path_in flags st).
  { induction fuel1 as [|fuel1 IH]; intros fuel2 st S F1 F2.
    - destruct fuel2 as [|fuel2]; cbn [canon_loop]; auto.
      destruct S as [_ Hs _ _].
      replace (c_src st) with (strlenW path_in) by lia.
      rewrite peek_strlenW; reflexivity.
    - destruct fuel2 as [|fuel2]; [lia|]; cbn [canon_loop].
      destruct (Z.eqb_spec (peek path_in (c_src st)) 0) as [E|E]; auto.
      apply IH; [apply canon_step_safe; auto| |lia].
      pose proof (canon_step_advances path_in flags st); lia. }
  intros fuel F; apply G; [apply canon_root_safe|lia|exact F].
Qed.

(** ** The canonical form and its promotion *)

Lemma canon_segments_shape (path_in : list Z) (flags : Z) :
  length (canon_segments path_in flags) = (strlenW path_in + 6)%nat
  /\ (1 <= strlenW (canon_segments path_in flags))%nat
  /\ (strlenW (canon_segments path_in flags)
      <= Nat.max (strlenW path_in) 1)%nat.
Proof.
  unfold canon_segments.
  pose proof (canon_loop_safe (strlenW path_in) path_in flags
                (canon_root path_in) (canon_root_safe path_in))
    as [Hd Hs Hz Hl].
  set (st := canon_loop (strlenW path_in) path_in flags (canon_root path_in))
    in *.
  set (B := poke (c_buffer st) (c_dst st) 0).
  assert (LB : length B = (strlenW path_in + 6)%nat)
    by (unfold B; rewrite length_poke; auto).
  assert (SB : (strlenW B <= c_dst st)%nat).
  { apply strlenW_le_zero; unfold B; apply peek_poke_eq; lia. }
  destruct (Z.eqb_spec (peek B 0) 0) as [E|E].
  - rewrite !length_poke; split; auto.
    assert (Q : strlenW (poke (poke B 0 c_bslash) 1 0) = 1%nat).
    { destruct B as [|b0 [|b1 B']]; simpl in LB; try lia; reflexivity. }
    rewrite Q; lia.
  - split; auto; split; [|lia].
    apply (strlenW_ge B 1); intros i Hi; replace i with O by lia; auto.
Qed.

Lemma poke_prefix4 (a rest : list Z) (v0 v1 v2 v3 : Z) :
  length a = 4%nat ->
  poke (poke (poke (poke (a ++ rest) 0 v0) 1 v1) 2 v2) 3 v3
  = [v0; v1; v2; v3] ++ rest.
Proof.
  destruct a as [|a0 [|a1 [|a2 [|a3 [|a4 a]]]]]; simpl; intros H;
    try discriminate; reflexivity.
Qed.

Lemma cstr_extend_path (buffer : list Z) (flags : Z) :
  (strlenW buffer + 5 <= length buffer)%nat ->
  cstr (extend_path buffer flags)
  = (if (((Z.of_nat (strlenW buffer) + 1 >? MAX_PATH)
          && isalphaW (peek buffer 0) && (peek buffer 1 =? c_colon))
         || (isalphaW (peek buffer 0) && (peek buffer 1 =? c_colon)
             && flag_set flags PATHCCH_ENSURE_IS_EXTENDED_LENGTH_PATH))
        && negb (flag_set flags PATHCCH_FORCE_ENABLE_LONG_NAME_PROCESS)
     then prefixed_disk else [])
    ++ cstr buffer.
Proof.
  intros H; unfold extend_path.
  match goal with |- context [if ?c then _ else _] => destruct c end; auto.
  unfold with_nul; rewrite store_split
    by (rewrite length_app; unfold strlenW in H; simpl; lia).
  rewrite poke_prefix4 by (rewrite length_firstn; lia).
  rewrite <- (app_assoc (cstr buffer) [0]).
  rewrite (app_assoc [c_bslash; c_bslash; c_qmark; c_bslash]).
  change ([0] ++ ?x) with (0 :: x).
  apply cstr_app, Forall_app; split; [|apply nonzero_cstr].
  repeat constructor; discriminate.
Qed.

Lemma cstr_append_unit (buffer : list Z) (v : Z) :
  v <> 0 -> (strlenW buffer + 2 <= length buffer)%nat ->
  cstr (poke (poke buffer (strlenW buffer) v) (S (strlenW buffer)) 0)
  = cstr buffer ++ [v].
Proof.
  intros Hv; unfold strlenW; induction buffer as [|c t IH]; simpl;
    intros L; [lia|].
  destruct (Z.eqb_spec c 0) as [E|E]; simpl in L |- *.
  - destruct (Z.eqb_spec v 0); [contradiction|].
    destruct t; simpl in L |- *; [lia|reflexivity].
  - destruct (Z.eqb_spec c 0); [contradiction|].
    rewrite IH by lia; reflexivity.
Qed.

Lemma length_extend_path (buffer : list Z) (flags : Z) :
  length (extend_path buffer flags) = length buffer.
Proof.
  unfold extend_path.
  match goal with |- context [if ?c then _ else _] => destruct c end; auto.
  rewrite !length_poke, length_store; reflexivity.
Qed.

Lemma flag_set_implied (flags mask : Z) :
  Z.land PATHCCH_DO_NOT_NORMALIZE_SEGMENTS mask = 0 ->
  flag_set (implied_flags flags) mask = flag_set flags mask.
Proof.
  intros H; unfold implied_flags.
  destruct (flag_set flags PATHCCH_ENSURE_IS_EXTENDED_LENGTH_PATH); auto.
  unfold flag_set; rewrite Z.land_lor_distr_l, H, Z.lor_0_r; reflexivity.
Qed.

Lemma peek_cstr_le (s : list Z) (i : nat) :
  (i <= strlenW s)%nat -> peek (cstr s) i = peek s i.
Proof.
  intros H; destruct (Nat.eq_dec i (strlenW s)) as [E|E].
  - subst; rewrite peek_strlenW; apply peek_overflow; unfold strlenW; lia.
  - apply peek_cstr; unfold strlenW in *; lia.
Qed.

(** PathCchAddBackslashEx on a buffer with room for one unit more: the
    string gets a backslash unless it is empty or ends with one. *)
Lemma cstr_PathCchAddBackslashEx (path : list Z) (size : Z) :
  (strlenW path + 2 <= length path)%nat ->
  Z.of_nat (strlenW path) + 1 < size ->
  cstr (snd (PathCchAddBackslashEx path size))
  = with_trailing_backslash (cstr path).
Proof.
  intros L Hs; unfold PathCchAddBackslashEx, with_trailing_backslash.
  fold (strlenW path).
  rewrite (peek_cstr_le path (strlenW path - 1)) by lia.
  destruct (Z.eqb_spec size 0) as [|_]; [lia|].
  cbn [negb andb].
  destruct (strlenW path =? 0)%nat; cbn [negb andb orb]; cbv iota.
  - rewrite Z.geb_leb; destruct (Z.leb_spec size (Z.of_nat (strlenW path)));
      [lia|reflexivity].
  - destruct (peek path (strlenW path - 1) =? c_bslash); cbn [negb];
      cbv iota.
    + rewrite Z.geb_leb;
        destruct (Z.leb_spec size (Z.of_nat (strlenW path)));
        [lia|reflexivity].
    + rewrite Z.geb_leb;
        destruct (Z.leb_spec (size - 1) (Z.of_nat (strlenW path)));
        [lia|].
      cbn [snd]; apply cstr_append_unit; [discriminate|exact L].
Qed.

(** C6 (as amended). When PathAllocCanonicalize succeeds, let [body] be the
    path as the segment loop leaves it. The result is [body] with "\\?\" put
    in front exactly when [body] is drive-absolute (a letter and ':'), its
    length plus the terminator exceeds MAX_PATH or
    ENSURE_IS_EXTENDED_LENGTH_PATH is set, and FORCE_ENABLE_LONG_NAME_PROCESS
    is not set; otherwise it is [body] itself. Under ENSURE_TRAILING_SLASH
    a backslash follows unless the result already ends with one; without
    that flag nothing follows. *)
Theorem PathAllocCanonicalize_promotion (path_in : list Z) (flags : Z)
  (out : list Z) :
  PathAllocCanonicalize path_in flags = (S_OK, Some out) ->
  let body := cstr (canon_segments path_in (implied_flags flags)) in
  let promoted :=
    isalphaW (peek body 0) && (peek body 1 =? c_colon)
    && ((Z.of_nat (length body) + 1 >? MAX_PATH)
        || flag_set flags PATHCCH_ENSURE_IS_EXTENDED_LENGTH_PATH)
    && negb (flag_set flags PATHCCH_FORCE_ENABLE_LONG_NAME_PROCESS) in
  let extended := (if promoted then prefixed_disk else []) ++ body in
  out = if flag_set flags PATHCCH_ENSURE_TRAILING_SLASH
        then with_trailing_backslash extended else extended.
Proof.
  intros E body promoted extended; unfold PathAllocCanonicalize in E;
    cbv zeta in E.
  match type of E with context [if ?c then _ else _] => destruct c end;
    [discriminate|].
  match type of E with context [if ?c then _ else _] => destruct c end;
    [discriminate|].
  inversion E as [Q]; clear E Q.
  destruct (canon_segments_shape path_in (implied_flags flags))
    as (LB & S1 & S2).
  set (B := canon_segments path_in (implied_flags flags)) in *.
  assert (X : cstr (extend_path B (implied_flags flags)) = extended).
  { rewrite cstr_extend_path by lia.
    rewrite !flag_set_implied by reflexivity.
    unfold extended, promoted, body; rewrite !peek_cstr_le by lia.
    fold (strlenW B).
    destruct (Z.of_nat (strlenW B) + 1 >? MAX_PATH),
      (isalphaW (peek B 0)), (peek B 1 =? c_colon),
      (flag_set flags PATHCCH_ENSURE_IS_EXTENDED_LENGTH_PATH),
      (flag_set flags PATHCCH_FORCE_ENABLE_LONG_NAME_PROCESS); reflexivity. }
  rewrite flag_set_implied by reflexivity.
  destruct (flag_set flags PATHCCH_ENSURE_TRAILING_SLASH); [|exact X].
  assert (L : (length extended <= strlenW path_in + 4)%nat).
  { unfold extended; rewrite length_app; fold body.
    assert (LBody : length body = strlenW B) by reflexivity.
    destruct promoted eqn:P; simpl length; [|lia].
    destruct (Nat.eq_dec (strlenW path_in) 0) as [Z0|Z0]; [|lia].
    assert (S0 : strlenW B = 1%nat) by lia.
    unfold promoted, body in P; rewrite !peek_cstr_le in P by lia.
    assert (P1 : peek B 1 = 0) by (rewrite <- S0; apply peek_strlenW).
    rewrite P1 in P; change (0 =? c_colon) with false in P.
    rewrite andb_false_r in P; discriminate. }
  assert (SL : strlenW (extend_path B (implied_flags flags))
               = length extended) by (unfold strlenW; rewrite X; reflexivity).
  unfold PathCchAddBackslash.
  rewrite cstr_PathCchAddBackslashEx, X; [reflexivity| |].
  - rewrite length_extend_path, SL; lia.
  - rewrite SL; lia.
Qed.

(** ** Paths whose dots stand inside names are fixed points *)

Lemma strncmpiW_ext (n : nat) (a b p : list Z) :
  (forall i, (i < n)%nat -> peek a i = peek b i) ->
  strncmpiW a p n = strncmpiW b p n.
Proof.
  revert a b p; induction n as [|n IH]; intros a b p H; simpl; auto.
  rewrite (H O) by lia.
  match goal with |- context [if ?c then _ else _] => destruct c end; auto.
  apply IH; intros i Hi; rewrite !peek_tl; apply H; lia.
Qed.

Lemma skipn_repeat_0 (k n : nat) : skipn k (repeat 0 n) = repeat 0 (n - k).
Proof.
  revert n; induction k as [|k IH]; intros [|n]; simpl; auto.
Qed.

Lemma root_truncation (s : list Z) (n m : nat) :
  (n <= length s)%nat -> (n <= m)%nat ->
  store (repeat 0 m) 0 (firstn n s) = firstn n s ++ repeat 0 (m - n).
Proof.
  intros H Hm; rewrite store_head by (rewrite length_firstn, repeat_length; lia).
  rewrite length_firstn, skipn_repeat_0.
  replace (Nat.min n (length s)) with n by lia; reflexivity.
Qed.

Lemma peek_truncation (s : list Z) (n k i : nat) :
  (i < n)%nat -> peek (firstn n s ++ repeat 0 k) i = peek s i.
Proof.
  intros H; destruct (lt_dec i (length s)) as [L|L].
  - rewrite peek_app_l by (rewrite length_firstn; lia).
    apply peek_firstn; auto.
  - rewrite peek_app_r by (rewrite length_firstn; lia).
    rewrite peek_repeat_0; symmetry; apply peek_overflow; lia.
Qed.

Lemma peek_truncation_above (s : list Z) (n k i : nat) :
  (n <= length s)%nat -> (n <= i)%nat ->
  peek (firstn n s ++ repeat 0 k) i = 0.
Proof.
  intros H Hi; rewrite peek_app_r by (rewrite length_firstn; lia).
  apply peek_repeat_0.
Qed.

(** A truncated copy of a path is device-prefixed only if the path is. *)
Lemma truncation_not_prefixed (s : list Z) (n k : nat) :
  (n <= length s)%nat ->
  is_prefixed_unc s = false -> is_prefixed_disk s = false ->
  is_prefixed_unc (firstn n s ++ repeat 0 k) = false
  /\ is_prefixed_disk (firstn n s ++ repeat 0 k) = false.
Proof.
  intros Hn Hu Hd; set (B := firstn n s ++ repeat 0 k); split.
  - destruct (is_prefixed_unc B) eqn:E; auto; exfalso.
    pose proof (is_prefixed_unc_units B E) as K.
    assert (8 <= n)%nat.
    { destruct (le_lt_dec 8 n); auto; exfalso.
      apply (K n); auto; apply peek_truncation_above; auto. }
    unfold is_prefixed_unc in *.
    rewrite (strncmpiW_ext 8 B s) in E; [congruence|].
    intros i Hi; apply peek_truncation; lia.
  - destruct (is_prefixed_disk B) eqn:E; auto; exfalso.
    destruct (is_prefixed_disk_units B E) as (K0 & K1 & K2 & K3 & K4 & K5).
    assert (6 <= n)%nat.
    { destruct (le_lt_dec 6 n); auto; exfalso.
      destruct (le_lt_dec 5 n).
      - unfold B in K5; rewrite peek_truncation_above in K5 by lia;
          discriminate.
      - apply isalphaW_nonzero in K4; apply K4.
        destruct (Nat.eq_dec n 4).
        + apply peek_truncation_above; lia.
        + assert (Q : peek B n = 0) by (apply peek_truncation_above; lia).
          destruct n as [|[|[|[|n]]]]; try lia; rewrite Q in *; discriminate. }
    unfold B in K0, K1, K2, K3, K4, K5.
    rewrite peek_truncation in K0, K1, K2, K3, K4, K5 by lia.
    unfold is_prefixed_disk in Hd.
    rewrite K4, K5 in Hd.
    assert (Q : strncmpW s prefixed_disk 4 = 0).
    { simpl; rewrite !peek_tl, K0, K1, K2, K3; reflexivity. }
    rewrite Q in Hd; discriminate.
Qed.

Lemma canon_root_plain (path_in : list Z) :
  nonzero path_in ->
  is_prefixed_unc path_in = false -> is_prefixed_disk path_in = false ->
  exists n root_end,
    (n <= length path_in)%nat
    /\ canon_root path_in
       = mk_canon (firstn n path_in ++ repeat 0 (length path_in + 6 - n))
           n n root_end.
Proof.
  intros Hz Hu Hd; unfold canon_root; rewrite (strlenW_nonzero _ Hz).
  destruct (get_root_end path_in) as [e|] eqn:R.
  - pose proof (get_root_end_inside path_in e R) as He.
    rewrite (strlenW_nonzero _ Hz) in He.
    rewrite root_truncation by lia.
    destruct (truncation_not_prefixed path_in (S e)
                (length path_in + 6 - S e) He Hu Hd) as [U D].
    exists (S e), (Some e); split; auto.
    unfold PathCchStripPrefix; rewrite U, D.
    destruct ((Z.of_nat (length path_in) + 6 =? 0)
              || (PATHCCH_MAX_CCH <? Z.of_nat (length path_in) + 6));
      reflexivity.
  - exists O, None; split; [lia|].
    rewrite Nat.sub_0_r; reflexivity.
Qed.

Lemma poke_truncation (s : list Z) (n m : nat) :
  (n < length s)%nat -> (n < m)%nat ->
  poke (firstn n s ++ repeat 0 (m - n)) n (peek s n)
  = firstn (S n) s ++ repeat 0 (m - S n).
Proof.
  intros H Hm.
  pose proof (poke_app_r (firstn n s) (repeat 0 (m - n)) 0 (peek s n)) as E.
  rewrite length_firstn in E.
  replace (Nat.min n (length s) + 0)%nat with n in E by lia.
  rewrite E.
  replace (m - n)%nat with (S (m - S n)) by lia; simpl.
  replace (peek s n :: repeat 0 (m - S n))
    with ([peek s n] ++ repeat 0 (m - S n)) by reflexivity.
  rewrite app_assoc; f_equal.
  clear E; revert n H Hm; induction s as [|c t IH]; intros [|n] H Hm;
    simpl in *; try lia; auto.
  f_equal; unfold peek in *; simpl; apply (IH n); lia.
Qed.

Lemma peek_truncation_below (s : list Z) (n m i : nat) :
  (i < n)%nat -> (n <= length s)%nat ->
  peek (firstn n s ++ repeat 0 m) i = peek s i.
Proof.
  intros H L; rewrite peek_app_l by (rewrite length_firstn; lia).
  apply peek_firstn; exact H.
Qed.

Lemma canon_loop_plain (path_in : list Z) (flags : Z) (fuel src : nat)
  (root_end : option nat) :
  nonzero path_in -> interior_dots path_in ->
  (src <= length path_in)%nat -> (length path_in <= src + fuel)%nat ->
  canon_loop fuel path_in flags
    (mk_canon (firstn src path_in ++ repeat 0 (length path_in + 6 - src))
       src src root_end)
  = mk_canon (path_in ++ repeat 0 6) (length path_in) (length path_in)
      root_end.
Proof.
  intros Hz Hd; revert src; induction fuel as [|fuel IH]; intros src Hs Hf.
  - replace src with (length path_in) by lia; simpl.
    rewrite firstn_all.
    replace (length path_in + 6 - length path_in)%nat with 6%nat by lia.
    reflexivity.
  - simpl canon_loop; cbv beta iota; simpl c_src.
    destruct (Z.eqb_spec (peek path_in src) 0) as [E|E].
    + apply peek_is_zero in E; auto.
      replace src with (length path_in) by lia.
      rewrite firstn_all.
      replace (length path_in + 6 - length path_in)%nat with 6%nat by lia.
      reflexivity.
    + assert (L : (src < length path_in)%nat).
      { destruct (le_lt_dec (length path_in) src); auto.
        exfalso; apply E, peek_overflow; auto. }
      unfold canon_step; rewrite Nat.add_0_r.
      destruct (Z.eqb_spec (peek path_in src) c_dot) as [D|D].
      * destruct (Hd src D) as (P0 & P1 & P2 & P3).
        rewrite (peek_truncation_below path_in src _ (src - 1)) by lia.
        destruct (Nat.ltb_spec 0 src); [|lia].
        destruct (Z.eqb_spec (peek path_in (src - 1)) c_bslash);
          [contradiction|].
        rewrite Nat.add_1_r.
        destruct (Z.eqb_spec (peek path_in (S src)) c_bslash);
          [contradiction|].
        destruct (Z.eqb_spec (peek path_in (S src)) 0); [contradiction|].
        simpl negb; simpl andb.
        destruct (Z.eqb_spec (peek path_in (S src)) c_dot) as [D1|D1].
        -- destruct (peek path_in (src - 1) =? c_star).
           ++ rewrite poke_truncation by lia; apply IH; lia.
           ++ destruct (Hd (S src) D1) as (_ & _ & Q2 & Q3).
              replace (src + 2)%nat with (S (S src)) in * by lia.
              destruct (Z.eqb_spec (peek path_in (S (S src))) c_bslash);
                [contradiction|].
              destruct (Z.eqb_spec (peek path_in (S (S src))) 0);
                [contradiction|].
              simpl negb; rewrite orb_true_r; cbv iota.
              assert (L1 : (S src < length path_in)%nat).
              { destruct (le_lt_dec (length path_in) (S src)); auto.
                rewrite peek_overflow in D1 by lia; discriminate. }
              rewrite poke_truncation, poke_truncation by lia.
              apply IH; lia.
        -- rewrite orb_true_r; simpl orb; cbv iota.
           rewrite poke_truncation by lia; apply IH; lia.
      * rewrite poke_truncation by lia.
        apply IH; lia.
Qed.

(** A non-empty path whose dots all stand inside names, without a device
    prefix to strip, is returned as it is. *)
Lemma PathAllocCanonicalize_plain (path_in : list Z) :
  nonzero path_in -> path_in <> [] ->
  interior_dots path_in ->
  is_prefixed_unc path_in = false -> is_prefixed_disk path_in = false ->
  Z.of_nat (length path_in) + 1 <= MAX_PATH ->
  PathAllocCanonicalize path_in 0 = (S_OK, Some path_in).
Proof.
  intros Hz Hne Hd Hu Hk Hl; unfold PathAllocCanonicalize.
  change (flag_set 0 ?m) with false; simpl orb; simpl andb; cbv iota.
  rewrite (strlenW_nonzero _ Hz).
  destruct (Z.gtb_spec (Z.of_nat (length path_in) + 1) MAX_PATH); [lia|].
  destruct (Z.gtb_spec (Z.of_nat (length path_in) + 1) PATHCCH_MAX_CCH);
    [unfold MAX_PATH, PATHCCH_MAX_CCH in *; lia|].
  simpl orb; cbv iota zeta.
  change (implied_flags 0) with 0.
  change (flag_set 0 ?m) with false; cbv iota.
  assert (C : canon_segments path_in 0 = path_in ++ 0 :: repeat 0 5).
  { unfold canon_segments; rewrite (strlenW_nonzero _ Hz).
    destruct (canon_root_plain path_in Hz Hu Hk) as (n & re & Hn & R).
    rewrite R, canon_loop_plain by (auto; lia).
    simpl c_buffer; simpl c_dst.
    change (repeat 0 6) with [0; 0; 0; 0; 0; 0].
    pose proof (poke_app_r path_in [0; 0; 0; 0; 0; 0] 0 0) as P.
    rewrite Nat.add_0_r in P; rewrite P; simpl poke.
    destruct path_in as [|c t]; [contradiction|].
    inversion Hz; subst.
    change (peek ((c :: t) ++ [0; 0; 0; 0; 0; 0]) 0) with c.
    destruct (Z.eqb_spec c 0); [contradiction|reflexivity]. }
  rewrite C, cstr_extend_path
    by (unfold strlenW; rewrite cstr_app, length_app by auto; simpl; lia).
  unfold strlenW; rewrite cstr_app by auto.
  destruct (Z.gtb_spec (Z.of_nat (length path_in) + 1) MAX_PATH); [lia|].
  change (flag_set 0 ?m) with false.
  rewrite !andb_false_r; reflexivity.
Qed.

(** C8 (as amended). Under default flags, a result of PathAllocCanonicalize
    whose dots all stand inside names (none follows a backslash or begins
    the path, none precedes a backslash or ends the path) and that does not
    begin with a device prefix that canonicalization strips ("\\?\UNC\" or
    "\\?\X:") is returned unchanged when it is canonicalized again. *)
Theorem PathAllocCanonicalize_idempotent (q r : list Z) :
  PathAllocCanonicalize q 0 = (S_OK, Some r) ->
  interior_dots r ->
  is_prefixed_unc r = false -> is_prefixed_disk r = false ->
  PathAllocCanonicalize r 0 = (S_OK, Some r).
Proof.
  intros E Hd Hu Hk; unfold PathAllocCanonicalize in E; cbv zeta in E.
  change (flag_set 0 ?m) with false in E.
  simpl orb in E; simpl andb in E; cbv iota in E.
  change (implied_flags 0) with 0 in E.
  change (flag_set 0 ?m) with false in E.
  destruct (Z.gtb_spec (Z.of_nat (strlenW q) + 1) MAX_PATH) as [G|G];
    [discriminate|].
  destruct (Z.gtb_spec (Z.of_nat (strlenW q) + 1) PATHCCH_MAX_CCH) as [G'|G'];
    [discriminate|].
  simpl in E; inversion E as [Q]; clear E.
  destruct (canon_segments_shape q 0) as (LB & S1 & S2).
  set (B := canon_segments q 0) in *.
  rewrite cstr_extend_path in * by lia.
  match type of Q with
  | (if ?c then _ else _) ++ _ = _ => destruct c eqn:C
  end.
  - exfalso.
    assert (A : isalphaW (peek B 0) = true /\ peek B 1 = c_colon).
    { destruct (isalphaW (peek B 0)); [|rewrite ?andb_false_r in C;
                                         discriminate].
      destruct (Z.eqb_spec (peek B 1) c_colon); auto.
      rewrite ?andb_false_r in C; discriminate. }
    destruct A as [A0 A1].
    rewrite <- Q in Hk; unfold is_prefixed_disk in Hk.
    change (peek (prefixed_disk ++ cstr B) 4) with (peek (cstr B) 0) in Hk.
    change (peek (prefixed_disk ++ cstr B) 5) with (peek (cstr B) 1) in Hk.
    rewrite !peek_cstr_le, A0, A1 in Hk by lia.
    discriminate Hk.
  - change ([] ++ cstr B) with (cstr B) in Q; subst r.
    apply PathAllocCanonicalize_plain; auto.
    + apply nonzero_cstr.
    + intros N; simpl in N; unfold strlenW in S1; rewrite N in S1;
        simpl in S1; lia.
    + simpl app; fold (strlenW B); unfold MAX_PATH in *; lia.
Qed.

(** ** ".." and the root *)

Lemma canon_root_rooted (path_in : list Z) (e : nat) :
  nonzero path_in ->
  is_prefixed_unc path_in = false -> is_prefixed_disk path_in = false ->
  get_root_end path_in = Some e ->
  canon_root path_in
  = mk_canon (firstn (S e) path_in ++ repeat 0 (length path_in + 6 - S e))
      (S e) (S e) (Some e).
Proof.
  intros Hz Hu Hd R; unfold canon_root; rewrite (strlenW_nonzero _ Hz), R.
  pose proof (get_root_end_inside path_in e R) as He.
  rewrite (strlenW_nonzero _ Hz) in He.
  rewrite root_truncation by lia.
  destruct (truncation_not_prefixed path_in (S e)
              (length path_in + 6 - S e) He Hu Hd) as [U D].
  unfold PathCchStripPrefix; rewrite U, D.
  destruct ((Z.of_nat (length path_in) + 6 =? 0)
            || (PATHCCH_MAX_CCH <? Z.of_nat (length path_in) + 6));
    reflexivity.
Qed.

Lemma strncmpiW_0_fold (n : nat) (s p : list Z) :
  strncmpiW s p n = 0 ->
  (forall i, (i < n)%nat -> tolowerW (peek p i) <> 0) ->
  forall i, (i < n)%nat -> tolowerW (peek s i) = tolowerW (peek p i).
Proof.
  revert s p; induction n as [|n IH]; intros s p E Hp i Hi; [lia|].
  simpl in E.
  destruct (Z.eqb_spec (tolowerW (peek s 0) - tolowerW (peek p 0)) 0)
    as [D|D]; simpl in E; [|contradiction].
  destruct i as [|i]; [lia|].
  destruct (Z.eqb_spec (peek s 0) 0) as [Z0|Z0].
  - exfalso; apply (Hp O); [lia|]. rewrite Z0, tolowerW_0 in D; lia.
  - rewrite <- !peek_tl; apply (IH (tl s) (tl p)); auto; try lia.
    intros j Hj; rewrite peek_tl; apply Hp; lia.
Qed.

(** The last unit of a root that is not stripped is a backslash, the colon
    of a drive or the closing brace of a volume name. *)
Lemma root_last_unit (path : list Z) (e : nat) :
  get_root_end path = Some e ->
  is_prefixed_unc path = false -> is_prefixed_disk path = false ->
  peek path e = c_bslash \/ peek path e = c_colon \/ peek path e = c_rbrace.
Proof.
  unfold get_root_end; intros H Hu Hd; rewrite Hu, Hd in H.
  destruct (is_prefixed_volume path) eqn:Ev.
  { destruct (Z.eqb_spec (peek path 48) c_bslash) as [E|E];
      inversion H; subst; auto.
    unfold is_prefixed_volume in Ev.
    destruct (negb (strncmpiW path prefixed_volume 10 =? 0));
      [discriminate|].
    rewrite forallb_forall in Ev.
    assert (I : In 37%nat (seq 0 38)) by (apply in_seq; lia).
    apply Ev in I; unfold volume_guid_unit in I.
    rewrite peek_skipn in I; apply Z.eqb_eq in I; auto. }
  destruct (Z.eqb_spec (peek path 0) c_bslash) as [E0|E0];
    destruct (Z.eqb_spec (peek path 1) c_bslash) as [E1|E1]; simpl in H;
    try (inversion H; subst; auto; fail).
  - destruct (isalphaW (peek path 0)); simpl in H; [|discriminate].
    destruct (Z.eqb_spec (peek path 1) c_colon) as [Ec|Ec]; [|discriminate].
    destruct (Z.eqb_spec (peek path 2) c_bslash) as [E|E]; inversion H; subst;
      auto.
  - destruct (isalphaW (peek path 0)); simpl in H; [|discriminate].
    destruct (Z.eqb_spec (peek path 1) c_colon) as [Ec|Ec]; [|discriminate].
    destruct (Z.eqb_spec (peek path 2) c_bslash) as [E|E]; inversion H; subst;
      auto.
Qed.

(** A path that begins with a letter and a colon has the root of a drive. *)
Lemma drive_root_end (path : list Z) (e : nat) :
  get_root_end path = Some e ->
  isalphaW (peek path 0) = true -> peek path 1 = c_colon ->
  e = if peek path 2 =? c_bslash then 2%nat else 1%nat.
Proof.
  unfold get_root_end; intros H Ha Hc.
  assert (NB : peek path 0 <> c_bslash).
  { intros E; rewrite E in Ha; discriminate. }
  destruct (is_prefixed_volume path) eqn:Ev.
  { exfalso; unfold is_prefixed_volume in Ev.
    destruct (Z.eqb_spec (strncmpiW path prefixed_volume 10) 0) as [E|E];
      simpl negb in Ev; cbv iota in Ev; [|discriminate].
    assert (F : tolowerW (peek path 1) = tolowerW (peek prefixed_volume 1)).
    { apply (strncmpiW_0_fold 10 path prefixed_volume E); [|lia].
      below 10 by (vm_compute; congruence). }
    rewrite Hc in F; vm_compute in F; discriminate. }
  destruct (is_prefixed_unc path) eqn:Eu.
  { exfalso; unfold is_prefixed_unc in Eu; apply Z.eqb_eq in Eu.
    assert (F : tolowerW (peek path 1) = tolowerW (peek prefixed_unc 1)).
    { apply (strncmpiW_0_fold 8 path prefixed_unc Eu); [|lia].
      below 8 by (vm_compute; congruence). }
    rewrite Hc in F; vm_compute in F; discriminate. }
  destruct (is_prefixed_disk path) eqn:Ed.
  { exfalso; destruct (is_prefixed_disk_units path Ed) as (K0 & _); auto. }
  destruct (Z.eqb_spec (peek path 0) c_bslash) as [E0|E0]; [contradiction|].
  simpl in H; rewrite Ha, Hc in H; simpl in H.
  destruct (peek path 2 =? c_bslash); inversion H; reflexivity.
Qed.

Lemma peek_from_firstn (a b : list Z) (n i : nat) :
  firstn n a = firstn n b -> (i < n)%nat -> peek a i = peek b i.
Proof.
  intros E H; rewrite <- (peek_firstn a n i H), <- (peek_firstn b n i H), E;
    reflexivity.
Qed.

Lemma peek_poke_same_zero (s : list Z) (i : nat) : peek (poke s i 0) i = 0.
Proof.
  destruct (lt_dec i (length s)).
  - apply peek_poke_eq; auto.
  - rewrite poke_overflow by lia; apply peek_overflow; lia.
Qed.

Lemma remove_segment_stops (dst : nat) (buffer : list Z) (j : nat) :
  peek buffer j = c_bslash -> (j < dst)%nat ->
  (j <= snd (remove_segment buffer dst))%nat.
Proof.
  revert buffer; induction dst as [|d IH]; intros buffer H Hj; [lia|].
  simpl; destruct (Z.eqb_spec (peek buffer d) c_bslash) as [E|E]; simpl;
    [lia|].
  assert (j <> d) by (intros Q; subst; contradiction).
  apply IH; [rewrite peek_poke_ne; auto|lia].
Qed.

Lemma remove_segment_clears (dst : nat) (buffer : list Z) :
  (1 <= dst)%nat ->
  peek (fst (remove_segment buffer dst)) (snd (remove_segment buffer dst)) = 0.
Proof.
  revert buffer; induction dst as [|d IH]; intros buffer H; [lia|].
  simpl; destruct (peek buffer d =? c_bslash); simpl.
  - apply peek_poke_same_zero.
  - destruct d as [|d]; [simpl; apply peek_poke_same_zero|].
    apply IH; lia.
Qed.

Section RootKept.

Variable path_in : list Z.
Variable root : list Z.
Variable e : nat.
Hypothesis root_end_e : get_root_end path_in = Some e.
Hypothesis root_units : firstn (length root) path_in = root.
Hypothesis root_length : length root = S e.

Lemma complete_root_kept (st : canon_state) :
  root_kept root st -> root_kept root (complete_root path_in st).
Proof.
  intros [Hu Hd [r [Hr Hre]] Hl]; unfold complete_root.
  destruct (isalphaW (peek (c_buffer st) 0)) eqn:A; simpl;
    [|constructor; eauto].
  destruct (Z.eqb_spec (peek (c_buffer st) 1) c_colon) as [C|C]; simpl;
    [|constructor; eauto].
  destruct (Z.eqb_spec (peek (c_buffer st) 2) c_bslash) as [B|B]; simpl;
    [constructor; eauto|].
  assert (length root <= 2)%nat.
  { destruct (le_lt_dec (length root) 2) as [L|L]; auto; exfalso.
    assert (Q : forall i, (i < length root)%nat ->
                          peek (c_buffer st) i = peek path_in i).
    { intros i Hi; apply (peek_from_firstn _ _ (length root)); auto.
      rewrite Hu, root_units; reflexivity. }
    rewrite (Q 0%nat) in A by lia; rewrite (Q 1%nat) in C by lia.
    rewrite (Q 2%nat) in B by lia.
    pose proof (drive_root_end path_in e root_end_e A C) as E.
    destruct (Z.eqb_spec (peek path_in 2) c_bslash); [contradiction|lia]. }
  constructor; simpl.
  - rewrite firstn_poke; auto.
  - lia.
  - exists 2%nat; split; auto; lia.
  - rewrite length_poke; auto.
Qed.

Lemma drive_backwalk_kept (buffer : list Z) (src dst : nat)
  (root_end : option nat) :
  drive_root root ->
  root_kept root (mk_canon buffer src dst root_end) ->
  peek buffer (dst - 1) = c_bslash -> (0 < dst)%nat ->
  above_root root_end dst = true ->
  root_kept root
    (complete_root path_in
       (let (buffer', dst') :=
          remove_segment (poke buffer (dst - 1) 0) (dst - 1) in
        mk_canon buffer' (src + 2) dst' root_end)).
Proof.
  intros (x & Hx & Hroot) [Hu Hd [r [Hr Hre]] Hl] Hb H0 Ha; simpl in *.
  subst root; simpl in *; subst root_end; simpl in Ha.
  apply Nat.ltb_lt in Ha.
  assert (P0 : peek buffer 0 = x /\ peek buffer 1 = c_colon
               /\ peek buffer 2 = c_bslash).
  { destruct buffer as [|b0 [|b1 [|b2 t]]]; simpl in Hu; try discriminate.
    inversion Hu; subst; auto. }
  destruct P0 as (P0 & P1 & P2).
  set (B1 := poke buffer (dst - 1) 0).
  assert (P2' : peek B1 2 = c_bslash)
    by (unfold B1; rewrite peek_poke_ne by lia; auto).
  pose proof (remove_segment_stops (dst - 1) B1 2 P2' ltac:(lia)) as S2.
  pose proof (remove_segment_clears (dst - 1) B1 ltac:(lia)) as Cl.
  pose proof (remove_segment_below (dst - 1) B1) as Bl.
  pose proof (remove_segment_length (dst - 1) B1) as Ln.
  destruct (remove_segment B1 (dst - 1)) as [buffer' dst']; simpl in *.
  assert (L3 : (6 <= length buffer')%nat)
    by (rewrite Ln; unfold B1; rewrite length_poke; lia).
  assert (Q0 : peek buffer' 0 = x)
    by (rewrite Bl by lia; unfold B1; rewrite peek_poke_ne by lia; auto).
  assert (Q1 : peek buffer' 1 = c_colon)
    by (rewrite Bl by lia; unfold B1; rewrite peek_poke_ne by lia; auto).
  unfold complete_root; simpl.
  rewrite Q0, Q1, Hx; simpl.
  destruct (Nat.eq_dec dst' 2) as [E2|E2].
  - subst dst'; rewrite Cl; simpl.
    constructor; simpl.
    + destruct buffer' as [|b0 [|b1 [|b2 t]]]; simpl in L3; try lia.
      unfold peek in Q0, Q1; simpl in Q0, Q1; subst; reflexivity.
    + lia.
    + exists 2%nat; split; auto.
    + rewrite length_poke; lia.
  - assert (Q2 : peek buffer' 2 = c_bslash)
      by (rewrite Bl by lia; auto).
    rewrite Q2; simpl.
    constructor; simpl.
    + destruct buffer' as [|b0 [|b1 [|b2 t]]]; simpl in L3; try lia.
      unfold peek in Q0, Q1, Q2; simpl in Q0, Q1, Q2; subst; reflexivity.
    + lia.
    + exists r; split; auto.
    + lia.
Qed.

(** One turn of the segment loop keeps the root, unless it is a ".." that
    backs up over a root other than "X:\". *)
Lemma canon_step_kept (flags : Z) (st : canon_state) :
  root_kept root st ->
  ~ (peek path_in (c_src st) = c_dot /\ peek path_in (c_src st + 1) = c_dot)
  \/ above_root (c_root_end st) (c_dst st) = false
  \/ drive_root root ->
  root_kept root (canon_step path_in flags st).
Proof.
  intros K Hcase; pose proof K as [Hu Hd [r [Hr Hre]] Hl].
  destruct st as [buffer src dst root_end]; simpl in *.
  assert (Copy : forall c s, root_kept root
            (mk_canon (poke buffer dst c) s (S dst) root_end)).
  { intros c s; constructor; simpl; eauto.
    - rewrite firstn_poke; auto.
    - rewrite length_poke; auto. }
  assert (Same : forall s, root_kept root (mk_canon buffer s dst root_end)).
  { intros s; constructor; simpl; eauto. }
  unfold canon_step; rewrite Nat.add_0_r.
  destruct (Z.eqb_spec (peek path_in src) c_dot) as [D0|D0]; auto.
  destruct (Z.eqb_spec (peek path_in (src + 1)) c_dot) as [D1|D1].
  - destruct ((0 <? dst)%nat && (peek buffer (dst - 1) =? c_star)); auto.
    match goal with |- context [if ?c then _ else _] => destruct c end.
    { constructor; simpl; eauto; try lia.
      - rewrite !firstn_poke by lia; auto.
      - rewrite !length_poke; auto. }
    destruct (Nat.ltb_spec 0 dst) as [P|P]; simpl;
      [|destruct (peek path_in (src + 2) =? c_bslash);
        apply complete_root_kept; auto].
    destruct (Z.eqb_spec (peek buffer (dst - 1)) c_bslash) as [B|B]; simpl;
      [|destruct (peek path_in (src + 2) =? c_bslash);
        apply complete_root_kept; auto].
    destruct (above_root root_end dst) eqn:A;
      [|destruct (peek path_in (src + 2) =? c_bslash);
        apply complete_root_kept; auto].
    destruct Hcase as [N|[N|N]]; [tauto|discriminate|].
    apply drive_backwalk_kept; auto.
  - match goal with |- context [if ?c then _ else _] => destruct c end; auto.
    destruct (Nat.ltb_spec 0 dst) as [P|P]; simpl;
      [|destruct (peek path_in (src + 1) =? c_bslash);
        apply complete_root_kept; auto].
    destruct (Z.eqb_spec (peek buffer (dst - 1)) c_bslash) as [B|B]; simpl;
      [|destruct (peek path_in (src + 1) =? c_bslash);
        apply complete_root_kept; auto].
    destruct (above_root root_end dst) eqn:A;
      [|destruct (peek path_in (src + 1) =? c_bslash);
        apply complete_root_kept; auto].
    apply complete_root_kept; constructor; simpl; eauto.
    subst root_end; simpl in A; apply Nat.ltb_lt in A; lia.
Qed.

End RootKept.

Lemma length_dotdots (k : nat) : length (dotdots k) = (3 * k)%nat.
Proof. induction k as [|k IH]; simpl; lia. Qed.

Lemma peek_dotdots (k j : nat) (tail : list Z) :
  (j < k)%nat ->
  peek (dotdots k ++ tail) (3 * j) = c_dot
  /\ peek (dotdots k ++ tail) (3 * j + 1) = c_dot
  /\ peek (dotdots k ++ tail) (3 * j + 2) = c_bslash.
Proof.
  revert j; induction k as [|k IH]; intros j H; [lia|].
  destruct j as [|j].
  - simpl; auto.
  - destruct (IH j ltac:(lia)) as (A & B & C).
    replace (3 * S j)%nat with (S (S (S (3 * j)))) by lia.
    simpl dotdots; unfold peek in *; simpl; auto.
Qed.

Section DotDotsBehindRoot.

Variable root : list Z.
Variable k : nat.
Variable tail : list Z.
Variable e : nat.
Let path_in := root ++ dotdots k ++ tail.
Hypothesis root_length : length root = S e.
Hypothesis root_end_e : get_root_end path_in = Some e.

Lemma root_units_of_path : firstn (length root) path_in = root.
Proof.
  unfold path_in; rewrite firstn_app, Nat.sub_diag, firstn_all; simpl.
  apply app_nil_r.
Qed.

Lemma peek_path_dots (j : nat) :
  (j < k)%nat ->
  peek path_in (length root + 3 * j) = c_dot
  /\ peek path_in (length root + 3 * j + 1) = c_dot
  /\ peek path_in (length root + 3 * j + 2) = c_bslash.
Proof.
  intros H; unfold path_in.
  rewrite (peek_app_r root _ (length root + 3 * j)) by lia.
  rewrite (peek_app_r root _ (length root + 3 * j + 1)) by lia.
  rewrite (peek_app_r root _ (length root + 3 * j + 2)) by lia.
  replace (length root + 3 * j - length root)%nat with (3 * j)%nat by lia.
  replace (length root + 3 * j + 1 - length root)%nat with (3 * j + 1)%nat
    by lia.
  replace (length root + 3 * j + 2 - length root)%nat with (3 * j + 2)%nat
    by lia.
  apply peek_dotdots; auto.
Qed.

Lemma peek_path_tail (i : nat) :
  peek path_in (length root + 3 * k + i) = peek tail i.
Proof.
  unfold path_in; rewrite peek_app_r by lia.
  rewrite peek_app_r by (rewrite length_dotdots; lia).
  rewrite length_dotdots; f_equal; lia.
Qed.

Lemma dotdot_at_boundary (st : canon_state) (j : nat) :
  root_kept root st -> at_root_boundary st -> (j < k)%nat ->
  c_src st = (length root + 3 * j)%nat ->
  root_kept root (canon_step path_in 0 st)
  /\ ((at_root_boundary (canon_step path_in 0 st)
       /\ c_src (canon_step path_in 0 st) = (length root + 3 * S j)%nat)
      \/ (length root + 3 * k <= c_src (canon_step path_in 0 st))%nat).
Proof.
  intros K (r & Hr & Hd & Hs) Hj Hsrc.
  pose proof K as [Hu Hdst _ Hl].
  destruct st as [buffer src dst root_end];
    cbn [c_src c_dst c_buffer c_root_end] in *; subst.
  destruct (peek_path_dots j Hj) as (D0 & D1 & D2).
  set (src := (length root + 3 * j)%nat) in *.
  assert (Step : canon_step path_in 0 (mk_canon buffer src (S r) (Some r))
                 = complete_root path_in
                     (mk_canon buffer (src + 3) (S r) (Some r))).
  { unfold canon_step; rewrite Nat.add_0_r, D0, D1, D2.
    change (flag_set 0 PATHCCH_DO_NOT_NORMALIZE_SEGMENTS) with false.
    replace (S r - 1)%nat with r by lia.
    destruct (Z.eqb_spec (peek buffer r) c_star); [contradiction|].
    simpl Z.eqb; simpl negb; rewrite ?andb_false_r; simpl orb.
    rewrite ?andb_false_r; cbv iota.
    unfold above_root; replace (S r - 1)%nat with r by lia.
    rewrite Nat.ltb_irrefl, andb_false_r; reflexivity. }
  rewrite Step; split.
  { apply (complete_root_kept path_in root e); auto.
    - apply root_units_of_path.
    - constructor; simpl; eauto. }
  unfold complete_root; simpl.
  match goal with |- context [if ?c then _ else _] => destruct c end; simpl.
  - destruct (Z.eqb_spec (peek path_in (src + 3)) c_bslash) as [B|B].
    + right.
      destruct (Nat.eq_dec (S j) k); [subst; unfold src; lia|exfalso].
      destruct (peek_path_dots (S j) ltac:(lia)) as (E0 & _).
      replace (length root + 3 * S j)%nat with (src + 3)%nat in E0
        by (unfold src; lia).
      rewrite B in E0; discriminate.
    + left; split; [|unfold src; lia].
      exists 2%nat; repeat split; auto.
      cbn [c_buffer]; rewrite peek_poke_eq by lia; discriminate.
  - left; split; [|unfold src; lia].
    exists r; auto.
Qed.

Lemma root_safe_step (st : canon_state) :
  root_safe root k tail st -> root_safe root k tail (canon_step path_in 0 st).
Proof.
  intros [K [D|[T P]]].
  - split; auto.
    apply (canon_step_kept path_in root e); auto using root_units_of_path.
  - assert (Tail : (length root + 3 * k <= c_src st)%nat ->
                   root_safe root k tail (canon_step path_in 0 st)).
    { intros H; split.
      - apply (canon_step_kept path_in root e);
          auto using root_units_of_path.
        left; intros [A B].
        replace (c_src st) with (length root + 3 * k + (c_src st
                   - (length root + 3 * k)))%nat in A, B by lia.
        replace (length root + 3 * k
                 + (c_src st - (length root + 3 * k)) + 1)%nat
          with (length root + 3 * k
                + S (c_src st - (length root + 3 * k)))%nat in B by lia.
        rewrite peek_path_tail in A, B.
        apply (T _ (conj A B)).
      - right; split; auto; right.
        pose proof (canon_step_advances path_in 0 st); lia. }
    destruct P as [(j & Hj & Hs & B)|P]; auto.
    destruct (Nat.eq_dec j k) as [E|E]; [subst; apply Tail; lia|].
    destruct (dotdot_at_boundary st j K B ltac:(lia) Hs) as [K' [[B' S']|P']].
    + split; auto; right; split; auto; left.
      exists (S j); repeat split; auto; lia.
    + split; auto.
Qed.

Lemma root_safe_loop (fuel : nat) (st : canon_state) :
  root_safe root k tail st ->
  root_safe root k tail (canon_loop fuel path_in 0 st).
Proof.
  revert st; induction fuel as [|fuel IH]; intros st H; simpl; auto.
  destruct (peek path_in (c_src st) =? 0); auto.
  apply IH, root_safe_step; auto.
Qed.

End DotDotsBehindRoot.

(** C3 (as amended). Let a path be a root of length N, as get_root_end
    classifies it, followed by k copies of "..\" and a tail, short enough for
    default flags; let the root not be a device root that canonicalization
    strips ("\\?\UNC\" or "\\?\X:"), and let the root be "X:\" or the tail
    hold no two dots in a row. Then PathAllocCanonicalize (default flags)
    succeeds and the first N units of its result are the root. *)
Theorem PathAllocCanonicalize_keeps_root (root : list Z) (k : nat)
  (tail : list Z) (e : nat) :
  nonzero (root ++ dotdots k ++ tail) ->
  Z.of_nat (length (root ++ dotdots k ++ tail)) + 1 <= MAX_PATH ->
  length root = S e ->
  get_root_end (root ++ dotdots k ++ tail) = Some e ->
  is_prefixed_unc (root ++ dotdots k ++ tail) = false ->
  is_prefixed_disk (root ++ dotdots k ++ tail) = false ->
  drive_root root \/ no_dotdot tail ->
  exists out,
    PathAllocCanonicalize (root ++ dotdots k ++ tail) 0 = (S_OK, Some out)
    /\ firstn (length root) out = root.
Proof.
  intros Hz Hlen HN Hre Hu Hd Hcase.
  set (path_in := root ++ dotdots k ++ tail) in *.
  pose proof (root_units_of_path root k tail) as Hroot; fold path_in in Hroot.
  assert (Init : root_safe root k tail (canon_root path_in)).
  { rewrite (canon_root_rooted path_in e Hz Hu Hd Hre).
    assert (Le : (S e <= length path_in)%nat).
    { pose proof (get_root_end_inside path_in e Hre) as Q.
      rewrite (strlenW_nonzero _ Hz) in Q; auto. }
    split.
    - constructor; cbn [c_buffer c_src c_dst c_root_end].
      + rewrite firstn_app, firstn_firstn, length_firstn, HN.
        rewrite Nat.min_id.
        replace (S e - Nat.min (S e) (length path_in))%nat with O by lia.
        rewrite firstn_0, app_nil_r, <- HN; auto.
      + lia.
      + exists e; split; auto; lia.
      + rewrite length_app, length_firstn, repeat_length; lia.
    - destruct Hcase as [D|T]; auto.
      right; split; auto; left; exists O;
        cbn [c_buffer c_src c_dst c_root_end]; repeat split; try lia.
      exists e; cbn [c_buffer c_src c_dst c_root_end]; repeat split; auto.
      rewrite peek_truncation by lia.
      destruct (root_last_unit path_in e Hre Hu Hd) as [Q|[Q|Q]];
        rewrite Q; discriminate. }
  pose proof (root_safe_loop root k tail e HN Hre (strlenW path_in) _ Init)
    as [[Ku Kd _ Kl] _].
  fold path_in in Ku, Kd, Kl.
  pose proof (canon_loop_safe (strlenW path_in) path_in 0
                (canon_root path_in) (canon_root_safe path_in))
    as [Sd Ss _ Sl].
  destruct (canon_segments_shape path_in 0) as (LB & S1 & S2).
  assert (B : firstn (length root) (canon_segments path_in 0) = root).
  { unfold canon_segments.
    set (st := canon_loop (strlenW path_in) path_in 0 (canon_root path_in))
      in *.
    assert (F : firstn (length root) (poke (c_buffer st) (c_dst st) 0) = root)
      by (rewrite firstn_poke; auto).
    assert (N0 : peek (poke (c_buffer st) (c_dst st) 0) 0 <> 0).
    { rewrite <- (peek_firstn _ (length root)) by lia.
      rewrite F, <- Hroot, peek_firstn by lia.
      apply peek_nonzero; auto.
      rewrite (strlenW_nonzero _ Hz) in Ss; lia. }
    destruct (Z.eqb_spec (peek (poke (c_buffer st) (c_dst st) 0) 0) 0);
      [contradiction|auto]. }
  exists (cstr (canon_segments path_in 0)); split.
  - unfold PathAllocCanonicalize.
    change (flag_set 0 ?m) with false; simpl orb; simpl andb; cbv iota.
    rewrite (strlenW_nonzero _ Hz).
    destruct (Z.gtb_spec (Z.of_nat (length path_in) + 1) MAX_PATH); [lia|].
    destruct (Z.gtb_spec (Z.of_nat (length path_in) + 1) PATHCCH_MAX_CCH);
      [unfold MAX_PATH, PATHCCH_MAX_CCH in *; lia|].
    simpl orb; cbv iota zeta.
    change (implied_flags 0) with 0.
    change (flag_set 0 ?m) with false; cbv iota.
    rewrite cstr_extend_path by lia.
    rewrite (strlenW_nonzero _ Hz) in S2.
    assert (1 <= length path_in)%nat
      by (unfold path_in; rewrite length_app; lia).
    destruct (Z.gtb_spec (Z.of_nat (strlenW (canon_segments path_in 0)) + 1)
                MAX_PATH); [lia|].
    change (flag_set 0 ?m) with false.
    rewrite !andb_false_r; reflexivity.
  - rewrite firstn_cstr; auto.
    rewrite B, <- Hroot.
    apply Forall_forall; intros c Hc.
    apply (proj1 (Forall_forall _ _) Hz).
    rewrite <- (firstn_skipn (length root) path_in); apply in_or_app; auto.
Qed.

(** ** Escaping and unescaping *)

Lemma skipn_peek (s : list Z) (i : nat) :
  (i < length s)%nat -> skipn i s = peek s i :: skipn (S i) s.
Proof.
  unfold peek; revert i; induction s as [|c t IH]; intros [|i] H;
    simpl in *; try lia; auto.
  apply IH; lia.
Qed.

Lemma escape_units_stopped (flags int_flags : Z) (s : list Z) :
  escape_units flags int_flags true s = s.
Proof.
  induction s as [|c t IH]; simpl; auto.
  rewrite andb_false_r; simpl; f_equal; exact IH.
Qed.

Lemma length_escape_units (flags int_flags : Z) (stop : bool) (s : list Z) :
  (length (escape_units flags int_flags stop s) <= 3 * length s)%nat.
Proof.
  revert stop; induction s as [|c t IH]; intros stop; simpl; auto.
  rewrite length_app.
  match goal with |- context [escape_units _ _ ?b t] => specialize (IH b) end.
  match goal with |- context [if ?c then _ else _] => destruct c end;
    simpl; lia.
Qed.

Section EscapePlain.

Variable url : list Z.
Variable flags int_flags : Z.
Variable parsed : option PARSEDURLW.
Variable escaped_len : Z.
Hypothesis url_nonzero : nonzero url.
Hypothesis no_utf8 : flag_set flags URL_ESCAPE_AS_UTF8 = false.
Hypothesis no_bash :
  flag_set int_flags WINE_URL_BASH_AS_SLASH = false \/ ~ In c_bslash url.
Hypothesis no_collapse : flag_set int_flags WINE_URL_COLLAPSE_SLASHES = false.
Hypothesis room : 3 * Z.of_nat (length url) < escaped_len.

Lemma escape_step_plain (src slashes : nat) (stop : bool) (needed : Z)
  (dst : list Z) :
  (src < length url)%nat ->
  escape_step url flags int_flags parsed escaped_len
    (mk_escape src slashes stop needed dst)
  = let cur := peek url src in
    let stop' :=
      stop || ((cur =? c_hash) && flag_set int_flags WINE_URL_STOP_ON_HASH)
      || ((cur =? c_qmark) && flag_set int_flags WINE_URL_STOP_ON_QUESTION) in
    let next :=
      if url_needs_escape cur flags int_flags && negb stop'
      then percent_byte cur else [cur] in
    mk_escape (S src) slashes stop' (needed + Z.of_nat (length next))
      (if needed + Z.of_nat (length next) <=? escaped_len
       then dst ++ next else dst).
Proof.
  intros L.
  assert (B : (peek url src =? c_bslash)
              && flag_set int_flags WINE_URL_BASH_AS_SLASH = false).
  { destruct no_bash as [N|N]; [rewrite N; apply andb_false_r|].
    destruct (Z.eqb_spec (peek url src) c_bslash) as [E|E]; auto.
    exfalso; apply N; rewrite <- E; apply nth_In; exact L. }
  unfold escape_step; rewrite no_collapse; simpl andb; cbv iota.
  rewrite B; simpl andb; cbv iota zeta.
  unfold escaped_units; rewrite no_utf8.
  match goal with |- context [if ?c then _ else _] => destruct c end;
    simpl; rewrite ?Nat.add_1_r; reflexivity.
Qed.

Lemma escape_loop_plain (fuel : nat) (src slashes : nat) (stop : bool)
  (dst : list Z) :
  (src <= length url)%nat -> (length url <= src + fuel)%nat ->
  (length dst <= 3 * src)%nat ->
  let st := escape_loop fuel url flags int_flags parsed escaped_len
              (mk_escape src slashes stop (Z.of_nat (length dst)) dst) in
  e_dst st = dst ++ escape_units flags int_flags stop (skipn src url)
  /\ e_needed st = Z.of_nat (length (e_dst st)).
Proof.
  revert src slashes stop dst; induction fuel as [|fuel IH];
    intros src slashes stop dst Hs Hf Hd.
  - replace src with (length url) by lia.
    rewrite skipn_all; simpl; rewrite app_nil_r; auto.
  - cbn [escape_loop e_src].
    destruct (Z.eqb_spec (peek url src) 0) as [E|E].
    + apply peek_is_zero in E; auto.
      replace src with (length url) by lia.
      rewrite skipn_all; simpl; rewrite app_nil_r; auto.
    + assert (L : (src < length url)%nat).
      { destruct (le_lt_dec (length url) src); auto.
        exfalso; apply E, peek_overflow; auto. }
      rewrite escape_step_plain by exact L; cbv zeta.
      rewrite (skipn_peek url src L); simpl escape_units.
      set (stop' := stop
             || ((peek url src =? c_hash)
                 && flag_set int_flags WINE_URL_STOP_ON_HASH)
             || ((peek url src =? c_qmark)
                 && flag_set int_flags WINE_URL_STOP_ON_QUESTION)).
      set (next := if url_needs_escape (peek url src) flags int_flags
                      && negb stop'
                   then percent_byte (peek url src) else [peek url src]).
      assert (Ln : (length next <= 3)%nat).
      { unfold next;
          match goal with |- context [if ?c then _ else _] => destruct c end;
          simpl; lia. }
      destruct (Z.leb_spec (Z.of_nat (length dst) + Z.of_nat (length next))
                  escaped_len); [|lia].
      replace (Z.of_nat (length dst) + Z.of_nat (length next))
        with (Z.of_nat (length (dst ++ next)))
        by (rewrite length_app; lia).
      specialize (IH (S src) slashes stop' (dst ++ next)).
      rewrite <- app_assoc in IH; apply IH; try lia.
      rewrite length_app; lia.
Qed.

End EscapePlain.

Lemma hexDigits_decode (n : nat) :
  (n < 16)%nat ->
  isxdigitW (peek hexDigits n) = true
  /\ hex_value (peek hexDigits n) = Z.of_nat n.
Proof.
  revert n; below 16 by (split; reflexivity).
Qed.

Lemma percent_byte_decode (c : Z) :
  0 <= c < 256 ->
  exists h1 h2,
    percent_byte c = [c_percent; h1; h2]
    /\ isxdigitW h1 = true /\ isxdigitW h2 = true
    /\ hex_value h1 * 16 + hex_value h2 = c.
Proof.
  intros H; unfold percent_byte.
  change 15 with (Z.ones 4).
  rewrite !Z.land_ones, Z.shiftr_div_pow2 by lia.
  change (2 ^ 4) with 16.
  assert (A : (Z.to_nat ((c / 16) mod 16) < 16)%nat)
    by (pose proof (Z.mod_pos_bound (c / 16) 16); lia).
  assert (B : (Z.to_nat (c mod 16) < 16)%nat)
    by (pose proof (Z.mod_pos_bound c 16); lia).
  destruct (hexDigits_decode _ A) as [A1 A2].
  destruct (hexDigits_decode _ B) as [B1 B2].
  do 2 eexists; repeat split; eauto.
  rewrite A2, B2, !Z2Nat.id
    by (try apply Z.mod_pos_bound; lia).
  rewrite Z.mod_small by (split; [apply Z.div_pos|apply Z.div_lt_upper_bound];
                          lia).
  pose proof (Z.div_mod c 16); lia.
Qed.

Lemma url_needs_escape_byte (c flags int_flags : Z) :
  flag_set flags URL_ESCAPE_AS_UTF8 = false ->
  url_needs_escape c flags int_flags = true -> 0 < c -> c < 256.
Proof.
  intros U H P; unfold url_needs_escape in H; rewrite U in H; simpl in H.
  repeat match type of H with
         | (if ?b then _ else _) = true =>
             let E := fresh "E" in destruct b eqn:E
         end; try discriminate;
    repeat match goal with
           | E : (_ || _) = true |- _ => apply orb_prop in E; destruct E
           | E : (_ && _) = true |- _ => apply andb_prop in E; destruct E
           | E : (_ =? _) = true |- _ => apply Z.eqb_eq in E
           | E : (_ <=? _) = true |- _ => apply Z.leb_le in E
           | E : (_ >=? _) = true |- _ => apply Z.geb_le in E
           end; lia.
Qed.

Lemma unescape_units_raw (flags : Z) (stop : bool) (s : list Z) :
  ~ In c_percent s -> unescape_units flags stop s = s.
Proof.
  revert stop; induction s as [|c t IH]; intros stop H; simpl; auto.
  assert (Hc : c <> c_percent) by (intros E; apply H; left; auto).
  assert (Ht : ~ In c_percent t) by (intros E; apply H; right; auto).
  destruct (Z.eqb_spec c c_percent); [contradiction|].
  destruct (flag_set flags URL_DONT_UNESCAPE_EXTRA_INFO
            && ((c =? c_hash) || (c =? c_qmark)));
    [rewrite IH; auto|].
  destruct t as [|h1 [|h2 t']]; simpl andb; cbv iota;
    rewrite IH; auto.
Qed.

Lemma unescape_units_head (flags : Z) (stop : bool) (c : Z) (rest : list Z) :
  c <> c_percent ->
  unescape_units flags stop (c :: rest)
  = c :: unescape_units flags
           (stop || (flag_set flags URL_DONT_UNESCAPE_EXTRA_INFO
                     && ((c =? c_hash) || (c =? c_qmark))))
           rest.
Proof.
  intros Hc; cbn [unescape_units].
  destruct (Z.eqb_spec c c_percent); [contradiction|].
  destruct (flag_set flags URL_DONT_UNESCAPE_EXTRA_INFO
            && ((c =? c_hash) || (c =? c_qmark)));
    [rewrite orb_true_r; reflexivity|rewrite orb_false_r].
  destruct rest as [|h1 [|h2 t']]; reflexivity.
Qed.

Lemma unescape_units_percent (flags : Z) (h1 h2 : Z) (rest : list Z) :
  isxdigitW h1 = true -> isxdigitW h2 = true ->
  unescape_units flags false (c_percent :: h1 :: h2 :: rest)
  = (hex_value h1 * 16 + hex_value h2) :: unescape_units flags false rest.
Proof.
  intros H1 H2; cbn [unescape_units].
  rewrite H1, H2; simpl Z.eqb; simpl orb; rewrite andb_false_r.
  reflexivity.
Qed.

Lemma needs_escape_hash (flags int_flags : Z) :
  flag_set flags URL_ESCAPE_SPACES_ONLY = false ->
  flag_set flags URL_ESCAPE_AS_UTF8 = false ->
  url_needs_escape c_hash flags int_flags
  = flag_set int_flags WINE_URL_ESCAPE_HASH.
Proof.
  intros S U; unfold url_needs_escape; rewrite S, U.
  simpl Z.eqb; rewrite andb_false_r; reflexivity.
Qed.

Lemma needs_escape_qmark (flags int_flags : Z) :
  flag_set flags URL_ESCAPE_SPACES_ONLY = false ->
  flag_set flags URL_ESCAPE_AS_UTF8 = false ->
  url_needs_escape c_qmark flags int_flags
  = flag_set int_flags WINE_URL_ESCAPE_QUESTION.
Proof.
  intros S U; unfold url_needs_escape; rewrite S, U.
  simpl Z.eqb; rewrite andb_false_r; reflexivity.
Qed.

(** Unescaping what the loop of UrlEscapeW stores gives the string back:
    an escaped unit is decoded as long as unescaping has not stopped, and
    unescaping stops only where escaping has stopped. *)
Lemma unescape_escape_units (uflags flags int_flags : Z) :
  flag_set flags URL_ESCAPE_AS_UTF8 = false ->
  (flag_set uflags URL_DONT_UNESCAPE_EXTRA_INFO = true ->
   flag_set flags URL_ESCAPE_SPACES_ONLY = false
   /\ (flag_set int_flags WINE_URL_STOP_ON_HASH
       || flag_set int_flags WINE_URL_ESCAPE_HASH = true)
   /\ (flag_set int_flags WINE_URL_STOP_ON_QUESTION
       || flag_set int_flags WINE_URL_ESCAPE_QUESTION = true)) ->
  forall (s : list Z) (stop stop_un : bool),
    wstring s -> ~ In c_percent s ->
    (stop_un = true -> stop = true) ->
    unescape_units uflags stop_un (escape_units flags int_flags stop s) = s.
Proof.
  intros U G; induction s as [|c t IH]; intros stop stop_un W P R; auto.
  inversion W as [|? ? Wc Wt]; subst.
  assert (Hc : c <> c_percent) by (intros E; apply P; left; auto).
  assert (Ht : ~ In c_percent t) by (intros E; apply P; right; auto).
  cbn [escape_units].
  set (stop' := stop
         || ((c =? c_hash) && flag_set int_flags WINE_URL_STOP_ON_HASH)
         || ((c =? c_qmark) && flag_set int_flags WINE_URL_STOP_ON_QUESTION)).
  destruct (url_needs_escape c flags int_flags && negb stop') eqn:N.
  - apply andb_prop in N; destruct N as [N S].
    apply negb_true_iff in S.
    assert (stop = false)
      by (unfold stop' in S; destruct stop; auto; discriminate).
    assert (stop_un = false) by (destruct stop_un; auto; rewrite R in *; auto;
                                 discriminate).
    subst stop stop_un.
    unfold wchar in Wc.
    destruct (percent_byte_decode c) as (h1 & h2 & E & X1 & X2 & D).
    { pose proof (url_needs_escape_byte c flags int_flags U N); lia. }
    rewrite E; simpl app.
    rewrite unescape_units_percent, D by auto.
    f_equal; apply IH; auto; discriminate.
  - simpl app; rewrite unescape_units_head by auto.
    f_equal; apply IH; auto.
    intros Q; apply orb_prop in Q; destruct Q as [Q|Q].
    + unfold stop'; rewrite (R Q); reflexivity.
    + apply andb_prop in Q; destruct Q as [Qu Qc].
      destruct (G Qu) as (Gs & Gh & Gq).
      destruct stop' eqn:S'; auto; exfalso.
      rewrite andb_true_r in N.
      unfold stop' in S'.
      apply orb_false_elim in S'; destruct S' as [S' Sq].
      apply orb_false_elim in S'; destruct S' as [_ Sh].
      apply orb_prop in Qc; destruct Qc as [Qc|Qc]; apply Z.eqb_eq in Qc;
        subst c.
      * rewrite needs_escape_hash in N by auto.
        simpl Z.eqb in Sh; simpl andb in Sh.
        rewrite Sh, N in Gh; discriminate.
      * rewrite needs_escape_qmark in N by auto.
        simpl Z.eqb in Sq; simpl andb in Sq.
        rewrite Sq, N in Gq; discriminate.
Qed.

Lemma flag_set_lor_l (a m k : Z) :
  flag_set (Z.lor a m) k = flag_set a k || flag_set m k.
Proof.
  unfold flag_set; rewrite Z.land_lor_distr_l.
  destruct (Z.eqb_spec (Z.land a k) 0) as [Ea|Ea];
    destruct (Z.eqb_spec (Z.land m k) 0) as [Eb|Eb]; simpl;
    destruct (Z.eqb_spec (Z.lor (Z.land a k) (Z.land m k)) 0) as [E|E];
    auto; exfalso; try (apply Z.lor_eq_0_iff in E; tauto).
  apply E; rewrite Ea, Eb; reflexivity.
Qed.

Lemma flag_set_clear (a m k : Z) :
  Z.land (Z.lnot m) k = k -> flag_set (clear_flags a m) k = flag_set a k.
Proof.
  intros H; unfold flag_set, clear_flags.
  rewrite <- Z.land_assoc, H; reflexivity.
Qed.

Lemma fix_flags_utf8 (flags : Z) :
  flag_set (escape_fix_flags flags) URL_ESCAPE_AS_UTF8
  = flag_set flags URL_ESCAPE_AS_UTF8.
Proof.
  unfold escape_fix_flags.
  destruct (flag_set flags URL_ESCAPE_SPACES_ONLY).
  - apply flag_set_clear; reflexivity.
  - rewrite flag_set_lor_l; apply orb_false_r.
Qed.

Lemma fix_flags_extra_info (flags : Z) :
  flag_set flags URL_ESCAPE_SPACES_ONLY = false ->
  flag_set (escape_fix_flags flags) URL_ESCAPE_SPACES_ONLY = false
  /\ flag_set (escape_fix_flags flags) URL_DONT_ESCAPE_EXTRA_INFO = true.
Proof.
  intros H; unfold escape_fix_flags; rewrite H, !flag_set_lor_l, H.
  split; [reflexivity|apply orb_true_r].
Qed.

Lemma int_flags_plain (url : list Z) (flags : Z) :
  rewrites_slashes url flags = false ->
  let int_flags :=
    escape_int_flags url (escape_fix_flags flags)
      (if flag_set (escape_fix_flags flags) URL_ESCAPE_SEGMENT_ONLY then None
       else snd (ParseURLW url)) in
  (flag_set int_flags WINE_URL_BASH_AS_SLASH = false \/ ~ In c_bslash url)
  /\ flag_set int_flags WINE_URL_COLLAPSE_SLASHES = false.
Proof.
  unfold rewrites_slashes, escape_int_flags; intros H.
  destruct (flag_set (escape_fix_flags flags) URL_ESCAPE_SEGMENT_ONLY);
    [split; [left|]; reflexivity|].
  simpl negb in H; simpl andb in H.
  assert (B : existsb (fun c => c =? c_bslash) url = false ->
              ~ In c_bslash url).
  { intros X I.
    assert (existsb (fun c => c =? c_bslash) url = true); [|congruence].
    apply existsb_exists; exists c_bslash; split; auto. }
  destruct (snd (ParseURLW url)) as [p|];
    destruct (flag_set (escape_fix_flags flags) URL_DONT_ESCAPE_EXTRA_INFO);
    try (split; [left|]; reflexivity);
    destruct (nScheme p); try discriminate H;
    repeat match goal with
           | |- context [if ?c then _ else _] => destruct c
           end;
    (split; [first [left; reflexivity|right; apply B, H]|reflexivity]).
Qed.

Lemma int_flags_extra_info (url : list Z) (flags : Z)
  (parsed : option PARSEDURLW) :
  flag_set flags URL_DONT_ESCAPE_EXTRA_INFO = true ->
  let int_flags := escape_int_flags url flags parsed in
  (flag_set int_flags WINE_URL_STOP_ON_HASH
   || flag_set int_flags WINE_URL_ESCAPE_HASH = true)
  /\ (flag_set int_flags WINE_URL_STOP_ON_QUESTION
      || flag_set int_flags WINE_URL_ESCAPE_QUESTION = true).
Proof.
  intros H; unfold escape_int_flags; rewrite H.
  destruct (flag_set flags URL_ESCAPE_SEGMENT_ONLY); [split; reflexivity|].
  destruct parsed as [p|]; [|split; reflexivity].
  destruct (nScheme p);
    repeat match goal with
           | |- context [if ?c then _ else _] => destruct c
           end; split; reflexivity.
Qed.

Lemma percent_byte_nonzero (b : Z) : nonzero (percent_byte b).
Proof.
  assert (D : forall n, (n < 16)%nat -> peek hexDigits n <> 0)
    by (below 16 by (vm_compute; discriminate)).
  unfold percent_byte; change 15 with (Z.ones 4).
  rewrite !Z.land_ones by lia; change (2 ^ 4) with 16.
  pose proof (Z.mod_pos_bound (Z.shiftr b 4) 16).
  pose proof (Z.mod_pos_bound b 16).
  repeat constructor; [discriminate|apply D; lia|apply D; lia].
Qed.

Lemma nonzero_escape_units (flags int_flags : Z) (stop : bool) (s : list Z) :
  nonzero s -> nonzero (escape_units flags int_flags stop s).
Proof.
  intros H; revert stop; induction H as [|c s Hc Hs IH]; intros stop;
    cbn [escape_units]; [constructor|].
  apply Forall_app; split; [|apply IH].
  match goal with |- context [if ?b then _ else _] => destruct b end;
    [apply percent_byte_nonzero|repeat constructor; exact Hc].
Qed.

(** C9 (as amended). Let the URL hold no '%', let URL_ESCAPE_AS_UTF8 be
    clear and let URL_ESCAPE_SPACES_ONLY not come together with
    URL_DONT_ESCAPE_EXTRA_INFO; let UrlEscapeW not rewrite slashes for this
    URL (it is no file URL and, if it is an http or https URL, it holds no
    backslash; or URL_ESCAPE_SEGMENT_ONLY is in force). With room in both
    buffers,
    UrlEscapeW succeeds and UrlUnescapeW, given the same flags, turns what
    it stored back into the URL. *)
Theorem UrlUnescapeW_UrlEscapeW (url : list Z)
  (flags escaped_len unescaped_len : Z) :
  wstring url -> ~ In c_percent url ->
  flag_set flags URL_ESCAPE_AS_UTF8 = false ->
  flag_set flags URL_ESCAPE_SPACES_ONLY
  && flag_set flags URL_DONT_ESCAPE_EXTRA_INFO = false ->
  rewrites_slashes url flags = false ->
  3 * Z.of_nat (length url) < escaped_len ->
  Z.of_nat (length url) < unescaped_len ->
  exists escaped needed,
    UrlEscapeW url escaped_len flags = (S_OK, Some escaped, needed)
    /\ fst (UrlUnescapeW escaped unescaped_len flags) = (S_OK, url).
Proof.
  intros W P U SD RS Re Ru.
  pose proof (int_flags_plain url flags RS) as [NB NC].
  pose proof (fix_flags_utf8 flags) as FU; rewrite U in FU.
  unfold UrlEscapeW.
  destruct (Z.eqb_spec escaped_len 0); [lia|].
  set (f := escape_fix_flags flags) in *.
  set (parsed := if flag_set f URL_ESCAPE_SEGMENT_ONLY then None
                 else snd (ParseURLW url)) in *.
  set (int_flags := escape_int_flags url f parsed) in *.
  destruct (escape_loop_plain url f int_flags parsed escaped_len
              (wstring_nonzero url W) FU NB NC Re (length url) 0 0 false []
              ltac:(lia) ltac:(lia) ltac:(simpl; lia)) as [D N].
  simpl in D, N.
  set (st := escape_loop (length url) url f int_flags parsed escaped_len
               (mk_escape 0 0 false 0 [])) in *.
  pose proof (length_escape_units f int_flags false url) as L.
  rewrite <- D in L.
  destruct (Z.ltb_spec (e_needed st) escaped_len); [|lia].
  exists (e_dst st), (e_needed st); split; auto.
  unfold UrlUnescapeW.
  rewrite (cstr_nonzero (e_dst st))
    by (rewrite D; apply nonzero_escape_units, wstring_nonzero, W).
  assert (X : unescape_units flags false (e_dst st) = url).
  { rewrite D; apply unescape_escape_units; auto.
    intros Q; unfold URL_DONT_UNESCAPE_EXTRA_INFO in Q.
    rewrite Q, andb_true_r in SD.
    destruct (fix_flags_extra_info flags SD) as [F1 F2].
    split; auto.
    apply int_flags_extra_info; auto. }
  rewrite X.
  destruct (Z.ltb_spec (Z.of_nat (length url)) unescaped_len); [|lia].
  rewrite orb_true_r; reflexivity.
Qed.

(** ** Combining with a fully qualified path *)

Lemma strncmpiW_terminated (n : nat) (s r p : list Z) :
  strncmpiW (s ++ 0 :: r) p n = strncmpiW s p n.
Proof.
  revert s p; induction n as [|n IH]; intros s p; simpl; auto.
  destruct s as [|c s]; simpl app.
  - change (peek (0 :: r) 0) with 0; change (peek [] 0) with 0.
    simpl Z.eqb; rewrite orb_true_r; reflexivity.
  - change (peek (c :: s ++ 0 :: r) 0) with c; change (peek (c :: s) 0) with c.
    match goal with |- context [if ?b then _ else _] => destruct b end; auto.
    apply IH.
Qed.

Lemma strncmpW_terminated (n : nat) (s r p : list Z) :
  strncmpW (s ++ 0 :: r) p n = strncmpW s p n.
Proof.
  revert s p; induction n as [|n IH]; intros s p; simpl; auto.
  destruct s as [|c s]; simpl app.
  - change (peek (0 :: r) 0) with 0; change (peek [] 0) with 0.
    destruct n; reflexivity.
  - change (peek (c :: s ++ 0 :: r) 0) with c; change (peek (c :: s) 0) with c.
    destruct n; auto.
    match goal with |- context [if ?b then _ else _] => destruct b end; auto.
    apply (IH s (tl p)).
Qed.

Lemma peek_terminated (s r : list Z) (i : nat) :
  (i <= length s)%nat -> peek (s ++ 0 :: r) i = peek s i.
Proof.
  intros H; destruct (Nat.eq_dec i (length s)) as [E|E].
  - subst; rewrite peek_app_r, Nat.sub_diag, (peek_overflow s) by lia;
    reflexivity.
  - apply peek_app_l; lia.
Qed.

Lemma is_prefixed_unc_terminated (s r : list Z) :
  is_prefixed_unc (s ++ 0 :: r) = is_prefixed_unc s.
Proof. unfold is_prefixed_unc; rewrite strncmpiW_terminated; reflexivity. Qed.

Lemma is_prefixed_disk_terminated (s r : list Z) :
  nonzero s -> is_prefixed_disk (s ++ 0 :: r) = is_prefixed_disk s.
Proof.
  intros Hz; destruct (le_lt_dec 6 (length s)) as [L|L].
  - unfold is_prefixed_disk.
    rewrite strncmpW_terminated, !peek_terminated by lia; reflexivity.
  - assert (A : is_prefixed_disk (s ++ 0 :: r) = false).
    { destruct (is_prefixed_disk (s ++ 0 :: r)) eqn:E; auto; exfalso.
      destruct (is_prefixed_disk_units _ E) as (K0 & K1 & K2 & K3 & K4 & K5).
      apply isalphaW_nonzero in K4.
      assert (Q : peek (s ++ 0 :: r) (length s) = 0)
        by (rewrite peek_terminated, peek_overflow; auto).
      destruct (length s) as [|[|[|[|[|[|n]]]]]]; try lia; rewrite Q in *;
        try discriminate; contradiction. }
    assert (B : is_prefixed_disk s = false).
    { destruct (is_prefixed_disk s) eqn:E; auto; exfalso.
      destruct (is_prefixed_disk_units _ E) as (K0 & K1 & K2 & K3 & K4 & K5).
      rewrite (peek_overflow s 5) in K5 by lia; discriminate. }
    rewrite A, B; reflexivity.
Qed.

Lemma nonzero_firstn (n : nat) (s : list Z) : nonzero s -> nonzero (firstn n s).
Proof.
  intros H; apply Forall_forall; intros c Hc.
  apply (proj1 (Forall_forall _ _) H).
  rewrite <- (firstn_skipn n s); apply in_or_app; auto.
Qed.

Lemma nonzero_skipn (n : nat) (s : list Z) : nonzero s -> nonzero (skipn n s).
Proof.
  intros H; apply Forall_forall; intros c Hc.
  apply (proj1 (Forall_forall _ _) H).
  rewrite <- (firstn_skipn n s); apply in_or_app; auto.
Qed.

Lemma nonzero_strip_device_prefix (s : list Z) :
  nonzero s -> nonzero (strip_device_prefix s).
Proof.
  intros H; unfold strip_device_prefix.
  destruct (is_prefixed_unc s);
    [apply Forall_app; split;
       [apply nonzero_firstn|apply nonzero_skipn]; auto|].
  destruct (is_prefixed_disk s); [apply nonzero_skipn|]; auto.
Qed.

Lemma length_strip_device_prefix (s : list Z) :
  (length (strip_device_prefix s) <= length s)%nat.
Proof.
  unfold strip_device_prefix.
  destruct (is_prefixed_unc s) eqn:U.
  - rewrite length_app, length_firstn, length_skipn.
    pose proof (is_prefixed_unc_units s U) as K.
    assert (8 <= length s)%nat; [|lia].
    destruct (le_lt_dec 8 (length s)); auto.
    exfalso; apply (K 7%nat); [lia|apply peek_overflow; lia].
  - destruct (is_prefixed_disk s); [rewrite length_skipn|]; lia.
Qed.

Lemma skipn_terminated (k : nat) (s r : list Z) :
  (k <= length s)%nat -> skipn k (s ++ 0 :: r) = skipn k s ++ 0 :: r.
Proof.
  intros H; rewrite skipn_app.
  replace (k - length s)%nat with O by lia; reflexivity.
Qed.

(** PathCchStripPrefix on a terminated string in a buffer. *)
Lemma PathCchStripPrefix_string (s r : list Z) (size : Z) :
  nonzero s -> 0 < size <= PATHCCH_MAX_CCH -> Z.of_nat (length s) < size ->
  exists r',
    snd (PathCchStripPrefix (s ++ 0 :: r) size)
    = strip_device_prefix s ++ 0 :: r'
    /\ length (snd (PathCchStripPrefix (s ++ 0 :: r) size))
       = length (s ++ 0 :: r).
Proof.
  intros Hz Hs Hl; unfold PathCchStripPrefix, strip_device_prefix.
  destruct (Z.eqb_spec size 0); [lia|].
  destruct (Z.ltb_spec PATHCCH_MAX_CCH size); [lia|]; simpl orb; cbv iota.
  rewrite is_prefixed_unc_terminated, is_prefixed_disk_terminated by auto.
  destruct (is_prefixed_unc s) eqn:U.
  - assert (L8 : (8 <= length s)%nat).
    { pose proof (is_prefixed_unc_units s U) as K.
      destruct (le_lt_dec 8 (length s)); auto.
      exfalso; apply (K 7%nat); [lia|apply peek_overflow; lia]. }
    unfold cstr_at; rewrite skipn_terminated, cstr_app
      by (auto using nonzero_skipn; lia).
    rewrite length_skipn.
    destruct (Z.ltb_spec size (Z.of_nat (length s - 8) + 3)); [lia|].
    unfold strcpyW, with_nul; cbn [snd].
    exists (skipn (2 + length (skipn 8 s ++ [0])) (s ++ 0 :: r)).
    split; [|apply length_store].
    rewrite store_split
      by (rewrite !length_app, length_skipn; simpl length; lia).
    rewrite firstn_app.
    replace (2 - length s)%nat with O by lia.
    rewrite firstn_0, app_nil_r, <- !app_assoc; reflexivity.
  - destruct (is_prefixed_disk s) eqn:D.
    + assert (L6 : (6 <= length s)%nat).
      { destruct (is_prefixed_disk_units s D) as (_ & _ & _ & _ & _ & K5).
        destruct (le_lt_dec 6 (length s)); auto.
        rewrite peek_overflow in K5 by lia; discriminate. }
      unfold cstr_at; rewrite skipn_terminated, cstr_app
        by (auto using nonzero_skipn; lia).
      rewrite length_skipn.
      destruct (Z.ltb_spec size (Z.of_nat (length s - 4) + 1)); [lia|].
      unfold strcpyW, with_nul; cbn [snd].
      exists (skipn (0 + length (skipn 4 s ++ [0])) (s ++ 0 :: r)).
      split; [|apply length_store].
      rewrite store_split
        by (rewrite !length_app, length_skipn; simpl length; lia).
      rewrite firstn_0, <- !app_assoc; reflexivity.
    + exists r; auto.
Qed.

(** PathCchAddBackslashEx on a terminated string in a buffer with room. *)
Lemma PathCchAddBackslashEx_string (s r : list Z) (size : Z) :
  nonzero s -> r <> [] -> Z.of_nat (length s) + 1 < size ->
  exists r',
    snd (PathCchAddBackslashEx (s ++ 0 :: r) size)
    = with_trailing_backslash s ++ 0 :: r'.
Proof.
  intros Hz Hr Hl; unfold PathCchAddBackslashEx, with_trailing_backslash.
  unfold strlenW; rewrite cstr_app by auto.
  assert (G : forall a b, a < b -> (a >=? b) = false)
    by (intros; rewrite Z.geb_leb; apply Z.leb_gt; lia).
  destruct (Z.eqb_spec size 0); [lia|]; simpl negb; simpl andb.
  destruct (Nat.eqb_spec (length s) 0) as [E|E]; simpl negb; simpl andb;
    simpl orb.
  - rewrite G by lia; exists r; reflexivity.
  - rewrite peek_terminated by lia.
    destruct (Z.eqb_spec (peek s (length s - 1)) c_bslash); simpl negb;
      cbv iota.
    + rewrite G by lia; exists r; reflexivity.
    + rewrite G by lia; cbn [snd].
      pose proof (poke_app_r s (0 :: r) 0 c_bslash) as P1.
      rewrite Nat.add_0_r in P1; rewrite P1; simpl poke.
      pose proof (poke_app_r s (c_bslash :: r) 1 0) as P2.
      rewrite Nat.add_1_r in P2; rewrite P2; simpl poke.
      destruct r as [|r0 r]; [contradiction|].
      exists r; simpl; rewrite <- app_assoc; reflexivity.
Qed.

Lemma nonzero_with_trailing_backslash (s : list Z) :
  nonzero s -> nonzero (with_trailing_backslash s).
Proof.
  intros H; unfold with_trailing_backslash.
  match goal with |- context [if ?b then _ else _] => destruct b end; auto.
  apply Forall_app; split; auto; repeat constructor; discriminate.
Qed.

(** C4 (as amended). When path2 is fully qualified -- it begins with a
    letter and ':' or with two backslashes -- PathAllocCombine does not look
    at path1: its result is that of PathAllocCanonicalize on path2 without
    its device prefix and with a trailing backslash added if it had none. *)
Theorem PathAllocCombine_fully_qualified (path1 path2 : list Z) (flags : Z) :
  nonzero path2 ->
  Z.of_nat (length path2) + 2 <= PATHCCH_MAX_CCH ->
  (isalphaW (peek path2 0) && (peek path2 1 =? c_colon))
  || ((peek path2 0 =? c_bslash) && (peek path2 1 =? c_bslash)) = true ->
  PathAllocCombine (Some path1) (Some path2) flags
  = PathAllocCanonicalize
      (with_trailing_backslash (strip_device_prefix path2)) flags.
Proof.
  intros Hz Hs Hq; unfold PathAllocCombine; rewrite Hq; cbv iota zeta.
  rewrite (strlenW_nonzero _ Hz), (cstr_nonzero _ Hz).
  replace (length path2 + 0 + 2)%nat with (length path2 + 2)%nat by lia.
  unfold strcpyW at 1, with_nul.
  rewrite store_head by (rewrite length_app, repeat_length; simpl; lia).
  rewrite length_app, skipn_repeat_0; simpl length.
  replace (length path2 + 2 - (length path2 + 1))%nat with 1%nat by lia.
  rewrite <- app_assoc; simpl app.
  destruct (PathCchStripPrefix_string path2 [0]
              (Z.of_nat (length path2 + 2)) Hz ltac:(lia) ltac:(lia))
    as (r1 & E1 & L1).
  rewrite E1.
  assert (R1 : r1 <> []).
  { intros N; subst r1; rewrite E1, !length_app in L1; simpl in L1.
    pose proof (length_strip_device_prefix path2); lia. }
  pose proof (length_strip_device_prefix path2) as Ls.
  destruct (PathCchAddBackslashEx_string (strip_device_prefix path2) r1
              (Z.of_nat (length path2 + 2))
              (nonzero_strip_device_prefix _ Hz) R1 ltac:(lia))
    as (r2 & E2).
  rewrite E2, cstr_app
    by (apply nonzero_with_trailing_backslash, nonzero_strip_device_prefix;
        auto).
  reflexivity.
Qed.

(** ** The assumed file path *)

Lemma dot_segments_keeps (p fuel : nat) (url : list Z) (slash : Z)
  (root : nat) (c : list Z) (wk1 wk2 : nat) (c' : list Z) (wk1' wk2' : nat) :
  (p <= root)%nat -> (root < wk2)%nat ->
  dot_segments fuel url slash root c wk1 wk2 = (c', wk1', wk2') ->
  firstn p c' = firstn p c /\ (root < wk2')%nat.
Proof.
  intros Hp; revert c wk1 wk2; induction fuel as [|fuel IH];
    intros c wk1 wk2 Hr E; cbn [dot_segments] in E.
  - inversion E; subst; auto.
  - destruct (negb (peek url wk1 =? c_dot)); [inversion E; subst; auto|].
    destruct (is_slash (peek url (wk1 + 1))); [apply (IH _ _ _ Hr E)|].
    match type of E with (if ?b then _ else _) = _ => destruct b end;
      [|inversion E; subst; auto].
    destruct (nearer _ _) as [m|].
    + apply IH in E; [|lia]; destruct E as [E1 E2]; split; auto.
      rewrite E1; apply firstn_poke; lia.
    + inversion E; subst; split; auto.
      rewrite !firstn_poke by lia; reflexivity.
Qed.

Lemma simplify_path_keeps (p fuel : nat) (url : list Z) (slash : Z)
  (root : nat) (c : list Z) (wk1 wk2 : nat) (c' : list Z) (wk1' wk2' : nat) :
  (p <= root)%nat -> (root < wk2)%nat ->
  simplify_path fuel url slash root c wk1 wk2 = (c', wk1', wk2') ->
  firstn p c' = firstn p c /\ (root < wk2')%nat.
Proof.
  intros Hp; revert c wk1 wk2; induction fuel as [|fuel IH];
    intros c wk1 wk2 Hr E; cbn [simplify_path] in E.
  - inversion E; subst; auto.
  - destruct (peek url wk1 =? 0); [inversion E; subst; auto|].
    destruct (nearer _ _) as [nLen|].
    + destruct (dot_segments _ _ _ _ _ _ _) as [[c2 w1] w2] eqn:D.
      apply (dot_segments_keeps p) in D; [|lia|lia].
      destruct D as [D1 D2].
      apply IH in E; [|lia]; destruct E as [E1 E2]; split; auto.
      rewrite E1, D1, firstn_poke, firstn_store by lia; reflexivity.
    + apply IH in E; [|lia]; destruct E as [E1 E2]; split; auto.
      rewrite E1; apply firstn_store; lia.
Qed.

Lemma slash_run_positive (url : list Z) (wk1 : nat) :
  is_slash (peek url wk1) = true -> (1 <= slash_run (skipn wk1 url))%nat.
Proof.
  intros H; destruct (le_lt_dec (length url) wk1) as [L|L].
  - rewrite peek_overflow in H by lia; discriminate.
  - rewrite (skipn_peek url wk1 L); simpl; rewrite H; lia.
Qed.

Lemma url_step_prefixed (p : nat) (url : list Z) (flags slash : Z)
  (is_file_url : bool) (nByteLen : Z) (sc : url_scan) :
  file_prefixed p sc ->
  file_prefixed p (url_step url flags slash is_file_url nByteLen sc).
Proof.
  intros [Hc Hw Hs]; destruct sc as [c wk1 wk2 st];
    cbn [u_copy u_wk2 u_state] in *.
  destruct Hs as [Hs|[Hs|[Hs Hw']]]; subst st; unfold url_step.
  - (* state 3 *)
    split; cbn [u_copy u_wk1 u_wk2 u_state]; auto; [|lia].
    rewrite firstn_poke by lia.
    destruct (slash =? 0); rewrite ?firstn_store by lia; exact Hc.
  - (* state 5 *)
    destruct (is_slash (peek url wk1)) eqn:S5; simpl negb; cbv iota.
    + pose proof (slash_run_positive url wk1 S5) as R.
      split; cbn [u_copy u_wk1 u_wk2 u_state]; [|lia|right; right; split; auto; lia].
      rewrite firstn_poke, firstn_store by lia; exact Hc.
    + split; cbn [u_copy u_wk1 u_wk2 u_state]; auto.
      rewrite firstn_poke by lia; exact Hc.
  - (* state 6 *)
    destruct (flag_set flags URL_DONT_SIMPLIFY).
    + split; cbn [u_copy u_wk1 u_wk2 u_state]; auto.
      rewrite firstn_poke by lia; exact Hc.
    + destruct (simplify_path _ _ _ _ _ _ _) as [[c2 w1] w2] eqn:D.
      apply (simplify_path_keeps p) in D; [|lia|lia].
      destruct D as [D1 D2].
      split; cbn [u_copy u_wk1 u_wk2 u_state];
        [|lia|right; right; split; auto; lia].
      rewrite !firstn_poke by lia; rewrite D1; exact Hc.
Qed.

Lemma url_scan_loop_prefixed (p fuel : nat) (url : list Z) (flags slash : Z)
  (is_file_url : bool) (nByteLen : Z) (sc : url_scan) :
  file_prefixed p sc ->
  file_prefixed p (url_scan_loop fuel url flags slash is_file_url nByteLen sc).
Proof.
  revert sc; induction fuel as [|fuel IH]; intros sc H; cbn [url_scan_loop];
    auto.
  destruct (peek url (u_wk1 sc) =? 0); auto.
  apply IH, url_step_prefixed, H.
Qed.

(** The removal of trailing blanks stops at a prefix without blanks. *)
Lemma trim_trailing_keeps (p : nat) (prefix : list Z) (n : nat) (c : list Z) :
  (forall i, (i < p)%nat -> c_space < peek prefix i) ->
  firstn p c = firstn p prefix ->
  firstn p (fst (trim_trailing c n)) = firstn p prefix.
Proof.
  intros Hp; revert c; induction n as [|n IH]; intros c Hc;
    cbn [trim_trailing]; auto.
  destruct (Z.leb_spec (peek c n) c_space) as [L|L]; auto.
  destruct (le_lt_dec p n) as [K|K].
  - apply IH; rewrite firstn_poke by lia; exact Hc.
  - rewrite (peek_from_firstn c prefix p n Hc K) in L.
    specialize (Hp n K); lia.
Qed.

Lemma cstr_app_nonzero (s t : list Z) :
  nonzero s -> cstr (s ++ t) = s ++ cstr t.
Proof.
  induction 1 as [|c s Hc Hs IH]; simpl; auto.
  destruct (Z.eqb_spec c 0); [contradiction|]; f_equal; exact IH.
Qed.

Lemma not_res_url (url : list Z) :
  peek url 1 = c_colon -> memcmp_eq wszRes url 4 = false.
Proof.
  intros H; cbn [memcmp_eq]; rewrite !peek_tl, H.
  destruct (peek wszRes 0 =? peek url 0); reflexivity.
Qed.

(** "Assume path": what the scan starts from when the second unit of the
    URL is ':'. *)
Lemma url_scan_start_path (url : list Z) (flags : Z) :
  peek url 1 = c_colon ->
  exists slash,
    url_scan_start url flags
    = if flag_set flags (Z.lor URL_FILE_USE_PATHURL URL_WININET_COMPATIBILITY)
      then (flags, c_bslash, true,
            mk_scan (store (repeat 0 (length url + 10)) 0 wszFilePrefix)
              0 7 state5)
      else (Z.lor flags URL_ESCAPE_UNSAFE, slash, true,
            mk_scan (store (repeat 0 (length url + 10)) 0 wszFilePrefix)
              0 8 state5).
Proof.
  intros H; unfold url_scan_start.
  rewrite (not_res_url url H), andb_false_r, H, Z.eqb_refl.
  eexists; reflexivity.
Qed.

Lemma file_prefix_stored (p n : nat) :
  (p <= 8)%nat ->
  firstn p (store (repeat 0 (n + 10)) 0 wszFilePrefix)
  = firstn p wszFilePrefix.
Proof.
  intros H; rewrite store_head by (rewrite repeat_length; simpl; lia).
  rewrite firstn_app; replace (p - length wszFilePrefix)%nat with O
    by (simpl; lia).
  rewrite firstn_0, app_nil_r; reflexivity.
Qed.

Lemma file_prefix_units (i : nat) :
  (i < 8)%nat -> c_space < peek wszFilePrefix i.
Proof. revert i; below 8 by (vm_compute; reflexivity). Qed.

(** C10 (as amended). UrlCanonicalizeW assumes a file path whenever the second
    code unit of the URL, once the tabs have been removed from it, is ':',
    whatever the first unit is. The simplified URL then begins with
    "file:///" and URL_ESCAPE_UNSAFE is added to the flags, or, under
    URL_FILE_USE_PATHURL or URL_WININET_COMPATIBILITY, it begins with
    "file://" and the flags stay. So "1:x" becomes "file:///1:x", and
    "file://1:x" under URL_FILE_USE_PATHURL. *)
Theorem UrlCanonicalizeW_assumes_path (src_url : list Z) (flags : Z) :
  peek (strip_tabs src_url) 1 = c_colon ->
  (exists rest,
     url_simplify src_url flags
     = if flag_set flags (Z.lor URL_FILE_USE_PATHURL URL_WININET_COMPATIBILITY)
       then (flags, W "file://" ++ rest)
       else (Z.lor flags URL_ESCAPE_UNSAFE, W "file:///" ++ rest))
  /\ UrlCanonicalizeW (W "1:x") 64 0 = (S_OK, Some (W "file:///1:x"), 11)
  /\ UrlCanonicalizeW (W "1:x") 64 URL_FILE_USE_PATHURL
     = (S_OK, Some (W "file://1:x"), 10).
Proof.
  intros H; split; [|split; vm_compute; reflexivity].
  unfold url_simplify.
  destruct (url_scan_start_path (strip_tabs src_url) flags H) as [slash E].
  rewrite E; clear E.
  assert (K : forall p fl sl sc,
             (p <= 8)%nat -> file_prefixed p sc ->
             exists rest,
               cstr (fst (trim_trailing
                 (u_copy (url_scan_loop (3 * length (strip_tabs src_url) + 3)
                            (strip_tabs src_url) fl sl true
                            ((Z.of_nat (length (strip_tabs src_url)) + 1) * 2)
                            sc))
                 (strlenW (u_copy (url_scan_loop
                            (3 * length (strip_tabs src_url) + 3)
                            (strip_tabs src_url) fl sl true
                            ((Z.of_nat (length (strip_tabs src_url)) + 1) * 2)
                            sc)))))
               = firstn p wszFilePrefix ++ rest).
  { intros p fl sl sc Hp Hsc.
    apply (url_scan_loop_prefixed p (3 * length (strip_tabs src_url) + 3)
             (strip_tabs src_url) fl sl true
             ((Z.of_nat (length (strip_tabs src_url)) + 1) * 2)) in Hsc.
    destruct Hsc as [Hc _ _].
    pose proof (trim_trailing_keeps p wszFilePrefix
                  (strlenW (u_copy (url_scan_loop
                            (3 * length (strip_tabs src_url) + 3)
                            (strip_tabs src_url) fl sl true
                            ((Z.of_nat (length (strip_tabs src_url)) + 1) * 2)
                            sc))) _
                  (fun i Hi => file_prefix_units i ltac:(lia)) Hc) as T.
    match goal with |- context [cstr ?x] =>
      rewrite <- (firstn_skipn p x), T, cstr_app_nonzero;
        [eexists; reflexivity|]
    end.
    apply Forall_forall; intros u Hu.
    assert (In u wszFilePrefix)
      by (rewrite <- (firstn_skipn p wszFilePrefix); apply in_or_app; auto).
    simpl in H0; intuition (subst; discriminate). }
  destruct (flag_set flags _).
  - destruct (K 7%nat flags c_bslash
                (mk_scan (store (repeat 0 (length (strip_tabs src_url) + 10))
                            0 wszFilePrefix) 0 7 state5)) as [rest R];
      [lia|split; cbn [u_copy u_wk2 u_state]; auto;
           apply file_prefix_stored; lia|].
    exists rest; rewrite R; reflexivity.
  - destruct (K 8%nat (Z.lor flags URL_ESCAPE_UNSAFE) slash
                (mk_scan (store (repeat 0 (length (strip_tabs src_url) + 10))
                            0 wszFilePrefix) 0 8 state5)) as [rest R];
      [lia|split; cbn [u_copy u_wk2 u_state]; auto;
           apply file_prefix_stored; lia|].
    exists rest; rewrite R; reflexivity.
Qed.

(** ** The loops run to the terminator *)

Lemma length_cstr_at (s : list Z) (k : nat) :
  (k <= strlenW s)%nat -> (k + length (cstr_at s k) = strlenW s)%nat.
Proof.
  unfold cstr_at, strlenW; revert s; induction k as [|k IH]; intros s A.
  - simpl; lia.
  - destruct s as [|c t]; [simpl in A; lia|].
    simpl in A |- *; destruct (c =? 0); simpl in A |- *; [lia|].
    specialize (IH t); lia.
Qed.


Lemma run_inside (url : list Z) (start n : nat) :
  (start <= strlenW url)%nat ->
  (forall j, (j < n)%nat -> peek (skipn start url) j <> 0) ->
  (start + n <= strlenW url)%nat.
Proof.
  intros Hs Hn; apply strlenW_ge; intros i Hi.
  destruct (lt_dec i start) as [L|L]; [apply peek_below_strlenW; lia|].
  replace i with (start + (i - start))%nat by lia.
  rewrite <- peek_skipn; apply Hn; lia.
Qed.


Lemma next_inside (url : list Z) (i : nat) (c : Z) :
  peek url i = c -> c <> 0 -> (i <= strlenW url)%nat ->
  (S i <= strlenW url)%nat.
Proof.
  intros E Hc Hi; apply strlenW_ge; intros j Hj.
  destruct (Nat.eq_dec j i); [subst j; rewrite E; exact Hc|].
  apply peek_below_strlenW; lia.
Qed.

Lemma escape_step_advances (url : list Z) (flags int_flags : Z)
  (parsed : option PARSEDURLW) (escaped_len : Z) (st : escape_state) :
  slashes_counted parsed st ->
  (e_src st < e_src (escape_step url flags int_flags parsed escaped_len st))%nat
  /\ slashes_counted parsed
       (escape_step url flags int_flags parsed escaped_len st).
Proof.
  destruct st as [src slashes stop needed dst]; unfold slashes_counted;
    cbn [e_src e_slashes]; intros I.
  assert (N : forall sl st0,
             (sl = 0%nat \/ match parsed with
                            | Some p => (cchProtocol p + 1 < src)%nat
                            | None => True
                            end) ->
             let r :=
               let '(src', stop', next) :=
                 (let stop_escaping :=
                    st0
                    || ((peek url src =? c_hash)
                        && flag_set int_flags WINE_URL_STOP_ON_HASH)
                    || ((peek url src =? c_qmark)
                        && flag_set int_flags WINE_URL_STOP_ON_QUESTION) in
                  let cur :=
                    if (peek url src =? c_bslash)
                       && flag_set int_flags WINE_URL_BASH_AS_SLASH
                       && negb stop_escaping
                    then c_slash else peek url src in
                  if url_needs_escape cur flags int_flags && negb stop_escaping
                  then
                    let (next, pair) :=
                      escaped_units flags cur (peek url (S src)) in
                    ((if pair then src + 2 else src + 1)%nat, stop_escaping,
                     next)
                  else (S src, stop_escaping, [cur])) in
               mk_escape src' sl stop'
                 (needed + Z.of_nat (length next))
                 (if needed + Z.of_nat (length next) <=? escaped_len
                  then dst ++ next else dst) in
             (src < e_src r)%nat
             /\ (e_slashes r = 0%nat
                 \/ match parsed with
                    | Some p => (cchProtocol p + 1 < e_src r)%nat
                    | None => True
                    end)).
  { intros sl st0 J; cbv zeta.
    match goal with |- context [if ?b then _ else _] => destruct b end.
    - destruct (escaped_units _ _ _) as [next pair]; cbn [e_src e_slashes].
      split; [destruct pair; lia|].
      destruct J as [J|J]; auto; right.
      destruct parsed; auto; destruct pair; lia.
    - cbn [e_src e_slashes]; split; [lia|].
      destruct J as [J|J]; auto; right; destruct parsed; auto; lia. }
  unfold escape_step.
  destruct (flag_set int_flags WINE_URL_COLLAPSE_SLASHES
            && match parsed with
               | Some p => (src =? cchProtocol p + 1)%nat
               | None => false
               end) eqn:C.
  - apply andb_prop in C; destruct C as [_ C].
    destruct parsed as [p|]; [|discriminate].
    apply Nat.eqb_eq in C.
    destruct I as [I|I]; [subst slashes|lia].
    set (n := slash_run (skipn src url)).
    change (0 + n)%nat with n.
    destruct n as [|n0] eqn:En.
    + change ((0 =? 2)%nat) with false; cbn [andb]; cbv iota.
      rewrite Nat.add_0_r.
      apply (N 0%nat stop); left; reflexivity.
    + set (fold := ((S n0 =? 2)%nat
                    && (strncmpiW (skipn (src + S n0) url) localhost 9 =? 0))).
      destruct fold.
      * destruct (is_slash (peek url (src + S n0 + 9)));
          cbn [e_src e_slashes andb]; (split; [lia|right; lia]).
      * destruct n0 as [|[|[|n1]]]; cbn [e_src e_slashes andb];
          (split; [lia|right; lia]).
  - cbv iota; apply (N slashes stop); exact I.
Qed.

Lemma dot_segments_forward (fuel : nat) (url : list Z) (slash : Z)
  (root : nat) (c : list Z) (wk1 wk2 : nat) :
  (wk1 <= snd (fst (dot_segments fuel url slash root c wk1 wk2)))%nat.
Proof.
  revert c wk1 wk2; induction fuel as [|fuel IH]; intros c wk1 wk2;
    cbn [dot_segments]; [simpl; lia|].
  destruct (negb (peek url wk1 =? c_dot)); [simpl; lia|].
  destruct (is_slash (peek url (wk1 + 1))).
  { specialize (IH c (wk1 + 2)%nat wk2); lia. }
  match goal with |- context [if ?b then _ else _] => destruct b end;
    [|simpl; lia].
  destruct (nearer _ _) as [m|]; [|simpl; lia].
  match goal with
  | |- (_ <= snd (fst (dot_segments _ _ _ _ ?c' ?w ?w2)))%nat =>
      specialize (IH c' w w2)
  end.
  destruct (is_slash (peek url (wk1 + 2))); lia.
Qed.

Lemma dot_segments_stable (fuel1 fuel2 : nat) (url : list Z) (slash : Z)
  (root : nat) (c : list Z) (wk1 wk2 : nat) :
  (length url <= wk1 + fuel1)%nat -> (fuel1 <= fuel2)%nat ->
  dot_segments fuel2 url slash root c wk1 wk2
  = dot_segments fuel1 url slash root c wk1 wk2.
Proof.
  revert fuel2 c wk1 wk2; induction fuel1 as [|fuel1 IH];
    intros fuel2 c wk1 wk2 F1 F2.
  - destruct fuel2 as [|fuel2]; cbn [dot_segments]; auto.
    rewrite peek_overflow by lia; reflexivity.
  - destruct fuel2 as [|fuel2]; [lia|]; cbn [dot_segments].
    destruct (negb (peek url wk1 =? c_dot)); auto.
    destruct (is_slash (peek url (wk1 + 1))); [apply IH; lia|].
    match goal with |- context [if ?b then _ else _] => destruct b end; auto.
    destruct (nearer _ _) as [m|]; auto.
    apply IH; [destruct (is_slash (peek url (wk1 + 2))); lia|lia].
Qed.

Lemma cstr_at_positive (url : list Z) (wk1 : nat) :
  peek url wk1 <> 0 -> (1 <= length (cstr_at url wk1))%nat.
Proof.
  intros H; destruct (le_lt_dec (length url) wk1) as [L|L].
  - rewrite peek_overflow in H by lia; contradiction.
  - unfold cstr_at; rewrite (skipn_peek url wk1 L); simpl.
    destruct (Z.eqb_spec (peek url wk1) 0); [contradiction|simpl; lia].
Qed.

Lemma peek_cstr_at_end (url : list Z) (wk1 : nat) :
  peek url (wk1 + length (cstr_at url wk1)) = 0.
Proof.
  rewrite <- peek_skipn; apply (peek_strlenW (skipn wk1 url)).
Qed.

Lemma simplify_path_stable (fuel1 fuel2 : nat) (url : list Z) (slash : Z)
  (root : nat) (c : list Z) (wk1 wk2 : nat) :
  (length url <= wk1 + fuel1)%nat -> (fuel1 <= fuel2)%nat ->
  simplify_path fuel2 url slash root c wk1 wk2
  = simplify_path fuel1 url slash root c wk1 wk2.
Proof.
  revert fuel2 c wk1 wk2; induction fuel1 as [|fuel1 IH];
    intros fuel2 c wk1 wk2 F1 F2.
  - destruct fuel2 as [|fuel2]; cbn [simplify_path]; auto.
    rewrite peek_overflow by lia; reflexivity.
  - destruct fuel2 as [|fuel2]; [lia|]; cbn [simplify_path].
    destruct (Z.eqb_spec (peek url wk1) 0) as [E|E]; auto.
    destruct (nearer _ _) as [nLen|].
    + match goal with
      | |- context [dot_segments ?f ?u ?s ?r ?c' ?w ?w2] =>
          pose proof (dot_segments_forward f u s r c' w w2) as D;
            destruct (dot_segments f u s r c' w w2) as [[c2 w1'] w2']
      end.
      cbn [fst snd] in D; apply IH; lia.
    + pose proof (cstr_at_positive url wk1 E); apply IH; lia.
Qed.

Lemma simplify_path_done (fuel : nat) (url : list Z) (slash : Z)
  (root : nat) (c : list Z) (wk1 wk2 : nat) :
  (length url <= wk1 + fuel)%nat ->
  peek url (snd (fst (simplify_path fuel url slash root c wk1 wk2))) = 0.
Proof.
  revert c wk1 wk2; induction fuel as [|fuel IH]; intros c wk1 wk2 F;
    cbn [simplify_path].
  - apply peek_overflow; simpl; lia.
  - destruct (Z.eqb_spec (peek url wk1) 0) as [E|E]; auto.
    destruct (nearer _ _) as [nLen|].
    + match goal with
      | |- context [dot_segments ?f ?u ?s ?r ?c' ?w ?w2] =>
          pose proof (dot_segments_forward f u s r c' w w2) as D;
            destruct (dot_segments f u s r c' w w2) as [[c2 w1'] w2']
      end.
      cbn [fst snd] in D; apply IH; lia.
    + pose proof (cstr_at_positive url wk1 E); apply IH; lia.
Qed.

Lemma host_run_positive (url : list Z) (wk1 : nat) :
  is_host_unit (peek url wk1) = true -> (1 <= host_run (skipn wk1 url))%nat.
Proof.
  intros H; destruct (le_lt_dec (length url) wk1) as [L|L].
  - rewrite peek_overflow in H by lia.
    unfold is_host_unit, isalnumW, get_char_typeW in H; simpl in H.
    discriminate.
  - rewrite (skipn_peek url wk1 L); simpl; rewrite H; lia.
Qed.

Lemma url_step_progress (url : list Z) (flags slash : Z) (is_file_url : bool)
  (nByteLen : Z) (sc : url_scan) :
  peek url (u_wk1 sc) <> 0 ->
  peek url (u_wk1 (url_step url flags slash is_file_url nByteLen sc)) = 0
  \/ (scan_rank url (url_step url flags slash is_file_url nByteLen sc)
      < scan_rank url sc)%nat.
Proof.
  destruct sc as [c wk1 wk2 st]; cbn [u_wk1]; intros E.
  assert (L : (wk1 < length url)%nat).
  { destruct (le_lt_dec (length url) wk1); auto.
    rewrite peek_overflow in E by lia; contradiction. }
  unfold url_step, scan_rank; destruct st.
  - (* state 0 *)
    destruct (negb (isalnumW (peek url wk1)));
      [cbn [u_wk1 u_state]; right; lia|].
    destruct (negb (isalnumW (peek url (S wk1))));
      cbn [u_wk1 u_state]; right; lia.
  - (* state 1 *)
    cbn [u_wk1 u_state]; right.
    destruct (peek url wk1 =? c_colon); lia.
  - (* state 2 *)
    destruct (negb (peek url (S wk1) =? c_slash));
      [cbn [u_wk1 u_state]; right; lia|].
    set (w := if flag_set flags URL_FILE_USE_PATHURL && (nByteLen >=? 18)
                 && is_file_url
                 && memcmp_eq wszLocalhost (skipn (S (S wk1)) url) 9
              then (S (S wk1) + 9
                    + unit_run c_bslash (skipn (S (S wk1) + 9) url))%nat
              else S (S wk1)).
    assert (Hw : (S (S wk1) <= w)%nat)
      by (unfold w;
          match goal with |- context [if ?b then _ else _] => destruct b end;
          lia).
    clearbody w.
    destruct ((peek url w =? c_slash) && flag_set flags URL_FILE_USE_PATHURL);
      [cbn [u_wk1 u_state]; right; lia|].
    destruct is_file_url; [|cbn [u_wk1 u_state]; right; lia].
    repeat match goal with
           | |- context [if ?b then _ else _] => destruct b
           end; cbn [u_wk1 u_state]; right; lia.
  - (* state 3 *)
    cbn [u_wk1 u_state]; left; apply peek_cstr_at_end.
  - (* state 4 *)
    destruct (is_host_unit (peek url wk1)) eqn:H; simpl negb; cbv iota;
      [|cbn [u_wk1 u_state]; right; lia].
    pose proof (host_run_positive url wk1 H).
    destruct (peek url (wk1 + host_run (skipn wk1 url)) =? 0);
      cbn [u_wk1 u_state]; right; lia.
  - (* state 5 *)
    destruct (is_slash (peek url wk1)) eqn:H; simpl negb; cbv iota;
      [|cbn [u_wk1 u_state]; right; lia].
    pose proof (slash_run_positive url wk1 H).
    cbn [u_wk1 u_state]; right; lia.
  - (* state 6 *)
    destruct (flag_set flags URL_DONT_SIMPLIFY);
      [cbn [u_wk1 u_state]; right; lia|].
    pose proof (simplify_path_done (length url) url slash (wk2 - 1) c wk1 wk2
                  ltac:(lia)) as D.
    destruct (simplify_path _ _ _ _ _ _ _) as [[c2 w1] w2].
    cbn [u_wk1 u_state]; left; exact D.
Qed.

Lemma url_scan_loop_at_end (fuel : nat) (url : list Z) (flags slash : Z)
  (is_file_url : bool) (nByteLen : Z) (sc : url_scan) :
  peek url (u_wk1 sc) = 0 ->
  url_scan_loop fuel url flags slash is_file_url nByteLen sc = sc.
Proof.
  intros E; destruct fuel; cbn [url_scan_loop]; auto.
  rewrite E; reflexivity.
Qed.

Lemma scan_rank_positive (url : list Z) (sc : url_scan) :
  (1 <= scan_rank url sc)%nat.
Proof. unfold scan_rank; destruct (u_state sc); lia. Qed.

Lemma scan_rank_bound (url : list Z) (sc : url_scan) :
  (scan_rank url sc <= 3 * length url + 3)%nat.
Proof. unfold scan_rank; destruct (u_state sc); lia. Qed.

Lemma url_scan_loop_stable (fuel1 fuel2 : nat) (url : list Z)
  (flags slash : Z) (is_file_url : bool) (nByteLen : Z) (sc : url_scan) :
  (scan_rank url sc <= fuel1)%nat -> (fuel1 <= fuel2)%nat ->
  url_scan_loop fuel2 url flags slash is_file_url nByteLen sc
  = url_scan_loop fuel1 url flags slash is_file_url nByteLen sc.
Proof.
  revert fuel2 sc; induction fuel1 as [|fuel1 IH]; intros fuel2 sc R F.
  - pose proof (scan_rank_positive url sc); lia.
  - destruct fuel2 as [|fuel2]; [lia|]; cbn [url_scan_loop].
    destruct (Z.eqb_spec (peek url (u_wk1 sc)) 0) as [E|E]; auto.
    destruct (url_step_progress url flags slash is_file_url nByteLen sc E)
      as [D|D].
    + rewrite !url_scan_loop_at_end by exact D; reflexivity.
    + apply IH; lia.
Qed.

Lemma url_scan_loop_done (fuel : nat) (url : list Z) (flags slash : Z)
  (is_file_url : bool) (nByteLen : Z) (sc : url_scan) :
  (scan_rank url sc <= fuel)%nat ->
  peek url (u_wk1 (url_scan_loop fuel url flags slash is_file_url nByteLen
                     sc)) = 0.
Proof.
  revert sc; induction fuel as [|fuel IH]; intros sc R.
  - pose proof (scan_rank_positive url sc); lia.
  - cbn [url_scan_loop].
    destruct (Z.eqb_spec (peek url (u_wk1 sc)) 0) as [E|E]; auto.
    destruct (url_step_progress url flags slash is_file_url nByteLen sc E)
      as [D|D].
    + rewrite url_scan_loop_at_end by exact D; exact D.
    + apply IH; lia.
Qed.

(** *** The cursors stay inside the URL *)

Lemma is_slash_nonzero (c : Z) : is_slash c = true -> c <> 0.
Proof. intros H E; subst c; discriminate H. Qed.

Lemma is_host_unit_nonzero (c : Z) : is_host_unit c = true -> c <> 0.
Proof.
  intros H E; subst c.
  unfold is_host_unit, isalnumW, get_char_typeW in H; simpl in H;
    discriminate.
Qed.

Lemma slash_run_units (s : list Z) (j : nat) :
  (j < slash_run s)%nat -> peek s j <> 0.
Proof.
  revert j; induction s as [|c t IH]; simpl; intros j Hj; [lia|].
  destruct (is_slash c) eqn:E; [|lia].
  destruct j as [|j].
  - change (peek (c :: t) 0) with c; apply is_slash_nonzero; exact E.
  - change (peek (c :: t) (S j)) with (peek t j); apply IH; lia.
Qed.

Lemma host_run_units (s : list Z) (j : nat) :
  (j < host_run s)%nat -> peek s j <> 0.
Proof.
  revert j; induction s as [|c t IH]; simpl; intros j Hj; [lia|].
  destruct (is_host_unit c) eqn:E; [|lia].
  destruct j as [|j].
  - change (peek (c :: t) 0) with c; apply is_host_unit_nonzero; exact E.
  - change (peek (c :: t) (S j)) with (peek t j); apply IH; lia.
Qed.

Lemma unit_run_units (ch : Z) (s : list Z) (j : nat) :
  ch <> 0 -> (j < unit_run ch s)%nat -> peek s j <> 0.
Proof.
  intros Hc; revert j; induction s as [|c t IH]; simpl; intros j Hj; [lia|].
  destruct (Z.eqb_spec c ch) as [E|E]; [|lia].
  destruct j as [|j].
  - change (peek (c :: t) 0) with c; congruence.
  - change (peek (c :: t) (S j)) with (peek t j); apply IH; lia.
Qed.

Lemma memcmp_eq_units (n : nat) (a b : list Z) :
  memcmp_eq a b n = true ->
  forall j, (j < n)%nat -> peek b j = peek a j.
Proof.
  revert a b; induction n as [|n IH]; intros a b H j Hj; [lia|].
  simpl in H; apply andb_prop in H; destruct H as [H0 H1].
  apply Z.eqb_eq in H0.
  destruct j as [|j]; [symmetry; exact H0|].
  rewrite <- !peek_tl; apply IH; [exact H1|lia].
Qed.

Lemma localhost_units (j : nat) :
  (j < 9)%nat -> peek wszLocalhost j <> 0 /\ tolowerW (peek localhost j) <> 0.
Proof.
  intros Hj.
  do 9 (destruct j as [|j];
        [split; intros H; vm_compute in H; discriminate H|]).
  lia.
Qed.

Lemma strchrW_inside (s : list Z) (ch : Z) (q : nat) :
  strchrW s ch = Some q -> (q <= strlenW s)%nat.
Proof.
  unfold strlenW; revert q; induction s as [|c t IH]; intros q;
    [discriminate|].
  change (strchrW (c :: t) ch)
    with (if c =? 0 then None
          else if c =? ch then Some O else option_map S (strchrW t ch)).
  cbn [cstr].
  destruct (c =? 0); [discriminate|].
  destruct (c =? ch); [intros E; inversion E; simpl; lia|].
  destruct (strchrW t ch) as [k|]; simpl; [|discriminate].
  intros E; inversion E; specialize (IH k eq_refl); simpl; lia.
Qed.

Lemma strchrW_found (s : list Z) (ch : Z) (q : nat) :
  strchrW s ch = Some q -> peek s q = ch.
Proof.
  revert q; induction s as [|c t IH]; intros q; [discriminate|].
  change (strchrW (c :: t) ch)
    with (if c =? 0 then None
          else if c =? ch then Some O else option_map S (strchrW t ch)).
  destruct (c =? 0); [discriminate|].
  destruct (Z.eqb_spec c ch) as [E|E].
  - intros Q; inversion Q; exact E.
  - destruct (strchrW t ch) as [k|]; simpl; [|discriminate].
    intros Q; inversion Q.
    change (peek (c :: t) (S k)) with (peek t k); apply IH; reflexivity.
Qed.

(** The separator that state 6 looks for lies inside the URL and is not
    its terminator. *)
Lemma nearer_inside (url : list Z) (wk1 nLen : nat) :
  (wk1 <= strlenW url)%nat ->
  nearer (strchrW (skipn wk1 url) c_slash) (strchrW (skipn wk1 url) c_bslash)
  = Some nLen ->
  (S (wk1 + nLen) <= strlenW url)%nat.
Proof.
  intros Hw N.
  assert (F : exists ch, ch <> 0 /\ strchrW (skipn wk1 url) ch = Some nLen).
  { destruct (strchrW (skipn wk1 url) c_slash) as [a|] eqn:A,
      (strchrW (skipn wk1 url) c_bslash) as [b|] eqn:B; simpl in N;
      try discriminate.
    - destruct (b <? a)%nat; inversion N; subst;
        [exists c_bslash|exists c_slash]; split; auto; discriminate.
    - inversion N; subst; exists c_slash; split; auto; discriminate.
    - inversion N; subst; exists c_bslash; split; auto; discriminate. }
  destruct F as (ch & Hc & F).
  apply (next_inside url (wk1 + nLen) ch);
    [rewrite <- peek_skipn; apply strchrW_found; exact F|exact Hc|].
  apply run_inside; [exact Hw|].
  intros j Hj; apply peek_below_strlenW.
  apply strchrW_inside in F; lia.
Qed.

Lemma dot_segments_inside (fuel : nat) (url : list Z) (slash : Z)
  (root : nat) (c : list Z) (wk1 wk2 : nat) :
  (wk1 <= strlenW url)%nat ->
  (snd (fst (dot_segments fuel url slash root c wk1 wk2)) <= strlenW url)%nat.
Proof.
  revert c wk1 wk2; induction fuel as [|fuel IH]; intros c wk1 wk2 Hw;
    cbn [dot_segments]; [simpl; exact Hw|].
  destruct (Z.eqb_spec (peek url wk1) c_dot) as [D|D]; cbn [negb];
    [|simpl; exact Hw].
  assert (A1 : (wk1 + 1 <= strlenW url)%nat).
  { pose proof (next_inside url wk1 c_dot D ltac:(discriminate) Hw); lia. }
  destruct (is_slash (peek url (wk1 + 1))) eqn:S1.
  { apply IH.
    pose proof (next_inside url (wk1 + 1) _ eq_refl
                  (is_slash_nonzero _ S1) A1); lia. }
  match goal with |- context [if ?b then _ else _] => destruct b eqn:C end;
    [|simpl; exact Hw].
  apply andb_prop in C; destruct C as [C _]; apply Z.eqb_eq in C.
  assert (A2 : (wk1 + 2 <= strlenW url)%nat).
  { pose proof (next_inside url (wk1 + 1) c_dot C ltac:(discriminate) A1);
      lia. }
  destruct (nearer _ _) as [m|]; [|simpl; exact Hw].
  apply IH.
  destruct (is_slash (peek url (wk1 + 2))) eqn:S2; [|exact A2].
  pose proof (next_inside url (wk1 + 2) _ eq_refl
                (is_slash_nonzero _ S2) A2); lia.
Qed.

Lemma simplify_path_inside (fuel : nat) (url : list Z) (slash : Z)
  (root : nat) (c : list Z) (wk1 wk2 : nat) :
  (wk1 <= strlenW url)%nat ->
  (snd (fst (simplify_path fuel url slash root c wk1 wk2)) <= strlenW url)%nat.
Proof.
  revert c wk1 wk2; induction fuel as [|fuel IH]; intros c wk1 wk2 Hw;
    cbn [simplify_path]; [simpl; exact Hw|].
  destruct (Z.eqb_spec (peek url wk1) 0) as [E|E]; [simpl; exact Hw|].
  destruct (nearer _ _) as [nLen|] eqn:N.
  - pose proof (nearer_inside url wk1 nLen Hw N) as A.
    match goal with
    | |- context [dot_segments ?f ?u ?s ?r ?c' ?w ?w2] =>
        pose proof (dot_segments_inside f u s r c' w w2 A) as D;
          destruct (dot_segments f u s r c' w w2) as [[c2 w1'] w2']
    end.
    cbn [fst snd] in D; apply IH; exact D.
  - apply IH; pose proof (length_cstr_at url wk1 Hw); lia.
Qed.

Lemma url_step_inside (url : list Z) (flags slash : Z) (is_file_url : bool)
  (nByteLen : Z) (sc : url_scan) :
  peek url (u_wk1 sc) <> 0 -> (u_wk1 sc <= strlenW url)%nat ->
  (u_wk1 (url_step url flags slash is_file_url nByteLen sc)
   <= strlenW url)%nat.
Proof.
  destruct sc as [c wk1 wk2 st]; cbn [u_wk1]; intros E Hw.
  assert (A1 : (S wk1 <= strlenW url)%nat)
    by (apply (next_inside url wk1 _ eq_refl E Hw)).
  assert (R : forall w n,
             (w <= strlenW url)%nat ->
             (forall j, (j < n)%nat -> peek (skipn w url) j <> 0) ->
             (w + n <= strlenW url)%nat)
    by (intros; apply run_inside; assumption).
  unfold url_step; destruct st.
  - (* state 0 *)
    destruct (negb (isalnumW (peek url wk1)));
      [cbn [u_wk1]; exact Hw|].
    destruct (isalnumW (peek url (S wk1))) eqn:A; cbn [negb u_wk1];
      [|exact A1].
    pose proof (next_inside url (S wk1) _ eq_refl (isalnumW_nonzero _ A) A1);
      lia.
  - (* state 1 *)
    cbn [u_wk1]; exact A1.
  - (* state 2 *)
    destruct (Z.eqb_spec (peek url (S wk1)) c_slash) as [D|D]; cbn [negb];
      [|cbn [u_wk1]; exact A1].
    assert (A2 : (S (S wk1) <= strlenW url)%nat)
      by (apply (next_inside url (S wk1) c_slash D ltac:(discriminate) A1)).
    set (w := if flag_set flags URL_FILE_USE_PATHURL && (nByteLen >=? 18)
                 && is_file_url
                 && memcmp_eq wszLocalhost (skipn (S (S wk1)) url) 9
              then (S (S wk1) + 9
                    + unit_run c_bslash (skipn (S (S wk1) + 9) url))%nat
              else S (S wk1)).
    assert (Hw' : (w <= strlenW url)%nat).
    { unfold w.
      match goal with |- context [if ?b then _ else _] => destruct b eqn:C end;
        [|exact A2].
      apply andb_prop in C; destruct C as [_ C].
      apply R; [apply R; [exact A2|]|].
      - intros j Hj; rewrite (memcmp_eq_units 9 _ _ C j Hj).
        apply localhost_units; exact Hj.
      - intros j; apply unit_run_units; discriminate. }
    assert (Hb : (w + unit_run c_slash (skipn w url) <= strlenW url)%nat)
      by (apply R; [exact Hw'|intros j; apply unit_run_units; discriminate]).
    clearbody w.
    destruct ((peek url w =? c_slash) && flag_set flags URL_FILE_USE_PATHURL)
      eqn:D2.
    { cbn [u_wk1]; apply andb_prop in D2; destruct D2 as [D2 _].
      apply Z.eqb_eq in D2.
      apply (next_inside url w c_slash D2 ltac:(discriminate) Hw'). }
    destruct is_file_url; [|cbn [u_wk1]; exact Hw'].
    repeat match goal with
           | |- context [if ?b then _ else _] => destruct b
           end; cbn [u_wk1]; exact Hb.
  - (* state 3 *)
    cbn [u_wk1]; pose proof (length_cstr_at url wk1 Hw); lia.
  - (* state 4 *)
    destruct (is_host_unit (peek url wk1)) eqn:H; simpl negb; cbv iota;
      [|cbn [u_wk1]; exact Hw].
    pose proof (R wk1 (host_run (skipn wk1 url)) Hw
                  (fun j => host_run_units (skipn wk1 url) j)).
    destruct (peek url (wk1 + host_run (skipn wk1 url)) =? 0);
      cbn [u_wk1]; assumption.
  - (* state 5 *)
    destruct (is_slash (peek url wk1)) eqn:H; simpl negb; cbv iota;
      [|cbn [u_wk1]; exact Hw].
    cbn [u_wk1]; apply R; [exact Hw|].
    intros j; apply slash_run_units.
  - (* state 6 *)
    destruct (flag_set flags URL_DONT_SIMPLIFY); [cbn [u_wk1]; exact Hw|].
    pose proof (simplify_path_inside (length url) url slash (wk2 - 1) c wk1
                  wk2 Hw) as D.
    destruct (simplify_path _ _ _ _ _ _ _) as [[c2 w1] w2].
    cbn [u_wk1]; exact D.
Qed.

Lemma url_scan_loop_inside (fuel : nat) (url : list Z) (flags slash : Z)
  (is_file_url : bool) (nByteLen : Z) (sc : url_scan) :
  (u_wk1 sc <= strlenW url)%nat ->
  (u_wk1 (url_scan_loop fuel url flags slash is_file_url nByteLen sc)
   <= strlenW url)%nat.
Proof.
  revert sc; induction fuel as [|fuel IH]; intros sc Hw;
    cbn [url_scan_loop]; [exact Hw|].
  destruct (Z.eqb_spec (peek url (u_wk1 sc)) 0) as [E|E]; [exact Hw|].
  apply IH, url_step_inside; assumption.
Qed.

Lemma escaped_units_pair (flags cur src1 : Z) :
  snd (escaped_units flags cur src1) = true -> src1 <> 0.
Proof.
  unfold escaped_units.
  destruct (flag_set flags URL_ESCAPE_AS_UTF8); cbn [snd];
    [|discriminate].
  intros H E; subst src1.
  rewrite andb_false_r in H; discriminate.
Qed.

Lemma escape_step_inside (url : list Z) (flags int_flags : Z)
  (parsed : option PARSEDURLW) (escaped_len : Z) (st : escape_state) :
  peek url (e_src st) <> 0 -> (e_src st <= strlenW url)%nat ->
  (e_src (escape_step url flags int_flags parsed escaped_len st)
   <= strlenW url)%nat.
Proof.
  destruct st as [src slashes stop needed dst]; cbn [e_src]; intros E Hs.
  assert (N : forall src1 cur1 sl st0,
             (src1 <= strlenW url)%nat -> peek url src1 <> 0 ->
             let r :=
               let '(src', stop', next) :=
                 (let stop_escaping :=
                    st0
                    || ((cur1 =? c_hash)
                        && flag_set int_flags WINE_URL_STOP_ON_HASH)
                    || ((cur1 =? c_qmark)
                        && flag_set int_flags WINE_URL_STOP_ON_QUESTION) in
                  let cur :=
                    if (cur1 =? c_bslash)
                       && flag_set int_flags WINE_URL_BASH_AS_SLASH
                       && negb stop_escaping
                    then c_slash else cur1 in
                  if url_needs_escape cur flags int_flags && negb stop_escaping
                  then
                    let (next, pair) :=
                      escaped_units flags cur (peek url (S src1)) in
                    ((if pair then src1 + 2 else src1 + 1)%nat, stop_escaping,
                     next)
                  else (S src1, stop_escaping, [cur])) in
               mk_escape src' sl stop'
                 (needed + Z.of_nat (length next))
                 (if needed + Z.of_nat (length next) <=? escaped_len
                  then dst ++ next else dst) in
             (e_src r <= strlenW url)%nat).
  { intros src1 cur1 sl st0 H1 E1; cbv zeta.
    pose proof (next_inside url src1 _ eq_refl E1 H1) as A1.
    match goal with |- context [if ?b then _ else _] => destruct b end.
    - pose proof (escaped_units_pair flags
                    (if (cur1 =? c_bslash)
                        && flag_set int_flags WINE_URL_BASH_AS_SLASH
                        && negb (st0
                                 || (cur1 =? c_hash)
                                    && flag_set int_flags WINE_URL_STOP_ON_HASH
                                 || (cur1 =? c_qmark)
                                    && flag_set int_flags
                                         WINE_URL_STOP_ON_QUESTION)
                     then c_slash else cur1)
                    (peek url (S src1))) as P.
      destruct (escaped_units _ _ _) as [next pair]; cbn [e_src snd] in *.
      destruct pair; [|lia].
      pose proof (next_inside url (S src1) _ eq_refl (P eq_refl) A1); lia.
    - cbn [e_src]; exact A1. }
  unfold escape_step.
  destruct (flag_set int_flags WINE_URL_COLLAPSE_SLASHES
            && match parsed with
               | Some p => (src =? cchProtocol p + 1)%nat
               | None => false
               end) eqn:C.
  - set (n := slash_run (skipn src url)).
    assert (Hn : (src + n <= strlenW url)%nat)
      by (apply run_inside; [exact Hs|intros j; apply slash_run_units]).
    assert (HF : (strncmpiW (skipn (src + n) url) localhost 9 =? 0) = true ->
                 is_slash (peek url (src + n + 9)) = true ->
                 (src + n + 10 <= strlenW url)%nat).
    { intros F G; apply Z.eqb_eq in F.
      assert (src + n + 9 <= strlenW url)%nat.
      { apply run_inside; [exact Hn|].
        intros j Hj.
        apply (strncmpiW_0_nonzero 9 _ localhost F); [|exact Hj].
        intros i Hi; apply localhost_units; exact Hi. }
      pose proof (next_inside url (src + n + 9) _ eq_refl
                    (is_slash_nonzero _ G) H); lia. }
    clearbody n.
    destruct (slashes + n)%nat as [|[|[|[|k]]]] eqn:SN;
      cbn [Nat.eqb andb].
    + assert (n = 0)%nat by lia; subst n.
      cbv iota; rewrite Nat.add_0_r.
      apply (N src (peek url src) 0%nat stop); assumption.
    + cbn [e_src]; exact Hn.
    + destruct (strncmpiW (skipn (src + n) url) localhost 9 =? 0) eqn:F;
        [|cbn [e_src]; exact Hn].
      destruct (is_slash (peek url (src + n + 9))) eqn:G;
        cbn [e_src andb]; [apply HF; auto|exact Hn].
    + cbn [e_src]; exact Hn.
    + cbn [e_src]; exact Hn.
  - cbv iota; apply (N src (peek url src) slashes stop); assumption.
Qed.

(** X1. The loop of UrlEscapeW, which the embedding runs for as many
    turns as the URL has code units, stops with its input cursor on the
    terminator of the URL: every turn moves the cursor forward and none
    moves it past the terminator. *)
Theorem UrlEscapeW_loop_reaches_terminator (url : list Z)
  (flags int_flags : Z) (parsed : option PARSEDURLW) (escaped_len : Z) :
  e_src (escape_loop (length url) url flags int_flags parsed escaped_len
           (mk_escape 0 0 false 0 []))
  = strlenW url.
Proof.
  assert (G : forall fuel st,
             slashes_counted parsed st ->
             (e_src st <= strlenW url)%nat ->
             (length url <= e_src st + fuel)%nat ->
             e_src (escape_loop fuel url flags int_flags parsed
                      escaped_len st) = strlenW url).
  { induction fuel as [|fuel IH]; intros st I B F; cbn [escape_loop].
    - pose proof (strlenW_le url); lia.
    - destruct (Z.eqb_spec (peek url (e_src st)) 0) as [E|E].
      + pose proof (strlenW_le_zero url (e_src st) E); lia.
      + destruct (escape_step_advances url flags int_flags parsed escaped_len
                    st I) as [A J].
        apply IH; [exact J|apply escape_step_inside; assumption|lia]. }
  apply G; [left; reflexivity|cbn [e_src]; lia|cbn [e_src]; lia].
Qed.

(** X2. The scan of UrlCanonicalizeW, which the embedding runs for
    [3 * length url + 3] turns, with [length url] turns for each of the two
    loops of state 6: from every state it stops with the cursor on a
    terminator, which is the terminator of the URL when the cursor started
    inside the URL, and none of the three loops would do anything else if
    it were given more turns. *)
Theorem UrlCanonicalizeW_scan_reaches_terminator (url : list Z)
  (flags slash : Z) (is_file_url : bool) (nByteLen : Z) (sc : url_scan) :
  peek url
    (u_wk1 (url_scan_loop (3 * length url + 3) url flags slash is_file_url
              nByteLen sc)) = 0
  /\ ((u_wk1 sc <= strlenW url)%nat ->
      u_wk1 (url_scan_loop (3 * length url + 3) url flags slash is_file_url
               nByteLen sc) = strlenW url)
  /\ (forall fuel, (3 * length url + 3 <= fuel)%nat ->
        url_scan_loop fuel url flags slash is_file_url nByteLen sc
        = url_scan_loop (3 * length url + 3) url flags slash is_file_url
            nByteLen sc)
  /\ (forall fuel root c wk1 wk2, (length url <= fuel)%nat ->
        simplify_path fuel url slash root c wk1 wk2
        = simplify_path (length url) url slash root c wk1 wk2)
  /\ (forall fuel root c wk1 wk2, (length url <= fuel)%nat ->
        dot_segments fuel url slash root c wk1 wk2
        = dot_segments (length url) url slash root c wk1 wk2).
Proof.
  split; [apply url_scan_loop_done, scan_rank_bound|].
  split.
  { intros Hw.
    pose proof (url_scan_loop_inside (3 * length url + 3) url flags slash
                  is_file_url nByteLen sc Hw) as I.
    pose proof (url_scan_loop_done (3 * length url + 3) url flags slash
                  is_file_url nByteLen sc (scan_rank_bound url sc)) as D.
    apply strlenW_le_zero in D; lia. }
  split; [intros; apply url_scan_loop_stable; auto using scan_rank_bound|].
  split; intros;
    [apply simplify_path_stable|apply dot_segments_stable]; lia.
Qed.

(** ** Extensions *)

Lemma extension_at_unique (s : list Z) (e e' : nat) :
  extension_at s e -> extension_at s e' -> e = e'.
Proof.
  assert (G : forall a b, extension_at s a -> extension_at s b ->
                          (a < b)%nat -> False).
  { intros a b (A1 & A2 & A3 & A4) (B1 & B2 & B3 & B4) L.
    destruct (Nat.eq_dec b (length s)) as [E|E].
    - destruct (B4 E a ltac:(lia) (A3 ltac:(lia))) as (j & Hj & [K|K]);
        destruct (A2 j ltac:(lia)) as (_ & N1 & N2); contradiction.
    - destruct (A2 b ltac:(lia)) as (N & _); apply N, B3; lia. }
  intros A B; destruct (lt_eq_lt_dec e e') as [[L|L]|L]; auto; exfalso;
    eauto.
Qed.

Lemma skipn_terminated_at (s r : list Z) (i : nat) :
  (i < length s)%nat ->
  skipn i (s ++ 0 :: r) = peek s i :: skipn (S i) (s ++ 0 :: r).
Proof.
  intros H; rewrite (skipn_peek (s ++ 0 :: r) i)
    by (rewrite length_app; simpl; lia).
  rewrite peek_app_l by lia; reflexivity.
Qed.

Lemma skipn_terminated_end (s r : list Z) :
  skipn (length s) (s ++ 0 :: r) = 0 :: r.
Proof.
  rewrite skipn_app, Nat.sub_diag, skipn_all; reflexivity.
Qed.

Lemma find_extension_run (s r : list Z) (size : Z) (n i : nat)
  (lastpoint : option nat) :
  nonzero s -> Z.of_nat (length s) < size -> size <= PATHCCH_MAX_CCH ->
  (i + n = length s)%nat -> last_point_upto s i lastpoint ->
  exists e,
    find_extension (skipn i (s ++ 0 :: r)) i lastpoint size = Some e
    /\ extension_at s e.
Proof.
  intros Hz Hs Hm; revert i lastpoint; induction n as [|n IH];
    intros i lp Hi Inv.
  - replace i with (length s) in * by lia.
    rewrite skipn_terminated_end; cbn [find_extension]; simpl Z.eqb; cbv iota.
    destruct lp as [l|]; cbn [last_point_upto] in Inv.
    + destruct Inv as (I1 & I2 & I3); exists l; split; auto.
      split; [lia|]; split; [intros j Hj; apply I3; lia|].
      split; [intros; exact I2|intros; lia].
    + exists (length s); split; auto.
      split; [lia|]; split; [intros; lia|].
      split; [intros; lia|intros _; exact Inv].
  - rewrite skipn_terminated_at by lia; cbn [find_extension].
    pose proof (peek_nonzero s i Hz ltac:(lia)) as Nz.
    destruct (Z.eqb_spec (peek s i) 0); [contradiction|].
    destruct (Z.eqb_spec (Z.of_nat (S i)) size); [lia|].
    destruct (Z.eqb_spec (Z.of_nat (S i)) PATHCCH_MAX_CCH); [lia|].
    simpl orb; cbv iota.
    apply IH; [lia|].
    destruct (Z.eqb_spec (peek s i) c_bslash) as [B|B];
      [|destruct (Z.eqb_spec (peek s i) c_space) as [S|S]];
      simpl orb; cbv iota.
    + intros j Hj Dj; exists i; split; auto.
      destruct (Nat.eq_dec j i); [subst; rewrite B in Dj; discriminate|lia].
    + intros j Hj Dj; exists i; split; auto.
      destruct (Nat.eq_dec j i); [subst; rewrite S in Dj; discriminate|lia].
    + destruct (Z.eqb_spec (peek s i) c_dot) as [D|D].
      * split; [lia|split; auto; intros; lia].
      * destruct lp as [l|]; cbn [last_point_upto] in *.
        -- destruct Inv as (I1 & I2 & I3); split; [lia|split; auto].
           intros j Hj; destruct (Nat.eq_dec j i); [subst; auto|].
           apply I3; lia.
        -- intros j Hj Dj.
           destruct (Nat.eq_dec j i); [subst; contradiction|].
           destruct (Inv j ltac:(lia) Dj) as (k & Hk & K).
           exists k; split; auto; lia.
Qed.

Lemma find_extension_overrun (s r : list Z) (size : Z) (n i : nat)
  (lastpoint : option nat) :
  nonzero s -> (Z.of_nat i + Z.of_nat n = size - 1) ->
  size <= Z.of_nat (length s) ->
  find_extension (skipn i (s ++ 0 :: r)) i lastpoint size = None.
Proof.
  intros Hz; revert i lastpoint; induction n as [|n IH]; intros i lp Hi Hs;
    rewrite skipn_terminated_at by lia; cbn [find_extension];
    pose proof (peek_nonzero s i Hz ltac:(lia)) as Nz;
    (destruct (Z.eqb_spec (peek s i) 0); [contradiction|]).
  - destruct (Z.eqb_spec (Z.of_nat (S i)) size); [reflexivity|lia].
  - destruct (Z.eqb_spec (Z.of_nat (S i)) size); [lia|].
    destruct (Z.of_nat (S i) =? PATHCCH_MAX_CCH); [reflexivity|].
    simpl orb; cbv iota; apply IH; lia.
Qed.

Lemma PathCchFindExtension_offset_aux (s r : list Z) (size : Z) :
  nonzero s -> 0 < size <= PATHCCH_MAX_CCH ->
  (Z.of_nat (length s) < size ->
   exists e, PathCchFindExtension (s ++ 0 :: r) size = (S_OK, Some e)
             /\ extension_at s e)
  /\ (size <= Z.of_nat (length s) ->
      PathCchFindExtension (s ++ 0 :: r) size = (E_INVALIDARG, None)).
Proof.
  intros Hz Hs; unfold PathCchFindExtension.
  destruct (Z.eqb_spec size 0); [lia|].
  destruct (Z.ltb_spec PATHCCH_MAX_CCH size); [lia|]; simpl orb; cbv iota.
  split; intros Hl.
  - destruct (find_extension_run s r size (length s) 0 None Hz Hl
                ltac:(lia) ltac:(lia)) as (e & E & X).
    { intros j Hj; lia. }
    simpl skipn in E; rewrite E; exists e; auto.
  - pose proof (find_extension_overrun s r size (Z.to_nat (size - 1)) 0 None Hz
                  ltac:(lia) Hl) as E.
    simpl skipn in E; rewrite E; reflexivity.
Qed.

(** X4. PathCchFindExtension, given a buffer of [size] units
    (0 < size <= PATHCCH_MAX_CCH) that holds a string shorter than [size],
    returns S_OK and the offset of the extension: that of the last '.' of
    the string unless a backslash or a space follows it, and otherwise the
    offset of the terminator. When the string does not end within [size]
    units it returns E_INVALIDARG and a null pointer. *)
Theorem PathCchFindExtension_offset (s r : list Z) (size : Z) :
  nonzero s -> 0 < size <= PATHCCH_MAX_CCH ->
  (Z.of_nat (length s) < size ->
   exists e, PathCchFindExtension (s ++ 0 :: r) size = (S_OK, Some e)
             /\ extension_at s e)
  /\ (size <= Z.of_nat (length s) ->
      PathCchFindExtension (s ++ 0 :: r) size = (E_INVALIDARG, None)).
Proof. exact (PathCchFindExtension_offset_aux s r size). Qed.

Lemma strnlenW_terminated (s r : list Z) (maxlen : nat) :
  nonzero s -> (length s <= maxlen)%nat ->
  strnlenW (s ++ 0 :: r) maxlen = length s.
Proof.
  intros Hz; revert maxlen; induction Hz as [|c s Hc Hs IH]; intros m Hm.
  - destruct m; reflexivity.
  - simpl in Hm; destruct m as [|m]; [lia|]; simpl.
    destruct (Z.eqb_spec c 0); [contradiction|].
    rewrite IH by lia; reflexivity.
Qed.

Lemma clear_run_string (x r : list Z) (next : nat) (size : Z) :
  nonzero x -> Z.of_nat (next + length x) <= size ->
  clear_run (x ++ 0 :: r) next size
  = (repeat 0 (length x) ++ 0 :: r, (next + length x)%nat).
Proof.
  intros Hz; revert next; induction Hz as [|c x Hc Hx IH]; intros next Hs.
  - simpl; rewrite andb_false_r, Nat.add_0_r; reflexivity.
  - simpl length in *; cbn [app clear_run repeat].
    destruct (Z.ltb_spec (Z.of_nat next) size); [|lia].
    destruct (Z.eqb_spec c 0); [contradiction|]; simpl negb; simpl andb;
      cbv iota.
    rewrite IH by lia; f_equal; lia.
Qed.

Lemma cstr_zeros (n : nat) (r : list Z) : cstr (repeat 0 n ++ 0 :: r) = [].
Proof. destruct n; reflexivity. Qed.

Lemma extension_units_unbroken (y : list Z) :
  nonzero y -> extension_units_ok y false = true ->
  forall k, (k < length y)%nat ->
    peek y k <> c_dot /\ peek y k <> c_bslash /\ peek y k <> c_space.
Proof.
  intros Hz; induction Hz as [|c y Hc Hy IH]; intros H k Hk;
    [simpl in Hk; lia|].
  cbn [extension_units_ok] in H.
  destruct (Z.eqb_spec c 0); [contradiction|].
  simpl negb in H; rewrite andb_true_r in H.
  destruct (Z.eqb_spec c c_dot); [discriminate|].
  destruct (Z.eqb_spec c c_space); [discriminate|].
  destruct (Z.eqb_spec c c_bslash); [discriminate|].
  simpl in H; destruct k as [|k].
  - change (peek (c :: y) 0) with c; auto.
  - change (peek (c :: y) (S k)) with (peek y k); apply IH; auto.
    simpl in Hk; lia.
Qed.

Lemma dotted_extension_shape (ext : list Z) :
  nonzero ext -> ext <> [] -> extension_units_ok ext true = true ->
  exists y, dotted_extension ext = c_dot :: y /\ nonzero y
            /\ extension_units_ok y false = true.
Proof.
  intros Hz Hne H; destruct ext as [|c t]; [contradiction|].
  inversion Hz as [|? ? Hc Ht]; subst.
  unfold dotted_extension; change (peek (c :: t) 0) with c.
  cbn [extension_units_ok] in H.
  destruct (Z.eqb_spec c 0); [contradiction|].
  destruct (Z.eqb_spec c c_dot) as [D|D].
  - subst c; exists t; repeat split; auto.
  - exists (c :: t); repeat split; auto.
    cbn [extension_units_ok].
    destruct (Z.eqb_spec c 0); [contradiction|].
    destruct (Z.eqb_spec c c_dot); [contradiction|].
    simpl andb in *; exact H.
Qed.

Lemma nonzero_dotted_extension (ext : list Z) :
  nonzero ext -> nonzero (dotted_extension ext).
Proof.
  intros H; unfold dotted_extension; destruct (peek ext 0 =? c_dot); auto.
  constructor; auto; discriminate.
Qed.

Lemma extension_at_appended (s y : list Z) :
  (forall k, (k < length y)%nat ->
     peek y k <> c_dot /\ peek y k <> c_bslash /\ peek y k <> c_space) ->
  extension_at (s ++ c_dot :: y) (length s).
Proof.
  intros Hy; unfold extension_at; rewrite length_app; simpl length.
  split; [lia|]; split; [|split; [|intros; lia]].
  - intros i Hi; rewrite peek_app_r by lia.
    replace (i - length s)%nat with (S (i - length s - 1)) by lia.
    change (peek (c_dot :: y) (S ?k)) with (peek y k); apply Hy; lia.
  - intros _; rewrite peek_app_r, Nat.sub_diag by lia; reflexivity.
Qed.

(** What PathCchAddExtension stores for a string without extension. *)
Lemma PathCchAddExtension_string (s r ext : list Z) (size : Z) :
  nonzero s -> nonzero ext -> ext <> [] -> ext <> [c_dot] ->
  extension_units_ok ext true = true ->
  extension_at s (length s) ->
  size <= PATHCCH_MAX_CCH ->
  Z.of_nat (length s + length (dotted_extension ext)) < size ->
  (length (dotted_extension ext) <= length r)%nat ->
  exists r',
    PathCchAddExtension (s ++ 0 :: r) size ext
    = (S_OK, (s ++ dotted_extension ext) ++ 0 :: r').
Proof.
  intros Hz He Hne Hnd Hok Hx Hm Hs Hr.
  unfold PathCchAddExtension.
  destruct (Z.eqb_spec size 0); [lia|].
  destruct (Z.ltb_spec PATHCCH_MAX_CCH size); [lia|]; simpl orb; cbv iota.
  rewrite Hok; simpl negb; cbv iota.
  destruct (proj1 (PathCchFindExtension_offset_aux s r size Hz ltac:(lia))
              ltac:(lia)) as (e & E & X).
  rewrite E.
  rewrite (extension_at_unique s e (length s) X Hx).
  rewrite peek_terminated, peek_overflow by lia; simpl negb; cbv iota.
  rewrite strnlenW_terminated by (auto; lia).
  rewrite (strlenW_nonzero ext He), (cstr_nonzero ext He).
  destruct ext as [|c t]; [contradiction|].
  inversion He as [|? ? Hc Ht]; subst.
  unfold dotted_extension in *; change (peek (c :: t) 0) with c in *.
  destruct (Z.eqb_spec c 0); [contradiction|]; simpl orb.
  destruct (Z.eqb_spec c c_dot) as [D|D].
  - subst c; simpl andb.
    destruct t as [|c1 t]; [contradiction Hnd; reflexivity|].
    inversion Ht as [|? ? Hc1 Ht1]; subst.
    change (peek (c_dot :: c1 :: t) 1) with c1.
    destruct (Z.eqb_spec c1 0); [contradiction|].
    destruct (Z.gtb_spec
                (Z.of_nat (length s + 0 + length (c_dot :: c1 :: t) + 1))
                size); [lia|].
    unfold strcpyW, with_nul.
    rewrite store_split by (rewrite !length_app; simpl length in *; lia).
    rewrite firstn_app, Nat.sub_diag, firstn_0, app_nil_r, firstn_all.
    eexists; rewrite <- !app_assoc; reflexivity.
  - simpl andb.
    destruct (Z.gtb_spec (Z.of_nat (length s + 1 + length (c :: t) + 1))
                size); [simpl length in *; lia|].
    pose proof (poke_app_r s (0 :: r) 0 c_dot) as P.
    rewrite Nat.add_0_r in P; rewrite P; simpl poke.
    unfold strcpyW, with_nul.
    replace (s ++ c_dot :: r) with ((s ++ [c_dot]) ++ r)
      by (rewrite <- app_assoc; reflexivity).
    replace (S (length s)) with (length (s ++ [c_dot]) + 0)%nat
      by (rewrite length_app; simpl; lia).
    rewrite store_app_r, store_head
      by (rewrite length_app; simpl length in *; lia).
    eexists; rewrite <- !app_assoc; simpl app; reflexivity.
Qed.

(** What PathCchRemoveExtension leaves of a string whose extension begins
    at [e]. *)
Lemma PathCchRemoveExtension_string (s r : list Z) (size : Z) (e : nat) :
  nonzero s -> 0 < size <= PATHCCH_MAX_CCH -> Z.of_nat (length s) < size ->
  extension_at s e ->
  PathCchRemoveExtension (s ++ 0 :: r) size
  = (if (length s =? e)%nat then S_FALSE else S_OK,
     firstn e s ++ repeat 0 (length s - e) ++ 0 :: r).
Proof.
  intros Hz Hs Hl X; unfold PathCchRemoveExtension.
  destruct (Z.eqb_spec size 0); [lia|].
  destruct (Z.ltb_spec PATHCCH_MAX_CCH size); [lia|]; simpl orb; cbv iota.
  destruct (proj1 (PathCchFindExtension_offset_aux s r size Hz Hs) Hl)
    as (e' & E & X').
  rewrite E, (extension_at_unique s e' e X' X).
  destruct X as (Le & _).
  rewrite skipn_app, firstn_app.
  replace (e - length s)%nat with O by lia.
  rewrite firstn_0, app_nil_r; simpl skipn.
  rewrite clear_run_string
    by (auto using nonzero_skipn; rewrite length_skipn; lia).
  rewrite length_skipn.
  replace (e + (length s - e))%nat with (length s) by lia.
  reflexivity.
Qed.

(** X5. Adding an extension and removing it again gives the path back. For
    a string without extension in a buffer with room, and an extension of
    one unit at least besides the optional leading dot, free of further
    dots, spaces and backslashes, PathCchAddExtension returns S_OK and
    stores the path followed by the dotted extension; PathCchRemoveExtension
    on that returns S_OK and leaves the original string. *)
Theorem PathCchRemoveExtension_PathCchAddExtension (s r ext : list Z)
  (size : Z) :
  nonzero s -> nonzero ext -> ext <> [] -> ext <> [c_dot] ->
  extension_units_ok ext true = true ->
  extension_at s (length s) ->
  size <= PATHCCH_MAX_CCH ->
  Z.of_nat (length s + length (dotted_extension ext)) < size ->
  (length (dotted_extension ext) <= length r)%nat ->
  exists added removed,
    PathCchAddExtension (s ++ 0 :: r) size ext = (S_OK, added)
    /\ cstr added = s ++ dotted_extension ext
    /\ PathCchRemoveExtension added size = (S_OK, removed)
    /\ cstr removed = s.
Proof.
  intros Hz He Hne Hnd Hok Hx Hm Hs Hr.
  destruct (dotted_extension_shape ext He Hne Hok) as (y & Ey & Hy & Oy).
  pose proof (nonzero_dotted_extension ext He) as Hd.
  destruct (PathCchAddExtension_string s r ext size Hz He Hne Hnd Hok Hx Hm
              Hs Hr) as (r' & A).
  assert (Ns : nonzero (s ++ dotted_extension ext))
    by (apply Forall_app; auto).
  assert (X' : extension_at (s ++ dotted_extension ext) (length s)).
  { rewrite Ey; apply extension_at_appended.
    apply extension_units_unbroken; auto. }
  pose proof (PathCchRemoveExtension_string (s ++ dotted_extension ext) r'
                size (length s) Ns ltac:(lia)
                ltac:(rewrite length_app; lia) X') as R.
  rewrite length_app in R.
  destruct (Nat.eqb_spec (length s + length (dotted_extension ext))
              (length s)) as [Q|Q]; [rewrite Ey in Q; simpl in Q; lia|].
  rewrite firstn_app, Nat.sub_diag, firstn_0, app_nil_r, firstn_all in R.
  do 2 eexists; split; [exact A|]; split; [apply cstr_app; auto|].
  split; [exact R|].
  replace (length s + length (dotted_extension ext) - length s)%nat
    with (length (dotted_extension ext)) by lia.
  rewrite Ey; simpl repeat; simpl app; apply cstr_app; auto.
Qed.

(** X6. PathCchRenameExtension replaces the extension. For a string whose
    extension begins at [e] and whose stem (the units before [e]) has no
    extension of its own, and an extension as PathCchAddExtension accepts
    it, with room in the buffer, it returns S_OK and stores the stem
    followed by the dotted extension. *)
Theorem PathCchRenameExtension_replaces (s r ext : list Z) (size : Z)
  (e : nat) :
  nonzero s -> nonzero ext -> ext <> [] -> ext <> [c_dot] ->
  extension_units_ok ext true = true ->
  extension_at s e -> extension_at (firstn e s) e ->
  size <= PATHCCH_MAX_CCH ->
  Z.of_nat (length s) < size ->
  Z.of_nat (e + length (dotted_extension ext)) < size ->
  (e + length (dotted_extension ext) <= length s + length r)%nat ->
  exists renamed,
    PathCchRenameExtension (s ++ 0 :: r) size ext = (S_OK, renamed)
    /\ cstr renamed = firstn e s ++ dotted_extension ext.
Proof.
  intros Hz He Hne Hnd Hok X Xs Hm Hl Hs Hr.
  unfold PathCchRenameExtension.
  rewrite (PathCchRemoveExtension_string s r size e Hz ltac:(lia) Hl X).
  destruct X as (Le & _).
  assert (Ls : length (firstn e s) = e) by (rewrite length_firstn; lia).
  rewrite <- Ls in Xs at 2.
  assert (B : exists r2,
             repeat 0 (length s - e) ++ 0 :: r = 0 :: r2
             /\ (length s - e + length r = length r2)%nat).
  { destruct (length s - e)%nat as [|k] eqn:K; simpl.
    - exists r; auto.
    - exists (repeat 0 k ++ 0 :: r); split; auto.
      rewrite length_app, repeat_length; simpl; lia. }
  destruct B as (r2 & B & Lr); rewrite B.
  destruct (PathCchAddExtension_string (firstn e s) r2 ext size
              (nonzero_firstn e s Hz) He Hne Hnd Hok Xs Hm
              ltac:(rewrite Ls; lia) ltac:(lia)) as (r' & A).
  rewrite A.
  assert (N : nonzero (firstn e s ++ dotted_extension ext))
    by (apply Forall_app; split;
        [apply nonzero_firstn; exact Hz
        |apply nonzero_dotted_extension; exact He]).
  destruct (length s =? e)%nat; simpl FAILED; cbv iota;
    (eexists; split; [reflexivity|]); apply cstr_app; exact N.
Qed.

(** ** Roots of PathCch *)

Lemma segment_length_terminated (t r : list Z) :
  segment_length (t ++ 0 :: r) = segment_length t.
Proof.
  induction t as [|c t IH]; simpl; auto.
  destruct ((c =? 0) || (c =? c_bslash)); auto.
Qed.

Lemma segment_length_units (t : list Z) :
  (forall j, (j < segment_length t)%nat -> peek t j <> 0)
  /\ (peek t (segment_length t) = 0
      \/ peek t (segment_length t) = c_bslash).
Proof.
  induction t as [|c t (IH1 & IH2)]; simpl.
  - split; [intros; lia|left; reflexivity].
  - destruct (Z.eqb_spec c 0) as [E|E]; simpl orb.
    + split; [intros; lia|left; exact E].
    + destruct (Z.eqb_spec c c_bslash) as [B|B].
      * split; [intros; lia|right; exact B].
      * split; [|exact IH2].
        intros [|j] Hj; [exact E|apply IH1; lia].
Qed.

Lemma get_next_segment_inside (path : list Z) (next : nat) :
  (next <= strlenW path)%nat ->
  (next <= snd (get_next_segment path next) <= strlenW path)%nat.
Proof.
  intros H; unfold get_next_segment.
  destruct (segment_length_units (skipn next path)) as (U & E).
  set (k := segment_length (skipn next path)) in *.
  assert (A : forall i, (i < next + k)%nat -> peek path i <> 0).
  { intros i Hi; destruct (lt_dec i next) as [L|L].
    - apply peek_below_strlenW; lia.
    - replace i with (next + (i - next))%nat by lia.
      rewrite <- peek_skipn; apply U; lia. }
  rewrite peek_skipn in E.
  destruct (Z.eqb_spec (peek path (next + k)) c_bslash) as [B|B]; cbn [snd].
  - split; [lia|]; apply strlenW_ge; intros i Hi.
    destruct (Nat.eq_dec i (next + k)); [subst; lia|apply A; lia].
  - split; [lia|apply strlenW_ge; exact A].
Qed.

Lemma PathCchSkipRoot_inside_aux (path : list Z) (hr : HRESULT)
  (root_end : option nat) :
  PathCchSkipRoot path = (hr, root_end) ->
  (hr = S_OK /\ exists r, root_end = Some r /\ (0 < r <= strlenW path)%nat)
  \/ (hr = E_INVALIDARG /\ root_end = None).
Proof.
  unfold PathCchSkipRoot.
  match goal with |- context [if ?b then _ else _] => destruct b end;
    [intros H; inversion H; auto|].
  destruct (get_root_end path) as [e|] eqn:R; [|intros H; inversion H; auto].
  pose proof (get_root_end_inside path e R) as I.
  pose proof (get_next_segment_inside path (S e) I) as I1.
  pose proof (get_next_segment_inside path _ (proj2 I1)) as I2.
  repeat match goal with
         | |- context [if ?b then _ else _] => destruct b
         end; intros H; inversion H; subst; left; split; auto;
    eexists; split; try reflexivity; lia.
Qed.

(** X7. The root that PathCchSkipRoot reports lies inside the string: on
    success the offset it stores is greater than 0 and at most the length
    of the path, so [*root_end] may be read; otherwise it returns
    E_INVALIDARG and stores none. *)
Theorem PathCchSkipRoot_inside (path : list Z) :
  match PathCchSkipRoot path with
  | (S_OK, Some r) => (0 < r <= strlenW path)%nat
  | (E_INVALIDARG, None) => True
  | _ => False
  end.
Proof.
  destruct (PathCchSkipRoot path) as (hr, root_end) eqn:E.
  destruct (PathCchSkipRoot_inside_aux path hr root_end E)
    as [(H & r & Hr & I)|(H & Hr)]; subst; auto.
Qed.

Lemma forallb_agree {A : Type} (f g : A -> bool) (l : list A) :
  (forall x, In x l -> f x = g x) -> forallb f l = forallb g l.
Proof.
  induction l as [|a l IH]; intros H; simpl; auto.
  rewrite (H a), IH; auto; [intros; apply H; right; auto|left; auto].
Qed.

Lemma units_length (s : list Z) (n : nat) :
  (forall i, (i < n)%nat -> peek s i <> 0) -> (n <= length s)%nat.
Proof.
  intros H; destruct (le_lt_dec n (length s)) as [L|L]; auto.
  exfalso; apply (H (length s) L), peek_overflow; lia.
Qed.

Lemma units_length_terminated (s r : list Z) (n : nat) :
  (forall i, (i < n)%nat -> peek (s ++ 0 :: r) i <> 0) ->
  (n <= length s)%nat.
Proof.
  intros H; destruct (le_lt_dec n (length s)) as [L|L]; auto.
  exfalso; apply (H (length s) L).
  rewrite peek_app_r, Nat.sub_diag by lia; reflexivity.
Qed.

Lemma is_prefixed_volume_terminated (s r : list Z) :
  is_prefixed_volume (s ++ 0 :: r) = is_prefixed_volume s.
Proof.
  destruct (le_lt_dec 48 (length s)) as [L|L].
  - unfold is_prefixed_volume; rewrite strncmpiW_terminated.
    destruct (negb (strncmpiW s prefixed_volume 10 =? 0)); auto.
    apply forallb_agree; intros i Hi; apply in_seq in Hi.
    rewrite skipn_terminated by lia.
    unfold volume_guid_unit; rewrite peek_app_l
      by (rewrite length_skipn; lia).
    reflexivity.
  - assert (A : is_prefixed_volume (s ++ 0 :: r) = false).
    { destruct (is_prefixed_volume (s ++ 0 :: r)) eqn:E; auto; exfalso.
      pose proof (units_length_terminated s r 48
                    (is_prefixed_volume_units _ E)); lia. }
    assert (B : is_prefixed_volume s = false).
    { destruct (is_prefixed_volume s) eqn:E; auto; exfalso.
      pose proof (units_length s 48 (is_prefixed_volume_units _ E)); lia. }
    rewrite A, B; reflexivity.
Qed.

Lemma is_prefixed_volume_length (s : list Z) :
  is_prefixed_volume s = true -> (48 <= length s)%nat.
Proof. intros E; apply units_length, is_prefixed_volume_units, E. Qed.

Lemma is_prefixed_unc_length (s : list Z) :
  is_prefixed_unc s = true -> (8 <= length s)%nat.
Proof. intros E; apply units_length, is_prefixed_unc_units, E. Qed.

Lemma is_prefixed_disk_length (s : list Z) :
  is_prefixed_disk s = true -> (6 <= length s)%nat.
Proof.
  intros E; destruct (is_prefixed_disk_units s E)
    as (K0 & K1 & K2 & K3 & K4 & K5).
  destruct (le_lt_dec 6 (length s)) as [L|L]; auto.
  rewrite (peek_overflow s 5) in K5 by lia; discriminate.
Qed.

Lemma get_root_end_terminated (s r : list Z) :
  nonzero s -> get_root_end (s ++ 0 :: r) = get_root_end s.
Proof.
  intros Hz; unfold get_root_end.
  rewrite is_prefixed_volume_terminated, is_prefixed_unc_terminated,
    is_prefixed_disk_terminated by auto.
  destruct (is_prefixed_volume s) eqn:V.
  { apply is_prefixed_volume_length in V.
    rewrite peek_terminated by lia; reflexivity. }
  destruct (is_prefixed_unc s) eqn:U; auto.
  destruct (is_prefixed_disk s) eqn:D.
  { apply is_prefixed_disk_length in D.
    rewrite peek_terminated by lia; reflexivity. }
  destruct s as [|c0 [|c1 s]]; try reflexivity.
  - change (peek ([c0] ++ 0 :: r) 0) with c0.
    change (peek ([c0] ++ 0 :: r) 1) with 0.
    change (peek [c0] 0) with c0; change (peek [c0] 1) with 0.
    simpl Z.eqb; rewrite !andb_false_r; reflexivity.
  - rewrite !peek_terminated by (simpl; lia); reflexivity.
Qed.

Lemma segment_length_le (t : list Z) : (segment_length t <= length t)%nat.
Proof.
  induction t as [|c t IH]; simpl; auto.
  destruct ((c =? 0) || (c =? c_bslash)); lia.
Qed.

Lemma get_next_segment_terminated (s r : list Z) (next : nat) :
  (next <= length s)%nat ->
  get_next_segment (s ++ 0 :: r) next = get_next_segment s next.
Proof.
  intros H; unfold get_next_segment.
  rewrite skipn_terminated, segment_length_terminated by lia.
  pose proof (segment_length_le (skipn next s)) as L.
  rewrite length_skipn in L.
  rewrite peek_terminated by lia; reflexivity.
Qed.

Lemma get_next_segment_within (s : list Z) (next : nat) :
  nonzero s -> (next <= length s)%nat ->
  (next <= snd (get_next_segment s next) <= length s)%nat.
Proof.
  intros Hz H; rewrite <- (strlenW_nonzero s Hz) in *.
  apply get_next_segment_inside; exact H.
Qed.

Lemma unc_test_terminated (s r : list Z) :
  (peek (s ++ 0 :: r) 0 =? c_bslash) && (peek (s ++ 0 :: r) 1 =? c_bslash)
  && negb (peek (s ++ 0 :: r) 2 =? c_qmark)
  = (peek s 0 =? c_bslash) && (peek s 1 =? c_bslash)
    && negb (peek s 2 =? c_qmark).
Proof.
  destruct s as [|c0 [|c1 s]]; try reflexivity.
  - change (peek ([c0] ++ 0 :: r) 0) with c0.
    change (peek ([c0] ++ 0 :: r) 1) with 0.
    change (peek [c0] 0) with c0; change (peek [c0] 1) with 0.
    simpl Z.eqb; rewrite !andb_false_r; reflexivity.
  - rewrite !peek_terminated by (simpl; lia); reflexivity.
Qed.

Lemma PathCchSkipRoot_terminated (s r : list Z) :
  nonzero s -> PathCchSkipRoot (s ++ 0 :: r) = PathCchSkipRoot s.
Proof.
  intros Hz; unfold PathCchSkipRoot.
  rewrite get_root_end_terminated, is_prefixed_volume_terminated,
    is_prefixed_unc_terminated, is_prefixed_disk_terminated,
    unc_test_terminated by auto.
  assert (Q : strncmpiW unc_prefix (s ++ 0 :: r) 3 = strncmpiW unc_prefix s 3).
  { destruct s as [|c0 [|c1 [|c2 s]]]; reflexivity. }
  rewrite Q, (peek_terminated s r 0) by lia.
  match goal with |- context [if ?b then _ else _] => destruct b end; auto.
  destruct (get_root_end s) as [e|] eqn:R; auto.
  pose proof (get_root_end_inside s e R) as I.
  rewrite (strlenW_nonzero s Hz) in I.
  pose proof (get_next_segment_within s (S e) Hz I) as I1.
  rewrite (get_next_segment_terminated s r (S e)) by lia.
  rewrite !get_next_segment_terminated by lia.
  rewrite peek_terminated by lia; reflexivity.
Qed.

(** X8. PathCchSkipRoot reads nothing beyond the terminator of the path:
    two buffers that hold the same string give the same result, whatever
    follows the terminator in either. *)
Theorem PathCchSkipRoot_reads_string_only (s r r' : list Z) :
  nonzero s ->
  PathCchSkipRoot (s ++ 0 :: r) = PathCchSkipRoot (s ++ 0 :: r').
Proof.
  intros Hz; rewrite !PathCchSkipRoot_terminated by exact Hz; reflexivity.
Qed.

(** ** Trailing backslashes *)

Lemma Z_geb_lt (a b : Z) : a < b -> (a >=? b) = false.
Proof. intros; rewrite Z.geb_leb; apply Z.leb_gt; lia. Qed.

Lemma Z_geb_ge (a b : Z) : b <= a -> (a >=? b) = true.
Proof. intros; rewrite Z.geb_leb; apply Z.leb_le; lia. Qed.

(** PathCchAddBackslashEx on a string that is empty or ends with a
    backslash. *)
Lemma PathCchAddBackslashEx_present (s r : list Z) (size : Z) :
  nonzero s -> Z.of_nat (length s) < size ->
  (length s =? 0)%nat || (peek s (length s - 1) =? c_bslash) = true ->
  PathCchAddBackslashEx (s ++ 0 :: r) size = (S_FALSE, s ++ 0 :: r).
Proof.
  intros Hz Hl E; unfold PathCchAddBackslashEx.
  unfold strlenW; rewrite cstr_app by auto.
  rewrite peek_terminated by lia.
  destruct (Z.eqb_spec size 0); [lia|]; simpl negb; simpl andb.
  destruct (Nat.eqb_spec (length s) 0) as [L|L]; simpl negb; simpl andb;
    cbv iota.
  - rewrite Z_geb_lt by lia; reflexivity.
  - simpl orb in E; rewrite E; simpl negb; cbv iota.
    rewrite Z_geb_lt by lia; reflexivity.
Qed.

(** PathCchAddBackslashEx on a string that lacks the backslash. *)
Lemma PathCchAddBackslashEx_added (s r : list Z) (size : Z) :
  nonzero s -> r <> [] -> Z.of_nat (length s) + 1 < size ->
  (length s =? 0)%nat || (peek s (length s - 1) =? c_bslash) = false ->
  PathCchAddBackslashEx (s ++ 0 :: r) size
  = (S_OK, (s ++ [c_bslash]) ++ 0 :: tl r).
Proof.
  intros Hz Hr Hl E; unfold PathCchAddBackslashEx.
  unfold strlenW; rewrite cstr_app by auto.
  rewrite peek_terminated by lia.
  apply orb_false_elim in E; destruct E as [E1 E2]; rewrite E1, E2.
  destruct (Z.eqb_spec size 0); [lia|]; simpl negb; simpl andb; cbv iota.
  rewrite Z_geb_lt by lia.
  pose proof (poke_app_r s (0 :: r) 0 c_bslash) as P1.
  rewrite Nat.add_0_r in P1; rewrite P1; simpl poke.
  pose proof (poke_app_r s (c_bslash :: r) 1 0) as P2.
  rewrite Nat.add_1_r in P2; rewrite P2; simpl poke.
  destruct r as [|r0 r]; [contradiction|].
  simpl; rewrite <- app_assoc; reflexivity.
Qed.

Lemma peek_last_appended (s : list Z) (c : Z) :
  peek (s ++ [c]) (length (s ++ [c]) - 1) = c.
Proof.
  rewrite length_app; simpl length.
  rewrite peek_app_r by lia.
  replace (length s + 1 - 1 - length s)%nat with O by lia; reflexivity.
Qed.

(** X9. PathCchAddBackslashEx is idempotent. For a string with room for
    one more unit in a buffer of [size] units it succeeds and leaves the
    string with a backslash at its end, added unless the string is empty or
    has one; called again on the result it returns S_FALSE and changes
    nothing. *)
Theorem PathCchAddBackslashEx_idempotent (s r : list Z) (size : Z) :
  nonzero s -> r <> [] -> Z.of_nat (length s) + 1 < size ->
  exists hr path,
    PathCchAddBackslashEx (s ++ 0 :: r) size = (hr, path)
    /\ FAILED hr = false
    /\ cstr path = with_trailing_backslash s
    /\ PathCchAddBackslashEx path size = (S_FALSE, path).
Proof.
  intros Hz Hr Hl; unfold with_trailing_backslash.
  destruct ((length s =? 0)%nat || (peek s (length s - 1) =? c_bslash))
    eqn:E.
  - pose proof (PathCchAddBackslashEx_present s r size Hz ltac:(lia) E) as A.
    exists S_FALSE, (s ++ 0 :: r); repeat split; auto.
    apply cstr_app; exact Hz.
  - assert (N : nonzero (s ++ [c_bslash]))
      by (apply Forall_app; split; auto; repeat constructor; discriminate).
    exists S_OK, ((s ++ [c_bslash]) ++ 0 :: tl r); split;
      [apply PathCchAddBackslashEx_added; auto|].
    split; [reflexivity|]; split; [apply cstr_app; exact N|].
    apply PathCchAddBackslashEx_present; auto.
    + rewrite length_app; simpl length; lia.
    + rewrite peek_last_appended, Z.eqb_refl; apply orb_true_r.
Qed.

(** X10. PathCchRemoveBackslashEx undoes PathCchAddBackslashEx. When a
    non-empty string without a backslash at its end is given one, and the
    new backslash lies beyond the end of the root, removing it returns S_OK,
    gives the string back and reports its end and the units left free;
    when the new backslash completes the root, as for "C:", it stays and
    the result is S_FALSE. *)
Theorem PathCchRemoveBackslashEx_PathCchAddBackslashEx (s r : list Z)
  (size : Z) :
  nonzero s -> s <> [] -> peek s (length s - 1) <> c_bslash -> r <> [] ->
  Z.of_nat (length s) + 1 < size ->
  exists added,
    PathCchAddBackslashEx (s ++ 0 :: r) size = (S_OK, added)
    /\ cstr added = s ++ [c_bslash]
    /\ (if match get_root_end (s ++ [c_bslash]) with
           | None => true
           | Some e => (e <? length s)%nat
           end
        then exists removed,
            PathCchRemoveBackslashEx added size
            = (S_OK, removed,
               Some (Some (length s), size - Z.of_nat (length s)))
            /\ cstr removed = s
        else PathCchRemoveBackslashEx added size
             = (S_FALSE, added,
                Some (Some (length s), size - Z.of_nat (length s)))).
Proof.
  intros Hz Hne Hb Hr Hl.
  assert (N : nonzero (s ++ [c_bslash]))
    by (apply Forall_app; split; auto; repeat constructor; discriminate).
  assert (L : length (s ++ [c_bslash]) = S (length s))
    by (rewrite length_app; simpl; lia).
  assert (E : (length s =? 0)%nat || (peek s (length s - 1) =? c_bslash)
              = false).
  { apply orb_false_intro; [apply Nat.eqb_neq|apply Z.eqb_neq; exact Hb].
    destruct s; [contradiction|discriminate]. }
  exists ((s ++ [c_bslash]) ++ 0 :: tl r); split;
    [apply PathCchAddBackslashEx_added; auto|].
  split; [apply cstr_app; exact N|].
  unfold PathCchRemoveBackslashEx.
  destruct (Z.eqb_spec size 0); [lia|].
  rewrite strnlenW_terminated by (auto; lia).
  rewrite L.
  destruct (Z.eqb_spec (Z.of_nat (S (length s))) size); [lia|]; simpl andb;
    cbv iota.
  rewrite get_root_end_terminated by exact N.
  replace (S (length s) - 1)%nat with (length s) by lia.
  rewrite ?Nat.sub_0_r.
  rewrite (peek_terminated (s ++ [c_bslash])) by lia.
  rewrite peek_app_r, Nat.sub_diag by lia.
  change (peek [c_bslash] 0) with c_bslash; simpl Z.eqb; simpl andb;
    cbv iota.
  replace (size - Z.of_nat (S (length s)) + 1)
    with (size - Z.of_nat (length s)) by lia.
  match goal with |- context [if ?b then _ else _] => destruct b end;
    [|reflexivity].
  eexists; split; [reflexivity|].
  rewrite <- app_assoc; simpl app.
  pose proof (poke_app_r s (c_bslash :: 0 :: tl r) 0 0) as P.
  rewrite Nat.add_0_r in P; rewrite P; simpl poke.
  apply cstr_app; exact Hz.
Qed.

(** ** Removing the file specification *)

Lemma cleared_from_all (s r : list Z) :
  cleared_from s r (length s) = s ++ 0 :: r.
Proof.
  unfold cleared_from; rewrite firstn_all, Nat.sub_diag; reflexivity.
Qed.

Lemma cstr_cleared_from (s r : list Z) (n : nat) :
  nonzero s -> cstr (cleared_from s r n) = firstn n s.
Proof.
  intros Hz; unfold cleared_from.
  destruct (length s - n)%nat; simpl; apply cstr_app, nonzero_firstn, Hz.
Qed.

Lemma peek_cleared_from (s r : list Z) (n i : nat) :
  (i < n <= length s)%nat -> peek (cleared_from s r n) i = peek s i.
Proof.
  intros H; unfold cleared_from.
  rewrite peek_app_l by (rewrite length_firstn; lia).
  apply peek_firstn; lia.
Qed.

Lemma poke_cleared_from (s r : list Z) (m : nat) :
  (m < length s)%nat ->
  poke (cleared_from s r (S m)) m 0 = cleared_from s r m.
Proof.
  intros H; unfold cleared_from.
  rewrite <- (firstn_skipn m (firstn (S m) s)).
  rewrite firstn_firstn, Nat.min_l by lia.
  rewrite <- app_assoc.
  pose proof (poke_app_r (firstn m s)
                (skipn m (firstn (S m) s)
                 ++ repeat 0 (length s - S m) ++ 0 :: r) 0 0) as P.
  rewrite length_firstn, Nat.min_l, Nat.add_0_r in P by lia.
  rewrite P; f_equal.
  replace (length s - m)%nat with (S (length s - S m)) by lia.
  rewrite (skipn_peek (firstn (S m) s) m) by (rewrite length_firstn; lia).
  rewrite skipn_all2 by (rewrite length_firstn; lia); reflexivity.
Qed.

Lemma remove_file_spec_run (s r : list Z) (size : Z) (root_end : option nat)
  (n : nat) :
  Z.of_nat (length s) <= size -> (n <= length s)%nat ->
  exists k,
    remove_file_spec (cleared_from s r n) n root_end size
    = (true, cleared_from s r k, k)
    /\ (k <= n)%nat
    /\ (forall i, (k < i < n)%nat -> peek s i <> c_bslash)
    /\ match root_end with
       | Some f =>
           ((n <= f)%nat -> k = n)
           /\ ((f < n)%nat ->
               (f <= k)%nat /\ ((f < k)%nat -> peek s k = c_bslash))
       | None => (0 < k)%nat -> peek s k = c_bslash
       end.
Proof.
  intros Hs; induction n as [|last IH]; intros Hn.
  - exists O; simpl; split; [reflexivity|]; split; [lia|].
    split; [intros; lia|].
    destruct root_end; [split; intros; lia|intros; lia].
  - cbn [remove_file_spec].
    assert (G : (if match root_end with
                    | Some f => (f <=? last)%nat
                    | None => true
                    end
                 then True
                 else exists f, root_end = Some f /\ (S last <= f)%nat)).
    { destruct root_end as [f|]; auto.
      destruct (Nat.leb_spec f last); auto; exists f; split; auto; lia. }
    destruct (match root_end with
              | Some f => (f <=? last)%nat
              | None => true
              end) eqn:C.
    + rewrite Z_geb_lt by lia.
      rewrite peek_cleared_from by lia.
      rewrite poke_cleared_from by lia.
      destruct (Z.eqb_spec (peek s last) c_bslash) as [B|B].
      * exists last; split; [reflexivity|]; split; [lia|].
        split; [intros; lia|].
        destruct root_end as [f|]; [|intros; exact B].
        apply Nat.leb_le in C; split; [intros; lia|].
        intros _; split; [lia|intros; exact B].
      * destruct (IH ltac:(lia)) as (k & E & K1 & K2 & K3).
        exists k; split; [exact E|]; split; [lia|]; split.
        { intros i Hi; destruct (Nat.eq_dec i last); [subst; exact B|].
          apply K2; lia. }
        destruct root_end as [f|]; [|exact K3].
        apply Nat.leb_le in C; destruct K3 as (K3 & K4).
        split; [intros; lia|]; intros _.
        destruct (Nat.eq_dec f last) as [Q|Q].
        { subst f; rewrite (K3 ltac:(lia)); split; [lia|intros; lia]. }
        apply K4; lia.
    + destruct G as (f & Ef & Hf); subst root_end.
      exists (S last); split; [reflexivity|]; split; [lia|].
      split; [intros; lia|]; split; [auto|intros; lia].
Qed.

Lemma strlenW_terminated (s r : list Z) :
  nonzero s -> strlenW (s ++ 0 :: r) = length s.
Proof. intros Hz; unfold strlenW; rewrite cstr_app; auto. Qed.

Lemma file_spec_root_end_inside (path : list Z) (f : nat) :
  file_spec_root_end path = Some f -> (f <= strlenW path)%nat.
Proof.
  unfold file_spec_root_end.
  destruct (PathCchSkipRoot path) as (hr, root_end) eqn:E; cbn [snd].
  destruct (PathCchSkipRoot_inside_aux path hr root_end E)
    as [(H & r & Hr & I)|(H & Hr)]; subst; [|discriminate].
  match goal with |- context [if ?b then _ else _] => destruct b end;
    intros Q; inversion Q; lia.
Qed.

(** X11. PathCchRemoveFileSpec cuts a path at its last backslash, but not
    below the end of its root. For a path that is not a root, held with its
    terminator in [size] units, the string left is the first [k] units of
    the path, where no backslash follows offset [k], [k] is not below the
    root end (for a UNC path the root end stepped back over its closing
    backslash), and above it [k] is the offset of a backslash; the result
    is S_FALSE when nothing was removed and S_OK otherwise. *)
Theorem PathCchRemoveFileSpec_cuts_at_last_backslash (s r : list Z)
  (size : Z) :
  nonzero s -> 0 < size <= PATHCCH_MAX_CCH -> Z.of_nat (length s) <= size ->
  PathCchIsRoot (s ++ 0 :: r) = false ->
  exists k path,
    PathCchRemoveFileSpec (s ++ 0 :: r) size
    = (if (k =? length s)%nat then S_FALSE else S_OK, path)
    /\ cstr path = firstn k s
    /\ (k <= length s)%nat
    /\ (forall i, (k < i < length s)%nat -> peek s i <> c_bslash)
    /\ match file_spec_root_end (s ++ 0 :: r) with
       | Some f => (f <= k)%nat /\ ((f < k)%nat -> peek s k = c_bslash)
       | None => (0 < k)%nat -> peek s k = c_bslash
       end.
Proof.
  intros Hz Hs Hl Hroot; unfold PathCchRemoveFileSpec.
  destruct (Z.eqb_spec size 0); [lia|].
  destruct (Z.ltb_spec PATHCCH_MAX_CCH size); [lia|]; simpl orb; cbv iota.
  rewrite Hroot, strlenW_terminated by exact Hz.
  pose proof (file_spec_root_end_inside (s ++ 0 :: r)) as F.
  rewrite strlenW_terminated in F by exact Hz.
  destruct (remove_file_spec_run s r size (file_spec_root_end (s ++ 0 :: r))
              (length s) Hl (le_n _)) as (k & E & K1 & K2 & K3).
  rewrite cleared_from_all in E; rewrite E.
  exists k, (cleared_from s r k); split.
  { destruct (k =? length s)%nat; reflexivity. }
  split; [apply cstr_cleared_from; exact Hz|].
  split; [exact K1|]; split; [exact K2|].
  destruct (file_spec_root_end (s ++ 0 :: r)) as [f|]; [|exact K3].
  specialize (F f eq_refl); destruct K3 as (K3 & K4).
  destruct (le_lt_dec (length s) f) as [Q|Q].
  - rewrite (K3 Q); split; [lia|intros; lia].
  - apply K4; exact Q.
Qed.

(** ** Stripping to the root *)

Lemma peek_poke_zero_at (p : list Z) (k : nat) : peek (poke p k 0) k = 0.
Proof.
  destruct (le_lt_dec (length p) k) as [L|L].
  - apply peek_overflow; rewrite length_poke; exact L.
  - apply peek_poke_eq; exact L.
Qed.

Lemma strncmpW_ext (n : nat) (a b p : list Z) :
  (forall i, (i < n)%nat -> peek a i = peek b i) ->
  strncmpW a p n = strncmpW b p n.
Proof.
  revert a b p; induction n as [|n IH]; intros a b p H; simpl; auto.
  rewrite (H O) by lia; destruct n; auto.
  match goal with |- context [if ?c then _ else _] => destruct c end; auto.
  apply IH; intros i Hi; rewrite !peek_tl; apply H; lia.
Qed.

Lemma strncmpiW_ext_r (n : nat) (p a b : list Z) :
  (forall i, (i < n)%nat -> peek a i = peek b i) ->
  strncmpiW p a n = strncmpiW p b n.
Proof.
  revert a b p; induction n as [|n IH]; intros a b p H; simpl; auto.
  rewrite (H O) by lia.
  match goal with |- context [if ?c then _ else _] => destruct c end; auto.
  apply IH; intros i Hi; rewrite !peek_tl; apply H; lia.
Qed.

Lemma strncmpiW_0_nonzero_r (n : nat) (p s : list Z) :
  strncmpiW p s n = 0 ->
  (forall i, (i < n)%nat -> tolowerW (peek p i) <> 0) ->
  forall i, (i < n)%nat -> peek s i <> 0.
Proof.
  revert s p; induction n as [|n IH]; intros s p E Hp i Hi; [lia|].
  simpl in E.
  destruct (Z.eqb_spec (tolowerW (peek p 0) - tolowerW (peek s 0)) 0)
    as [D|D]; simpl in E; [|contradiction].
  pose proof (Hp O ltac:(lia)) as Hp0.
  destruct (Z.eqb_spec (peek p 0) 0) as [Z0|Z0];
    [rewrite Z0, tolowerW_0 in Hp0; contradiction|].
  destruct i as [|i].
  - intros Q; rewrite Q, tolowerW_0 in D; lia.
  - rewrite <- peek_tl; apply (IH (tl s) (tl p)); auto; try lia.
    intros j Hj; rewrite peek_tl; apply Hp; lia.
Qed.

Lemma is_prefixed_unc_ext (a b : list Z) :
  (forall i, (i < 8)%nat -> peek a i = peek b i) ->
  is_prefixed_unc a = is_prefixed_unc b.
Proof.
  intros H; unfold is_prefixed_unc; rewrite (strncmpiW_ext 8 a b); auto.
Qed.

Lemma is_prefixed_disk_ext (a b : list Z) :
  (forall i, (i < 6)%nat -> peek a i = peek b i) ->
  is_prefixed_disk a = is_prefixed_disk b.
Proof.
  intros H; unfold is_prefixed_disk.
  rewrite (strncmpW_ext 4 a b), (H 4%nat), (H 5%nat) by (auto; lia).
  reflexivity.
Qed.

Lemma is_prefixed_volume_ext (a b : list Z) :
  (forall i, (i < 48)%nat -> peek a i = peek b i) ->
  is_prefixed_volume a = is_prefixed_volume b.
Proof.
  intros H; unfold is_prefixed_volume.
  rewrite (strncmpiW_ext 10 a b) by (intros; apply H; lia).
  destruct (negb (strncmpiW b prefixed_volume 10 =? 0)); auto.
  apply forallb_agree; intros i Hi; apply in_seq in Hi.
  unfold volume_guid_unit; rewrite !peek_skipn, H by lia; reflexivity.
Qed.

Lemma poke_agree (p : list Z) (k n : nat) (v : Z) :
  (n <= k)%nat -> forall i, (i < n)%nat -> peek (poke p k v) i = peek p i.
Proof. intros H i Hi; apply peek_poke_ne; lia. Qed.

Lemma is_prefixed_unc_cut (p : list Z) (k : nat) :
  (k < 8)%nat -> is_prefixed_unc (poke p k 0) = false.
Proof.
  intros H; destruct (is_prefixed_unc (poke p k 0)) eqn:E; auto; exfalso.
  apply (is_prefixed_unc_units _ E k H), peek_poke_zero_at.
Qed.

Lemma is_prefixed_volume_cut (p : list Z) (k : nat) :
  (k < 48)%nat -> is_prefixed_volume (poke p k 0) = false.
Proof.
  intros H; destruct (is_prefixed_volume (poke p k 0)) eqn:E; auto; exfalso.
  apply (is_prefixed_volume_units _ E k H), peek_poke_zero_at.
Qed.

Lemma is_prefixed_disk_cut (p : list Z) (k : nat) :
  (k < 6)%nat -> is_prefixed_disk (poke p k 0) = false.
Proof.
  intros H; destruct (is_prefixed_disk (poke p k 0)) eqn:E; auto; exfalso.
  destruct (is_prefixed_disk_units _ E) as (K0 & K1 & K2 & K3 & K4 & K5).
  apply isalphaW_nonzero in K4.
  pose proof (peek_poke_zero_at p k) as Q.
  destruct k as [|[|[|[|[|[|k]]]]]]; try lia; rewrite Q in *;
    try discriminate; contradiction.
Qed.

(** The tests of the root classifier on a path cut right after its root. *)
Lemma root_tests_cut (p : list Z) (e : nat) :
  get_root_end p = Some e ->
  is_prefixed_volume (poke p (S e) 0) = is_prefixed_volume p
  /\ is_prefixed_unc (poke p (S e) 0) = is_prefixed_unc p
  /\ is_prefixed_disk (poke p (S e) 0) = is_prefixed_disk p.
Proof.
  unfold get_root_end; intros H.
  destruct (is_prefixed_volume p) eqn:V.
  { assert (L : (47 <= e)%nat)
      by (destruct (peek p 48 =? c_bslash); inversion H; lia).
    rewrite <- V.
    split; [apply is_prefixed_volume_ext, poke_agree; lia|].
    split; [apply is_prefixed_unc_ext, poke_agree; lia
           |apply is_prefixed_disk_ext, poke_agree; lia]. }
  destruct (is_prefixed_unc p) eqn:U.
  { inversion H; subst e; rewrite <- V, <- U.
    split; [rewrite V; apply is_prefixed_volume_cut; lia|].
    split; [apply is_prefixed_unc_ext, poke_agree; lia
           |apply is_prefixed_disk_ext, poke_agree; lia]. }
  destruct (is_prefixed_disk p) eqn:D.
  { assert (L : (5 <= e < 7)%nat)
      by (destruct (peek p 6 =? c_bslash); inversion H; lia).
    split; [apply is_prefixed_volume_cut; lia|].
    split; [apply is_prefixed_unc_cut; lia|].
    rewrite <- D; apply is_prefixed_disk_ext, poke_agree; lia. }
  assert (L : (e < 3)%nat).
  { destruct ((peek p 0 =? c_bslash) && (peek p 1 =? c_bslash));
      [inversion H; lia|].
    destruct (peek p 0 =? c_bslash); [inversion H; lia|].
    destruct (isalphaW (peek p 0) && (peek p 1 =? c_colon));
      [|discriminate].
    destruct (peek p 2 =? c_bslash); inversion H; lia. }
  split; [apply is_prefixed_volume_cut; lia|].
  split; [apply is_prefixed_unc_cut; lia|apply is_prefixed_disk_cut; lia].
Qed.

Lemma get_root_end_cut (p : list Z) (e : nat) :
  get_root_end p = Some e -> get_root_end (poke p (S e) 0) = Some e.
Proof.
  intros H; destruct (root_tests_cut p e H) as (V & U & D).
  revert H; unfold get_root_end; rewrite V, U, D.
  destruct (is_prefixed_volume p).
  { destruct (Z.eqb_spec (peek p 48) c_bslash) as [B|B]; intros H;
      inversion H; subst e.
    - rewrite peek_poke_ne, B by lia; reflexivity.
    - rewrite peek_poke_zero_at; reflexivity. }
  destruct (is_prefixed_unc p); auto.
  destruct (is_prefixed_disk p).
  { destruct (Z.eqb_spec (peek p 6) c_bslash) as [B|B]; intros H;
      inversion H; subst e.
    - rewrite peek_poke_ne, B by lia; reflexivity.
    - rewrite peek_poke_zero_at; reflexivity. }
  rewrite (peek_poke_ne p (S e) 0) by lia.
  destruct (Z.eqb_spec (peek p 0) c_bslash) as [B0|B0]; simpl andb.
  - destruct (Z.eqb_spec (peek p 1) c_bslash) as [B1|B1]; intros H;
      inversion H; subst e.
    + rewrite peek_poke_ne, B1 by lia; reflexivity.
    + rewrite peek_poke_zero_at; reflexivity.
  - destruct (isalphaW (peek p 0)); simpl andb; [|discriminate].
    destruct (Z.eqb_spec (peek p 1) c_colon) as [C|C]; [|discriminate].
    destruct (Z.eqb_spec (peek p 2) c_bslash) as [B|B]; intros H;
      inversion H; subst e.
    + rewrite !peek_poke_ne by lia.
      rewrite C, B; reflexivity.
    + rewrite peek_poke_ne, C, peek_poke_zero_at by lia; reflexivity.
Qed.

Lemma segment_length_body (t : list Z) (j : nat) :
  (j < segment_length t)%nat -> peek t j <> 0 /\ peek t j <> c_bslash.
Proof.
  revert j; induction t as [|c t IH]; simpl; intros j Hj; [lia|].
  destruct (Z.eqb_spec c 0) as [E|E]; simpl in Hj; [lia|].
  destruct (Z.eqb_spec c c_bslash) as [B|B]; simpl in Hj; [lia|].
  destruct j as [|j]; [split; assumption|apply IH; lia].
Qed.

Lemma segment_length_unique (t : list Z) (k : nat) :
  (forall j, (j < k)%nat -> peek t j <> 0 /\ peek t j <> c_bslash) ->
  peek t k = 0 \/ peek t k = c_bslash ->
  segment_length t = k.
Proof.
  revert k; induction t as [|c t IH]; intros k Hb He; simpl.
  - destruct k; auto; exfalso; apply (proj1 (Hb O ltac:(lia))); reflexivity.
  - destruct (Z.eqb_spec c 0) as [E|E]; simpl orb.
    { destruct k; auto; exfalso; apply (proj1 (Hb O ltac:(lia))); exact E. }
    destruct (Z.eqb_spec c c_bslash) as [B|B].
    { destruct k; auto; exfalso; apply (proj2 (Hb O ltac:(lia))); exact B. }
    destruct k as [|k]; [exfalso; destruct He; contradiction|].
    f_equal; apply IH; [|exact He].
    intros j Hj; apply (Hb (S j)); lia.
Qed.

(** What get_next_segment found, in terms of the units of the path. *)
Lemma get_next_segment_found (p : list Z) (n : nat) (ended : bool)
  (m : nat) :
  get_next_segment p n = (ended, m) ->
  exists k,
    (forall j, (j < k)%nat ->
       peek p (n + j) <> 0 /\ peek p (n + j) <> c_bslash)
    /\ (if ended then peek p (n + k) = c_bslash /\ m = S (n + k)
        else peek p (n + k) = 0 /\ m = (n + k)%nat).
Proof.
  unfold get_next_segment; intros H.
  exists (segment_length (skipn n p)); split.
  - intros j Hj; rewrite <- peek_skipn; apply segment_length_body; exact Hj.
  - destruct (segment_length_units (skipn n p)) as (_ & E).
    rewrite peek_skipn in E.
    destruct (Z.eqb_spec (peek p (n + segment_length (skipn n p))) c_bslash)
      as [B|B]; inversion H; subst; split; auto.
    destruct E; [assumption|contradiction].
Qed.

Lemma get_next_segment_ended (p : list Z) (n k : nat) :
  (forall j, (j < k)%nat ->
     peek p (n + j) <> 0 /\ peek p (n + j) <> c_bslash) ->
  peek p (n + k) = c_bslash ->
  get_next_segment p n = (true, S (n + k)).
Proof.
  intros Hb He; unfold get_next_segment.
  rewrite (segment_length_unique (skipn n p) k), He;
    try reflexivity; [intros j Hj|right]; rewrite peek_skipn; auto.
Qed.

Lemma get_next_segment_open (p : list Z) (n k : nat) :
  (forall j, (j < k)%nat ->
     peek p (n + j) <> 0 /\ peek p (n + j) <> c_bslash) ->
  peek p (n + k) = 0 ->
  get_next_segment p n = (false, (n + k)%nat).
Proof.
  intros Hb He; unfold get_next_segment.
  rewrite (segment_length_unique (skipn n p) k), He;
    try reflexivity; [intros j Hj|left]; rewrite peek_skipn; auto.
Qed.

Lemma strncmpiW_unc_prefix (p : list Z) :
  peek p 0 = c_bslash -> peek p 1 = c_bslash -> peek p 2 = c_qmark ->
  strncmpiW unc_prefix p 3 = 0.
Proof.
  intros H0 H1 H2.
  rewrite (strncmpiW_ext_r 3 unc_prefix p unc_prefix); [reflexivity|].
  intros [|[|[|i]]] Hi; try lia; assumption.
Qed.

(** X12. PathCchStripToRoot is idempotent: when it has cut a path down to
    its root and returned S_OK, a second call on the result finds nothing
    more to strip, returns S_FALSE and leaves the buffer as it is. *)
Theorem PathCchStripToRoot_idempotent (path : list Z) (size : Z)
  (root : list Z) :
  PathCchStripToRoot path size = (S_OK, root) ->
  PathCchStripToRoot root size = (S_FALSE, root).
Proof.
  unfold PathCchStripToRoot.
  destruct ((peek path 0 =? 0) || (size =? 0) || (PATHCCH_MAX_CCH <? size))
    eqn:G; [discriminate|].
  destruct (is_prefixed_unc path
            || ((peek path 0 =? c_bslash) && (peek path 1 =? c_bslash)
                && negb (peek path 2 =? c_qmark))) eqn:T.
  - set (n := if is_prefixed_unc path then 8%nat else 3%nat).
    assert (Hn : (3 <= n)%nat) by (unfold n; destruct is_prefixed_unc; lia).
    destruct (get_next_segment path n) as (ended1, r1) eqn:G1.
    destruct ended1; cbn [negb]; cbv iota; [|discriminate].
    destruct (get_next_segment path r1) as (ended2, r2) eqn:G2.
    destruct ended2; cbn [negb]; cbv iota; [|discriminate].
    destruct (Z.of_nat r2 >=? size); [discriminate|].
    intros H; inversion H; subst root; clear H.
    destruct (get_next_segment_found _ _ _ _ G1) as (k1 & B1 & E1 & Q1).
    destruct (get_next_segment_found _ _ _ _ G2) as (k2 & B2 & E2 & Q2).
    subst r2; replace (S (r1 + k2) - 1)%nat with (r1 + k2)%nat by lia.
    set (p := poke path (r1 + k2) 0).
    assert (A : forall i, (i < r1 + k2)%nat -> peek p i = peek path i)
      by (intros; apply peek_poke_ne; lia).
    assert (U : is_prefixed_unc p = is_prefixed_unc path).
    { destruct (is_prefixed_unc path) eqn:Eu.
      - rewrite <- Eu; apply is_prefixed_unc_ext; intros i Hi; apply A.
        unfold n in *; lia.
      - destruct (le_lt_dec 8 (r1 + k2)) as [L|L].
        + rewrite <- Eu; apply is_prefixed_unc_ext; intros i Hi; apply A.
          lia.
        + apply is_prefixed_unc_cut; exact L. }
    rewrite U, !A by lia.
    rewrite G, T; fold n.
    rewrite (get_next_segment_ended p n k1)
      by (try (intros j Hj); rewrite A by lia; auto).
    cbn [negb]; cbv iota; rewrite <- Q1.
    rewrite (get_next_segment_open p r1 k2)
      by (try (intros j Hj; rewrite A by lia; auto);
          apply peek_poke_zero_at).
    reflexivity.
  - destruct (PathCchSkipRoot path) as (hr, root_end) eqn:Sk.
    destruct hr; try discriminate.
    destruct root_end as [r|]; [|discriminate].
    destruct (Z.of_nat r >=? size) eqn:Hs; [discriminate|].
    destruct (Z.eqb_spec (peek path r) 0) as [Z0|Z0]; [discriminate|].
    intros H; inversion H; subst root; clear H.
    apply orb_false_elim in T; destruct T as [Tu Tb].
    assert (R : exists e, get_root_end path = Some e /\ r = S e
                          /\ (peek path 0 =? c_bslash)
                             && (peek (poke path (S e) 0) 1 =? c_bslash)
                             && negb (peek (poke path (S e) 0) 2 =? c_qmark)
                             = false
                          /\ PathCchSkipRoot (poke path (S e) 0)
                             = (S_OK, Some (S e))).
    { revert Sk; unfold PathCchSkipRoot.
      destruct (Z.eqb_spec (peek path 0) 0) as [P0|P0]; cbn [orb];
        [discriminate|].
      destruct ((strncmpiW unc_prefix path 3 =? 0)
                && negb (is_prefixed_volume path)
                && negb (is_prefixed_unc path)
                && negb (is_prefixed_disk path)) eqn:Gd; [discriminate|].
      destruct (get_root_end path) as [e|] eqn:R; [|discriminate].
      rewrite Tu, Tb; intros H; inversion H; subst r; clear H.
      exists e; split; auto; split; auto.
      assert (C2 : (peek path 0 =? c_bslash)
                   && (peek (poke path (S e) 0) 1 =? c_bslash)
                   && negb (peek (poke path (S e) 0) 2 =? c_qmark)
                   = false).
      { destruct e as [|[|e]].
        - rewrite peek_poke_zero_at; change (0 =? c_bslash) with false.
          rewrite andb_false_r; reflexivity.
        - rewrite peek_poke_ne, peek_poke_zero_at by lia.
          change (0 =? c_qmark) with false; cbn [negb];
            rewrite andb_true_r.
          destruct (Z.eqb_spec (peek path 0) c_bslash) as [B0|B0]; auto.
          destruct (Z.eqb_spec (peek path 1) c_bslash) as [B1|B1]; auto.
          exfalso; cbn [andb] in Tb.
          destruct (Z.eqb_spec (peek path 2) c_qmark) as [B2|B2];
            [|discriminate].
          rewrite (strncmpiW_unc_prefix path B0 B1 B2) in Gd.
          revert R; unfold get_root_end.
          destruct (is_prefixed_volume path);
            [destruct (peek path 48 =? c_bslash); discriminate|].
          destruct (is_prefixed_unc path); [discriminate|].
          destruct (is_prefixed_disk path);
            [destruct (peek path 6 =? c_bslash); discriminate|].
          discriminate Gd.
        - rewrite !peek_poke_ne by lia; exact Tb. }
      split; [exact C2|].
      destruct (root_tests_cut path e R) as (V & U & D).
      rewrite (get_root_end_cut path e R), V, U, D.
      rewrite (peek_poke_ne path (S e) 0) by lia.
      destruct (Z.eqb_spec (peek path 0) 0); [contradiction|]; cbn [orb].
      assert (C1 : (strncmpiW unc_prefix (poke path (S e) 0) 3 =? 0)
                   && negb (is_prefixed_volume path)
                   && negb (is_prefixed_unc path)
                   && negb (is_prefixed_disk path) = false).
      { destruct (le_lt_dec 3 (S e)) as [L|L].
        - rewrite (strncmpiW_ext_r 3 unc_prefix _ path); [exact Gd|].
          apply poke_agree; exact L.
        - destruct (Z.eqb_spec
                      (strncmpiW unc_prefix (poke path (S e) 0) 3) 0)
            as [Q|Q]; auto; exfalso.
          apply (strncmpiW_0_nonzero_r 3 _ _ Q) with (i := S e);
            [|exact L|apply peek_poke_zero_at].
          below 3 by (vm_compute; congruence). }
      rewrite C1, Tu.
      rewrite C2; reflexivity. }
    destruct R as (e & R & Er & C2 & S'); subst r.
    rewrite (peek_poke_ne path (S e) 0) by lia.
    rewrite G.
    destruct (root_tests_cut path e R) as (V & U & D).
    rewrite U, Tu; cbn [orb].
    rewrite C2, S', Hs, peek_poke_zero_at; reflexivity.
Qed.

(** ** Extensions of the MAX_PATH functions *)

Lemma find_extension_from_run (s r : list Z) (n i : nat)
  (lastpoint : option nat) :
  nonzero s -> (i + n = length s)%nat -> last_point_upto s i lastpoint ->
  extension_at s (find_extension_from (skipn i (s ++ 0 :: r)) i lastpoint).
Proof.
  intros Hz; revert i lastpoint; induction n as [|n IH]; intros i lp Hi Inv.
  - replace i with (length s) in * by lia.
    rewrite skipn_terminated_end; cbn [find_extension_from];
      change (0 =? 0) with true; cbv iota.
    destruct lp as [l|]; cbn [last_point_upto] in Inv.
    + destruct Inv as (I1 & I2 & I3).
      split; [lia|]; split; [intros j Hj; apply I3; lia|].
      split; [intros; exact I2|intros; lia].
    + split; [lia|]; split; [intros; lia|].
      split; [intros; lia|intros _; exact Inv].
  - rewrite skipn_terminated_at by lia; cbn [find_extension_from].
    pose proof (peek_nonzero s i Hz ltac:(lia)) as Nz.
    destruct (Z.eqb_spec (peek s i) 0); [contradiction|].
    apply IH; [lia|].
    destruct (Z.eqb_spec (peek s i) c_bslash) as [B|B];
      [|destruct (Z.eqb_spec (peek s i) c_space) as [S|S]];
      cbn [orb]; cbv iota.
    + intros j Hj Dj; exists i; split; auto.
      destruct (Nat.eq_dec j i); [subst; rewrite B in Dj; discriminate|lia].
    + intros j Hj Dj; exists i; split; auto.
      destruct (Nat.eq_dec j i); [subst; rewrite S in Dj; discriminate|lia].
    + destruct (Z.eqb_spec (peek s i) c_dot) as [D|D].
      * split; [lia|split; auto; intros; lia].
      * destruct lp as [l|]; cbn [last_point_upto] in *.
        -- destruct Inv as (I1 & I2 & I3); split; [lia|split; auto].
           intros j Hj; destruct (Nat.eq_dec j i); [subst; auto|].
           apply I3; lia.
        -- intros j Hj Dj.
           destruct (Nat.eq_dec j i); [subst; contradiction|].
           destruct (Inv j ltac:(lia) Dj) as (k & Hk & K).
           exists k; split; auto; lia.
Qed.

Lemma PathFindExtensionW_offset (s r : list Z) :
  nonzero s -> extension_at s (PathFindExtensionW (s ++ 0 :: r)).
Proof.
  intros Hz; unfold PathFindExtensionW.
  apply (find_extension_from_run s r (length s) 0 None Hz); [lia|].
  intros j Hj; lia.
Qed.

Lemma poke_same (s : list Z) (i : nat) : poke s i (peek s i) = s.
Proof.
  revert i; induction s as [|c t IH]; intros [|i]; simpl; auto.
  f_equal; apply IH.
Qed.

(** X13. PathRemoveExtensionW removes nothing: it stores a terminator only
    where the unit that PathFindExtensionW points at already is one, so the
    buffer is left exactly as it was, whatever the path. *)
Theorem PathRemoveExtensionW_changes_nothing (path : list Z) :
  PathRemoveExtensionW path = path.
Proof.
  unfold PathRemoveExtensionW.
  destruct (Z.eqb_spec (peek path (PathFindExtensionW path)) 0) as [E|E];
    auto.
  rewrite <- E at 1; apply poke_same.
Qed.

(** X14. PathRenameExtensionW replaces the extension. For a string whose
    extension begins at [e] (the offset of its terminator when it has
    none) and a new extension that keeps the result below MAX_PATH units
    and inside the buffer, it returns TRUE and leaves the units before [e]
    followed by the new extension as it was given, with or without a
    dot. *)
Theorem PathRenameExtensionW_replaces (s r ext x : list Z) (e : nat) :
  nonzero s -> nonzero ext -> extension_at s e ->
  Z.of_nat (e + length ext) < MAX_PATH ->
  (e + length ext <= length s + length r)%nat ->
  exists path,
    PathRenameExtensionW (s ++ 0 :: r) (ext ++ 0 :: x) = (true, path)
    /\ cstr path = firstn e s ++ ext.
Proof.
  intros Hz He X Hm Hr; unfold PathRenameExtensionW.
  rewrite (extension_at_unique s _ e (PathFindExtensionW_offset s r Hz) X).
  rewrite strlenW_terminated, cstr_app by exact He.
  rewrite Z_geb_lt by lia.
  destruct X as (Le & _).
  eexists; split; [reflexivity|].
  unfold strcpyW, with_nul.
  rewrite store_split
    by (rewrite !length_app; simpl length; lia).
  rewrite firstn_app.
  replace (e - length s)%nat with O by lia.
  rewrite firstn_0, app_nil_r, <- (app_assoc ext [0]), app_assoc.
  simpl app; apply cstr_app, Forall_app; split;
    [apply nonzero_firstn; exact Hz|exact He].
Qed.

(** ** Blanks *)

Lemma blank_run_le (s : list Z) : (blank_run s <= length s)%nat.
Proof.
  induction s as [|c t IH]; simpl; auto; destruct (c =? c_space); lia.
Qed.

Lemma blank_run_blank (s : list Z) (j : nat) :
  (j < blank_run s)%nat -> peek s j = c_space.
Proof.
  revert j; induction s as [|c t IH]; simpl; intros j Hj; [lia|].
  destruct (Z.eqb_spec c c_space) as [E|E]; [|lia].
  destruct j as [|j]; [exact E|apply IH; lia].
Qed.

Lemma blank_run_stop (s : list Z) : peek s (blank_run s) <> c_space.
Proof.
  induction s as [|c t IH]; simpl; [discriminate|].
  destruct (Z.eqb_spec c c_space) as [E|E]; auto.
Qed.

Lemma blank_run_terminated (s r : list Z) :
  blank_run (s ++ 0 :: r) = blank_run s.
Proof.
  induction s as [|c t IH]; simpl; auto; destruct (c =? c_space); auto.
Qed.

Lemma blank_run_zero (s : list Z) :
  blank_run s = O -> peek s 0 <> c_space.
Proof. intros E; rewrite <- E at 1; apply blank_run_stop. Qed.

Lemma blank_run_positive (s : list Z) :
  peek s 0 <> c_space -> blank_run s = O.
Proof.
  destruct s as [|c t]; simpl; auto; intros H.
  destruct (Z.eqb_spec c c_space); [contradiction|reflexivity].
Qed.

Lemma back_over_blanks_run (t rest : list Z) (n : nat) :
  (n <= length t)%nat -> (exists j, (j < n)%nat /\ peek t j <> c_space) ->
  exists start,
    back_over_blanks (t ++ rest) n = Some start
    /\ (0 < start <= n)%nat
    /\ peek t (start - 1) <> c_space
    /\ forall j, (start <= j < n)%nat -> peek t j = c_space.
Proof.
  induction n as [|n IH]; intros Hn (j & Hj & Nj); [lia|].
  cbn [back_over_blanks]; rewrite peek_app_l by lia.
  destruct (Z.eqb_spec (peek t n) c_space) as [E|E].
  - destruct IH as (st & B & L & P & A); [lia| |].
    { exists j; split; auto.
      destruct (Nat.eq_dec j n); [subst; contradiction|lia]. }
    exists st; split; [exact B|]; split; [lia|]; split; [exact P|].
    intros i Hi; destruct (Nat.eq_dec i n); [subst; exact E|apply A; lia].
  - exists (S n); split; [reflexivity|]; split; [lia|].
    split; [replace (S n - 1)%nat with n by lia; exact E|intros; lia].
Qed.

Lemma all_units_repeat (l : list Z) (v : Z) :
  (forall j, (j < length l)%nat -> peek l j = v) -> l = repeat v (length l).
Proof.
  induction l as [|c t IH]; intros H; simpl; auto; f_equal.
  - apply (H O); simpl; lia.
  - apply IH; intros j Hj; apply (H (S j)); simpl; lia.
Qed.

(** X15. PathRemoveBlanksW on a path with a unit that is not a blank. When
    the path begins with a blank, the blanks at both of its ends are
    removed: what is left begins and ends with a unit that is not a blank,
    and the path is that between its leading blanks and some trailing
    ones. When it does not begin with a blank the path is left as it is,
    trailing blanks included. *)
Theorem PathRemoveBlanksW_trims (s r : list Z) :
  nonzero s -> (blank_run s < length s)%nat ->
  exists path t,
    PathRemoveBlanksW (s ++ 0 :: r) = Some path
    /\ cstr path = t
    /\ if peek s 0 =? c_space
       then (exists k, s = repeat c_space (blank_run s) ++ t
                           ++ repeat c_space k)
            /\ peek t 0 <> c_space
            /\ peek t (length t - 1) <> c_space
       else t = s.
Proof.
  intros Hz Hb; unfold PathRemoveBlanksW.
  assert (L : (0 < length s)%nat) by lia.
  rewrite peek_terminated by lia.
  destruct (Z.eqb_spec (peek s 0) 0) as [E|E];
    [exfalso; revert E; apply peek_nonzero; auto|].
  rewrite blank_run_terminated.
  set (first := blank_run s) in *.
  unfold cstr_at; rewrite skipn_terminated by lia.
  rewrite cstr_app by (apply nonzero_skipn; exact Hz).
  set (t := skipn first s).
  assert (Lt : length t = (length s - first)%nat) by apply length_skipn.
  rewrite store_head by (rewrite length_app; simpl; lia).
  assert (S1 : s = repeat c_space first ++ t).
  { rewrite <- (firstn_skipn first s) at 1; f_equal.
    rewrite (all_units_repeat (firstn first s) c_space).
    - rewrite length_firstn, Nat.min_l by lia; reflexivity.
    - intros j Hj; rewrite length_firstn in Hj.
      rewrite peek_firstn by lia; apply blank_run_blank; lia. }
  assert (T0 : peek t 0 <> c_space).
  { unfold t; rewrite peek_skipn, Nat.add_0_r; apply blank_run_stop. }
  destruct (Z.eqb_spec (peek s 0) c_space) as [B|B].
  - assert (F : (0 < first)%nat).
    { destruct (Nat.eq_dec first 0) as [Q|Q]; [|lia].
      exfalso; apply (blank_run_zero s Q), B. }
    destruct (Nat.eqb_spec (length t) (first + length t)); [lia|].
    cbn [negb]; cbv iota.
    destruct (back_over_blanks_run t
                (skipn (length t) (s ++ 0 :: r)) (length t) (le_n _))
      as (st & Bk & Ls & P & A).
    { exists O; split; [lia|exact T0]. }
    rewrite Bk.
    assert (S2 : t = firstn st t ++ repeat c_space (length t - st)).
    { rewrite <- (firstn_skipn st t) at 1; f_equal.
      rewrite (all_units_repeat (skipn st t) c_space).
      - rewrite length_skipn; reflexivity.
      - intros j Hj; rewrite length_skipn in Hj.
        rewrite peek_skipn; apply A; lia. }
    assert (Nf : nonzero (firstn st t))
      by (apply nonzero_firstn, nonzero_skipn, Hz).
    assert (Lf : length (firstn st t) = st)
      by (rewrite length_firstn; lia).
    eexists; exists (firstn st t); split; [reflexivity|].
    split.
    + rewrite poke_split
        by (rewrite length_app, length_skipn, length_app; simpl; lia).
      rewrite firstn_app.
      replace (st - length t)%nat with O by lia.
      rewrite firstn_0, app_nil_r; apply cstr_app; exact Nf.
    + split; [exists (length t - st)%nat; rewrite <- S2; exact S1|].
      split; [rewrite peek_firstn by lia; exact T0|].
      rewrite Lf, peek_firstn by lia; exact P.
  - assert (F : blank_run s = O) by (apply blank_run_positive; exact B).
    clear S1 T0 Lt; unfold t, first; rewrite F; cbn [skipn Nat.add].
    rewrite Nat.eqb_refl; cbn [negb]; cbv iota.
    eexists; exists s; split; [reflexivity|]; split; [|reflexivity].
    rewrite skipn_app, Nat.sub_diag, skipn_all; simpl.
    pose proof (poke_app_r s (0 :: r) 0 0) as Pk.
    rewrite Nat.add_0_r in Pk; rewrite Pk; simpl poke.
    apply cstr_app; exact Hz.
Qed.

(** ** Quotes *)

Lemma shift_left_string (c : Z) (t rest : list Z) :
  c <> 0 -> nonzero t ->
  shift_left (c :: t ++ 0 :: rest) = t ++ 0 :: 0 :: rest.
Proof.
  intros Hc Ht; revert c Hc; induction Ht as [|d t Hd Ht IH]; intros c Hc;
    cbn [shift_left app];
    (destruct (Z.eqb_spec c 0); [contradiction|]).
  - reflexivity.
  - rewrite <- (IH d Hd); reflexivity.
Qed.

(** X16. PathUnquoteSpacesW undoes PathQuoteSpacesW. When StrChrW finds a
    blank in the path, the quoted path stays below MAX_PATH units and the
    buffer has the two units more that it takes, PathQuoteSpacesW leaves
    the path between two double quotes and PathUnquoteSpacesW gives the
    path back. *)
Theorem PathUnquoteSpacesW_PathQuoteSpacesW
  (StrChrW : list Z -> Z -> option nat) (s r : list Z) :
  nonzero s -> StrChrW (s ++ 0 :: r) c_space <> None ->
  Z.of_nat (length s) + 3 < MAX_PATH -> (2 <= length r)%nat ->
  cstr (PathQuoteSpacesW StrChrW (s ++ 0 :: r)) = c_quote :: s ++ [c_quote]
  /\ cstr (PathUnquoteSpacesW (PathQuoteSpacesW StrChrW (s ++ 0 :: r)))
     = s.
Proof.
  intros Hz Hc Hm Hr; unfold PathQuoteSpacesW.
  destruct (StrChrW (s ++ 0 :: r) c_space); [clear Hc|contradiction].
  rewrite strlenW_terminated by exact Hz.
  destruct (Z.ltb_spec (Z.of_nat (length s + 1) + 2) MAX_PATH); [|lia].
  destruct r as [|r0 [|r1 r]]; simpl in Hr; try lia.
  assert (F : firstn (length s + 1) (s ++ 0 :: r0 :: r1 :: r) = s ++ [0]).
  { rewrite firstn_app, firstn_all2 by lia.
    replace (length s + 1 - length s)%nat with 1%nat by lia; reflexivity. }
  rewrite F.
  assert (Q : poke
                (poke
                   (poke (store (s ++ 0 :: r0 :: r1 :: r) 1 (s ++ [0])) 0
                      c_quote) (length s + 1) c_quote) (length s + 1 + 1) 0
              = (c_quote :: s ++ [c_quote]) ++ 0 :: r).
  { rewrite store_split
      by (rewrite !length_app; simpl length; lia).
    assert (K : skipn (1 + length (s ++ [0])) (s ++ 0 :: r0 :: r1 :: r)
                = r1 :: r).
    { rewrite length_app, skipn_app; simpl length.
      rewrite skipn_all2 by lia.
      replace (1 + (length s + 1) - length s)%nat with 2%nat by lia;
        reflexivity. }
    rewrite K.
    assert (U : exists u, firstn 1 (s ++ 0 :: r0 :: r1 :: r) = [u])
      by (destruct s; eexists; reflexivity).
    destruct U as (u & U); rewrite U.
    cbn [app poke].
    replace (length s + 1)%nat with (S (length s + 0)) by lia.
    cbn [poke Nat.add].
    rewrite <- (app_assoc s [0]), poke_app_r; cbn [app poke].
    replace (length s + 0 + 1)%nat with (length s + 1)%nat by lia.
    rewrite poke_app_r; cbn [poke].
    rewrite <- app_assoc; reflexivity. }
  rewrite Q.
  assert (N : nonzero (c_quote :: s ++ [c_quote])).
  { constructor; [discriminate|].
    apply Forall_app; split; auto; repeat constructor; discriminate. }
  split; [apply cstr_app; exact N|].
  unfold PathUnquoteSpacesW.
  rewrite strlenW_terminated by exact N.
  change (peek ((c_quote :: s ++ [c_quote]) ++ 0 :: r) 0) with c_quote.
  change (c_quote =? c_quote) with true; cbn [negb]; cbv iota.
  assert (L : (length (c_quote :: s ++ [c_quote]) - 1 = S (length s))%nat)
    by (simpl; rewrite length_app; simpl; lia).
  rewrite L.
  assert (R : (c_quote :: s ++ [c_quote]) ++ 0 :: r
              = (c_quote :: s) ++ c_quote :: 0 :: r)
    by (simpl; rewrite <- app_assoc; reflexivity).
  rewrite R.
  pose proof (poke_app_r (c_quote :: s) (c_quote :: 0 :: r) 0 0) as P.
  cbn [length] in P; rewrite Nat.add_0_r in P.
  rewrite peek_app_r by (simpl; lia).
  replace (S (length s) - length (c_quote :: s))%nat with O
    by (simpl; lia).
  change (peek (c_quote :: 0 :: r) 0) with c_quote.
  change (c_quote =? c_quote) with true; cbv iota.
  rewrite P; cbn [poke app].
  rewrite shift_left_string by (auto; discriminate).
  apply cstr_app; exact Hz.
Qed.

(** ** Short names *)

Lemma lfn_scan_extension (t r : list Z) :
  nonzero t -> forall n k, (k <= 3)%nat ->
  lfn_scan (t ++ 0 :: r) n (S k) = false
  <-> Forall plain_unit t /\ (k + length t <= 3)%nat.
Proof.
  induction 1 as [|c t Hc Ht IH]; intros n k Hk; cbn [app lfn_scan].
  - change (0 =? 0) with true; cbv iota; split; auto.
    intros _; split; [constructor|simpl; lia].
  - destruct (Z.eqb_spec c 0); [contradiction|].
    destruct (Z.eqb_spec c c_space) as [Sp|Sp].
    { split; [discriminate|intros (F & _)].
      inversion F as [|? ? (_ & P) ?]; contradiction. }
    destruct (Z.eqb_spec c c_dot) as [D|D].
    { cbn [Nat.eqb negb]; cbv iota.
      split; [discriminate|intros (F & _)].
      inversion F as [|? ? (P & _) ?]; contradiction. }
    cbn [Nat.eqb negb]; cbv iota.
    destruct (Nat.ltb_spec 4 (S (S k))) as [L|L].
    { split; [discriminate|intros (_ & F)]; simpl in F; lia. }
    rewrite IH by lia; simpl length; split; intros (F & G); split;
      try lia.
    + constructor; [split; assumption|exact F].
    + inversion F; assumption.
Qed.

Lemma lfn_scan_name (t r : list Z) :
  nonzero t -> forall n, (n <= 8)%nat ->
  lfn_scan (t ++ 0 :: r) n 0 = false
  <-> exists name ext,
        t = name ++ ext /\ Forall plain_unit name
        /\ (n + length name <= 8)%nat
        /\ (ext = []
            \/ exists x, ext = c_dot :: x /\ Forall plain_unit x
                         /\ (length x <= 3)%nat).
Proof.
  induction 1 as [|c t Hc Ht IH]; intros n Hn; cbn [app lfn_scan].
  - change (0 =? 0) with true; cbv iota; split; auto; intros _.
    exists [], []; repeat split; auto; simpl; lia.
  - destruct (Z.eqb_spec c 0); [contradiction|].
    destruct (Z.eqb_spec c c_space) as [Sp|Sp].
    { split; [discriminate|intros (name & ext & E & F & _ & [X|(x & X & _)])].
      - subst ext; rewrite app_nil_r in E; subst name.
        inversion F as [|? ? (_ & P) ?]; contradiction.
      - destruct name as [|d name]; simpl in E; inversion E; subst.
        + discriminate.
        + inversion F as [|? ? (_ & P) ?]; contradiction. }
    destruct (Z.eqb_spec c c_dot) as [D|D].
    { cbn [Nat.eqb negb]; cbv iota.
      rewrite (lfn_scan_extension t r Ht n 0) by lia; split.
      - intros (F & L); exists [], (c :: t); split; [reflexivity|].
        split; [constructor|]; split; [simpl; lia|].
        right; exists t; subst c; auto.
      - intros (name & ext & E & F & _ & [X|(x & X & Fx & Lx)]).
        + subst ext; rewrite app_nil_r in E; subst name.
          inversion F as [|? ? (P & _) ?]; contradiction.
        + subst ext; destruct name as [|d name]; simpl in E;
            inversion E; subst.
          * split; [exact Fx|simpl; exact Lx].
          * inversion F as [|? ? (P & _) ?]; contradiction. }
    cbn [Nat.eqb negb]; cbv iota.
    destruct (Nat.ltb_spec 8 (S n)) as [L|L].
    { split; [discriminate|].
      intros (name & ext & E & F & Ln & [X|(x & X & _)]).
      - subst ext; rewrite app_nil_r in E; subst name; simpl in Ln; lia.
      - subst ext; destruct name as [|d name]; simpl in E;
          inversion E; subst.
        + contradiction.
        + simpl in Ln; lia. }
    rewrite IH by lia; split.
    + intros (name & ext & E & F & Ln & X).
      exists (c :: name), ext; split; [subst t; reflexivity|].
      split; [constructor; [split; assumption|exact F]|].
      split; [simpl; lia|exact X].
    + intros (name & ext & E & F & Ln & X).
      destruct name as [|d name]; simpl in E.
      * subst ext; destruct X as [X|(x & X & _)];
          [discriminate|inversion X; subst; contradiction].
      * inversion E; subst; inversion F; subst.
        exists name, ext; repeat split; auto; simpl in Ln; lia.
Qed.

(** X17. PathIsLFNFileSpecW tells the names of the 8.3 form from the
    others: it returns FALSE exactly for a name of at most eight units,
    followed by nothing or by a dot and at most three units, with no blank
    and no other dot in it. *)
Theorem PathIsLFNFileSpecW_short_names (s r : list Z) :
  nonzero s ->
  PathIsLFNFileSpecW (s ++ 0 :: r) = false <-> short_name s.
Proof.
  intros Hz; unfold PathIsLFNFileSpecW, short_name.
  rewrite (lfn_scan_name s r Hz 0) by lia; reflexivity.
Qed.

(** ** File names *)

Lemma find_file_name_run (s r : list Z) (n i l : nat) :
  nonzero s -> (i + n = length s)%nat -> (l <= i)%nat ->
  ((0 < l)%nat -> opens_name s (l - 1) = true) ->
  (forall j, (l <= j < i)%nat -> opens_name s j = false) ->
  let k := find_file_name (skipn i (s ++ 0 :: r)) i l in
  (l <= k <= length s)%nat
  /\ ((0 < k)%nat -> opens_name s (k - 1) = true)
  /\ (forall j, (k <= j < length s)%nat -> opens_name s j = false).
Proof.
  intros Hz; revert i l; induction n as [|n IH]; intros i l Hi Hl O1 O2.
  - replace i with (length s) in * by lia.
    rewrite skipn_terminated_end; cbn [find_file_name].
    change (0 =? 0) with true; cbv iota zeta.
    split; [lia|]; split; [exact O1|exact O2].
  - rewrite skipn_terminated_at by lia; cbn [find_file_name].
    pose proof (peek_nonzero s i Hz ltac:(lia)) as Nz.
    destruct (Z.eqb_spec (peek s i) 0); [contradiction|].
    rewrite peek_skipn, Nat.add_0_r, (peek_terminated s r (S i)) by lia.
    fold (opens_name s i).
    destruct (opens_name s i) eqn:Op.
    + destruct (IH (S i) (S i)) as (K1 & K2 & K3); try lia;
        [intros _; replace (S i - 1)%nat with i by lia; exact Op|].
      split; [lia|]; split; [exact K2|exact K3].
    + destruct (IH (S i) l) as (K1 & K2 & K3); try lia; auto.
      intros j Hj; destruct (Nat.eq_dec j i); [subst; exact Op|].
      apply O2; lia.
Qed.

Lemma PathFindFileNameW_offset (s r : list Z) :
  nonzero s ->
  let k := PathFindFileNameW (s ++ 0 :: r) in
  (k <= length s)%nat
  /\ ((0 < k)%nat -> opens_name s (k - 1) = true)
  /\ (forall j, (k <= j < length s)%nat -> opens_name s j = false).
Proof.
  intros Hz; unfold PathFindFileNameW.
  destruct (find_file_name_run s r (length s) 0 0 Hz) as (K1 & K2 & K3);
    try lia.
  cbn [skipn] in *; split; [lia|]; split; [exact K2|exact K3].
Qed.

Lemma opens_name_skipn (s : list Z) (k j : nat) :
  opens_name (skipn k s) j = opens_name s (k + j).
Proof.
  unfold opens_name; rewrite !peek_skipn.
  replace (k + S j)%nat with (S (k + j)) by lia; reflexivity.
Qed.

(** X18. PathStripPathW leaves the file name of a path: the units from
    offset [k] on, where [k] is 0 or follows a separator ('\', '/' or ':')
    that has a unit other than '\' and '/' after it, and no separator
    from [k] on has such a unit after it. Stripping the result again
    changes nothing. *)
Theorem PathStripPathW_leaves_file_name (s r : list Z) :
  nonzero s ->
  exists k,
    PathFindFileNameW (s ++ 0 :: r) = k
    /\ (k <= length s)%nat
    /\ ((0 < k)%nat -> opens_name s (k - 1) = true)
    /\ (forall j, (k <= j < length s)%nat -> opens_name s j = false)
    /\ cstr (PathStripPathW (s ++ 0 :: r)) = skipn k s
    /\ PathStripPathW (PathStripPathW (s ++ 0 :: r))
       = PathStripPathW (s ++ 0 :: r).
Proof.
  intros Hz; destruct (PathFindFileNameW_offset s r Hz) as (K1 & K2 & K3).
  set (k := PathFindFileNameW (s ++ 0 :: r)) in *.
  exists k; split; [reflexivity|]; split; [exact K1|]; split; [exact K2|].
  split; [exact K3|].
  assert (N : nonzero (skipn k s)) by (apply nonzero_skipn, Hz).
  assert (E : exists rest,
             PathStripPathW (s ++ 0 :: r) = skipn k s ++ 0 :: rest).
  { unfold PathStripPathW; fold k.
    destruct (Nat.eqb_spec k 0) as [Q|Q]; cbn [negb]; cbv iota.
    - rewrite Q; exists r; reflexivity.
    - unfold strcpyW, with_nul, cstr_at.
      rewrite skipn_terminated by lia.
      rewrite cstr_app by exact N.
      rewrite store_head
        by (rewrite !length_app, length_skipn; simpl; lia).
      rewrite <- app_assoc; eexists; reflexivity. }
  destruct E as (rest & E); rewrite E.
  split; [apply cstr_app; exact N|].
  destruct (PathFindFileNameW_offset (skipn k s) rest N) as (J1 & J2 & J3).
  unfold PathStripPathW at 1.
  destruct (Nat.eqb_spec (PathFindFileNameW (skipn k s ++ 0 :: rest)) 0)
    as [Q|Q]; cbn [negb]; cbv iota; [reflexivity|].
  exfalso.
  set (k' := PathFindFileNameW (skipn k s ++ 0 :: rest)) in *.
  specialize (J2 ltac:(lia)); rewrite opens_name_skipn in J2.
  rewrite length_skipn in J1.
  rewrite K3 in J2; [discriminate|].
  assert (k' - 1 < length s - k)%nat; [|lia].
  destruct (le_lt_dec (length s - k) (k' - 1)) as [L|L]; auto.
  exfalso; revert J2; unfold opens_name.
  rewrite (peek_overflow s (S (k + (k' - 1)))) by lia.
  change (0 =? 0) with true; cbn [negb].
  rewrite andb_false_r; discriminate.
Qed.

(** ** Matching a name against a mask *)

Lemma mask_matches_star (toupperW : Z -> Z) (name mask : list Z) :
  mask_matches toupperW name (c_star :: mask)
  <-> exists k, (k <= length name)%nat
                /\ mask_matches toupperW (skipn k name) mask.
Proof.
  split.
  - intros H; remember (c_star :: mask) as sm eqn:E; revert mask E.
    induction H as [|name m H IH|c name m H IH|c m name mk Hm Hc H IH];
      intros mask E; inversion E; subst.
    + exists O; split; [lia|exact H].
    + destruct (IH mask eq_refl) as (k & Hk & M).
      exists (S k); split; [simpl; lia|exact M].
    + contradiction.
  - intros (k & Hk & M); revert name Hk M; induction k as [|k IH];
      intros name Hk M.
    + apply mask_matches_star_none; exact M.
    + destruct name as [|c name]; [simpl in Hk; lia|].
      apply mask_matches_star_unit, IH; [simpl in Hk; lia|exact M].
Qed.

Lemma try_substrings_found (matches : list Z -> bool) (name r : list Z) :
  nonzero name ->
  try_substrings matches (name ++ 0 :: r) = true
  <-> exists k, (k <= length name)%nat
                /\ matches (skipn k name ++ 0 :: r) = true.
Proof.
  induction 1 as [|c name Hc Hn IH]; cbn [app try_substrings].
  - destruct (matches (0 :: r)) eqn:M.
    + split; auto; intros _; exists O; split; [simpl; lia|exact M].
    + change (0 =? 0) with true; cbv iota; split; [discriminate|].
      intros (k & Hk & Q); simpl in Hk.
      replace k with O in Q by lia; simpl in Q; congruence.
  - destruct (matches (c :: name ++ 0 :: r)) eqn:M.
    + split; auto; intros _; exists O; split; [simpl; lia|exact M].
    + destruct (Z.eqb_spec c 0); [contradiction|].
      rewrite IH; split; intros (k & Hk & Q).
      * exists (S k); split; [simpl; lia|exact Q].
      * destruct k as [|k]; [simpl in Q; congruence|].
        exists k; split; [simpl in Hk; lia|exact Q].
Qed.

Lemma mask_left_end (name r mask r' : list Z) (stop : Z) :
  nonzero name -> mask_units mask -> stop = 0 \/ stop = 59 ->
  mask_left (name ++ 0 :: r) (mask ++ stop :: r') = true
  <-> name = [] /\ Forall (fun c => c = c_star) mask.
Proof.
  intros Hn Hm Hs; unfold mask_left.
  destruct name as [|c name].
  - change (peek ([] ++ 0 :: r) 0) with 0; change (0 =? 0) with true;
      cbv iota zeta.
    induction Hm as [|m mask (M0 & M1) Hm IH]; cbn [app skip_stars].
    + assert (Q : (stop =? c_star) = false) by (destruct Hs; subst; auto).
      rewrite Q; change (peek (stop :: r') 0) with stop.
      split; [auto|intros _].
      destruct Hs; subst; reflexivity.
    + destruct (Z.eqb_spec m c_star) as [S|S].
      * rewrite IH; split; intros (_ & F); split; auto.
        inversion F; assumption.
      * change (peek (m :: mask ++ stop :: r') 0) with m.
        destruct (Z.eqb_spec m 0); [contradiction|].
        destruct (Z.eqb_spec m 59); [contradiction|].
        split; [discriminate|intros (_ & F)].
        inversion F; contradiction.
  - inversion Hn; subst.
    change (peek ((c :: name) ++ 0 :: r) 0) with c.
    destruct (Z.eqb_spec c 0); [contradiction|].
    split; [discriminate|intros (Q & _); discriminate].
Qed.

Lemma mask_matches_empty (toupperW : Z -> Z) (mask : list Z) :
  mask_matches toupperW [] mask <-> Forall (fun c => c = c_star) mask.
Proof.
  split.
  - intros H; remember [] as name eqn:E.
    induction H; try discriminate; auto.
  - induction 1 as [|m mask Hm F IH]; [constructor|].
    subst m; apply mask_matches_star_none; exact IH.
Qed.

Lemma path_match_maskW_mask_matches_aux (toupperW : Z -> Z)
  (mask r' : list Z) (stop : Z) :
  mask_units mask -> stop = 0 \/ stop = 59 ->
  forall name r, nonzero name ->
  path_match_maskW toupperW (name ++ 0 :: r) (mask ++ stop :: r') = true
  <-> mask_matches toupperW name mask.
Proof.
  intros Hm Hs; induction Hm as [|m mask (M0 & M1) Hm IH]; intros name r Hn.
  - cbn [app path_match_maskW].
    assert (Q : negb (peek (name ++ 0 :: r) 0 =? 0) && negb (stop =? 0)
                && negb (stop =? 59) = false).
    { destruct Hs; subst; cbn [Z.eqb negb];
        rewrite ?andb_false_r; reflexivity. }
    rewrite Q.
    rewrite (mask_left_end name r [] r' stop Hn (Forall_nil _) Hs).
    split.
    + intros (E & _); subst; constructor.
    + intros H; inversion H; subst; split; constructor.
  - cbn [app path_match_maskW].
    destruct (Z.eqb_spec m 0); [contradiction|].
    destruct (Z.eqb_spec m 59); [contradiction|].
    cbn [negb]; rewrite !andb_true_r.
    destruct name as [|c name].
    + change (peek ([] ++ 0 :: r) 0) with 0; change (0 =? 0) with true.
      cbn [negb]; cbv iota.
      rewrite (mask_left_end [] r (m :: mask) r' stop Hn
                 (Forall_cons _ (conj M0 M1) Hm) Hs).
      rewrite mask_matches_empty; split; [intros (_ & F); exact F|auto].
    + inversion Hn as [|? ? Hc Hn']; subst.
      change (peek ((c :: name) ++ 0 :: r) 0) with c.
      destruct (Z.eqb_spec c 0); [contradiction|]; cbn [negb]; cbv iota.
      destruct (Z.eqb_spec m c_star) as [S|S].
      * subst m; rewrite mask_matches_star.
        rewrite (try_substrings_found _ (c :: name) r Hn).
        split; intros (k & Hk & Q); exists k; split; auto;
          [apply IH in Q|apply IH]; auto using nonzero_skipn.
      * cbn [app tl].
        destruct (Z.eqb_spec (toupperW m) (toupperW c)) as [U|U];
          cbn [negb andb]; cbv iota.
        -- split; intros H.
           ++ apply mask_matches_unit; auto.
              apply (IH name r Hn'); exact H.
           ++ inversion H; subst; try congruence.
              apply (IH name r Hn'); assumption.
        -- destruct (Z.eqb_spec m c_qmark) as [Q|Q]; cbn [negb]; cbv iota.
           ++ split; intros H.
              ** apply mask_matches_unit; auto.
                 apply (IH name r Hn'); exact H.
              ** inversion H; subst; try congruence.
                 apply (IH name r Hn'); assumption.
           ++ split; [discriminate|intros H].
              inversion H; subst; try congruence.
              match goal with K : _ \/ _ |- _ => destruct K end;
                congruence.
Qed.

(** X19. path_match_maskW decides whether a name matches a mask. For a
    mask that ends at the terminator or at a ';', it returns TRUE exactly
    when the whole name matches: an asterisk standing for any units, none
    included, a question mark for any one unit, and every other unit of
    the mask for the units of the name with the same upper case. *)
Theorem path_match_maskW_mask_matches (toupperW : Z -> Z)
  (name r mask r' : list Z) (stop : Z) :
  nonzero name -> mask_units mask -> stop = 0 \/ stop = 59 ->
  path_match_maskW toupperW (name ++ 0 :: r) (mask ++ stop :: r') = true
  <-> mask_matches toupperW name mask.
Proof.
  intros Hn Hm Hs.
  apply path_match_maskW_mask_matches_aux; assumption.
Qed.

(** ** Unescaping in place *)

Lemma length_unescape_units (flags : Z) (n : nat) :
  forall (stop : bool) (src : list Z), (length src <= n)%nat ->
  (length (unescape_units flags stop src) <= length src)%nat.
Proof.
  induction n as [|n IH]; intros stop src Hn.
  - destruct src; simpl in *; [lia|lia].
  - destruct src as [|c t]; [simpl; lia|].
    cbn [unescape_units].
    destruct (flag_set flags URL_DONT_UNESCAPE_EXTRA_INFO
              && ((c =? c_hash) || (c =? c_qmark))).
    { simpl length in *; specialize (IH true t); lia. }
    destruct t as [|h1 [|h2 t']].
    { simpl; lia. }
    { pose proof (IH stop [h1] ltac:(simpl in *; lia)) as Q.
      simpl length in *; lia. }
    destruct ((c =? c_percent) && isxdigitW h1 && isxdigitW h2
              && negb stop).
    + simpl length in *; specialize (IH stop t'); lia.
    + simpl length in *; specialize (IH stop (h1 :: h2 :: t'));
        simpl length in *; lia.
Qed.

(** X20. UrlUnescapeW never gives more units than it was given: whatever
    the URL, the capacity and the flags, the units it stores are at most
    as many as the URL has before its terminator, which is what lets it
    work in place under URL_UNESCAPE_INPLACE. *)
Theorem UrlUnescapeW_never_longer (url : list Z) (unescaped_len flags : Z) :
  (length (snd (fst (UrlUnescapeW url unescaped_len flags)))
   <= strlenW url)%nat.
Proof.
  unfold UrlUnescapeW, strlenW.
  pose proof (length_unescape_units flags (length (cstr url)) false
                (cstr url) (le_n _)) as L.
  destruct (flag_set flags URL_UNESCAPE_INPLACE
            || (Z.of_nat (length (unescape_units flags false (cstr url)))
                <? unescaped_len)); cbn [fst snd]; [exact L|].
  rewrite length_firstn; lia.
Qed.

(** ** Schemes *)

Lemma protocol_length_units (s : list Z) :
  (forall i, (i < protocol_length s)%nat -> scheme_unit (peek s i) = true)
  /\ scheme_unit (peek s (protocol_length s)) = false.
Proof.
  induction s as [|c t (IH1 & IH2)]; cbn [protocol_length].
  - split; [intros; lia|reflexivity].
  - fold (scheme_unit c); destruct (scheme_unit c) eqn:E.
    + split; [|exact IH2].
      intros [|i] Hi; [exact E|apply IH1; lia].
    + split; [intros; lia|exact E].
Qed.

Lemma protocol_length_unique (s : list Z) (n : nat) :
  (forall i, (i < n)%nat -> scheme_unit (peek s i) = true) ->
  scheme_unit (peek s n) = false -> protocol_length s = n.
Proof.
  intros H1 H2; destruct (protocol_length_units s) as (P1 & P2).
  destruct (lt_eq_lt_dec (protocol_length s) n) as [[L|L]|L]; auto.
  - rewrite (H1 _ L) in P2; discriminate.
  - rewrite (P1 _ L) in H2; discriminate.
Qed.

Lemma scheme_unit_nonzero (c : Z) : scheme_unit c = true -> c <> 0.
Proof. intros H E; subst; discriminate. Qed.

Lemma get_scheme_code_valid (scheme : list Z) (n : nat) :
  get_scheme_code scheme n <> URL_SCHEME_INVALID.
Proof.
  unfold get_scheme_code.
  destruct (find _ url_schemes) as [e|] eqn:F; [|discriminate].
  apply find_some in F; destruct F as (I & _).
  unfold url_schemes in I; simpl in I.
  repeat (destruct I as [I|I]; [subst e; discriminate|]).
  contradiction.
Qed.

(** X21. What ParseURLW stores: when it succeeds, the protocol is a run of
    at least two scheme units (letters, digits, '-', '+' and '.') that a
    colon follows, the suffix begins right after the colon, and protocol,
    colon and suffix make up the whole URL; otherwise it returns
    URL_E_INVALID_SYNTAX. *)
Theorem ParseURLW_parts (url : list Z) :
  match ParseURLW url with
  | (S_OK, Some base) =>
      (2 <= cchProtocol base)%nat
      /\ (forall i, (i < cchProtocol base)%nat ->
            scheme_unit (peek url i) = true)
      /\ peek url (cchProtocol base) = c_colon
      /\ pszSuffix base = S (cchProtocol base)
      /\ (cchProtocol base + 1 + cchSuffix base = strlenW url)%nat
      /\ nScheme base = get_scheme_code url (cchProtocol base)
  | (URL_E_INVALID_SYNTAX, None) => True
  | _ => False
  end.
Proof.
  unfold ParseURLW.
  destruct (protocol_length_units url) as (P1 & P2).
  set (n := protocol_length url) in *.
  destruct (Z.eqb_spec (peek url n) c_colon) as [C|C]; cbn [negb orb];
    [|exact I].
  destruct (Nat.leb_spec n 1) as [L|L]; [exact I|].
  cbn [cchProtocol pszSuffix cchSuffix nScheme].
  split; [lia|]; split; [exact P1|]; split; [exact C|].
  split; [reflexivity|]; split; [|reflexivity].
  assert (A : (S n <= strlenW url)%nat).
  { apply strlenW_ge; intros i Hi.
    destruct (Nat.eq_dec i n); [subst; rewrite C; discriminate|].
    apply scheme_unit_nonzero, P1; lia. }
  pose proof (length_cstr_at url (S n) A); lia.
Qed.

(** X22. PathIsURLW accepts a path exactly when a colon follows a run of
    at least two scheme units at its head: the scheme need not be one of
    the registry, and a single letter before the colon, as in a drive
    specification, is no scheme. *)
Theorem PathIsURLW_scheme (path : list Z) :
  PathIsURLW path = true
  <-> exists n, (2 <= n)%nat
                /\ (forall i, (i < n)%nat -> scheme_unit (peek path i) = true)
                /\ peek path n = c_colon.
Proof.
  unfold PathIsURLW, ParseURLW.
  destruct (protocol_length_units path) as (P1 & P2).
  split.
  - destruct (Z.eqb_spec (peek path 0) 0); [discriminate|].
    destruct (Z.eqb_spec (peek path (protocol_length path)) c_colon)
      as [C|C]; cbn [negb orb]; [|discriminate].
    destruct (Nat.leb_spec (protocol_length path) 1) as [L|L];
      [discriminate|].
    intros _; exists (protocol_length path); split; [lia|auto].
  - intros (n & Hn & U & C).
    assert (E : protocol_length path = n).
    { apply protocol_length_unique; auto; rewrite C; reflexivity. }
    rewrite E, C.
    destruct (Z.eqb_spec (peek path 0) 0) as [Q|Q].
    { exfalso; apply (scheme_unit_nonzero _ (U O ltac:(lia))), Q. }
    change (c_colon =? c_colon) with true; cbn [negb orb].
    destruct (Nat.leb_spec n 1); [lia|].
    cbn [nScheme].
    pose proof (get_scheme_code_valid path n) as V.
    destruct (get_scheme_code path n); auto; contradiction.
Qed.

(** ** The capacity that UrlEscapeW asks for *)

(** One turn of the loop of UrlEscapeW: where it goes and what it means to
    store depend on neither the capacity nor what was stored before. *)
Lemma escape_step_shape (url : list Z) (flags int_flags : Z)
  (parsed : option PARSEDURLW) (src slashes : nat) (stop : bool) :
  exists src' slashes' stop' next,
    forall escaped_len needed dst,
      escape_step url flags int_flags parsed escaped_len
        (mk_escape src slashes stop needed dst)
      = mk_escape src' slashes' stop' (needed + Z.of_nat (length next))
          (if needed + Z.of_nat (length next) <=? escaped_len
           then dst ++ next else dst).
Proof.
  unfold escape_step.
  match goal with
  | |- context [match ?t with _ => _ end] =>
      lazymatch type of t with
      | (nat * nat * Z * list Z)%type =>
          destruct t as [[[src1 slashes1] cur1] next1]
      end
  end.
  match goal with
  | |- context [match ?t with _ => _ end] =>
      lazymatch type of t with
      | (nat * bool * list Z)%type => destruct t as [[src2 stop2] next2]
      end
  end.
  exists src2, slashes1, stop2, next2; intros; reflexivity.
Qed.

Lemma escape_loop_total (url : list Z) (flags int_flags : Z)
  (parsed : option PARSEDURLW) (fuel : nat) :
  forall (src slashes : nat) (stop : bool),
  exists total,
    forall escaped_len needed dst,
      let st := escape_loop fuel url flags int_flags parsed escaped_len
                  (mk_escape src slashes stop needed dst) in
      e_needed st = needed + Z.of_nat (length total)
      /\ (needed + Z.of_nat (length total) <= escaped_len ->
          e_dst st = dst ++ total).
Proof.
  induction fuel as [|fuel IH]; intros src slashes stop.
  - exists []; intros escaped_len needed dst; cbv zeta.
    cbn [escape_loop e_needed e_dst length].
    split; [lia|intros _; rewrite app_nil_r; reflexivity].
  - cbn [escape_loop e_src].
    destruct (peek url src =? 0).
    + exists []; intros escaped_len needed dst; cbv zeta.
      cbn [e_needed e_dst length].
      split; [lia|intros _; rewrite app_nil_r; reflexivity].
    + destruct (escape_step_shape url flags int_flags parsed src slashes
                  stop) as (src' & slashes' & stop' & next & E).
      destruct (IH src' slashes' stop') as (total & T).
      exists (next ++ total); intros escaped_len needed dst; cbv zeta.
      rewrite E, length_app, Nat2Z.inj_add.
      destruct (T escaped_len (needed + Z.of_nat (length next))
                  (if needed + Z.of_nat (length next) <=? escaped_len
                   then dst ++ next else dst)) as (T1 & T2).
      split; [rewrite T1; lia|intros F].
      rewrite T2 by lia.
      destruct (Z.leb_spec (needed + Z.of_nat (length next)) escaped_len);
        [|lia].
      rewrite app_assoc; reflexivity.
Qed.

(** X23. The capacity contract of UrlEscapeW. When it succeeds, the length
    it reports is that of the string it gives, and is below the capacity;
    when the capacity is too small it returns E_POINTER and reports a
    capacity with which the same call succeeds, giving a string one unit
    shorter than that capacity; E_INVALIDARG is kept for a capacity of
    0. *)
Theorem UrlEscapeW_capacity (url : list Z) (escaped_len flags : Z) :
  match UrlEscapeW url escaped_len flags with
  | (S_OK, Some escaped, n) =>
      Z.of_nat (length escaped) = n /\ n < escaped_len
  | (E_POINTER, None, n) =>
      escaped_len < n
      /\ exists escaped,
           UrlEscapeW url n flags = (S_OK, Some escaped, n - 1)
           /\ Z.of_nat (length escaped) = n - 1
  | (E_INVALIDARG, None, n) => escaped_len = 0 /\ n = 0
  | _ => False
  end.
Proof.
  unfold UrlEscapeW.
  destruct (Z.eqb_spec escaped_len 0) as [E|E]; [split; auto|].
  set (fl := escape_fix_flags flags).
  set (parsed := if flag_set fl URL_ESCAPE_SEGMENT_ONLY then None
                 else snd (ParseURLW url)).
  set (int_flags := escape_int_flags url fl parsed).
  destruct (escape_loop_total url fl int_flags parsed (length url) 0 0 false)
    as (total & T).
  destruct (T escaped_len 0 []) as (T1 & T2); cbv zeta in T1, T2.
  rewrite T1; cbn [Z.add] in *.
  destruct (Z.ltb_spec (Z.of_nat (length total)) escaped_len) as [L|L].
  - rewrite T2 by lia; split; [reflexivity|exact L].
  - split; [lia|].
    destruct (T (Z.of_nat (length total) + 1) 0 []) as (U1 & U2);
      cbv zeta in U1, U2; cbn [Z.add] in *.
    destruct (Z.eqb_spec (Z.of_nat (length total) + 1) 0); [lia|].
    rewrite U1.
    destruct (Z.ltb_spec (Z.of_nat (length total))
                (Z.of_nat (length total) + 1)); [|lia].
    rewrite U2 by lia.
    exists total; split; [|lia].
    repeat f_equal; lia.
Qed.

(** ** The parts of a URL lie inside it *)

Lemma token_run_units (test : Z -> bool) (s : list Z) (j : nat) :
  (j < token_run test s)%nat -> test (peek s j) = true.
Proof.
  revert j; induction s as [|c t IH]; simpl; intros j Hj; [lia|].
  destruct (test c) eqn:E; [|lia].
  destruct j as [|j]; [exact E|apply IH; lia].
Qed.

Lemma userpass_run_units (n : nat) :
  forall (s : list Z) (j : nat), (length s <= n)%nat ->
  (j < userpass_run s)%nat -> peek s j <> 0.
Proof.
  induction n as [|n IH]; intros s j Hn Hj.
  - destruct s; simpl in *; lia.
  - destruct s as [|c t]; [simpl in Hj; lia|].
    cbn [userpass_run] in Hj.
    destruct (is_userpass_unit c) eqn:U.
    + destruct j as [|j].
      * intros E; change (peek (c :: t) 0) with c in E; subst c.
        discriminate U.
      * apply (IH t j); [simpl in Hn; lia|lia].
    + destruct (Z.eqb_spec c c_percent) as [P|P]; [|lia].
      destruct t as [|h1 [|h2 t']]; try lia.
      destruct (isxdigitW h1) eqn:X1; [|simpl in Hj; lia].
      destruct (isxdigitW h2) eqn:X2; [|simpl in Hj; lia].
      cbn [andb] in Hj.
      destruct j as [|[|[|j]]].
      * intros E; change (peek (c :: h1 :: h2 :: t') 0) with c in E.
        rewrite P in E; discriminate.
      * intros E; change (peek (c :: h1 :: h2 :: t') 1) with h1 in E.
        subst h1; discriminate X1.
      * intros E; change (peek (c :: h1 :: h2 :: t') 2) with h2 in E.
        subst h2; discriminate X2.
      * apply (IH t' j); [simpl in Hn; lia|lia].
Qed.

Lemma scan_url_inside (url : list Z) (start : nat) (type : url_scan_type)
  (work size : nat) :
  (start <= strlenW url)%nat -> scan_url url start type = (work, size) ->
  (start + size <= work <= strlenW url)%nat.
Proof.
  intros Hs; unfold scan_url.
  assert (T : forall test, test 0 = false ->
              (start + token_run test (skipn start url) <= strlenW url)%nat).
  { intros test T0; apply run_inside; auto; intros j Hj E.
    apply token_run_units in Hj; rewrite E, T0 in Hj; discriminate. }
  destruct type; intros E; inversion E; subst; clear E.
  - pose proof (T is_scheme_unit eq_refl).
    destruct (negb _); lia.
  - pose proof (T is_host_token_unit eq_refl); lia.
  - pose proof (T isdigitW eq_refl); lia.
  - assert (start + userpass_run (skipn start url) <= strlenW url)%nat;
      [|lia].
    apply run_inside; auto; intros j Hj.
    apply (userpass_run_units (length (skipn start url))); auto.
Qed.

Lemma parse_host_inside (url : list Z) (pl : parsed_url) (work : nat) :
  (S work <= strlenW url)%nat ->
  part_inside url (scheme pl) (scheme_len pl) ->
  part_inside url (username pl) (username_len pl) ->
  part_inside url (password pl) (password_len pl) ->
  port pl = None -> port_len pl = O -> query pl = None -> query_len pl = O ->
  parts_inside url (parse_host url pl work).
Proof.
  intros Hw Is Iu Ip P1 P2 Q1 Q2; unfold parse_host.
  destruct (scan_url url (S work) HOST) as (w1, hlen) eqn:E1.
  pose proof (scan_url_inside _ _ _ _ _ Hw E1) as B1.
  cbn [scheme scheme_len username username_len password password_len
       hostname hostname_len port port_len query query_len].
  assert (G : forall pl' w,
             (w <= strlenW url)%nat -> parts_inside url pl' ->
             query pl' = None ->
             parts_inside url
               (if peek url w =? c_slash then
                  match strchrW (skipn w url) c_qmark with
                  | Some q =>
                      mk_parsed (scheme pl') (scheme_len pl') (username pl')
                        (username_len pl') (password pl') (password_len pl')
                        (hostname pl') (hostname_len pl') (port pl')
                        (port_len pl') (Some (w + q)%nat)
                        (length (cstr_at url (w + q)))
                  | None => pl'
                  end
                else pl')).
  { intros pl' w Hw' [J1 J2 J3 J4 J5 J6] Q.
    destruct (peek url w =? c_slash); [|constructor; assumption].
    destruct (strchrW (skipn w url) c_qmark) as [q|] eqn:C;
      [|constructor; assumption].
    constructor; cbn; auto.
    apply strchrW_inside in C.
    pose proof (length_cstr_at url w Hw') as L1.
    unfold strlenW in C at 1; fold (cstr_at url w) in C.
    pose proof (length_cstr_at url (w + q) ltac:(lia)); lia. }
  destruct (Z.eqb_spec (peek url w1) c_colon) as [C|C].
  - destruct (scan_url url (S w1) PORT) as (w2, plen) eqn:E2.
    assert (Hw1 : (S w1 <= strlenW url)%nat)
      by (apply (next_inside url w1 c_colon); [assumption|discriminate|lia]).
    pose proof (scan_url_inside _ _ _ _ _ Hw1 E2) as B2.
    apply G; [lia| |exact Q1].
    constructor; cbn; rewrite ?Q1, ?Q2; cbn; auto; lia.
  - apply G; [lia| |exact Q1].
    constructor; cbn; rewrite ?P1, ?P2, ?Q1, ?Q2; cbn; auto; lia.
Qed.

Lemma parse_url_parts_inside_aux (url : list Z) (pl : parsed_url) :
  parse_url url = (S_OK, pl) -> parts_inside url pl.
Proof.
  unfold parse_url.
  destruct (scan_url url 0 SCHEME) as (w0, slen) eqn:E0.
  pose proof (scan_url_inside _ _ _ _ _ (Nat.le_0_l _) E0) as B0.
  destruct (Z.eqb_spec (peek url w0) 0) as [Z0|Z0]; cbn [orb];
    [discriminate|].
  destruct (Z.eqb_spec (peek url w0) c_colon) as [C0|C0]; cbn [negb];
    [|discriminate].
  assert (H1 : (S w0 <= strlenW url)%nat)
    by (apply (next_inside url w0 c_colon); auto; lia).
  assert (Is : part_inside url (Some O) slen) by (cbn; lia).
  destruct (Z.eqb_spec (peek url (S w0)) c_slash) as [S1|S1]; cbn [negb orb].
  2:{ intros E; inversion E; subst; constructor; cbn; auto. }
  destruct (Z.eqb_spec (peek url (S (S w0))) c_slash) as [S2|S2]; cbn [negb].
  2:{ intros E; inversion E; subst; constructor; cbn; auto. }
  assert (H2 : (S (S w0) <= strlenW url)%nat)
    by (apply (next_inside url (S w0) c_slash); [assumption|discriminate|lia]).
  assert (H3 : (S w0 + 2 <= strlenW url)%nat).
  { replace (S w0 + 2)%nat with (S (S (S w0))) by lia.
    apply (next_inside url (S (S w0)) c_slash);
      [assumption|discriminate|lia]. }
  cbn [scheme scheme_len].
  destruct (scan_url url (S w0 + 2) USERPASS) as (w1, ulen) eqn:E1.
  pose proof (scan_url_inside _ _ _ _ _ H3 E1) as B1.
  assert (R : forall pl0,
             scheme pl0 = Some O -> scheme_len pl0 = slen ->
             username pl0 = None -> username_len pl0 = O ->
             password pl0 = None -> password_len pl0 = O ->
             port pl0 = None -> port_len pl0 = O ->
             query pl0 = None -> query_len pl0 = O ->
             parts_inside url (parse_host url pl0 (S w0 + 2 - 1))).
  { intros pl0 A1 A2 A3 A4 A5 A6 A7 A8 A9 A10.
    apply parse_host_inside; auto; try lia.
    - rewrite A1, A2; exact Is.
    - rewrite A3, A4; reflexivity.
    - rewrite A5, A6; reflexivity. }
  destruct (Z.eqb_spec (peek url w1) c_colon) as [C1|C1].
  - destruct (scan_url url (S w1) USERPASS) as (w2, plen) eqn:E2.
    assert (H4 : (S w1 <= strlenW url)%nat)
      by (apply (next_inside url w1 c_colon); [assumption|discriminate|lia]).
    pose proof (scan_url_inside _ _ _ _ _ H4 E2) as B2.
    destruct (Z.eqb_spec (peek url w2) c_at) as [A|A]; cbn [negb];
      intros E; inversion E; subst; clear E.
    + apply parse_host_inside; cbn; auto; try lia.
      apply (next_inside url w2 c_at); [assumption|discriminate|lia].
    + apply R; reflexivity.
  - destruct (Z.eqb_spec (peek url w1) c_at) as [A|A].
    + intros E; inversion E; subst; clear E.
      apply parse_host_inside; cbn; auto; try lia.
      apply (next_inside url w1 c_at); [assumption|discriminate|lia].
    + destruct ((peek url w1 =? 0) || (peek url w1 =? c_slash)
                || (peek url w1 =? c_dot)); [|discriminate].
      intros E; inversion E; subst; clear E.
      apply R; reflexivity.
Qed.

(** X24. Every part that parse_url reports lies inside the URL. When it
    succeeds, the scheme, user name, password, host name, port and query
    it stores are spans that end at or before the terminator of the URL,
    and a part it leaves null has length 0. *)
Theorem parse_url_parts_inside (url : list Z) (pl : parsed_url) :
  parse_url url = (S_OK, pl) ->
  part_inside url (scheme pl) (scheme_len pl)
  /\ part_inside url (username pl) (username_len pl)
  /\ part_inside url (password pl) (password_len pl)
  /\ part_inside url (hostname pl) (hostname_len pl)
  /\ part_inside url (port pl) (port_len pl)
  /\ part_inside url (query pl) (query_len pl).
Proof.
  intros E; destruct (parse_url_parts_inside_aux url pl E); auto 7.
Qed.

(** ** Comparing URLs *)

Lemma strncmpW_equal (n : nat) :
  forall a b r r', nonzero a -> nonzero b ->
  (n <= length a)%nat -> (n <= length b)%nat ->
  strncmpW (a ++ 0 :: r) (b ++ 0 :: r') n = 0 <-> firstn n a = firstn n b.
Proof.
  induction n as [|n IH]; intros a b r r' Ha Hb La Lb.
  - simpl; split; auto.
  - destruct a as [|x a]; [simpl in La; lia|].
    destruct b as [|y b]; [simpl in Lb; lia|].
    inversion Ha; inversion Hb; subst.
    cbn [strncmpW app firstn].
    change (peek (x :: a ++ 0 :: r) 0) with x.
    change (peek (y :: b ++ 0 :: r') 0) with y.
    destruct n as [|n].
    + simpl; split; intros E; [f_equal; lia|inversion E; lia].
    + destruct (Z.eqb_spec x 0); [contradiction|].
      destruct (Z.eqb_spec x y) as [Q|Q]; cbn [negb andb tl].
      * rewrite IH by (auto; simpl in *; lia).
        subst y; split; intros E; [f_equal; exact E|inversion E; auto].
      * split; intros E; [lia|inversion E; contradiction].
Qed.

(** X25. UrlCompareW with [ignore_slash] set finds two URLs equal exactly
    when they are the same once a slash at the end of either is left out;
    the URLs are taken not to be empty. *)
Theorem UrlCompareW_ignores_final_slash
  (strcmpW : list Z -> list Z -> Z) (a b r r' : list Z) :
  nonzero a -> nonzero b -> a <> [] -> b <> [] ->
  UrlCompareW strcmpW (a ++ 0 :: r) (b ++ 0 :: r') true = Some 0
  <-> without_final_slash a = without_final_slash b.
Proof.
  intros Ha Hb Na Nb; unfold UrlCompareW, without_final_slash.
  rewrite !strlenW_terminated by assumption.
  assert (La : (0 < length a)%nat) by (destruct a; [contradiction|simpl; lia]).
  assert (Lb : (0 < length b)%nat) by (destruct b; [contradiction|simpl; lia]).
  destruct (Nat.eqb_spec (length a) 0); [lia|].
  destruct (Nat.eqb_spec (length b) 0); [lia|].
  cbn [negb orb]; cbv iota.
  rewrite !peek_terminated by lia.
  set (la := if peek a (length a - 1) =? c_slash
             then (length a - 1)%nat else length a).
  set (lb := if peek b (length b - 1) =? c_slash
             then (length b - 1)%nat else length b).
  assert (Ea : (if peek a (length a - 1) =? c_slash
                then firstn (length a - 1) a else a) = firstn la a).
  { unfold la; destruct (peek a (length a - 1) =? c_slash); auto.
    rewrite firstn_all; reflexivity. }
  assert (Eb : (if peek b (length b - 1) =? c_slash
                then firstn (length b - 1) b else b) = firstn lb b).
  { unfold lb; destruct (peek b (length b - 1) =? c_slash); auto.
    rewrite firstn_all; reflexivity. }
  rewrite Ea, Eb.
  assert (Ba : (la <= length a)%nat)
    by (unfold la; destruct (peek a (length a - 1) =? c_slash); lia).
  assert (Bb : (lb <= length b)%nat)
    by (unfold lb; destruct (peek b (length b - 1) =? c_slash); lia).
  destruct (Nat.eqb_spec la lb) as [Q|Q].
  - rewrite <- Q in *.
    rewrite <- (strncmpW_equal la a b r r' Ha Hb Ba Bb).
    split; intros E; [injection E as E'; exact E'|rewrite E; reflexivity].
  - split.
    + destruct (negb (strncmpW (a ++ 0 :: r) (b ++ 0 :: r') (Nat.min la lb)
                      =? 0)) eqn:R.
      * intros E; injection E as E'; rewrite E' in R; discriminate.
      * destruct (lb <? la)%nat; discriminate.
    + intros E; exfalso; apply Q.
      apply (f_equal (@length Z)) in E.
      rewrite !length_firstn in E; lia.
Qed.

(** ** Stripping a path to its root, the MAX_PATH way *)

Lemma nonzero_units_le (s : list Z) : (nonzero_units s <= length s)%nat.
Proof.
  induction s as [|c t IH]; simpl; auto; destruct (c =? 0); lia.
Qed.

Lemma nonzero_units_poke (s : list Z) (k : nat) :
  peek s k <> 0 -> (S (nonzero_units (poke s k 0)) = nonzero_units s)%nat.
Proof.
  revert k; induction s as [|c t IH]; intros k H.
  - exfalso; apply H, peek_overflow; simpl; lia.
  - destruct k as [|k]; cbn [poke nonzero_units].
    + change (peek (c :: t) 0) with c in H.
      change (0 =? 0) with true; cbv iota.
      destruct (Z.eqb_spec c 0); [contradiction|reflexivity].
    + change (peek (c :: t) (S k)) with (peek t k) in H.
      specialize (IH k H); destruct (c =? 0); lia.
Qed.

Lemma cstr_poke_prefix (s : list Z) (k : nat) :
  exists n, cstr (poke s k 0) = firstn n (cstr s).
Proof.
  revert k; induction s as [|c t IH]; intros k.
  - exists O; destruct k; reflexivity.
  - destruct k as [|k]; cbn [poke cstr].
    + exists O; reflexivity.
    + destruct (c =? 0); [exists O; reflexivity|].
      destruct (IH k) as (n & E); exists (S n); rewrite E; reflexivity.
Qed.

Lemma strip_to_root_ends (fuel : nat) :
  forall path, (nonzero_units path < fuel)%nat ->
  exists done root n,
    strip_to_root fuel path = Some (done, root)
    /\ PathIsRootW root = done
    /\ (done = false -> PathRemoveFileSpecW root = (false, root))
    /\ cstr root = firstn n (cstr path).
Proof.
  induction fuel as [|fuel IH]; intros path Hf; [lia|].
  cbn [strip_to_root].
  destruct (PathIsRootW path) eqn:R.
  - exists true, path, (length (cstr path)); repeat split; auto.
    + discriminate.
    + rewrite firstn_all; reflexivity.
  - destruct (PathRemoveFileSpecW path) as (modified, path') eqn:F.
    destruct modified.
    + assert (K : exists k, peek path k <> 0 /\ path' = poke path k 0).
      { revert F; unfold PathRemoveFileSpecW.
        match goal with
        | |- context [peek path ?k =? 0] =>
            destruct (Z.eqb_spec (peek path k) 0) as [E|E]; cbn [negb];
              intros Q; inversion Q; [exists k; auto]
        end. }
      destruct K as (k & Nk & Ek).
      pose proof (nonzero_units_poke path k Nk) as C.
      destruct (IH path') as (done & root & n & E1 & E2 & E3 & E4);
        [subst path'; lia|].
      destruct (cstr_poke_prefix path k) as (m & Em).
      exists done, root, (Nat.min n m); repeat split; auto.
      rewrite E4, Ek, Em, firstn_firstn; reflexivity.
    + assert (K : path' = path).
      { revert F; unfold PathRemoveFileSpecW.
        match goal with
        | |- context [if ?b then _ else _] =>
            lazymatch type of b with
            | bool => idtac
            end
        end.
        destruct (negb _); intros Q; inversion Q; reflexivity. }
      subst path'.
      exists false, path, (length (cstr path)); repeat split; auto.
      rewrite firstn_all; reflexivity.
Qed.

(** X26. PathStripToRootW always comes to an end, and tells the truth about
    what it leaves. It returns TRUE exactly when what is left is a root for
    PathIsRootW; when it returns FALSE, PathRemoveFileSpecW has nothing
    more to remove. What is left is always the beginning of the path it
    was given. *)
Theorem PathStripToRootW_ends_at_root (path : list Z) :
  exists done root n,
    PathStripToRootW path = Some (done, root)
    /\ PathIsRootW root = done
    /\ (done = false -> PathRemoveFileSpecW root = (false, root))
    /\ cstr root = firstn n (cstr path).
Proof.
  apply strip_to_root_ends.
  pose proof (nonzero_units_le path); lia.
Qed.

(** ** Common prefixes *)

Lemma tl_skipn (s : list Z) (i : nat) : tl (skipn i s) = skipn (S i) s.
Proof.
  revert s; induction i as [|i IH]; intros [|c t]; simpl; auto.
Qed.

Lemma skipn_nil_peek (s : list Z) (i : nat) :
  skipn i s = [] -> peek s i = 0.
Proof.
  intros E; apply peek_overflow.
  apply (f_equal (@length Z)) in E; rewrite length_skipn in E; simpl in E.
  lia.
Qed.

Lemma common_prefix_scan_end (file1 file2 : list Z) (i len : nat) :
  skipn i file1 = [] -> (len <= i)%nat ->
  ((0 < len)%nat ->
   component_end (peek file1 len) /\ component_end (peek file2 len)) ->
  let r := common_prefix_scan (skipn i file1) (skipn i file2) i len in
  (forall j, (i <= j < r)%nat ->
     peek file1 j <> 0 /\ tolowerW (peek file1 j) = tolowerW (peek file2 j))
  /\ ((0 < r)%nat ->
      component_end (peek file1 r) /\ component_end (peek file2 r)).
Proof.
  intros S1 Hl Hb; rewrite S1; cbn [common_prefix_scan]; cbv zeta.
  change (peek [] 0) with 0; change (0 =? 0) with true; cbn [orb andb].
  pose proof (skipn_nil_peek file1 i S1) as P1.
  destruct ((peek (skipn i file2) 0 =? 0)
            || (peek (skipn i file2) 0 =? c_bslash)) eqn:B2.
  - split; [intros; lia|intros _].
    rewrite P1; split; [left; reflexivity|].
    rewrite peek_skipn, Nat.add_0_r in B2.
    apply orb_prop in B2; destruct B2 as [B|B]; apply Z.eqb_eq in B;
      [left|right]; exact B.
  - split; [intros; lia|exact Hb].
Qed.

Lemma common_prefix_scan_common (file1 file2 : list Z) (n : nat) :
  forall i len, (length file1 <= i + n)%nat -> (len <= i)%nat ->
  ((0 < len)%nat ->
   component_end (peek file1 len) /\ component_end (peek file2 len)) ->
  let r := common_prefix_scan (skipn i file1) (skipn i file2) i len in
  (forall j, (i <= j < r)%nat ->
     peek file1 j <> 0 /\ tolowerW (peek file1 j) = tolowerW (peek file2 j))
  /\ ((0 < r)%nat ->
      component_end (peek file1 r) /\ component_end (peek file2 r)).
Proof.
  induction n as [|n IH]; intros i len Hi Hl Hb.
  - apply common_prefix_scan_end; [apply skipn_all2; lia|exact Hl|exact Hb].
  - destruct (skipn i file1) as [|c t1] eqn:S1.
    { rewrite <- S1; apply common_prefix_scan_end; assumption. }
    cbn [common_prefix_scan]; cbv zeta.
    assert (C1 : peek (c :: t1) 0 = peek file1 i)
      by (rewrite <- S1, peek_skipn, Nat.add_0_r; reflexivity).
    assert (T1 : t1 = skipn (S i) file1)
      by (rewrite <- tl_skipn, S1; reflexivity).
    rewrite C1, tl_skipn, T1, peek_skipn, Nat.add_0_r.
    set (len' := if ((peek file1 i =? 0) || (peek file1 i =? c_bslash))
                    && ((peek file2 i =? 0) || (peek file2 i =? c_bslash))
                 then i else len).
    assert (Hb' : (0 < len')%nat ->
                  component_end (peek file1 len')
                  /\ component_end (peek file2 len')).
    { unfold len'.
      destruct ((peek file1 i =? 0) || (peek file1 i =? c_bslash)) eqn:B1;
        cbn [andb]; auto.
      destruct ((peek file2 i =? 0) || (peek file2 i =? c_bslash)) eqn:B2;
        auto.
      intros _; unfold component_end.
      apply orb_prop in B1, B2.
      rewrite !Z.eqb_eq in B1, B2; auto. }
    assert (Hl' : (len' <= i)%nat)
      by (unfold len'; destruct (_ && _); lia).
    destruct (Z.eqb_spec (peek file1 i) 0) as [Z1|Z1]; cbn [orb].
    { split; [intros; lia|exact Hb']. }
    destruct (Z.eqb_spec (tolowerW (peek file1 i)) (tolowerW (peek file2 i)))
      as [L|L]; cbn [negb].
    + destruct (IH (S i) len' ltac:(lia) ltac:(lia) Hb') as (A & B).
      split; [|exact B].
      intros j Hj; destruct (Nat.eq_dec j i); [subst; auto|].
      apply A; lia.
    + split; [intros; lia|exact Hb'].
Qed.

(** X27. The prefix PathCommonPrefixW finds is common. But for the step
    from 2 to 3 that it makes on purpose, the length it returns covers
    units of the first path, none of them the terminator, that are those
    of the second up to case, and when it is not 0 a component ends there
    in both paths, with the terminator or a backslash. *)
Theorem PathCommonPrefixW_common (file1 file2 : list Z)
  (path : option (list Z)) :
  exists len,
    fst (PathCommonPrefixW file1 file2 path)
    = (if (len =? 2)%nat then 3%nat else len)
    /\ (forall j, (j < len)%nat ->
          peek file1 j <> 0
          /\ tolowerW (peek file1 j) = tolowerW (peek file2 j))
    /\ ((0 < len)%nat ->
        component_end (peek file1 len) /\ component_end (peek file2 len)).
Proof.
  unfold PathCommonPrefixW.
  assert (Z0 : exists len : nat,
             O = (if (len =? 2)%nat then 3%nat else len)
             /\ (forall j, (j < len)%nat ->
                   peek file1 j <> 0
                   /\ tolowerW (peek file1 j) = tolowerW (peek file2 j))
             /\ ((0 < len)%nat ->
                 component_end (peek file1 len)
                 /\ component_end (peek file2 len)))
    by (exists O; split; [reflexivity|split; intros; lia]).
  destruct (PathIsUNCW file1) eqn:U1; destruct (PathIsUNCW file2) eqn:U2;
    cbn [andb negb fst]; try exact Z0; clear Z0.
  - unfold PathIsUNCW in U1, U2.
    apply andb_prop in U1, U2; rewrite !Z.eqb_eq in U1, U2.
    destruct U1 as (A0 & A1); destruct U2 as (B0 & B1).
    assert (L2 : (2 <= length file1)%nat).
    { apply units_length; intros [|[|i]] Hi; try lia; congruence. }
    destruct (common_prefix_scan_common file1 file2 (length file1) 2 0)
      as (C1 & C2); try lia.
    set (r := common_prefix_scan (skipn 2 file1) (skipn 2 file2) 2 0) in *.
    exists r; split;
      [destruct (Nat.eqb_spec r 2) as [Q|Q]; [rewrite Q|]; reflexivity|].
    split; [|exact C2].
    intros j Hj; destruct j as [|[|j]]; [| |apply C1; lia];
      rewrite ?A0, ?A1, ?B0, ?B1; split; congruence.
  - destruct (common_prefix_scan_common file1 file2 (length file1) 0 0)
      as (C1 & C2); try lia.
    cbn [skipn] in *.
    set (r := common_prefix_scan file1 file2 0 0) in *.
    exists r; split;
      [destruct (Nat.eqb_spec r 2) as [Q|Q]; [rewrite Q|]; reflexivity|].
    split; [|exact C2].
    intros j Hj; apply C1; lia.
Qed.

(** ** UNC servers *)

(** X28. PathIsUNCServerA returns FALSE for every path. Its loop starts at
    the path itself, so for a path that begins with two backslashes the
    first unit it looks at is a backslash, and every other path is refused
    before the loop. *)
Theorem PathIsUNCServerA_always_false (CharNextA : list Z -> nat -> nat)
  (path : list Z) :
  PathIsUNCServerA CharNextA path = Some false.
Proof.
  unfold PathIsUNCServerA.
  destruct (Z.eqb_spec (peek path 0) c_bslash) as [B|B]; cbn [andb negb];
    [|reflexivity].
  destruct (peek path 1 =? c_bslash); cbn [negb]; [|reflexivity].
  cbn [unc_server_scan]; rewrite B; reflexivity.
Qed.

(** ** Canonicalizing into a buffer *)

Lemma map_peek_seq (b : list Z) :
  map (peek b) (seq 0 (length b + 1)) = b ++ [0].
Proof.
  induction b as [|c b IH]; [reflexivity|].
  cbn [length Nat.add seq map app].
  change (peek (c :: b) 0) with c; f_equal.
  rewrite <- seq_shift, map_map; exact IH.
Qed.

Lemma PathAllocCanonicalize_string (path_in : list Z) (flags : Z)
  (hr : HRESULT) (buffer : list Z) :
  PathAllocCanonicalize path_in flags = (hr, Some buffer) ->
  hr = S_OK /\ nonzero buffer.
Proof.
  unfold PathAllocCanonicalize.
  repeat match goal with
         | |- context [if ?c then (_, None) else _] =>
             destruct c; [discriminate|]
         end.
  intros E; inversion E; split; [reflexivity|apply nonzero_cstr].
Qed.

Lemma PathAllocCanonicalize_failed (path_in : list Z) (flags : Z)
  (hr : HRESULT) :
  PathAllocCanonicalize path_in flags = (hr, None) -> hr <> S_OK.
Proof.
  unfold PathAllocCanonicalize.
  repeat match goal with
         | |- context [if ?c then (_, None) else _] =>
             destruct c; [intros E; inversion E; discriminate|]
         end.
  discriminate.
Qed.

(** X29. What PathCchCanonicalizeEx leaves in the buffer. When it returns
    S_OK for a buffer that has the [size] units it is said to have, the
    string in it is the one PathAllocCanonicalize gives, with a backslash
    added when that is a bare drive and [size] exceeds 3; the string and
    its terminator fit in [size] units, and no unit from [size] on is
    changed. *)
Theorem PathCchCanonicalizeEx_fits (out : list Z) (size : Z)
  (path_in : list Z) (flags : Z) (out' : list Z) :
  PathCchCanonicalizeEx out size path_in flags = (S_OK, out') ->
  size <= Z.of_nat (length out) ->
  exists canonical,
    PathAllocCanonicalize path_in flags = (S_OK, Some canonical)
    /\ cstr out' = (if bare_drive canonical && (3 <? size)
                    then canonical ++ [c_bslash] else canonical)
    /\ Z.of_nat (length (cstr out')) < size
    /\ forall i, size <= Z.of_nat i -> peek out' i = peek out i.
Proof.
  unfold PathCchCanonicalizeEx; intros E Hs.
  destruct (Z.eqb_spec size 0); [discriminate|].
  destruct (PathAllocCanonicalize path_in flags) as (hr, [b|]) eqn:PA;
    [|exfalso; apply (PathAllocCanonicalize_failed _ _ _ PA);
      inversion E; reflexivity].
  destruct (PathAllocCanonicalize_string _ _ _ _ PA) as (Hr & Nb).
  subst hr; cbn [FAILED] in E; cbv iota in E.
  rewrite (strlenW_nonzero b Nb) in E.
  destruct (Z.ltb_spec size (Z.of_nat (length b) + 1)) as [L|L].
  { destruct ((Z.of_nat (length b) >? MAX_PATH - 4) && _); discriminate. }
  cbn [FAILED negb] in E; cbv iota in E.
  rewrite map_peek_seq in E.
  rewrite store_head in E by (rewrite length_app; simpl; lia).
  rewrite <- app_assoc in E; cbn [app] in E.
  set (rest := skipn (length (b ++ [0])) out) in *.
  assert (Lr : length rest = (length out - (length b + 1))%nat)
    by (unfold rest; rewrite length_skipn, length_app; reflexivity).
  assert (Split : out = firstn (length b + 1) out ++ rest).
  { unfold rest; rewrite length_app; simpl length.
    symmetry; apply firstn_skipn. }
  assert (Above : forall i, (length b + 1 <= i)%nat ->
                    peek (b ++ 0 :: rest) i = peek out i).
  { intros i Hi; rewrite Split at 1.
    rewrite (peek_app_r (firstn _ _)) by (rewrite length_firstn; lia).
    rewrite length_firstn, Nat.min_l by lia.
    replace (b ++ 0 :: rest) with ((b ++ [0]) ++ rest)
      by (rewrite <- app_assoc; reflexivity).
    rewrite peek_app_r by (rewrite length_app; simpl; lia).
    rewrite length_app; reflexivity. }
  exists b; split; [reflexivity|].
  assert (C : isalphaW (peek (b ++ 0 :: rest) 0)
              && (peek (b ++ 0 :: rest) 1 =? c_colon)
              && (peek (b ++ 0 :: rest) 2 =? 0)
              = bare_drive b).
  { unfold bare_drive; destruct b as [|x [|y [|z b]]]; try reflexivity.
    - cbn [app]; change (peek (x :: 0 :: rest) 1) with 0.
      change (peek [x] 1) with 0; change (0 =? c_colon) with false.
      rewrite !andb_false_r; reflexivity.
    - inversion Nb as [|? ? _ Nb1]; inversion Nb1 as [|? ? _ Nb2];
        inversion Nb2 as [|? ? Hz _]; subst.
      change (peek ((x :: y :: z :: b) ++ 0 :: rest) 2) with z.
      destruct (Z.eqb_spec z 0); [contradiction|].
      cbn [length Nat.eqb]; rewrite !andb_false_r; reflexivity. }
  rewrite C in E.
  destruct (bare_drive b && (3 <? size)) eqn:F.
  - rewrite ?F in E; inversion E; subst out'; clear E.
    apply andb_prop in F; destruct F as [F1 F2]; apply Z.ltb_lt in F2.
    unfold bare_drive in F1; apply andb_prop in F1; destruct F1 as [_ F1].
    apply Nat.eqb_eq in F1.
    destruct b as [|x [|y [|z b]]]; simpl in F1; try lia.
    inversion Nb as [|? ? Hx Nb1]; inversion Nb1 as [|? ? Hy _]; subst.
    assert (R : exists r0 rest', rest = r0 :: rest').
    { destruct rest as [|r0 rest']; [simpl in Lr, Hs; lia|eauto]. }
    destruct R as (r0 & rest' & R); rewrite R in *.
    cbn [app poke cstr].
    destruct (Z.eqb_spec x 0); [contradiction|].
    destruct (Z.eqb_spec y 0); [contradiction|].
    change (c_bslash =? 0) with false; change (0 =? 0) with true.
    cbv iota; split; [reflexivity|]; split; [simpl; lia|].
    intros i Hi; destruct i as [|[|[|[|i]]]]; try lia.
    rewrite <- (Above (S (S (S (S i))))) by (simpl; lia).
    reflexivity.
  - assert (out' = b ++ 0 :: rest)
      by (rewrite ?F in E; inversion E; reflexivity).
    subst out'; rewrite cstr_app by exact Nb.
    split; [reflexivity|]; split; [lia|].
    intros i Hi; apply Above; lia.
Qed.

(** ** The scheme registry ignores case *)

Lemma strncmpiW_any_case (s name rest p : list Z) :
  any_case s name ->
  Forall (fun d => d <> 0 /\ tolowerW d = d) name ->
  strncmpiW (s ++ rest) p (length s) = strncmpiW name p (length s).
Proof.
  intros A; revert p; induction A as [|c d s name Hc A IH]; intros p L;
    [reflexivity|].
  inversion L as [|d' name' (D0 & Dd) L']; subst d' name'.
  assert (C0 : c <> 0) by (intros E; subst c; rewrite tolowerW_0 in Hc; auto).
  change (strncmpiW ((c :: s) ++ rest) p (length (c :: s)))
    with (let ret := tolowerW c - tolowerW (peek p 0) in
          if negb (ret =? 0) || (c =? 0) then ret
          else strncmpiW (s ++ rest) (tl p) (length s)).
  change (strncmpiW (d :: name) p (length (c :: s)))
    with (let ret := tolowerW d - tolowerW (peek p 0) in
          if negb (ret =? 0) || (d =? 0) then ret
          else strncmpiW name (tl p) (length s)).
  cbv zeta.
  rewrite Dd, Hc, (IH (tl p) L').
  destruct (Z.eqb_spec c 0) as [|_]; [contradiction|].
  destruct (Z.eqb_spec d 0) as [|_]; [contradiction|].
  reflexivity.
Qed.

Lemma find_agree {A : Type} (f g : A -> bool) (l : list A) :
  (forall x, In x l -> f x = g x) -> find f l = find g l.
Proof.
  induction l as [|x l IH]; intros H; [reflexivity|].
  simpl; rewrite (H x (or_introl eq_refl)).
  destruct (g x); [reflexivity|].
  apply IH; intros y I; apply H; right; exact I.
Qed.

(** X30. The scheme registry ignores case: a registered scheme name is
    recognised in every mix of upper and lower case, whatever follows
    it. *)
Theorem get_scheme_code_ignores_case
    (scheme : URL_SCHEME) (name s rest : list Z) :
  In (scheme, name) url_schemes ->
  any_case s name ->
  get_scheme_code (s ++ rest) (length s) = scheme.
Proof.
  intros I A.
  assert (Len : length s = length name) by (exact (Forall2_length A)).
  assert (L : Forall (fun d => d <> 0 /\ tolowerW d = d) name).
  { unfold url_schemes in I; simpl in I.
    repeat (destruct I as [I|I];
            [injection I as _ I; subst name;
             repeat (constructor; [split; [discriminate|reflexivity]|]);
             constructor|]).
    contradiction. }
  assert (R : get_scheme_code (s ++ rest) (length s)
              = get_scheme_code name (length name)).
  { unfold get_scheme_code.
    rewrite <- Len.
    rewrite (find_agree
               (fun e => (length s =? length (snd e))%nat
                         && (strncmpiW (s ++ rest) (snd e) (length s) =? 0))
               (fun e => (length s =? length (snd e))%nat
                         && (strncmpiW name (snd e) (length s) =? 0)));
      [reflexivity|].
    intros e _; rewrite (strncmpiW_any_case s name rest (snd e) A L).
    reflexivity. }
  rewrite R; clear R A L Len s rest.
  unfold url_schemes in I; simpl in I.
  repeat (destruct I as [I|I];
          [injection I as I1 I2; subst scheme name; vm_compute; reflexivity|]).
  contradiction.
Qed.

End Kernelbase.

(** * Worked instances

    The tables [ascii_only_wctype] and [ascii_only_casemap] settle the two
    parameters for inputs that are ASCII throughout. *)


(** C1 at a buffer of 64 units. *)
Lemma UrlCanonicalizeW_userinfo_unchanged_witness :
  25 < 64
  /\ UrlCanonicalizeW ascii_only_wctype ascii_only_casemap
       (W "HTTP://A:B@Host:80/p/../q") 64 0
     = (S_OK, Some (W "HTTP://A:B@Host:80/p/../q"), 25).
Proof.
  split; [reflexivity|].
  apply (UrlCanonicalizeW_userinfo_unchanged ascii_only_wctype
           ascii_only_casemap 64); reflexivity.
Defined.

(** The scheme is not lowered and the path is not collapsed: the URL comes
    back as it went in, which is not "http://A:B@Host:80/q". *)
Lemma UrlCanonicalizeW_scheme_not_lowered :
  UrlCanonicalizeW ascii_only_wctype ascii_only_casemap
    (W "HTTP://A:B@Host:80/p/../q") 64 0
  = (S_OK, Some (W "HTTP://A:B@Host:80/p/../q"), 25)
  /\ W "HTTP://A:B@Host:80/p/../q" <> W "http://A:B@Host:80/q".
Proof. split; [vm_compute; reflexivity|discriminate]. Qed.

(** The ".." segment removes "share": the result is not "\\server\share\x". *)
Lemma PathAllocCanonicalize_device_unc_loses_share :
  PathAllocCanonicalize ascii_only_wctype ascii_only_casemap
    (W "\\?\UNC\server\share\..\x") 0
  = (S_OK, Some (W "\\server\x"))
  /\ W "\\server\x" <> W "\\server\share\x".
Proof. split; [vm_compute; reflexivity|discriminate]. Qed.

(** C3 at the root "C:\", two ".." segments and the tail "a". *)
Lemma PathAllocCanonicalize_keeps_root_witness :
  exists out,
    PathAllocCanonicalize ascii_only_wctype ascii_only_casemap
      (W "C:\" ++ dotdots 2 ++ W "a") 0 = (S_OK, Some out)
    /\ firstn (length (W "C:\")) out = W "C:\".
Proof.
  apply (PathAllocCanonicalize_keeps_root ascii_only_wctype
           ascii_only_casemap (W "C:\") 2 (W "a") 2).
  - repeat constructor; discriminate.
  - vm_compute; discriminate.
  - reflexivity.
  - reflexivity.
  - reflexivity.
  - reflexivity.
  - left; exists 67; split; reflexivity.
Defined.

(** The root "\\?\C:\" followed by one "..\" and the tail "a": the device
    prefix is stripped, so the result does not begin with the root. *)
Lemma PathAllocCanonicalize_prefixed_root_stripped :
  get_root_end ascii_only_wctype ascii_only_casemap
    (W "\\?\C:\" ++ dotdots 1 ++ W "a") = Some 6%nat
  /\ PathAllocCanonicalize ascii_only_wctype ascii_only_casemap
       (W "\\?\C:\" ++ dotdots 1 ++ W "a") 0
     = (S_OK, Some (W "C:\a"))
  /\ firstn 7 (W "C:\a") <> W "\\?\C:\".
Proof.
  split; [vm_compute; reflexivity|].
  split; [vm_compute; reflexivity|discriminate].
Qed.

(** The root "\\" followed by one "..\" and the tail "a\..": the ".." of the
    tail removes "a" and the backslash before it, the second of the root. *)
Lemma PathAllocCanonicalize_unc_root_backslash :
  get_root_end ascii_only_wctype ascii_only_casemap
    (W "\\" ++ dotdots 1 ++ W "a\..") = Some 1%nat
  /\ PathAllocCanonicalize ascii_only_wctype ascii_only_casemap
       (W "\\" ++ dotdots 1 ++ W "a\..") 0
     = (S_OK, Some (W "\")).
Proof. split; vm_compute; reflexivity. Qed.

(** C4 at path1 "x" and path2 "\\?\C:\a". *)
Lemma PathAllocCombine_fully_qualified_witness :
  PathAllocCombine ascii_only_wctype ascii_only_casemap
    (Some (W "x")) (Some (W "\\?\C:\a")) 0
  = PathAllocCanonicalize ascii_only_wctype ascii_only_casemap
      (with_trailing_backslash
         (strip_device_prefix ascii_only_wctype ascii_only_casemap
            (W "\\?\C:\a"))) 0.
Proof.
  apply (PathAllocCombine_fully_qualified ascii_only_wctype
           ascii_only_casemap (W "x") (W "\\?\C:\a") 0).
  - repeat constructor; discriminate.
  - vm_compute; discriminate.
  - reflexivity.
Defined.

(** Combining "x" with "C:\a" gives "C:\a\", canonicalizing "C:\a" alone
    gives "C:\a". *)
Lemma PathAllocCombine_adds_backslash :
  PathAllocCombine ascii_only_wctype ascii_only_casemap
    (Some (W "x")) (Some (W "C:\a")) 0
  = (S_OK, Some (W "C:\a\"))
  /\ PathAllocCanonicalize ascii_only_wctype ascii_only_casemap (W "C:\a") 0
     = (S_OK, Some (W "C:\a"))
  /\ W "C:\a\" <> W "C:\a".
Proof.
  split; [vm_compute; reflexivity|].
  split; [vm_compute; reflexivity|discriminate].
Qed.

(** C5 at both Force flags. *)
Lemma PathAllocCanonicalize_conflicting_flags_witness :
  PathAllocCanonicalize ascii_only_wctype ascii_only_casemap (W "C:\a")
    (Z.lor PATHCCH_FORCE_ENABLE_LONG_NAME_PROCESS
       PATHCCH_FORCE_DISABLE_LONG_NAME_PROCESS)
  = (E_INVALIDARG, None).
Proof.
  apply (PathAllocCanonicalize_conflicting_flags ascii_only_wctype
           ascii_only_casemap).
  left; split; reflexivity.
Defined.

(** C6 at "C:\a" under PATHCCH_ENSURE_IS_EXTENDED_LENGTH_PATH and
    PATHCCH_ENSURE_TRAILING_SLASH. *)
Lemma PathAllocCanonicalize_promotion_witness :
  let flags :=
    Z.lor PATHCCH_ENSURE_IS_EXTENDED_LENGTH_PATH
      PATHCCH_ENSURE_TRAILING_SLASH in
  let body :=
    cstr (canon_segments ascii_only_wctype ascii_only_casemap (W "C:\a")
            (implied_flags flags)) in
  let promoted :=
    isalphaW ascii_only_wctype (peek body 0) && (peek body 1 =? c_colon)
    && ((Z.of_nat (length body) + 1 >? MAX_PATH)
        || flag_set flags PATHCCH_ENSURE_IS_EXTENDED_LENGTH_PATH)
    && negb (flag_set flags PATHCCH_FORCE_ENABLE_LONG_NAME_PROCESS) in
  let extended := (if promoted then prefixed_disk else []) ++ body in
  W "\\?\C:\a\"
  = if flag_set flags PATHCCH_ENSURE_TRAILING_SLASH
    then with_trailing_backslash extended else extended.
Proof.
  apply (PathAllocCanonicalize_promotion ascii_only_wctype ascii_only_casemap
           (W "C:\a")
           (Z.lor PATHCCH_ENSURE_IS_EXTENDED_LENGTH_PATH
              PATHCCH_ENSURE_TRAILING_SLASH)
           (W "\\?\C:\a\")).
  vm_compute; reflexivity.
Defined.

(** The rooted path "\a" is not drive-absolute: it gets no "\\?\" prefix
    under PATHCCH_ENSURE_IS_EXTENDED_LENGTH_PATH. *)
Lemma PathAllocCanonicalize_ensure_without_drive :
  PathAllocCanonicalize ascii_only_wctype ascii_only_casemap (W "\a")
    PATHCCH_ENSURE_IS_EXTENDED_LENGTH_PATH
  = (S_OK, Some (W "\a"))
  /\ firstn 4 (W "\a") <> W "\\?\".
Proof. split; [vm_compute; reflexivity|discriminate]. Qed.

(** C7 at "http://host:80/p": "host" is scanned as a user name and "80" as
    a password, then '/' is found where '@' was expected. *)
Lemma parse_url_userinfo_needs_at_witness :
  exists pl,
    parse_url ascii_only_wctype (W "http://host:80/p") = (S_OK, pl)
    /\ username pl = None /\ username_len pl = 0%nat
    /\ password pl = None /\ password_len pl = 0%nat
    /\ hostname pl = Some 7%nat /\ hostname_len pl = 4%nat
    /\ port pl = Some 12%nat /\ port_len pl = 2%nat.
Proof.
  destruct (proj1 (parse_url_userinfo_needs_at ascii_only_wctype
                     (W "http://host:80/p"))
              4%nat 4%nat 7%nat 11%nat 4%nat 14%nat 2%nat)
    as (pl & E & U & UL & P & PL & Hh & HL & Hp);
    try reflexivity; [vm_compute; discriminate|].
  destruct (Hp eq_refl) as [P1 P2].
  exists pl; repeat split; auto.
Defined.

(** C8 at "C:\a\.\b.txt", whose canonical form is "C:\a\b.txt". *)
Lemma PathAllocCanonicalize_idempotent_witness :
  PathAllocCanonicalize ascii_only_wctype ascii_only_casemap
    (W "C:\a\b.txt") 0
  = (S_OK, Some (W "C:\a\b.txt")).
Proof.
  apply (PathAllocCanonicalize_idempotent ascii_only_wctype
           ascii_only_casemap (W "C:\a\.\b.txt") (W "C:\a\b.txt")).
  - vm_compute; reflexivity.
  - intros i H.
    do 6 (destruct i as [|i]; [discriminate H|]).
    destruct i as [|i];
      [repeat split; [apply Nat.lt_0_succ|discriminate..]|].
    do 4 (destruct i as [|i]; [discriminate H|]).
    destruct i; discriminate H.
  - reflexivity.
  - reflexivity.
Defined.

(** "a..." becomes "a..", and "a.." becomes "a". *)
Lemma PathAllocCanonicalize_trailing_dots_twice :
  PathAllocCanonicalize ascii_only_wctype ascii_only_casemap (W "a...") 0
  = (S_OK, Some (W "a.."))
  /\ PathAllocCanonicalize ascii_only_wctype ascii_only_casemap (W "a..") 0
     = (S_OK, Some (W "a"))
  /\ W "a" <> W "a..".
Proof.
  split; [vm_compute; reflexivity|].
  split; [vm_compute; reflexivity|discriminate].
Qed.

(** C9 at "http://a/b c" without flags. *)
Lemma UrlUnescapeW_UrlEscapeW_witness :
  exists escaped needed,
    UrlEscapeW ascii_only_wctype ascii_only_casemap (W "http://a/b c") 64 0
    = (S_OK, Some escaped, needed)
    /\ fst (UrlUnescapeW ascii_only_wctype escaped 64 0)
       = (S_OK, W "http://a/b c").
Proof.
  apply (UrlUnescapeW_UrlEscapeW ascii_only_wctype ascii_only_casemap
           (W "http://a/b c") 0 64 64).
  - repeat constructor.
  - vm_compute; intuition discriminate.
  - reflexivity.
  - reflexivity.
  - reflexivity.
  - reflexivity.
  - reflexivity.
Defined.

(** An http URL with a backslash and no '%': escaping turns the backslash
    into a slash, and unescaping leaves the slash. *)
Lemma UrlEscapeW_turns_backslash :
  ~ In c_percent (W "http://a\b")
  /\ UrlEscapeW ascii_only_wctype ascii_only_casemap (W "http://a\b") 64 0
     = (S_OK, Some (W "http://a/b"), 10)
  /\ fst (UrlUnescapeW ascii_only_wctype (W "http://a/b") 64 0)
     = (S_OK, W "http://a/b")
  /\ W "http://a/b" <> W "http://a\b".
Proof.
  split; [vm_compute; intuition discriminate|].
  split; [vm_compute; reflexivity|].
  split; [vm_compute; reflexivity|discriminate].
Qed.

(** C10 at "1:x" without flags. *)
Lemma UrlCanonicalizeW_assumes_path_witness :
  (exists rest,
     url_simplify ascii_only_wctype (W "1:x") 0
     = if flag_set 0 (Z.lor URL_FILE_USE_PATHURL URL_WININET_COMPATIBILITY)
       then (0, W "file://" ++ rest)
       else (Z.lor 0 URL_ESCAPE_UNSAFE, W "file:///" ++ rest))
  /\ UrlCanonicalizeW ascii_only_wctype ascii_only_casemap (W "1:x") 64 0
     = (S_OK, Some (W "file:///1:x"), 11)
  /\ UrlCanonicalizeW ascii_only_wctype ascii_only_casemap (W "1:x") 64
       URL_FILE_USE_PATHURL
     = (S_OK, Some (W "file://1:x"), 10).
Proof.
  apply (UrlCanonicalizeW_assumes_path ascii_only_wctype ascii_only_casemap
           (W "1:x") 0).
  reflexivity.
Defined.

(** The second code unit of a tab followed by ":x" is ':', but the tab is
    removed before the test: no file path is assumed. *)
Lemma UrlCanonicalizeW_tab_before_colon :
  peek (c_tab :: W ":x") 1 = c_colon
  /\ UrlCanonicalizeW ascii_only_wctype ascii_only_casemap
       (c_tab :: W ":x") 64 0
     = (S_OK, Some (W ":x"), 2)
  /\ firstn 5 (W ":x") <> W "file:".
Proof.
  split; [reflexivity|].
  split; [vm_compute; reflexivity|discriminate].
Qed.

(** ** Extensions *)

Lemma PathCchFindExtension_offset_witness :
  (exists e, PathCchFindExtension (W "a.b.c" ++ 0 :: [0; 0]) 8 = (S_OK, Some e)
             /\ extension_at (W "a.b.c") e)
  /\ PathCchFindExtension (W "abcde" ++ 0 :: []) 5 = (E_INVALIDARG, None).
Proof.
  split.
  - apply (PathCchFindExtension_offset (W "a.b.c") [0; 0] 8);
      [repeat constructor; discriminate | unfold PATHCCH_MAX_CCH; lia
      | simpl; lia].
  - apply (PathCchFindExtension_offset (W "abcde") [] 5);
      [repeat constructor; discriminate | unfold PATHCCH_MAX_CCH; lia
      | simpl; lia].
Defined.

Lemma extension_at_a : extension_at (W "a") 1.
Proof.
  unfold extension_at; simpl; split; [lia|]; split; [intros j Hj; lia|].
  split; [intros; lia|].
  intros _ j Hj Hd; assert (j = 0)%nat by lia; subst; vm_compute in Hd;
    discriminate.
Qed.

Lemma extension_at_a_b : extension_at (W "a.b") 1.
Proof.
  unfold extension_at; simpl; split; [lia|]; split.
  - intros j Hj; assert (j = 2)%nat by lia; subst; vm_compute;
      repeat split; discriminate.
  - split; [intros; reflexivity|intros; lia].
Qed.

Lemma PathCchRemoveExtension_PathCchAddExtension_witness :
  exists added removed,
    PathCchAddExtension (W "a" ++ 0 :: [0; 0; 0; 0; 0; 0]) 8 (W "txt")
    = (S_OK, added)
    /\ cstr added = W "a" ++ dotted_extension (W "txt")
    /\ PathCchRemoveExtension added 8 = (S_OK, removed)
    /\ cstr removed = W "a".
Proof.
  apply (PathCchRemoveExtension_PathCchAddExtension (W "a")
           [0; 0; 0; 0; 0; 0] (W "txt") 8);
    try (repeat constructor; discriminate); try discriminate;
    try reflexivity; try exact extension_at_a;
    try (unfold PATHCCH_MAX_CCH; lia); simpl; lia.
Defined.

Lemma PathCchRenameExtension_replaces_witness :
  exists renamed,
    PathCchRenameExtension (W "a.b" ++ 0 :: [0; 0; 0]) 8 (W "txt")
    = (S_OK, renamed)
    /\ cstr renamed = firstn 1 (W "a.b") ++ dotted_extension (W "txt").
Proof.
  apply (PathCchRenameExtension_replaces (W "a.b") [0; 0; 0] (W "txt") 8 1);
    try (repeat constructor; discriminate); try discriminate;
    try reflexivity; try exact extension_at_a_b; try exact extension_at_a;
    try (unfold PATHCCH_MAX_CCH; lia); simpl; lia.
Defined.

(** ** Roots, backslashes and file specifications *)

Lemma nonzero_drive_foo : nonzero (W "C:\foo").
Proof. repeat constructor; discriminate. Qed.

Lemma PathCchSkipRoot_reads_string_only_witness :
  PathCchSkipRoot ascii_only_wctype ascii_only_casemap
    (W "C:\foo" ++ 0 :: [7; 7])
  = PathCchSkipRoot ascii_only_wctype ascii_only_casemap
      (W "C:\foo" ++ 0 :: []).
Proof.
  apply (PathCchSkipRoot_reads_string_only ascii_only_wctype
           ascii_only_casemap (W "C:\foo") [7; 7] []).
  exact nonzero_drive_foo.
Defined.

Lemma PathCchAddBackslashEx_idempotent_witness :
  exists hr path,
    PathCchAddBackslashEx (W "C:\foo" ++ 0 :: [7; 7]) 10 = (hr, path)
    /\ FAILED hr = false
    /\ cstr path = with_trailing_backslash (W "C:\foo")
    /\ PathCchAddBackslashEx path 10 = (S_FALSE, path).
Proof.
  apply (PathCchAddBackslashEx_idempotent (W "C:\foo") [7; 7] 10);
    [exact nonzero_drive_foo|discriminate|simpl; lia].
Defined.

Lemma PathCchRemoveBackslashEx_PathCchAddBackslashEx_witness :
  exists added,
    PathCchAddBackslashEx (W "C:\foo" ++ 0 :: [7; 7]) 10 = (S_OK, added)
    /\ cstr added = W "C:\foo" ++ [c_bslash]
    /\ (if match get_root_end ascii_only_wctype ascii_only_casemap
                  (W "C:\foo" ++ [c_bslash]) with
           | None => true
           | Some e => (e <? length (W "C:\foo"))%nat
           end
        then exists removed,
            PathCchRemoveBackslashEx ascii_only_wctype ascii_only_casemap
              added 10
            = (S_OK, removed,
               Some (Some (length (W "C:\foo")),
                     10 - Z.of_nat (length (W "C:\foo"))))
            /\ cstr removed = W "C:\foo"
        else PathCchRemoveBackslashEx ascii_only_wctype ascii_only_casemap
               added 10
             = (S_FALSE, added,
                Some (Some (length (W "C:\foo")),
                      10 - Z.of_nat (length (W "C:\foo"))))).
Proof.
  apply (PathCchRemoveBackslashEx_PathCchAddBackslashEx ascii_only_wctype
           ascii_only_casemap (W "C:\foo") [7; 7] 10);
    [exact nonzero_drive_foo|discriminate|discriminate|discriminate
    |simpl; lia].
Defined.

Lemma PathCchRemoveFileSpec_cuts_at_last_backslash_witness :
  exists k path,
    PathCchRemoveFileSpec ascii_only_wctype ascii_only_casemap
      (W "C:\foo\bar" ++ 0 :: [7]) 12
    = (if (k =? length (W "C:\foo\bar"))%nat then S_FALSE else S_OK, path)
    /\ cstr path = firstn k (W "C:\foo\bar")
    /\ (k <= length (W "C:\foo\bar"))%nat
    /\ (forall i, (k < i < length (W "C:\foo\bar"))%nat ->
          peek (W "C:\foo\bar") i <> c_bslash)
    /\ match file_spec_root_end ascii_only_wctype ascii_only_casemap
               (W "C:\foo\bar" ++ 0 :: [7]) with
       | Some f =>
           (f <= k)%nat /\ ((f < k)%nat -> peek (W "C:\foo\bar") k = c_bslash)
       | None => (0 < k)%nat -> peek (W "C:\foo\bar") k = c_bslash
       end.
Proof.
  apply (PathCchRemoveFileSpec_cuts_at_last_backslash ascii_only_wctype
           ascii_only_casemap (W "C:\foo\bar") [7] 12);
    [repeat constructor; discriminate|unfold PATHCCH_MAX_CCH; lia
    |simpl; lia|reflexivity].
Defined.

Lemma PathCchStripToRoot_idempotent_witness :
  PathCchStripToRoot ascii_only_wctype ascii_only_casemap
    (W "C:\" ++ 0 :: W "oo" ++ [0]) 10
  = (S_FALSE, W "C:\" ++ 0 :: W "oo" ++ [0]).
Proof.
  apply (PathCchStripToRoot_idempotent ascii_only_wctype ascii_only_casemap
           (W "C:\foo" ++ [0]) 10).
  reflexivity.
Defined.

(** ** The MAX_PATH functions *)

Lemma PathRenameExtensionW_replaces_witness :
  exists path,
    PathRenameExtensionW (W "a.b" ++ 0 :: [7; 7]) (W ".txt" ++ 0 :: [])
    = (true, path)
    /\ cstr path = firstn 1 (W "a.b") ++ W ".txt".
Proof.
  apply (PathRenameExtensionW_replaces (W "a.b") [7; 7] (W ".txt") [] 1);
    [repeat constructor; discriminate|repeat constructor; discriminate
    |exact extension_at_a_b|unfold MAX_PATH; simpl; lia|simpl; lia].
Defined.

Lemma PathRemoveBlanksW_trims_witness :
  exists path t,
    PathRemoveBlanksW (W " a b " ++ 0 :: []) = Some path
    /\ cstr path = t
    /\ if peek (W " a b ") 0 =? c_space
       then (exists k, W " a b " = repeat c_space (blank_run (W " a b "))
                                   ++ t ++ repeat c_space k)
            /\ peek t 0 <> c_space
            /\ peek t (length t - 1) <> c_space
       else t = W " a b ".
Proof.
  apply (PathRemoveBlanksW_trims (W " a b ") []);
    [repeat constructor; discriminate|simpl; lia].
Defined.

Lemma PathUnquoteSpacesW_PathQuoteSpacesW_witness :
  cstr (PathQuoteSpacesW strchrW (W "a b" ++ 0 :: [7; 7]))
  = c_quote :: W "a b" ++ [c_quote]
  /\ cstr (PathUnquoteSpacesW
             (PathQuoteSpacesW strchrW (W "a b" ++ 0 :: [7; 7])))
     = W "a b".
Proof.
  apply (PathUnquoteSpacesW_PathQuoteSpacesW strchrW (W "a b") [7; 7]);
    [repeat constructor; discriminate|discriminate
    |unfold MAX_PATH; simpl; lia|simpl; lia].
Defined.

Lemma PathIsLFNFileSpecW_short_names_witness :
  PathIsLFNFileSpecW (W "readme.txt" ++ 0 :: []) = false
  <-> short_name (W "readme.txt").
Proof.
  apply (PathIsLFNFileSpecW_short_names (W "readme.txt") []).
  repeat constructor; discriminate.
Defined.

Lemma PathStripPathW_leaves_file_name_witness :
  exists k,
    PathFindFileNameW (W "C:\foo\bar" ++ 0 :: []) = k
    /\ (k <= length (W "C:\foo\bar"))%nat
    /\ ((0 < k)%nat -> opens_name (W "C:\foo\bar") (k - 1) = true)
    /\ (forall j, (k <= j < length (W "C:\foo\bar"))%nat ->
          opens_name (W "C:\foo\bar") j = false)
    /\ cstr (PathStripPathW (W "C:\foo\bar" ++ 0 :: []))
       = skipn k (W "C:\foo\bar")
    /\ PathStripPathW (PathStripPathW (W "C:\foo\bar" ++ 0 :: []))
       = PathStripPathW (W "C:\foo\bar" ++ 0 :: []).
Proof.
  apply (PathStripPathW_leaves_file_name (W "C:\foo\bar") []).
  repeat constructor; discriminate.
Defined.

Lemma path_match_maskW_mask_matches_witness :
  path_match_maskW ascii_only_casemap (W "ab.txt" ++ 0 :: [])
    (W "*.txt" ++ 59 :: W "*.doc" ++ [0]) = true
  <-> mask_matches ascii_only_casemap (W "ab.txt") (W "*.txt").
Proof.
  apply (path_match_maskW_mask_matches ascii_only_casemap (W "ab.txt") []
           (W "*.txt") (W "*.doc" ++ [0]) 59);
    [repeat constructor; discriminate|repeat constructor; discriminate
    |right; reflexivity].
Defined.

(** ** URLs *)

Lemma parse_url_parts_inside_witness :
  part_inside (W "http://user:pw@host:80/p?q" ++ [0])
    (scheme
       (snd (parse_url ascii_only_wctype
            (W "http://user:pw@host:80/p?q" ++ [0]))))
    (scheme_len
       (snd (parse_url ascii_only_wctype
            (W "http://user:pw@host:80/p?q" ++ [0]))))
  /\
  part_inside (W "http://user:pw@host:80/p?q" ++ [0])
    (username
       (snd (parse_url ascii_only_wctype
            (W "http://user:pw@host:80/p?q" ++ [0]))))
    (username_len
       (snd (parse_url ascii_only_wctype
            (W "http://user:pw@host:80/p?q" ++ [0]))))
  /\
  part_inside (W "http://user:pw@host:80/p?q" ++ [0])
    (password
       (snd (parse_url ascii_only_wctype
            (W "http://user:pw@host:80/p?q" ++ [0]))))
    (password_len
       (snd (parse_url ascii_only_wctype
            (W "http://user:pw@host:80/p?q" ++ [0]))))
  /\
  part_inside (W "http://user:pw@host:80/p?q" ++ [0])
    (hostname
       (snd (parse_url ascii_only_wctype
            (W "http://user:pw@host:80/p?q" ++ [0]))))
    (hostname_len
       (snd (parse_url ascii_only_wctype
            (W "http://user:pw@host:80/p?q" ++ [0]))))
  /\
  part_inside (W "http://user:pw@host:80/p?q" ++ [0])
    (port
       (snd (parse_url ascii_only_wctype
            (W "http://user:pw@host:80/p?q" ++ [0]))))
    (port_len
       (snd (parse_url ascii_only_wctype
            (W "http://user:pw@host:80/p?q" ++ [0]))))
  /\
  part_inside (W "http://user:pw@host:80/p?q" ++ [0])
    (query
       (snd (parse_url ascii_only_wctype
            (W "http://user:pw@host:80/p?q" ++ [0]))))
    (query_len
       (snd (parse_url ascii_only_wctype
            (W "http://user:pw@host:80/p?q" ++ [0])))).
Proof.
  apply (parse_url_parts_inside ascii_only_wctype
           (W "http://user:pw@host:80/p?q" ++ [0])
           (snd (parse_url ascii_only_wctype
            (W "http://user:pw@host:80/p?q" ++ [0])))).
  vm_compute; reflexivity.
Defined.

Lemma UrlCompareW_ignores_final_slash_witness :
  UrlCompareW (fun _ _ => 0) (W "http://a/" ++ 0 :: [])
    (W "http://a" ++ 0 :: [7]) true = Some 0
  <-> without_final_slash (W "http://a/") = without_final_slash (W "http://a").
Proof.
  apply (UrlCompareW_ignores_final_slash (fun _ _ => 0) (W "http://a/")
           (W "http://a") [] [7]);
    try (repeat constructor; discriminate); discriminate.
Defined.

(** ** Canonicalizing into a buffer *)

Lemma PathCchCanonicalizeEx_fits_witness :
  exists canonical,
    PathAllocCanonicalize ascii_only_wctype ascii_only_casemap
      (W "C:" ++ [0]) 0 = (S_OK, Some canonical)
    /\ cstr (W "C:\" ++ [0; 7; 7; 7; 7])
       = (if bare_drive ascii_only_wctype canonical && (3 <? 8)
          then canonical ++ [c_bslash] else canonical)
    /\ Z.of_nat (length (cstr (W "C:\" ++ [0; 7; 7; 7; 7]))) < 8
    /\ forall i, 8 <= Z.of_nat i ->
         peek (W "C:\" ++ [0; 7; 7; 7; 7]) i = peek [7; 7; 7; 7; 7; 7; 7; 7] i.
Proof.
  apply (PathCchCanonicalizeEx_fits ascii_only_wctype ascii_only_casemap
           [7; 7; 7; 7; 7; 7; 7; 7] 8 (W "C:" ++ [0]) 0
           (W "C:\" ++ [0; 7; 7; 7; 7]));
    [vm_compute; reflexivity|simpl; lia].
Defined.

(** ** The scheme registry *)

Lemma get_scheme_code_ignores_case_witness :
  get_scheme_code ascii_only_casemap (W "HtTp" ++ W "://host") 4
  = URL_SCHEME_HTTP.
Proof.
  apply (get_scheme_code_ignores_case ascii_only_casemap URL_SCHEME_HTTP
           (W "http") (W "HtTp") (W "://host")).
  - vm_compute; tauto.
  - unfold any_case; repeat constructor.
Defined.

(** ** The scan of UrlCanonicalizeW *)

(** X2 at "http://a/./b/../c", from the state the scan starts in. *)
Lemma UrlCanonicalizeW_scan_reaches_terminator_witness :
  u_wk1 (url_scan_loop ascii_only_wctype 54 (W "http://a/./b/../c") 0 c_slash
           false 36 (mk_scan (repeat 0 27) 0 0 state0))
  = 17%nat.
Proof.
  apply (proj1 (proj2 (UrlCanonicalizeW_scan_reaches_terminator
                         ascii_only_wctype ascii_only_casemap
                         (W "http://a/./b/../c") 0 c_slash false 36
                         (mk_scan (repeat 0 27) 0 0 state0)))).
  vm_compute; lia.
Defined.
